(** * A shallow embedding of the block allocator (allocator.c)

    The allocator threads an intrusive doubly linked list of block headers
    through raw memory obtained from [mmap].  The embedding keeps that shape:

    - memory is a finite set of mapped pages plus a byte store; an access to an
      unmapped byte is a fault, and a freshly mapped page reads as zero
      (anonymous private mappings);
    - a block header is the 32 bytes [size | free | pad | next | prev] of
      [memory_block_t] on an LP64 target, read and written field by field,
      little endian;
    - [size_t] arithmetic wraps modulo 2^64; pointers are integers, [NULL] is 0;
    - the kernel is an oracle: the list of answers it will give to the next
      [mmap] calls (a page number, or a refusal);
    - every function of the source is a computation in a state-and-fault monad;
      the two [while] loops walk the list with a fuel bound derived from the
      amount of mapped memory (a walk that outlives it is stuck in a cycle);
    - the public operations hold [allocator_mutex] around their bodies and never
      call each other while holding it, so each call is modelled as one
      uninterrupted computation. *)

From Stdlib Require Import ZArith Lia List.
From stdpp Require Import base option list gmap.

Open Scope Z_scope.

(** ** Machine parameters *)

Definition wrap (z : Z) : Z := z mod 2 ^ 64.

Definition NULL : Z := 0.
Definition ALIGNMENT : Z := 16.
(** [sizeof(memory_block_t)]: 8 + 4 (+4 padding) + 8 + 8. *)
Definition BLOCK_SIZE : Z := 32.
(** The value [sysconf(_SC_PAGESIZE)] reports on the modelled platform. *)
Definition PAGE_SIZE : Z := 4096.
(** [(void* )-1] *)
Definition MAP_FAILED : Z := wrap (-1).

(** ** Memory and kernel state *)

Record state : Type := State {
  pages : gset Z;                 (* numbers of the pages currently mapped *)
  bytes : gmap Z Z;               (* bytes written so far; absent = 0 *)
  free_list : Z;                  (* static memory_block_t* free_list *)
  os_answers : list (option Z);   (* the kernel's next answers to mmap *)
}.

Definition set_bytes (b : gmap Z Z) (st : state) : state :=
  State (pages st) b (free_list st) (os_answers st).

Definition set_free_list (p : Z) (st : state) : state :=
  State (pages st) (bytes st) p (os_answers st).

(** The allocator before its first call, facing a kernel that will answer
    [answers]. *)
Definition fresh (answers : list (option Z)) : state :=
  State ∅ ∅ NULL answers.

(** An address can be accessed when it is a 64-bit address above page 0 (which
    the kernel never maps) and its page is mapped. *)
Definition mapped (st : state) (a : Z) : bool :=
  (PAGE_SIZE <=? a) && (a <? 2 ^ 64) && bool_decide (a / PAGE_SIZE ∈ pages st).

(** ** The state-and-fault monad *)

Definition M (A : Type) : Type := state -> option (A * state).

Definition ret {A} (x : A) : M A := fun st => Some (x, st).

Definition bind {A B} (c : M A) (k : A -> M B) : M B :=
  fun st => match c st with
            | Some (x, st') => k x st'
            | None => None
            end.

Definition fault {A} : M A := fun _ => None.

Notation "'let*' x := c 'in' k" := (bind c (fun x => k))
  (at level 10, x name, c at level 100, k at level 200).
Notation "c ;; k" := (bind c (fun _ => k))
  (at level 100, k at level 200, right associativity).

(** ** Byte and word access *)

Definition load_byte (a : Z) : M Z := fun st =>
  if mapped st a then Some (default 0 (bytes st !! a), st) else None.

Definition store_byte (a v : Z) : M unit := fun st =>
  if mapped st a then Some (tt, set_bytes (<[a := v mod 256]> (bytes st)) st)
  else None.

(** Little-endian load and store of an [n]-byte unsigned integer. *)
Fixpoint load_le (n : nat) (a : Z) : M Z :=
  match n with
  | O => ret 0
  | S k => let* b := load_byte a in let* r := load_le k (a + 1) in ret (b + 256 * r)
  end.

Fixpoint store_le (n : nat) (a v : Z) : M unit :=
  match n with
  | O => ret tt
  | S k => store_byte a v ;; store_le k (a + 1) (v / 256)
  end.

(** Field accessors of [memory_block_t]. *)
Definition off_size : Z := 0.
Definition off_free : Z := 8.
Definition off_next : Z := 16.
Definition off_prev : Z := 24.

Definition get_size (b : Z) : M Z := load_le 8 (b + off_size).
Definition get_free (b : Z) : M Z := load_le 4 (b + off_free).
Definition get_next (b : Z) : M Z := load_le 8 (b + off_next).
Definition get_prev (b : Z) : M Z := load_le 8 (b + off_prev).

Definition put_size (b v : Z) : M unit := store_le 8 (b + off_size) v.
Definition put_free (b v : Z) : M unit := store_le 4 (b + off_free) v.
Definition put_next (b v : Z) : M unit := store_le 8 (b + off_next) v.
Definition put_prev (b v : Z) : M unit := store_le 8 (b + off_prev) v.

Definition get_free_list : M Z := fun st => Some (free_list st, st).
Definition put_free_list (p : Z) : M unit := fun st => Some (tt, set_free_list p st).

(** ** libc and kernel services *)

Fixpoint memset_loop (n : nat) (a v : Z) : M unit :=
  match n with
  | O => ret tt
  | S k => store_byte a v ;; memset_loop k (a + 1) v
  end.

Definition memset (p v n : Z) : M unit := memset_loop (Z.to_nat n) p v.

Fixpoint memcpy_loop (n : nat) (d s : Z) : M unit :=
  match n with
  | O => ret tt
  | S k => let* b := load_byte s in store_byte d b ;; memcpy_loop k (d + 1) (s + 1)
  end.

Definition memcpy (d s n : Z) : M unit := memcpy_loop (Z.to_nat n) d s.

Definition page_count (len : Z) : Z := (len + PAGE_SIZE - 1) / PAGE_SIZE.

Definition page_span (pg len : Z) : list Z := seqZ pg (page_count len).

(** The kernel accepts to place a mapping of [len] bytes at page [pg] when the
    span lies inside the address space, above page 0, and is not mapped. *)
Definition placeable (st : state) (pg len : Z) : bool :=
  (0 <? len) && (1 <=? pg) && ((pg + page_count len) * PAGE_SIZE <=? 2 ^ 64)
  && forallb (fun p => negb (bool_decide (p ∈ pages st))) (page_span pg len).

(** [mmap(NULL, len, PROT_READ|PROT_WRITE, MAP_PRIVATE|MAP_ANONYMOUS, -1, 0)] *)
Definition mmap (len : Z) : M Z := fun st =>
  match os_answers st with
  | Some pg :: rest =>
      if placeable st pg len
      then Some (pg * PAGE_SIZE,
                 State (pages st ∪ list_to_set (page_span pg len))
                       (bytes st) (free_list st) rest)
      else Some (MAP_FAILED, State (pages st) (bytes st) (free_list st) rest)
  | None :: rest =>
      Some (MAP_FAILED, State (pages st) (bytes st) (free_list st) rest)
  | [] => Some (MAP_FAILED, st)
  end.

(** [munmap(addr, len)]: fails ([EINVAL]) on an unaligned address or an empty
    length; otherwise every page that meets the range goes away with its
    contents. *)
Definition munmap (addr len : Z) : M Z := fun st =>
  if (addr mod PAGE_SIZE =? 0) && (0 <? len)
  then let gone : gset Z := list_to_set (page_span (addr / PAGE_SIZE) len) in
       Some (0, State (pages st ∖ gone)
                      (filter (fun kv => kv.1 / PAGE_SIZE ∉ gone) (bytes st))
                      (free_list st) (os_answers st))
  else Some (-1, st).

(** Upper bound on the number of distinct block headers memory can hold. *)
Definition heap_fuel (st : state) : nat :=
  S (size (pages st) * Z.to_nat PAGE_SIZE).

(** ** The allocator *)

(** [(size + (ALIGNMENT - 1)) & ~(ALIGNMENT - 1)] *)
Definition align_size (size : Z) : Z :=
  Z.land (wrap (size + (ALIGNMENT - 1))) (wrap (Z.lnot (ALIGNMENT - 1))).

Definition get_block (ptr : Z) : Z := ptr - BLOCK_SIZE.

(** [block && block->free == 0] *)
Definition valid_block (block : Z) : M bool :=
  if block =? NULL then ret false
  else let* f := get_free block in ret (f =? 0).

Fixpoint find_block_loop (fuel : nat) (size current : Z) : M Z :=
  if current =? NULL then ret NULL
  else match fuel with
       | O => fault
       | S fuel' =>
           let* f := get_free current in
           let* hit := (if f =? 0 then ret false
                        else let* s := get_size current in ret (size <=? s)) in
           if hit : bool then ret current
           else let* nxt := get_next current in find_block_loop fuel' size nxt
       end.

Definition find_block (size : Z) : M Z :=
  let* fuel := (fun st => Some (heap_fuel st, st)) in
  let* head := get_free_list in
  find_block_loop fuel size head.

Definition extend_heap (last size : Z) : M Z :=
  let total_size := wrap (size + BLOCK_SIZE) in
  let total_size :=
    Z.land (wrap (total_size + PAGE_SIZE - 1)) (wrap (Z.lnot (PAGE_SIZE - 1))) in
  let* block := mmap total_size in
  if block =? MAP_FAILED then ret NULL
  else
    put_size block (wrap (total_size - BLOCK_SIZE)) ;;
    put_free block 0 ;;
    put_next block NULL ;;
    put_prev block last ;;
    (if last =? NULL then put_free_list block else put_next last block) ;;
    ret block.

Definition split_block (block size : Z) : M unit :=
  let new_block := block + BLOCK_SIZE + size in
  let* bs := get_size block in
  put_size new_block (wrap (bs - size - BLOCK_SIZE)) ;;
  put_free new_block 1 ;;
  let* bn := get_next block in
  put_next new_block bn ;;
  put_prev new_block block ;;
  let* nn := get_next new_block in
  (if nn =? NULL then ret tt else put_prev nn new_block) ;;
  put_size block size ;;
  put_next block new_block.

Definition merge_blocks (block : Z) : M unit :=
  (* Merge with next block if possible *)
  let* n := get_next block in
  let* nfree := (if n =? NULL then ret 0 else get_free n) in
  (if nfree =? 0 then ret tt
   else
     let* n1 := get_next block in
     let* ns := get_size n1 in
     let* bs := get_size block in
     put_size block (wrap (bs + wrap (BLOCK_SIZE + ns))) ;;
     let* n2 := get_next block in
     let* nn := get_next n2 in
     put_next block nn ;;
     let* n3 := get_next block in
     if n3 =? NULL then ret tt else put_prev n3 block) ;;
  (* Merge with previous block if possible *)
  let* p := get_prev block in
  let* pfree := (if p =? NULL then ret 0 else get_free p) in
  if pfree =? 0 then ret tt
  else
    let* p1 := get_prev block in
    let* bs := get_size block in
    let* ps := get_size p1 in
    put_size p1 (wrap (ps + wrap (BLOCK_SIZE + bs))) ;;
    let* p2 := get_prev block in
    let* bn := get_next block in
    put_next p2 bn ;;
    let* bn' := get_next block in
    if bn' =? NULL then ret tt
    else let* bn'' := get_next block in let* p3 := get_prev block in put_prev bn'' p3.

Definition allocator_init : M Z := ret 0.

Fixpoint destroy_loop (fuel : nat) (current : Z) : M unit :=
  if current =? NULL then ret tt
  else match fuel with
       | O => fault
       | S fuel' =>
           let* next := get_next current in
           let* f := get_free current in
           (if f =? 0
            then let* s := get_size current in
                 munmap current (wrap (s + BLOCK_SIZE)) ;; ret tt
            else ret tt) ;;
           destroy_loop fuel' next
       end.

Definition allocator_destroy : M unit :=
  let* fuel := (fun st => Some (heap_fuel st, st)) in
  let* head := get_free_list in
  destroy_loop fuel head ;;
  put_free_list NULL.

Definition allocator_malloc (size : Z) : M Z :=
  if size =? 0 then ret NULL
  else
    let size := align_size size in
    let* block := find_block size in
    if block =? NULL
    then
      let* head := get_free_list in
      let* block := extend_heap head size in
      if block =? NULL then ret NULL else ret (block + BLOCK_SIZE)
    else
      put_free block 0 ;;
      let* bs := get_size block in
      (if wrap (size + BLOCK_SIZE + ALIGNMENT) <? bs
       then split_block block size else ret tt) ;;
      ret (block + BLOCK_SIZE).

Definition allocator_free (ptr : Z) : M unit :=
  if ptr =? NULL then ret tt
  else
    let block := get_block ptr in
    let* ok := valid_block block in
    if ok : bool
    then put_free block 1 ;; merge_blocks block
    else ret tt.

Definition allocator_realloc (ptr size : Z) : M Z :=
  if ptr =? NULL then allocator_malloc size
  else if size =? 0 then allocator_free ptr ;; ret NULL
  else
    let block := get_block ptr in
    let* ok := valid_block block in
    if ok : bool
    then
      let size := align_size size in
      let* bs := get_size block in
      if size <=? bs
      then
        (if wrap (size + BLOCK_SIZE + ALIGNMENT) <? bs
         then split_block block size else ret tt) ;;
        ret ptr
      else
        let* new_ptr := allocator_malloc size in
        if new_ptr =? NULL then ret NULL
        else
          let* bs' := get_size block in
          memcpy new_ptr ptr bs' ;;
          allocator_free ptr ;;
          ret new_ptr
    else ret NULL.

Definition allocator_calloc (nmemb size : Z) : M Z :=
  let total_size := wrap (nmemb * size) in
  let* ptr := allocator_malloc total_size in
  if ptr =? NULL then ret ptr
  else memset ptr 0 total_size ;; ret ptr.

(** ** Observations used in the statements *)

Definition result {A} (r : option (A * state)) : option A := fst <$> r.
Definition after {A} (r : option (A * state)) : option state := snd <$> r.

(** Value of a computation in a state, ignoring the state it leaves. *)
Definition peek {A} (c : M A) (st : state) : option A := result (c st).

(** The blocks reachable from the list head, front to back, with their size
    and free flag. *)
Fixpoint walk_loop (fuel : nat) (current : Z) : M (list (Z * Z * Z)) :=
  if current =? NULL then ret []
  else match fuel with
       | O => fault
       | S fuel' =>
           let* s := get_size current in
           let* f := get_free current in
           let* n := get_next current in
           let* rest := walk_loop fuel' n in
           ret ((current, s, f) :: rest)
       end.

Definition block_list (st : state) : option (list (Z * Z * Z)) :=
  peek (walk_loop (heap_fuel st) (free_list st)) st.

(** What the caller does with a payload: write a sequence of bytes, read a
    range back. *)
Fixpoint write_bytes (a : Z) (l : list Z) : M unit :=
  match l with
  | [] => ret tt
  | b :: l' => store_byte a b ;; write_bytes (a + 1) l'
  end.

Fixpoint read_bytes (n : nat) (a : Z) : M (list Z) :=
  match n with
  | O => ret []
  | S k => let* b := load_byte a in let* r := read_bytes k (a + 1) in ret (b :: r)
  end.

(** The invariants of the data model, as checks on the list of blocks.
    I2: addresses ascend and each block ends where its successor starts.
    I3: no two neighbours are both free. *)
Fixpoint address_ordered (l : list (Z * Z * Z)) : bool :=
  match l with
  | (a1, _, _) :: (((a2, _, _) :: _) as tl) => (a1 <? a2) && address_ordered tl
  | _ => true
  end.

Fixpoint contiguous (l : list (Z * Z * Z)) : bool :=
  match l with
  | (a1, s1, _) :: (((a2, _, _) :: _) as tl) =>
      (a2 =? a1 + BLOCK_SIZE + s1) && contiguous tl
  | _ => true
  end.

Fixpoint no_adjacent_free (l : list (Z * Z * Z)) : bool :=
  match l with
  | (_, _, f1) :: (((_, _, f2) :: _) as tl) =>
      ((f1 =? 0) || (f2 =? 0)) && no_adjacent_free tl
  | _ => true
  end.

(** ** Pure views of the byte store *)

Definition byte_at (bs : gmap Z Z) (a : Z) : Z := default 0 (bs !! a).

Fixpoint word_at (n : nat) (a : Z) (bs : gmap Z Z) : Z :=
  match n with
  | O => 0
  | S k => byte_at bs a + 256 * word_at k (a + 1) bs
  end.

Fixpoint write_le (n : nat) (a v : Z) (bs : gmap Z Z) : gmap Z Z :=
  match n with
  | O => bs
  | S k => write_le k (a + 1) (v / 256) (<[a := v mod 256]> bs)
  end.

Definition range_mapped (st : state) (a n : Z) : Prop :=
  forall i, 0 <= i < n -> mapped st (a + i) = true.

(** The byte store after [memset], [memcpy] and [write_bytes]. *)
Fixpoint fill (k : nat) (a v : Z) (bs : gmap Z Z) : gmap Z Z :=
  match k with
  | O => bs
  | S k' => fill k' (a + 1) v (<[a := v mod 256]> bs)
  end.

Fixpoint copy (k : nat) (d s : Z) (bs : gmap Z Z) : gmap Z Z :=
  match k with
  | O => bs
  | S k' => copy k' (d + 1) (s + 1) (<[d := byte_at bs s mod 256]> bs)
  end.

Fixpoint write_list (a : Z) (l : list Z) (bs : gmap Z Z) : gmap Z Z :=
  match l with
  | [] => bs
  | b :: l' => write_list (a + 1) l' (<[a := b mod 256]> bs)
  end.

(** The byte store after [split_block block size], for a block whose header
    held size [s0] and successor [bn]. *)
Definition split_store (block size s0 bn : Z) (bs : gmap Z Z) : gmap Z Z :=
  let new_block := block + BLOCK_SIZE + size in
  let bs1 :=
    write_le 8 (new_block + off_prev) block
      (write_le 8 (new_block + off_next) bn
         (write_le 4 (new_block + off_free) 1
            (write_le 8 (new_block + off_size) (wrap (s0 - size - BLOCK_SIZE)) bs))) in
  let bs2 := if wrap bn =? NULL then bs1
             else write_le 8 (wrap bn + off_prev) new_block bs1 in
  write_le 8 (block + off_next) new_block
    (write_le 8 (block + off_size) size bs2).

(** The length [extend_heap] asks of [mmap] for a request of [size]. *)
Definition mapping_length (size : Z) : Z :=
  Z.land (wrap (wrap (size + BLOCK_SIZE) + PAGE_SIZE - 1))
         (wrap (Z.lnot (PAGE_SIZE - 1))).

(** The byte store after [extend_heap] has formatted a header at [b]. *)
Definition fresh_header (b len last : Z) (bs : gmap Z Z) : gmap Z Z :=
  write_le 8 (b + off_prev) last
    (write_le 8 (b + off_next) NULL
       (write_le 4 (b + off_free) 0
          (write_le 8 (b + off_size) (wrap (len - BLOCK_SIZE)) bs))).

(** The blocks between two addresses, as the [next] links in the byte store
    spell them out. *)
Inductive lseg (bs : gmap Z Z) : Z -> Z -> list (Z * Z * Z) -> Prop :=
| lseg_nil a : lseg bs a a []
| lseg_cons a e l :
    a <> NULL ->
    lseg bs (word_at 8 (a + off_next) bs) e l ->
    lseg bs a e ((a, word_at 8 (a + off_size) bs, word_at 4 (a + off_free) bs) :: l).

(** The three words of a header that the walk over the list reads. *)
Definition header_mapped (st : state) (x : Z * Z * Z) : Prop :=
  range_mapped st (x.1.1 + off_size) 8
  /\ range_mapped st (x.1.1 + off_free) 4
  /\ range_mapped st (x.1.1 + off_next) 8.

(** I2 as a property of a state: the walk from the list head ends, addresses
    ascend, every block ends where its successor starts, and the recorded
    sizes are [size_t] values. *)
Definition ordered_heap (st : state) : Prop :=
  exists l, block_list st = Some l
            /\ contiguous l = true /\ address_ordered l = true
            /\ Forall (fun x => 0 <= x.1.2 < 2 ^ 64) l.

(** A heap whose listed blocks lie in mapped memory: the walk from the list
    head ends, and each block's header and payload are accessible. *)
Definition extent_mapped (st : state) (x : Z * Z * Z) : Prop :=
  0 <= x.1.2 /\ range_mapped st x.1.1 (BLOCK_SIZE + x.1.2).

Definition mapped_heap (st : state) : Prop :=
  exists l, block_list st = Some l /\ Forall (extent_mapped st) l.

(** ** States used as examples *)

(** A heap with one block that has been released: the state after
    [p = allocator_malloc 64; allocator_free p] on a fresh allocator whose
    kernel places the first mapping at page 16. *)
Definition released_state : state :=
  match (let* p := allocator_malloc 64 in allocator_free p) (fresh [Some 16]) with
  | Some (_, st) => st
  | None => fresh []
  end.

(** A full heap facing a kernel that grants nothing more: one block of 4064
    bytes in use, taken by [allocator_malloc 16] from the only mapping the
    kernel was willing to give. *)
Definition exhausted_state : state :=
  match allocator_malloc 16 (fresh [Some 16]) with
  | Some (_, st) => st
  | None => fresh []
  end.

(** A fresh allocator after [allocator_malloc 40], the request
    [allocator_calloc 10 4] passes on. *)
Definition forty_state : state :=
  match allocator_malloc 40 (fresh [Some 16]) with
  | Some (_, st) => st
  | None => fresh []
  end.

(** A fresh allocator after [allocator_malloc (2^64 - 1)]: the request is
    rounded to 0 and served by a block of 4064 bytes. *)
Definition size_max_state : state :=
  match allocator_malloc (2 ^ 64 - 1) (fresh [Some 16]) with
  | Some (_, st) => st
  | None => fresh []
  end.

(** A fresh allocator after [allocator_malloc 32]. *)
Definition thirty_two_state : state :=
  match allocator_malloc 32 (fresh [Some 16; Some 32]) with
  | Some (_, st) => st
  | None => fresh []
  end.

(** The released heap after [allocator_malloc 16]: the free block is split. *)
Definition split_state : state :=
  match allocator_malloc 16 released_state with
  | Some (_, st) => st
  | None => fresh []
  end.

(** ** The list of blocks, seen as a list *)

(** A block serves a request when it is free and large enough
    ([current->free && current->size >= size]). *)
Definition fits (size : Z) (x : Z * Z * Z) : bool :=
  negb (x.2 =? 0) && (size <=? x.1.2).

(** The first block of the list that serves a request. *)
Fixpoint first_fit (size : Z) (l : list (Z * Z * Z)) : Z :=
  match l with
  | [] => NULL
  | x :: tl => if fits size x then x.1.1 else first_fit size tl
  end.

(** A heap of two mappings, both in use, facing a kernel that will place one
    more: the state after two [allocator_malloc 16] on a fresh allocator. *)
Definition two_mappings_state : state :=
  match (allocator_malloc 16 ;; allocator_malloc 16)
          (fresh [Some 16; Some 32; Some 48]) with
  | Some (_, st) => st
  | None => fresh []
  end.

(** The [prev] links of a list of blocks: every block points back to its
    predecessor, the first one to [p]. *)
Fixpoint prev_linked (bs : gmap Z Z) (p : Z) (l : list (Z * Z * Z)) : bool :=
  match l with
  | [] => true
  | x :: tl => (word_at 8 (x.1.1 + off_prev) bs =? p) && prev_linked bs x.1.1 tl
  end.

(** The list of blocks is [l]; the blocks lie back to back in mapped memory,
    and the [prev] links mirror the [next] links. *)
Definition region_heap (st : state) (l : list (Z * Z * Z)) : Prop :=
  block_list st = Some l
  /\ contiguous l = true
  /\ Forall (extent_mapped st) l
  /\ prev_linked (bytes st) NULL l = true.

(** The two halves of [merge_blocks]. *)
Definition merge_with_next (block : Z) : M unit :=
  let* n := get_next block in
  let* nfree := (if n =? NULL then ret 0 else get_free n) in
  if nfree =? 0 then ret tt
  else
    let* n1 := get_next block in
    let* ns := get_size n1 in
    let* bs := get_size block in
    put_size block (wrap (bs + wrap (BLOCK_SIZE + ns))) ;;
    let* n2 := get_next block in
    let* nn := get_next n2 in
    put_next block nn ;;
    let* n3 := get_next block in
    if n3 =? NULL then ret tt else put_prev n3 block.

Definition merge_with_prev (block : Z) : M unit :=
  let* p := get_prev block in
  let* pfree := (if p =? NULL then ret 0 else get_free p) in
  if pfree =? 0 then ret tt
  else
    let* p1 := get_prev block in
    let* bs := get_size block in
    let* ps := get_size p1 in
    put_size p1 (wrap (ps + wrap (BLOCK_SIZE + bs))) ;;
    let* p2 := get_prev block in
    let* bn := get_next block in
    put_next p2 bn ;;
    let* bn' := get_next block in
    if bn' =? NULL then ret tt
    else let* bn'' := get_next block in let* p3 := get_prev block in put_prev bn'' p3.

(** The byte store after block [x] has taken in its successor [y]: the
    size of [x] grows by the header and the size of [y], [x] is linked to
    the successor of [y], and that block back to [x]. *)
Definition absorb_store (x y : Z) (bs : gmap Z Z) : gmap Z Z :=
  let sx := word_at 8 (x + off_size) bs in
  let sy := word_at 8 (y + off_size) bs in
  let nn := word_at 8 (y + off_next) bs in
  let bs1 :=
    write_le 8 (x + off_next) nn
      (write_le 8 (x + off_size) (wrap (sx + wrap (BLOCK_SIZE + sy))) bs) in
  if wrap nn =? NULL then bs1 else write_le 8 (wrap nn + off_prev) x bs1.

(** Coalescing on the list of blocks: [x] takes in a free successor, and a
    free predecessor takes in [x]. *)
Definition absorb_next (x : Z * Z * Z) (l2 : list (Z * Z * Z)) : list (Z * Z * Z) :=
  match l2 with
  | y :: tl =>
      if y.2 =? 0 then x :: l2
      else (x.1.1, x.1.2 + BLOCK_SIZE + y.1.2, x.2) :: tl
  | [] => [x]
  end.

Fixpoint absorb_prev (l1 : list (Z * Z * Z)) (x : Z * Z * Z) : list (Z * Z * Z) :=
  match l1 with
  | [] => [x]
  | p :: tl =>
      match tl with
      | [] => if p.2 =? 0 then [p; x]
              else [(p.1.1, p.1.2 + BLOCK_SIZE + x.1.2, p.2)]
      | _ :: _ => p :: absorb_prev tl x
      end
  end.

Definition coalesce (l1 : list (Z * Z * Z)) (x : Z * Z * Z) (l2 : list (Z * Z * Z))
  : list (Z * Z * Z) :=
  match absorb_next x l2 with
  | x' :: rest => absorb_prev l1 x' ++ rest
  | [] => l1
  end.

(** The address of the last block of a list, or [p] for the empty list. *)
Definition last_addr (p : Z) (l : list (Z * Z * Z)) : Z :=
  match last l with Some x => x.1.1 | None => p end.

(** The address of the first block of a list, or [NULL]. *)
Definition head_addr (l : list (Z * Z * Z)) : Z :=
  match l with x :: _ => x.1.1 | [] => NULL end.

(** An address lies in the header of a block of the list. *)
Definition in_headers (l : list (Z * Z * Z)) (a : Z) : bool :=
  existsb (fun w => (w.1.1 <=? a) && (a <? w.1.1 + BLOCK_SIZE)) l.

(** Three blocks in one page: 16 bytes in use, 2000 bytes in use, and a free
    remainder of 1984 bytes. *)
Definition three_block_state : state :=
  match (let* a := allocator_malloc 16 in
         allocator_free a ;;
         allocator_malloc 16 ;;
         allocator_malloc 2000) (fresh [Some 16]) with
  | Some (_, st) => st
  | None => fresh []
  end.

(** ** A heap of blocks that do not overlap *)

(** [hs] are the addresses of block headers in memory, the listed ones among
    them.  Every block of [hs] lies in mapped memory with the size its header
    records, no two of them overlap, and their [next] and [prev] links lead
    to blocks of [hs] again.  The blocks need not be adjacent: this is what
    the heap looks like after several mappings, including the blocks that an
    extension has cut off from the list. *)
Definition sound_blocks (st : state) (hs : list Z) : Prop :=
  (exists l, block_list st = Some l /\ forall x, x ∈ l -> x.1.1 ∈ hs)
  /\ (forall a, a ∈ hs ->
        0 <= word_at 8 (a + off_size) (bytes st)
        /\ range_mapped st a (BLOCK_SIZE + word_at 8 (a + off_size) (bytes st)))
  /\ (forall a1 a2, a1 ∈ hs -> a2 ∈ hs -> a1 <> a2 ->
        a1 + BLOCK_SIZE + word_at 8 (a1 + off_size) (bytes st) <= a2
        \/ a2 + BLOCK_SIZE + word_at 8 (a2 + off_size) (bytes st) <= a1)
  /\ (forall a, a ∈ hs ->
        word_at 8 (a + off_next) (bytes st) = NULL
        \/ word_at 8 (a + off_next) (bytes st) ∈ hs)
  /\ (forall a, a ∈ hs ->
        word_at 8 (a + off_prev) (bytes st) = NULL
        \/ word_at 8 (a + off_prev) (bytes st) ∈ hs).

Definition sound_heap (st : state) : Prop := exists hs, sound_blocks st hs.

(** What [merge_blocks] relies on: the headers of [hs] are mapped and apart,
    and the links lead to headers of [hs]. *)
Definition linked (st : state) (hs : list Z) : Prop :=
  (forall a, a ∈ hs -> range_mapped st a BLOCK_SIZE)
  /\ (forall a1 a2, a1 ∈ hs -> a2 ∈ hs -> a1 <> a2 ->
        a1 + BLOCK_SIZE <= a2 \/ a2 + BLOCK_SIZE <= a1)
  /\ (forall a, a ∈ hs ->
        word_at 8 (a + off_next) (bytes st) = NULL
        \/ word_at 8 (a + off_next) (bytes st) ∈ hs)
  /\ (forall a, a ∈ hs ->
        word_at 8 (a + off_prev) (bytes st) = NULL
        \/ word_at 8 (a + off_prev) (bytes st) ∈ hs).

(** [st'] differs from [st] in the headers of [hs] at most. *)
Definition same_but_headers (hs : list Z) (st st' : state) : Prop :=
  pages st' = pages st /\ free_list st' = free_list st
  /\ os_answers st' = os_answers st
  /\ forall x, (forall a, a ∈ hs -> x < a \/ a + BLOCK_SIZE <= x) ->
               byte_at (bytes st') x = byte_at (bytes st) x.

(** The computation [c] returns from [st], with a result and a state that
    satisfy [Q]. *)
Definition steps {A} (c : M A) (st : state) (Q : A -> state -> Prop) : Prop :=
  exists x st', c st = Some (x, st') /\ Q x st'.

(** ** Computations that leave the set of mapped pages alone *)

Definition keeps_pages {A} (c : M A) : Prop :=
  forall st x st', c st = Some (x, st') -> pages st' = pages st.

(** ** The invariant I2 as the code keeps it *)

(** The list is one run of adjacent blocks in mapped memory with consistent
    back links; in particular it is in ascending address order. *)
Definition heap_in_order (st : state) : Prop :=
  exists l, region_heap st l /\ contiguous l = true /\ address_ordered l = true.

(** A pointer that [allocator_free] and [allocator_realloc] may be given:
    [NULL], or the payload of a block of the list. *)
Definition listed (l : list (Z * Z * Z)) (ptr : Z) : Prop :=
  ptr = NULL \/ exists s f, (get_block ptr, s, f) ∈ l.

(** The heap of three blocks after the block of 2000 bytes has been
    released: it has taken in the free remainder behind it. *)
Definition freed_state : state :=
  match allocator_free 65616 three_block_state with
  | Some (_, st) => st
  | None => three_block_state
  end.

(** Two blocks of 4064 bytes from two mappings (pages 16 and 32), both
    released: [merge_blocks] has joined them into one block of 8160 bytes,
    although the mappings are not adjacent. *)
Definition merged_mappings_state : state :=
  match (let* a := allocator_malloc 4064 in
         let* b := allocator_malloc 4064 in
         allocator_free a ;; allocator_free b) (fresh [Some 16; Some 32]) with
  | Some (_, st) => st
  | None => fresh []
  end.

(** * Arithmetic of the machine *)

(** [lia] after turning divisions and remainders by constants into their
    defining equations. *)
Ltac dlia := Z.div_mod_to_equations; lia.

Section Arithmetic.

Lemma wrap_small z : 0 <= z < 2 ^ 64 -> wrap z = z.
Proof. intros H. unfold wrap. apply Z.mod_small. exact H. Qed.

Lemma wrap_range z : 0 <= wrap z < 2 ^ 64.
Proof. unfold wrap. apply Z.mod_pos_bound. lia. Qed.

Lemma wrap_wrap z : wrap (wrap z) = wrap z.
Proof. apply wrap_small, wrap_range. Qed.

(** Masking with the complement of [2^k - 1] clears the low [k] bits. *)
Lemma mask_down x k :
  0 <= x < 2 ^ 64 -> 0 <= k ->
  Z.land x (wrap (Z.lnot (Z.ones k))) = x / 2 ^ k * 2 ^ k.
Proof.
  intros Hx Hk.
  assert (Hlow : Z.land x (wrap (Z.lnot (Z.ones k)))
                 = Z.land x (Z.lnot (Z.ones k))).
  { unfold wrap. rewrite <- (Z.land_ones _ 64) by lia.
    rewrite (Z.land_comm (Z.lnot _)), Z.land_assoc.
    rewrite (Z.land_ones x 64) by lia.
    rewrite (Z.mod_small x) by lia. reflexivity. }
  rewrite Hlow, <- Z.ldiff_land, Z.ldiff_ones_r by lia.
  rewrite Z.shiftl_mul_pow2, Z.shiftr_div_pow2 by lia. reflexivity.
Qed.

Lemma align_size_eq n :
  0 <= n < 2 ^ 64 -> align_size n = wrap (n + 15) / 16 * 16.
Proof.
  intros Hn. unfold align_size, ALIGNMENT.
  change (16 - 1) with (Z.ones 4).
  rewrite mask_down by (auto using wrap_range; lia).
  reflexivity.
Qed.

(** Below the last sixteen values of [size_t] the rounding does not wrap. *)
Lemma align_size_bounds n :
  0 <= n <= 2 ^ 64 - 16 ->
  n <= align_size n < n + 16 /\ align_size n mod 16 = 0.
Proof.
  intros Hn. rewrite align_size_eq by lia.
  rewrite wrap_small by lia. dlia.
Qed.

Lemma align_size_range n : 0 <= n < 2 ^ 64 -> 0 <= align_size n < 2 ^ 64.
Proof.
  intros Hn. rewrite align_size_eq by lia.
  pose proof (wrap_range (n + 15)). dlia.
Qed.

(** In the last fifteen values the sum wraps and the result is zero. *)
Lemma align_size_wraps n :
  2 ^ 64 - 16 < n < 2 ^ 64 -> align_size n = 0.
Proof.
  intros Hn. rewrite align_size_eq by lia.
  unfold wrap. replace (n + 15) with ((n + 15 - 2 ^ 64) + 1 * 2 ^ 64) by lia.
  rewrite Z.mod_add by lia. rewrite Z.mod_small by lia.
  rewrite Z.div_small by lia. reflexivity.
Qed.

Lemma mapping_length_eq size :
  0 <= size -> size + BLOCK_SIZE + PAGE_SIZE - 1 < 2 ^ 64 ->
  mapping_length size
  = (size + BLOCK_SIZE + PAGE_SIZE - 1) / PAGE_SIZE * PAGE_SIZE.
Proof.
  unfold mapping_length, BLOCK_SIZE, PAGE_SIZE. intros H0 H1.
  change (4096 - 1) with (Z.ones 12).
  rewrite (wrap_small (size + 32)) by lia.
  rewrite (wrap_small (size + 32 + 4096 - 1)) by lia.
  rewrite mask_down by lia. reflexivity.
Qed.

Lemma mapping_length_bounds size :
  0 <= size -> size + BLOCK_SIZE + PAGE_SIZE - 1 < 2 ^ 64 ->
  size + BLOCK_SIZE <= mapping_length size < size + BLOCK_SIZE + PAGE_SIZE
  /\ mapping_length size mod PAGE_SIZE = 0.
Proof.
  intros H0 H1. rewrite mapping_length_eq by assumption.
  unfold BLOCK_SIZE, PAGE_SIZE in *. dlia.
Qed.

End Arithmetic.

(** * Memory access lemmas *)

Section Memory.

Implicit Types (st : state) (bs : gmap Z Z) (a v n : Z).

Lemma range_mapped_sub st a n b m :
  range_mapped st a n -> a <= b -> b + m <= a + n -> range_mapped st b m.
Proof.
  intros H Hab Hbm i Hi. replace (b + i) with (a + (b - a + i)) by lia.
  apply H. lia.
Qed.

Lemma range_mapped_set_bytes st bs a n :
  range_mapped (set_bytes bs st) a n <-> range_mapped st a n.
Proof. reflexivity. Qed.

Lemma load_byte_eq st a :
  mapped st a = true -> load_byte a st = Some (byte_at (bytes st) a, st).
Proof. intros H. unfold load_byte. rewrite H. reflexivity. Qed.

Lemma store_byte_eq st a v :
  mapped st a = true ->
  store_byte a v st = Some (tt, set_bytes (<[a := v mod 256]> (bytes st)) st).
Proof. intros H. unfold store_byte. rewrite H. reflexivity. Qed.

Lemma load_le_eq k st a :
  range_mapped st a (Z.of_nat k) ->
  load_le k a st = Some (word_at k a (bytes st), st).
Proof.
  revert a. induction k as [|k IH]; intros a H; [reflexivity|].
  cbn [load_le word_at]. unfold bind.
  rewrite load_byte_eq by (specialize (H 0); rewrite Z.add_0_r in H; apply H; lia).
  rewrite IH; [reflexivity|].
  intros i Hi. replace (a + 1 + i) with (a + (1 + i)) by lia. apply H. lia.
Qed.

Lemma load_le_inv k st a v st' :
  load_le k a st = Some (v, st') ->
  st' = st /\ v = word_at k a (bytes st) /\ range_mapped st a (Z.of_nat k).
Proof.
  revert a v st'. induction k as [|k IH]; intros a v st' H.
  - cbn in H. inversion H. repeat split. intros i Hi. lia.
  - cbn [load_le] in H. unfold bind, load_byte in H.
    destruct (mapped st a) eqn:Hm; [|discriminate].
    destruct (load_le k (a + 1) st) as [[r st1]|] eqn:Hr; [|discriminate].
    apply IH in Hr as (-> & -> & Hrange). inversion H; subst.
    repeat split. intros i Hi.
    destruct (Z.eq_dec i 0) as [->|Hne]; [rewrite Z.add_0_r; exact Hm|].
    replace (a + i) with (a + 1 + (i - 1)) by lia. apply Hrange. lia.
Qed.

Lemma store_le_eq k st a v :
  range_mapped st a (Z.of_nat k) ->
  store_le k a v st = Some (tt, set_bytes (write_le k a v (bytes st)) st).
Proof.
  revert a v st. induction k as [|k IH]; intros a v st H.
  - destruct st; reflexivity.
  - cbn [store_le write_le]. unfold bind.
    rewrite store_byte_eq by (specialize (H 0); rewrite Z.add_0_r in H; apply H; lia).
    rewrite IH; [reflexivity|].
    intros i Hi. replace (a + 1 + i) with (a + (1 + i)) by lia.
    change (mapped st (a + (1 + i)) = true). apply H. lia.
Qed.

Lemma store_le_inv k st a v st' :
  store_le k a v st = Some (tt, st') ->
  st' = set_bytes (write_le k a v (bytes st)) st
  /\ range_mapped st a (Z.of_nat k).
Proof.
  revert a v st. induction k as [|k IH]; intros a v st H.
  - cbn in H. inversion H. destruct st'; split; [reflexivity|]. intros i Hi; lia.
  - cbn [store_le] in H. unfold bind, store_byte in H.
    destruct (mapped st a) eqn:Hm; [|discriminate].
    apply IH in H as [-> Hrange]. split; [reflexivity|].
    intros i Hi.
    destruct (Z.eq_dec i 0) as [->|Hne]; [rewrite Z.add_0_r; exact Hm|].
    replace (a + i) with (a + 1 + (i - 1)) by lia.
    change (mapped st (a + 1 + (i - 1)) = true). apply Hrange. lia.
Qed.

Lemma byte_at_insert bs a v x :
  byte_at (<[a := v]> bs) x = if decide (a = x) then v else byte_at bs x.
Proof.
  unfold byte_at. destruct (decide (a = x)) as [->|Hne].
  - rewrite lookup_insert_eq. reflexivity.
  - rewrite lookup_insert_ne by exact Hne. reflexivity.
Qed.

Lemma byte_at_write_le_out k bs a v x :
  x < a \/ a + Z.of_nat k <= x ->
  byte_at (write_le k a v bs) x = byte_at bs x.
Proof.
  revert a v bs. induction k as [|k IH]; intros a v bs H; [reflexivity|].
  cbn [write_le]. rewrite IH by lia. rewrite byte_at_insert.
  destruct (decide (a = x)); [lia | reflexivity].
Qed.

Lemma word_at_ext k a bs bs' :
  (forall i, 0 <= i < Z.of_nat k -> byte_at bs (a + i) = byte_at bs' (a + i)) ->
  word_at k a bs = word_at k a bs'.
Proof.
  revert a. induction k as [|k IH]; intros a H; [reflexivity|].
  cbn [word_at]. rewrite (IH (a + 1)).
  - specialize (H 0). rewrite Z.add_0_r in H. rewrite H by lia. reflexivity.
  - intros i Hi. replace (a + 1 + i) with (a + (1 + i)) by lia. apply H. lia.
Qed.

Lemma word_at_write_le_disj k a m b v bs :
  a + Z.of_nat k <= b \/ b + Z.of_nat m <= a ->
  word_at k a (write_le m b v bs) = word_at k a bs.
Proof.
  intros H. apply word_at_ext. intros i Hi.
  apply byte_at_write_le_out. lia.
Qed.

Lemma word_at_write_le_same k a v bs :
  word_at k a (write_le k a v bs) = v mod 256 ^ Z.of_nat k.
Proof.
  revert a v bs. induction k as [|k IH]; intros a v bs.
  - cbn. rewrite Z.mod_1_r. reflexivity.
  - cbn [word_at write_le]. rewrite IH.
    rewrite byte_at_write_le_out by lia.
    rewrite byte_at_insert. destruct (decide (a = a)) as [_|]; [|congruence].
    rewrite Nat2Z.inj_succ, Z.pow_succ_r by lia.
    rewrite Z.rem_mul_r by lia. reflexivity.
Qed.

End Memory.

(** * Computations that only read *)

Section ReadOnly.

Implicit Types (st : state).

Lemma mapped_range st a : mapped st a = true -> PAGE_SIZE <= a < 2 ^ 64.
Proof.
  unfold mapped. intros H.
  apply andb_prop in H as [H _]. apply andb_prop in H as [H1 H2]. lia.
Qed.

Lemma range_mapped_range st a n i :
  range_mapped st a n -> 0 <= i < n -> PAGE_SIZE <= a + i < 2 ^ 64.
Proof. intros H Hi. eapply mapped_range, H, Hi. Qed.

Lemma valid_block_inv block st ok st' :
  valid_block block st = Some (ok, st') ->
  st' = st
  /\ (ok = true ->
      block <> NULL /\ get_free block st = Some (0, st))
  /\ (ok = false ->
      block = NULL \/ exists f, f <> 0 /\ get_free block st = Some (f, st)).
Proof.
  unfold valid_block. destruct (block =? NULL) eqn:Hb.
  - intros H. inversion H; subst. split; [reflexivity|]. split; [discriminate|].
    intros _. left. lia.
  - unfold bind. destruct (get_free block st) as [[f st1]|] eqn:Hf; [|discriminate].
    pose proof Hf as Hf'. apply load_le_inv in Hf' as (-> & _ & _).
    intros H. inversion H; subst. split; [reflexivity|]. split.
    + intros Hz. apply Z.eqb_eq in Hz. subst f.
      split; [lia | first [exact Hf | reflexivity]].
    + intros Hne. right. exists f.
      split; [lia | first [exact Hf | reflexivity]].
Qed.

Lemma find_block_loop_frame fuel size current st r st' :
  find_block_loop fuel size current st = Some (r, st') -> st' = st.
Proof.
  revert current st. induction fuel as [|fuel IH]; intros current st.
  - cbn. destruct (current =? NULL); [|discriminate].
    intros H; inversion H; reflexivity.
  - cbn [find_block_loop]. destruct (current =? NULL).
    { intros H; inversion H; reflexivity. }
    unfold bind.
    destruct (get_free current st) as [[f st1]|] eqn:Hf; [|discriminate].
    apply load_le_inv in Hf as (-> & _ & _).
    destruct (f =? 0).
    + cbv beta iota delta [ret]. destruct (get_next current st) as [[nx st1]|] eqn:Hn; [|discriminate].
      apply load_le_inv in Hn as (-> & _ & _). apply IH.
    + destruct (get_size current st) as [[s st1]|] eqn:Hs; [|discriminate].
      apply load_le_inv in Hs as (-> & _ & _). cbv beta iota delta [ret].
      destruct (size <=? s).
      * intros H; inversion H; reflexivity.
      * destruct (get_next current st) as [[nx st1]|] eqn:Hn; [|discriminate].
        apply load_le_inv in Hn as (-> & _ & _). apply IH.
Qed.

Lemma find_block_frame size st r st' :
  find_block size st = Some (r, st') -> st' = st.
Proof. unfold find_block, bind, get_free_list. apply find_block_loop_frame. Qed.

(** A block found by the search was read, hence lies in mapped memory. *)
Lemma find_block_loop_mapped fuel size current st r st' :
  find_block_loop fuel size current st = Some (r, st') ->
  r = NULL \/ range_mapped st (r + off_free) 4.
Proof.
  revert current st. induction fuel as [|fuel IH]; intros current st.
  - cbn. destruct (current =? NULL); [|discriminate].
    intros H; inversion H; left; reflexivity.
  - cbn [find_block_loop]. destruct (current =? NULL).
    { intros H; inversion H; left; reflexivity. }
    unfold bind.
    destruct (get_free current st) as [[f st1]|] eqn:Hf; [|discriminate].
    apply load_le_inv in Hf as (-> & _ & Hmap).
    destruct (f =? 0).
    + cbv beta iota delta [ret]. destruct (get_next current st) as [[nx st1]|] eqn:Hn; [|discriminate].
      apply load_le_inv in Hn as (-> & _ & _). apply IH.
    + destruct (get_size current st) as [[s st1]|] eqn:Hs; [|discriminate].
      apply load_le_inv in Hs as (-> & _ & _). cbv beta iota delta [ret].
      destruct (size <=? s).
      * intros H; inversion H; subst. right. exact Hmap.
      * destruct (get_next current st) as [[nx st1]|] eqn:Hn; [|discriminate].
        apply load_le_inv in Hn as (-> & _ & _). apply IH.
Qed.

End ReadOnly.

(** * Stepping through monadic code *)

Lemma bind_inv {A B} (c : M A) (k : A -> M B) st r st' :
  bind c k st = Some (r, st') ->
  exists x st1, c st = Some (x, st1) /\ k x st1 = Some (r, st').
Proof.
  unfold bind. destruct (c st) as [[x st1]|]; [|discriminate].
  intros H. exists x, st1. split; [reflexivity | exact H].
Qed.

Lemma bind_eq {A B} (c : M A) (k : A -> M B) st x st1 :
  c st = Some (x, st1) -> bind c k st = k x st1.
Proof. intros H. unfold bind. rewrite H. reflexivity. Qed.

Lemma some_pair_inv {A B} (a a' : A) (b b' : B) :
  Some (a, b) = Some (a', b') -> a = a' /\ b = b'.
Proof. intros H. inversion H. split; reflexivity. Qed.

Lemma ret_inv {A} (x : A) st r st' :
  ret x st = Some (r, st') -> r = x /\ st' = st.
Proof. intros H. inversion H. split; reflexivity. Qed.

(** Split a hypothesis [bind c k st = Some _] into the two runs. *)
Tactic Notation "inv_bind" hyp(H) ident(x) ident(st1) ident(H1) :=
  let H2 := fresh "Hk" in
  apply bind_inv in H as (x & st1 & H1 & H2); cbv beta in H2;
  rename H2 into H.

(** * The kernel services *)

Section Kernel.

Implicit Types (st : state).

Lemma placeable_inv st pg len :
  placeable st pg len = true ->
  0 < len /\ 1 <= pg /\ (pg + page_count len) * PAGE_SIZE <= 2 ^ 64
  /\ forall p, pg <= p < pg + page_count len -> p ∉ pages st.
Proof.
  unfold placeable. intros H.
  apply andb_prop in H as [H H4]. apply andb_prop in H as [H H3].
  apply andb_prop in H as [H1 H2].
  repeat split; try lia.
  intros p Hp. rewrite forallb_forall in H4.
  specialize (H4 p). rewrite negb_true_iff, bool_decide_eq_false in H4.
  apply H4. apply list_elem_of_In. unfold page_span. apply elem_of_seqZ. lia.
Qed.

Lemma mmap_inv len st r st' :
  mmap len st = Some (r, st') ->
  (r = MAP_FAILED /\ pages st' = pages st /\ bytes st' = bytes st
   /\ free_list st' = free_list st)
  \/ (exists pg rest,
        os_answers st = Some pg :: rest /\ placeable st pg len = true
        /\ r = pg * PAGE_SIZE
        /\ st' = State (pages st ∪ list_to_set (page_span pg len))
                       (bytes st) (free_list st) rest).
Proof.
  unfold mmap. destruct (os_answers st) as [|[pg|] rest] eqn:Hos.
  - intros H; inversion H; subst. left. repeat split.
  - destruct (placeable st pg len) eqn:Hp; intros H; inversion H; subst.
    + right. exists pg, rest. repeat split. exact Hp.
    + left. repeat split.
  - intros H; inversion H; subst. left. repeat split.
Qed.

(** Every byte of a fresh mapping is accessible afterwards. *)
Lemma mapped_new_pages st pg len rest a :
  placeable st pg len = true ->
  pg * PAGE_SIZE <= a < (pg + page_count len) * PAGE_SIZE ->
  mapped (State (pages st ∪ list_to_set (page_span pg len))
                (bytes st) (free_list st) rest) a = true.
Proof.
  intros Hp Ha. apply placeable_inv in Hp as (H0 & H1 & H2 & _).
  unfold mapped. cbn [pages]. unfold PAGE_SIZE in *.
  rewrite !andb_true_iff, bool_decide_eq_true, elem_of_union,
    elem_of_list_to_set. unfold page_span. rewrite elem_of_seqZ.
  repeat split; [lia | lia | right; dlia].
Qed.

Lemma mapped_old_pages st new bs fl rest a :
  mapped st a = true -> mapped (State (pages st ∪ new) bs fl rest) a = true.
Proof.
  unfold mapped. cbn [pages]. rewrite !andb_true_iff, !bool_decide_eq_true.
  intros [[H1 H2] H3]. repeat split; [assumption..|]. set_solver.
Qed.

(** A byte mapped before the call is not in the fresh mapping. *)
Lemma mapped_not_new st pg len a :
  placeable st pg len = true -> mapped st a = true ->
  a < pg * PAGE_SIZE \/ (pg + page_count len) * PAGE_SIZE <= a.
Proof.
  intros Hp Ha. apply placeable_inv in Hp as (_ & _ & _ & Hfresh).
  unfold mapped in Ha. rewrite !andb_true_iff, bool_decide_eq_true in Ha.
  destruct Ha as [_ Hin].
  destruct (Z_lt_dec a (pg * PAGE_SIZE)) as [|Hge]; [left; assumption|].
  destruct (Z_le_dec ((pg + page_count len) * PAGE_SIZE) a) as [|Hlt];
    [right; assumption|].
  exfalso. apply (Hfresh (a / PAGE_SIZE)); [|exact Hin].
  unfold PAGE_SIZE in *. dlia.
Qed.

End Kernel.

(** * Heap extension *)

Section ExtendHeap.

Implicit Types (st : state).

Lemma page_address_not_failed pg : (pg * PAGE_SIZE =? MAP_FAILED) = false.
Proof.
  apply Z.eqb_neq. change MAP_FAILED with 18446744073709551615.
  unfold PAGE_SIZE. intros Heq.
  assert (Hm : (pg * 4096) mod 4096 = 4095) by (rewrite Heq; reflexivity).
  rewrite Z.mod_mul in Hm by lia. discriminate.
Qed.

Lemma range_mapped_new st pg len rest a n :
  placeable st pg len = true ->
  pg * PAGE_SIZE <= a -> a + n <= (pg + page_count len) * PAGE_SIZE ->
  range_mapped (State (pages st ∪ list_to_set (page_span pg len))
                      (bytes st) (free_list st) rest) a n.
Proof. intros Hp H1 H2 i Hi. apply mapped_new_pages; [exact Hp | lia]. Qed.

Lemma range_mapped_old st new bs fl rest a n :
  range_mapped st a n -> range_mapped (State (pages st ∪ new) bs fl rest) a n.
Proof. intros H i Hi. apply mapped_old_pages, H, Hi. Qed.

Lemma range_not_new st pg len a n :
  placeable st pg len = true -> 0 < n -> range_mapped st a n ->
  a + n <= pg * PAGE_SIZE \/ (pg + page_count len) * PAGE_SIZE <= a.
Proof.
  intros Hp Hn Hm.
  pose proof (mapped_not_new st pg len a Hp) as H0.
  pose proof (mapped_not_new st pg len (a + (n - 1)) Hp) as H1.
  specialize (Hm 0) as Hm0. rewrite Z.add_0_r in Hm0.
  specialize (H0 (Hm0 ltac:(lia))). specialize (H1 (Hm (n - 1) ltac:(lia))).
  pose proof (placeable_inv _ _ _ Hp) as (Hlen & _ & _ & Hfresh).
  destruct H0 as [H0|H0]; [|right; exact H0].
  destruct H1 as [H1|H1]; [left; lia|].
  (* the range would straddle the whole fresh mapping *)
  exfalso. apply (Hfresh pg).
  - unfold page_count, PAGE_SIZE in *. dlia.
  - specialize (Hm (pg * PAGE_SIZE - a)).
    replace (a + (pg * PAGE_SIZE - a)) with (pg * PAGE_SIZE) in Hm by lia.
    unfold mapped in Hm. rewrite !andb_true_iff, bool_decide_eq_true in Hm.
    rewrite Z.div_mul in Hm by (unfold PAGE_SIZE; lia).
    apply Hm. unfold page_count, PAGE_SIZE in *. dlia.
Qed.

Lemma extend_heap_success st last size pg rest :
  os_answers st = Some pg :: rest ->
  placeable st pg (mapping_length size) = true ->
  last = NULL \/ range_mapped st (last + off_next) 8 ->
  let b := pg * PAGE_SIZE in
  let st0 := State (pages st ∪ list_to_set (page_span pg (mapping_length size)))
                   (bytes st) (free_list st) rest in
  let bs := fresh_header b (mapping_length size) last (bytes st) in
  extend_heap last size st
  = Some (b, if last =? NULL then set_free_list b (set_bytes bs st0)
             else set_bytes (write_le 8 (last + off_next) b bs) st0).
Proof.
  intros Hos Hp Hlast b st0 bs.
  pose proof (placeable_inv _ _ _ Hp) as (Hlen & Hpg & Htop & _).
  assert (Hcount : 1 <= page_count (mapping_length size))
    by (unfold page_count, PAGE_SIZE; dlia).
  assert (Hmm : mmap (mapping_length size) st = Some (b, st0))
    by (unfold mmap; rewrite Hos, Hp; reflexivity).
  unfold extend_heap. fold (mapping_length size).
  rewrite (bind_eq _ _ _ _ _ Hmm).
  unfold b at 1. rewrite page_address_not_failed. fold b.
  assert (Hhdr : forall bs' o k, 0 <= o -> o + k <= 32 ->
                   range_mapped (set_bytes bs' st0) (b + o) k).
  { intros bs' o k Ho Hk. apply range_mapped_set_bytes.
    apply range_mapped_new; [exact Hp | lia |].
    unfold b, PAGE_SIZE in *. lia. }
  unfold put_size, put_free, put_next, put_prev.
  assert (Hst0 : st0 = set_bytes (bytes st) st0) by reflexivity.
  rewrite Hst0 at 1.
  do 4 (erewrite bind_eq
          by (apply store_le_eq, Hhdr;
              unfold off_size, off_free, off_next, off_prev; lia)).
  destruct (last =? NULL) eqn:Hl.
  - reflexivity.
  - destruct Hlast as [->|Hlast]; [discriminate|].
    erewrite bind_eq;
      [| apply store_le_eq, range_mapped_set_bytes, range_mapped_old, Hlast].
    reflexivity.
Qed.

End ExtendHeap.

Lemma peek_load_le k st a :
  range_mapped st a (Z.of_nat k) ->
  peek (load_le k a) st = Some (word_at k a (bytes st)).
Proof. intros H. unfold peek, result. rewrite load_le_eq by exact H. reflexivity. Qed.

Lemma range_mapped_pages st1 st2 a n :
  pages st1 = pages st2 -> range_mapped st1 a n -> range_mapped st2 a n.
Proof. intros Hp H i Hi. specialize (H i Hi). unfold mapped in *. rewrite <- Hp. exact H. Qed.

Ltac offsets := unfold off_size, off_free, off_next, off_prev, BLOCK_SIZE, NULL in *.

(** Read a word back through a stack of stores. *)
Ltac mem_simpl :=
  repeat first
    [ rewrite word_at_write_le_same
    | rewrite word_at_write_le_disj by (offsets; lia) ].

Lemma pow256_8 : 256 ^ Z.of_nat 8 = 2 ^ 64.
Proof. reflexivity. Qed.

Lemma pow256_4 : 256 ^ Z.of_nat 4 = 2 ^ 32.
Proof. reflexivity. Qed.

Section ExtendHeapSpec.

Implicit Types (st : state).

Lemma extend_heap_nonnull_inv st last size b st' :
  extend_heap last size st = Some (b, st') -> b <> NULL ->
  exists pg rest,
    os_answers st = Some pg :: rest
    /\ placeable st pg (mapping_length size) = true
    /\ b = pg * PAGE_SIZE.
Proof.
  intros H Hb. unfold extend_heap in H. fold (mapping_length size) in H.
  inv_bind H r st0 Hmm.
  apply mmap_inv in Hmm as [(-> & _)|(pg & rest & Hos & Hp & -> & _)].
  - rewrite Z.eqb_refl in H. apply ret_inv in H as [-> _]. congruence.
  - exists pg, rest. split; [assumption|]. split; [assumption|].
    rewrite page_address_not_failed in H.
    inv_bind H u1 st1 H1. inv_bind H u2 st2 H2. inv_bind H u3 st3 H3.
    inv_bind H u4 st4 H4. inv_bind H u5 st5 H5.
    apply ret_inv in H as [Hr _]. exact Hr.
Qed.

(** A call that returns [NULL] has touched neither memory nor the list. *)
Lemma extend_heap_null_frame st last size st' :
  extend_heap last size st = Some (NULL, st') ->
  pages st' = pages st /\ bytes st' = bytes st /\ free_list st' = free_list st.
Proof.
  intros H. unfold extend_heap in H. fold (mapping_length size) in H.
  inv_bind H r st0 Hmm.
  apply mmap_inv in Hmm as [(-> & Hfr)|(pg & rest & Hos & Hp & -> & _)].
  - rewrite Z.eqb_refl in H. apply ret_inv in H as [_ ->]. exact Hfr.
  - rewrite page_address_not_failed in H.
    inv_bind H u1 st1 H1. inv_bind H u2 st2 H2. inv_bind H u3 st3 H3.
    inv_bind H u4 st4 H4. inv_bind H u5 st5 H5.
    apply ret_inv in H as [Hb _].
    apply placeable_inv in Hp as (_ & Hpg & _).
    unfold PAGE_SIZE, NULL in Hb. lia.
Qed.

End ExtendHeapSpec.

(** * Allocation that fails *)

Section MallocFrame.

Implicit Types (st : state).

(** When [allocator_malloc] returns [NULL], memory and the list head are as
    before: the search only reads, and a refused mapping writes nothing. *)
Lemma malloc_null_frame size st st' :
  allocator_malloc size st = Some (NULL, st') ->
  pages st' = pages st /\ bytes st' = bytes st /\ free_list st' = free_list st.
Proof.
  unfold allocator_malloc. destruct (size =? 0).
  { intros H. apply ret_inv in H as [_ ->]. repeat split. }
  intros H. inv_bind H block st1 Hfind.
  apply find_block_frame in Hfind as Hst1. subst st1.
  destruct (block =? NULL) eqn:Hblock.
  - inv_bind H head st1 Hhead. inversion Hhead; subst.
    inv_bind H b st2 Hext. destruct (b =? NULL) eqn:Hb.
    + apply Z.eqb_eq in Hb. subst b. apply ret_inv in H as [_ ->].
      eapply extend_heap_null_frame, Hext.
    + apply Z.eqb_neq in Hb. apply ret_inv in H as [Hr _].
      apply extend_heap_nonnull_inv in Hext as (pg & rest & _ & Hp & ->);
        [|exact Hb].
      apply placeable_inv in Hp as (_ & Hpg & _).
      unfold PAGE_SIZE, BLOCK_SIZE, NULL in Hr. lia.
  - inv_bind H u st1 Hput. destruct u.
    apply store_le_inv in Hput as [_ Hmap].
    inv_bind H bs st2 Hbs. inv_bind H u st3 Hsplit.
    apply ret_inv in H as [Hr _].
    pose proof (range_mapped_range _ _ _ 0 Hmap ltac:(lia)) as Hrange.
    unfold PAGE_SIZE, BLOCK_SIZE, NULL, off_free in *. lia.
Qed.

End MallocFrame.

Lemma peek_load_le_inv k a st v :
  peek (load_le k a) st = Some v ->
  load_le k a st = Some (v, st) /\ range_mapped st a (Z.of_nat k).
Proof.
  unfold peek, result. destruct (load_le k a st) as [[x st1]|] eqn:H; [|discriminate].
  cbn. intros Hv. inversion Hv; subst.
  apply load_le_inv in H as H'. destruct H' as (-> & _ & Hm).
  split; [reflexivity | exact Hm].
Qed.

(** * memset *)

Section Memset.

Implicit Types (st : state) (bs : gmap Z Z).

Lemma byte_at_fill k a v bs x :
  byte_at (fill k a v bs) x
  = if decide (a <= x < a + Z.of_nat k) then v mod 256 else byte_at bs x.
Proof.
  revert a bs. induction k as [|k IH]; intros a bs.
  - cbn [fill]. destruct (decide _); [lia | reflexivity].
  - cbn [fill]. rewrite IH, byte_at_insert.
    destruct (decide (a = x)) as [->|Hne];
      repeat destruct (decide _); try lia; reflexivity.
Qed.

Lemma memset_loop_eq k st a v :
  range_mapped st a (Z.of_nat k) ->
  memset_loop k a v st = Some (tt, set_bytes (fill k a v (bytes st)) st).
Proof.
  revert a st. induction k as [|k IH]; intros a st H.
  - destruct st; reflexivity.
  - cbn [memset_loop fill]. unfold bind.
    rewrite store_byte_eq by (specialize (H 0); rewrite Z.add_0_r in H; apply H; lia).
    rewrite IH; [reflexivity|].
    intros i Hi. replace (a + 1 + i) with (a + (1 + i)) by lia.
    change (mapped st (a + (1 + i)) = true). apply H. lia.
Qed.

(** [memset] stops at the first byte it cannot write. *)
Lemma memset_loop_fault k st a v i :
  (i < k)%nat -> mapped st (a + Z.of_nat i) = false ->
  memset_loop k a v st = None.
Proof.
  revert a st i. induction k as [|k IH]; intros a st i Hi Hm; [lia|].
  cbn [memset_loop]. unfold bind, store_byte.
  destruct (mapped st a) eqn:Ha; [|reflexivity].
  destruct i as [|i]; [rewrite Z.add_0_r in Hm; congruence|].
  apply (IH _ _ i); [lia|].
  replace (a + 1 + Z.of_nat i) with (a + Z.of_nat (S i)) by lia. exact Hm.
Qed.

Lemma peek_load_byte st a :
  mapped st a = true -> peek (load_byte a) st = Some (byte_at (bytes st) a).
Proof. intros H. unfold peek, result. rewrite load_byte_eq by exact H. reflexivity. Qed.

Lemma peek_load_byte_same st1 st2 a :
  pages st1 = pages st2 -> byte_at (bytes st1) a = byte_at (bytes st2) a ->
  peek (load_byte a) st1 = peek (load_byte a) st2.
Proof.
  intros Hp Hb. unfold peek, result, load_byte, mapped. rewrite Hp.
  destruct (_ && _); [|reflexivity]. cbn. unfold byte_at in Hb. rewrite Hb.
  reflexivity.
Qed.

(** What [allocator_calloc] adds to [allocator_malloc]: when the block
    returned for the request of [n = wrap (c * s)] bytes has [n] accessible
    bytes, they are all set to zero and nothing else changes. *)
Lemma calloc_after_malloc st c s p st1 :
  allocator_malloc (wrap (c * s)) st = Some (p, st1) -> p <> NULL ->
  range_mapped st1 p (wrap (c * s)) ->
  exists st2,
    allocator_calloc c s st = Some (p, st2)
    /\ (forall i, 0 <= i < wrap (c * s) -> peek (load_byte (p + i)) st2 = Some 0)
    /\ (forall a, a < p \/ p + wrap (c * s) <= a ->
                  peek (load_byte a) st2 = peek (load_byte a) st1)
    /\ pages st2 = pages st1 /\ free_list st2 = free_list st1.
Proof.
  intros Hmalloc Hp Hmap. pose proof (wrap_range (c * s)) as Hn.
  set (n := wrap (c * s)) in *.
  exists (set_bytes (fill (Z.to_nat n) p 0 (bytes st1)) st1).
  split; [|split; [|split; [|split; reflexivity]]].
  - unfold allocator_calloc. fold n. rewrite (bind_eq _ _ _ _ _ Hmalloc).
    replace (p =? NULL) with false by (symmetry; apply Z.eqb_neq; exact Hp).
    assert (Hmap' : range_mapped st1 p (Z.of_nat (Z.to_nat n)))
      by (rewrite Z2Nat.id by lia; exact Hmap).
    unfold memset. rewrite (bind_eq _ _ _ _ _ (memset_loop_eq _ _ _ 0 Hmap')).
    reflexivity.
  - intros i Hi. rewrite peek_load_byte by (apply (Hmap i Hi)).
    cbn [bytes set_bytes]. rewrite byte_at_fill.
    destruct (decide _); [reflexivity | lia].
  - intros a Ha. apply peek_load_byte_same; [reflexivity|].
    cbn [bytes set_bytes]. rewrite byte_at_fill.
    destruct (decide _); [lia | reflexivity].
Qed.

(** A request of [2^64 - 1] bytes on a fresh allocator: [align_size] wraps to
    0, [allocator_malloc] hands out a block of one page less the header, and
    the zero fill runs off its end. *)
Lemma calloc_size_max_faults c s :
  wrap (c * s) = 2 ^ 64 - 1 ->
  allocator_calloc c s (fresh [Some 16]) = None.
Proof.
  intros Hn. unfold allocator_calloc. rewrite Hn.
  assert (Hm : allocator_malloc (2 ^ 64 - 1) (fresh [Some 16])
               = Some (65568, size_max_state)) by (vm_compute; reflexivity).
  rewrite (bind_eq _ _ _ _ _ Hm).
  change (65568 =? NULL) with false. cbv iota.
  unfold bind, memset.
  rewrite (memset_loop_fault _ _ _ _ 4064); [reflexivity | lia |].
  vm_compute. reflexivity.
Qed.

End Memset.

Lemma range_mapped_in_page st pg a n :
  pg ∈ pages st -> 1 <= pg -> (pg + 1) * PAGE_SIZE <= 2 ^ 64 ->
  pg * PAGE_SIZE <= a -> a + n <= (pg + 1) * PAGE_SIZE ->
  range_mapped st a n.
Proof.
  intros Hin Hpg Htop Hlo Hhi i Hi. unfold mapped.
  rewrite !andb_true_iff, bool_decide_eq_true. unfold PAGE_SIZE in *.
  repeat split; [lia | lia |].
  replace ((a + i) / 4096) with pg by dlia. exact Hin.
Qed.

(** * Payload access: write_bytes, read_bytes, memcpy *)

Section Payload.

Implicit Types (st : state) (bs : gmap Z Z) (l : list Z).

Lemma byte_at_write_list_out a l bs x :
  x < a \/ a + Z.of_nat (length l) <= x ->
  byte_at (write_list a l bs) x = byte_at bs x.
Proof.
  revert a bs. induction l as [|b l IH]; intros a bs H; [reflexivity|].
  cbn [write_list length] in *. rewrite IH by lia. rewrite byte_at_insert.
  destruct (decide (a = x)); [lia | reflexivity].
Qed.

Lemma byte_at_write_list_in a l bs i v :
  l !! i = Some v -> byte_at (write_list a l bs) (a + Z.of_nat i) = v mod 256.
Proof.
  revert a bs i. induction l as [|b l IH]; intros a bs i H; [discriminate|].
  cbn [write_list]. destruct i as [|i].
  - cbn in H. inversion H; subst. rewrite Z.add_0_r.
    rewrite byte_at_write_list_out by lia. rewrite byte_at_insert.
    destruct (decide (a = a)); [reflexivity | congruence].
  - cbn in H. replace (a + Z.of_nat (S i)) with (a + 1 + Z.of_nat i) by lia.
    apply IH, H.
Qed.

Lemma word_at_write_list_disj k a b l bs :
  a + Z.of_nat k <= b \/ b + Z.of_nat (length l) <= a ->
  word_at k a (write_list b l bs) = word_at k a bs.
Proof.
  intros H. apply word_at_ext. intros i Hi.
  apply byte_at_write_list_out. lia.
Qed.

Lemma write_bytes_eq l st a :
  range_mapped st a (Z.of_nat (length l)) ->
  write_bytes a l st = Some (tt, set_bytes (write_list a l (bytes st)) st).
Proof.
  revert a st. induction l as [|b l IH]; intros a st H.
  - destruct st; reflexivity.
  - cbn [write_bytes write_list]. unfold bind.
    rewrite store_byte_eq by (specialize (H 0); rewrite Z.add_0_r in H; apply H; cbn [length]; lia).
    rewrite IH; [reflexivity|].
    intros i Hi. replace (a + 1 + i) with (a + (1 + i)) by lia.
    change (mapped st (a + (1 + i)) = true). apply H. cbn [length]. lia.
Qed.

Lemma read_bytes_eq l st a :
  (forall i v, l !! i = Some v ->
               mapped st (a + Z.of_nat i) = true
               /\ byte_at (bytes st) (a + Z.of_nat i) = v) ->
  read_bytes (length l) a st = Some (l, st).
Proof.
  revert a. induction l as [|b l IH]; intros a H; [reflexivity|].
  cbn [read_bytes length]. unfold bind.
  destruct (H 0%nat b eq_refl) as [Hm Hb]. rewrite Z.add_0_r in Hm, Hb.
  rewrite load_byte_eq by exact Hm. rewrite IH.
  - unfold ret. rewrite Hb. reflexivity.
  - intros i v Hi. replace (a + 1 + Z.of_nat i) with (a + Z.of_nat (S i)) by lia.
    apply H. exact Hi.
Qed.

Lemma memcpy_loop_eq k st d s :
  range_mapped st s (Z.of_nat k) -> range_mapped st d (Z.of_nat k) ->
  memcpy_loop k d s st = Some (tt, set_bytes (copy k d s (bytes st)) st).
Proof.
  revert d s st. induction k as [|k IH]; intros d s st Hs Hd.
  - destruct st; reflexivity.
  - cbn [memcpy_loop copy]. unfold bind.
    rewrite load_byte_eq by (specialize (Hs 0); rewrite Z.add_0_r in Hs; apply Hs; lia).
    rewrite store_byte_eq by (specialize (Hd 0); rewrite Z.add_0_r in Hd; apply Hd; lia).
    rewrite IH; [reflexivity| |].
    + intros i Hi. replace (s + 1 + i) with (s + (1 + i)) by lia.
      change (mapped st (s + (1 + i)) = true). apply Hs. lia.
    + intros i Hi. replace (d + 1 + i) with (d + (1 + i)) by lia.
      change (mapped st (d + (1 + i)) = true). apply Hd. lia.
Qed.

(** Between ranges that do not overlap, [memcpy] moves the source bytes and
    touches nothing else. *)
Lemma byte_at_copy k d s bs x :
  d + Z.of_nat k <= s \/ s + Z.of_nat k <= d ->
  byte_at (copy k d s bs) x
  = if decide (d <= x < d + Z.of_nat k) then byte_at bs (s + (x - d)) mod 256
    else byte_at bs x.
Proof.
  revert d s bs. induction k as [|k IH]; intros d s bs H.
  - cbn [copy]. destruct (decide _); [lia | reflexivity].
  - cbn [copy]. rewrite IH by lia. rewrite !byte_at_insert.
    destruct (decide (d + 1 <= x < d + 1 + Z.of_nat k)) as [Hin|Hout].
    + destruct (decide (d = s + 1 + (x - (d + 1)))); [lia|].
      destruct (decide (d <= x < d + Z.of_nat (S k))); [|lia].
      f_equal. f_equal. lia.
    + destruct (decide (d = x)) as [->|Hne].
      * destruct (decide (x <= x < x + Z.of_nat (S k))); [|lia].
        f_equal. f_equal. lia.
      * destruct (decide (d <= x < d + Z.of_nat (S k))); [lia | reflexivity].
Qed.

Lemma word_at_copy_disj n a k d s bs :
  d + Z.of_nat k <= s \/ s + Z.of_nat k <= d ->
  a + Z.of_nat n <= d \/ d + Z.of_nat k <= a ->
  word_at n a (copy k d s bs) = word_at n a bs.
Proof.
  intros Hds H. apply word_at_ext. intros i Hi.
  rewrite byte_at_copy by exact Hds. destruct (decide _); [lia | reflexivity].
Qed.

End Payload.

(** * Splitting *)

Section Split.

Implicit Types (st : state) (bs : gmap Z Z).

Lemma wrap_pow256_8 v : v mod 256 ^ Z.of_nat 8 = wrap v.
Proof. reflexivity. Qed.

(** The two links [split_block] reads back while it writes. *)
Lemma split_reads_next block size v bs :
  0 <= size ->
  let nb := block + BLOCK_SIZE + size in
  word_at 8 (block + off_next)
    (write_le 4 (nb + off_free) 1 (write_le 8 (nb + off_size) v bs))
  = word_at 8 (block + off_next) bs.
Proof. intros Hsize nb. subst nb. mem_simpl. reflexivity. Qed.

Lemma split_reads_new_next nb block bn v bs :
  word_at 8 (nb + off_next)
    (write_le 8 (nb + off_prev) block
       (write_le 8 (nb + off_next) bn
          (write_le 4 (nb + off_free) 1 (write_le 8 (nb + off_size) v bs))))
  = wrap bn.
Proof. mem_simpl. apply wrap_pow256_8. Qed.

(** [split_block] as a function on the byte store, provided every word it
    touches is accessible. *)
Lemma split_block_eq st block size :
  0 <= size ->
  let new_block := block + BLOCK_SIZE + size in
  let s0 := word_at 8 (block + off_size) (bytes st) in
  let bn := word_at 8 (block + off_next) (bytes st) in
  range_mapped st (block + off_size) 8 ->
  range_mapped st (block + off_next) 8 ->
  range_mapped st (new_block + off_size) 8 ->
  range_mapped st (new_block + off_free) 4 ->
  range_mapped st (new_block + off_next) 8 ->
  range_mapped st (new_block + off_prev) 8 ->
  (wrap bn <> NULL -> range_mapped st (wrap bn + off_prev) 8) ->
  split_block block size st
  = Some (tt, set_bytes (split_store block size s0 bn (bytes st)) st).
Proof.
  intros Hsize nb s0 bn Hb0 Hb16 Hn0 Hn8 Hn16 Hn24 Hnn.
  unfold split_block. fold nb.
  unfold get_size, get_next, put_size, put_free, put_next, put_prev.
  rewrite (bind_eq _ _ _ _ _ (load_le_eq 8 st _ Hb0)). fold s0.
  erewrite bind_eq by (apply store_le_eq; exact Hn0).
  erewrite bind_eq by (apply store_le_eq, range_mapped_set_bytes; exact Hn8).
  erewrite bind_eq by (apply load_le_eq, range_mapped_set_bytes; exact Hb16).
  cbn [bytes set_bytes]. subst nb. rewrite split_reads_next by exact Hsize.
  set (nb := block + BLOCK_SIZE + size). fold bn.
  erewrite bind_eq by (apply store_le_eq, range_mapped_set_bytes; exact Hn16).
  erewrite bind_eq by (apply store_le_eq, range_mapped_set_bytes; exact Hn24).
  erewrite bind_eq by (apply load_le_eq, range_mapped_set_bytes; exact Hn16).
  cbn [bytes set_bytes]. rewrite split_reads_new_next.
  unfold split_store. fold nb.
  destruct (wrap bn =? NULL) eqn:Hz.
  - unfold ret at 1. erewrite bind_eq by reflexivity.
    erewrite bind_eq by (apply store_le_eq, range_mapped_set_bytes; exact Hb0).
    rewrite store_le_eq by (apply range_mapped_set_bytes; exact Hb16).
    reflexivity.
  - apply Z.eqb_neq in Hz.
    erewrite bind_eq by (apply store_le_eq, range_mapped_set_bytes, Hnn, Hz).
    erewrite bind_eq by (apply store_le_eq, range_mapped_set_bytes; exact Hb0).
    rewrite store_le_eq by (apply range_mapped_set_bytes; exact Hb16).
    reflexivity.
Qed.

(** Conversely, a [split_block] that returns has found all of them
    accessible, and the state it leaves is the one above. *)
Lemma split_block_inv st block size st' :
  0 <= size ->
  split_block block size st = Some (tt, st') ->
  let new_block := block + BLOCK_SIZE + size in
  let s0 := word_at 8 (block + off_size) (bytes st) in
  let bn := word_at 8 (block + off_next) (bytes st) in
  st' = set_bytes (split_store block size s0 bn (bytes st)) st
  /\ range_mapped st (block + off_size) 8
  /\ range_mapped st (block + off_next) 8
  /\ range_mapped st (new_block + off_size) 8
  /\ range_mapped st (new_block + off_free) 4
  /\ range_mapped st (new_block + off_next) 8
  /\ range_mapped st (new_block + off_prev) 8
  /\ (wrap bn <> NULL -> range_mapped st (wrap bn + off_prev) 8).
Proof.
  intros Hsize H nb s0 bn. pose proof H as Hrun.
  unfold split_block in H. fold nb in H.
  unfold get_size, get_next, put_size, put_free, put_next, put_prev in H.
  inv_bind H v0 t0 H0. apply load_le_inv in H0 as (-> & -> & Hb0).
  inv_bind H u1 t1 H1. destruct u1. apply store_le_inv in H1 as (-> & Hn0).
  inv_bind H u2 t2 H2. destruct u2. apply store_le_inv in H2 as (-> & Hn8).
  inv_bind H v3 t3 H3. apply load_le_inv in H3 as (-> & -> & Hb16).
  cbn [bytes set_bytes] in H. subst nb.
  rewrite split_reads_next in H by exact Hsize.
  set (nb := block + BLOCK_SIZE + size) in *. fold bn in H.
  inv_bind H u4 t4 H4. destruct u4. apply store_le_inv in H4 as (-> & Hn16).
  inv_bind H u5 t5 H5. destruct u5. apply store_le_inv in H5 as (-> & Hn24).
  inv_bind H v6 t6 H6. apply load_le_inv in H6 as (-> & -> & _).
  cbn [bytes set_bytes] in H. rewrite split_reads_new_next in H.
  assert (Hnn : wrap bn <> NULL -> range_mapped st (wrap bn + off_prev) 8).
  { intros Hz. apply Z.eqb_neq in Hz. rewrite Hz in H.
    inv_bind H u7 t7 H7. destruct u7. apply store_le_inv in H7 as (_ & Hr).
    exact Hr. }
  rewrite split_block_eq in Hrun by assumption.
  apply some_pair_inv in Hrun as [_ <-].
  repeat split; assumption.
Qed.

End Split.

(** * Resizing a block *)

Section Realloc.

Implicit Types (st : state) (bs : gmap Z Z).

Lemma align_size_idem x :
  0 <= x <= 2 ^ 64 - 16 -> x mod 16 = 0 -> align_size x = x.
Proof.
  intros Hx Hm. rewrite align_size_eq by lia. rewrite wrap_small by lia. dlia.
Qed.

Lemma find_block_loop_null fuel size st :
  find_block_loop fuel size NULL st = Some (NULL, st).
Proof. destruct fuel; reflexivity. Qed.

Lemma valid_block_in_use st block :
  range_mapped st (block + off_free) 4 ->
  word_at 4 (block + off_free) (bytes st) = 0 ->
  valid_block block st = Some (true, st).
Proof.
  intros Hm Hf.
  pose proof (range_mapped_range _ _ _ 0 Hm ltac:(lia)) as Hr.
  unfold valid_block.
  replace (block =? NULL) with false
    by (symmetry; apply Z.eqb_neq; unfold PAGE_SIZE, NULL, off_free in *; lia).
  unfold get_free. rewrite (bind_eq _ _ _ _ _ (load_le_eq 4 st _ Hm)).
  rewrite Hf. reflexivity.
Qed.

(** [mmap] always answers. *)
Lemma mmap_total len st : exists r st', mmap len st = Some (r, st').
Proof.
  unfold mmap. destruct (os_answers st) as [|[pg|] rest]; [eauto| |eauto].
  destruct (placeable st pg len); eauto.
Qed.

Lemma page_count_exact len :
  0 <= len -> len mod PAGE_SIZE = 0 -> page_count len * PAGE_SIZE = len.
Proof. unfold page_count, PAGE_SIZE. intros H0 H1. dlia. Qed.

Lemma bind_ret {A B} (x : A) (k : A -> M B) st : bind (ret x) k st = k x st.
Proof. reflexivity. Qed.

End Realloc.

(** * The list of blocks *)

Section Lists.

Implicit Types (st : state) (bs : gmap Z Z) (l : list (Z * Z * Z)).

Lemma walk_loop_lseg fuel a st l st' :
  walk_loop fuel a st = Some (l, st') ->
  st' = st /\ lseg (bytes st) a NULL l /\ Forall (header_mapped st) l.
Proof.
  revert a l st'. induction fuel as [|fuel IH]; intros a l st' H.
  - cbn in H. destruct (a =? NULL) eqn:Ha; [|discriminate].
    apply Z.eqb_eq in Ha. apply ret_inv in H as [-> ->]. subst a.
    repeat split; constructor.
  - cbn [walk_loop] in H. destruct (a =? NULL) eqn:Ha.
    { apply Z.eqb_eq in Ha. apply ret_inv in H as [-> ->]. subst a.
      repeat split; constructor. }
    apply Z.eqb_neq in Ha. unfold get_size, get_free, get_next in H.
    inv_bind H s t1 H1. apply load_le_inv in H1 as (-> & -> & Hm1).
    inv_bind H f t2 H2. apply load_le_inv in H2 as (-> & -> & Hm2).
    inv_bind H n t3 H3. apply load_le_inv in H3 as (-> & -> & Hm3).
    inv_bind H r t4 H4. apply IH in H4 as (-> & Hseg & Hall).
    apply ret_inv in H as [-> ->].
    split; [reflexivity|]. split.
    + constructor; assumption.
    + constructor; [|exact Hall]. repeat split; assumption.
Qed.

Lemma lseg_walk_loop l : forall fuel a st,
  lseg (bytes st) a NULL l -> Forall (header_mapped st) l ->
  (length l <= fuel)%nat ->
  walk_loop fuel a st = Some (l, st).
Proof.
  induction l as [|x l IH]; intros fuel a st Hseg Hall Hfuel.
  - inversion Hseg; subst. destruct fuel; reflexivity.
  - inversion Hseg; subst. inversion Hall as [|? ? (Hm1 & Hm2 & Hm3) Hall']; subst.
    cbn [fst snd] in *.
    destruct fuel as [|fuel]; [cbn in Hfuel; lia|]. cbn [walk_loop].
    replace (a =? NULL) with false by (symmetry; apply Z.eqb_neq; assumption).
    unfold get_size, get_free, get_next.
    rewrite (bind_eq _ _ _ _ _ (load_le_eq 8 st _ Hm1)).
    rewrite (bind_eq _ _ _ _ _ (load_le_eq 4 st _ Hm2)).
    rewrite (bind_eq _ _ _ _ _ (load_le_eq 8 st _ Hm3)).
    rewrite (bind_eq _ _ _ _ _ (IH fuel _ st H4 Hall' ltac:(cbn in Hfuel; lia))).
    reflexivity.
Qed.

Lemma lseg_nil_inv bs a e : lseg bs a e [] -> a = e.
Proof. intros H. inversion H. reflexivity. Qed.

Lemma lseg_cons_inv bs a e x l :
  lseg bs a e (x :: l) ->
  a <> NULL
  /\ x = (a, word_at 8 (a + off_size) bs, word_at 4 (a + off_free) bs)
  /\ lseg bs (word_at 8 (a + off_next) bs) e l.
Proof. intros H. inversion H; subst. repeat split; assumption. Qed.

Lemma lseg_app bs a b e l1 l2 :
  lseg bs a b l1 -> lseg bs b e l2 -> lseg bs a e (l1 ++ l2).
Proof.
  intros H1 H2. induction H1; [exact H2|].
  cbn. constructor; [assumption|]. apply IHlseg, H2.
Qed.

Lemma lseg_split bs a e l1 l2 :
  lseg bs a e (l1 ++ l2) -> exists b, lseg bs a b l1 /\ lseg bs b e l2.
Proof.
  revert a. induction l1 as [|x l1 IH]; intros a H.
  - exists a. split; [constructor | exact H].
  - cbn in H. inversion H; subst.
    destruct (IH _ H5) as (b & H1 & H2).
    exists b. split; [constructor; assumption | exact H2].
Qed.

(** A segment only depends on the three header words of its blocks. *)
Lemma lseg_frame bs bs' a e l :
  lseg bs a e l ->
  (forall x, x ∈ l ->
     word_at 8 (x.1.1 + off_size) bs' = word_at 8 (x.1.1 + off_size) bs
     /\ word_at 4 (x.1.1 + off_free) bs' = word_at 4 (x.1.1 + off_free) bs
     /\ word_at 8 (x.1.1 + off_next) bs' = word_at 8 (x.1.1 + off_next) bs) ->
  lseg bs' a e l.
Proof.
  intros H. induction H as [|a e l Ha Hseg IH]; intros Hsame; [constructor|].
  destruct (Hsame _ (list_elem_of_here _ _)) as (H1 & H2 & H3). cbn [fst snd] in *.
  rewrite <- H1, <- H2. constructor; [exact Ha|].
  rewrite H3. apply IH. intros x Hx. apply Hsame. apply list_elem_of_further, Hx.
Qed.

(** ** Order of the addresses *)

Lemma contiguous_cons2 a s f a2 s2 f2 l :
  contiguous ((a, s, f) :: (a2, s2, f2) :: l)
  = (a2 =? a + BLOCK_SIZE + s) && contiguous ((a2, s2, f2) :: l).
Proof. reflexivity. Qed.

Lemma address_ordered_cons2 a s f a2 s2 f2 l :
  address_ordered ((a, s, f) :: (a2, s2, f2) :: l)
  = (a <? a2) && address_ordered ((a2, s2, f2) :: l).
Proof. reflexivity. Qed.

Lemma contiguous_tail x l : contiguous (x :: l) = true -> contiguous l = true.
Proof.
  destruct x as [[a s] f]. destruct l as [|[[a2 s2] f2] l]; [reflexivity|].
  rewrite contiguous_cons2. intros H. apply andb_prop in H as [_ H]. exact H.
Qed.

(** In a contiguous list with sizes that are not negative, every block after
    the first starts at or after the end of the first. *)
Lemma contiguous_above l : forall a s f,
  contiguous ((a, s, f) :: l) = true ->
  Forall (fun x => 0 <= x.1.2) ((a, s, f) :: l) ->
  Forall (fun y => a + BLOCK_SIZE + s <= y.1.1) l.
Proof.
  induction l as [|[[a2 s2] f2] l IH]; intros a s f Hc Hs; [constructor|].
  rewrite contiguous_cons2 in Hc. apply andb_prop in Hc as [Ha Hc].
  apply Z.eqb_eq in Ha. inversion Hs as [|? ? Hs0 Hs']; subst.
  inversion Hs' as [|? ? Hs2 _]; subst. cbn [fst snd] in *.
  constructor; [cbn; lia|].
  eapply Forall_impl; [apply (IH _ _ _ Hc Hs')|].
  intros y Hy. cbn beta in Hy. unfold BLOCK_SIZE in *. lia.
Qed.

Lemma contiguous_below l1 : forall b s f l2,
  contiguous (l1 ++ (b, s, f) :: l2) = true ->
  Forall (fun x => 0 <= x.1.2) (l1 ++ (b, s, f) :: l2) ->
  Forall (fun x => x.1.1 + BLOCK_SIZE + x.1.2 <= b) l1.
Proof.
  induction l1 as [|[[a sa] fa] l1 IH]; intros b s f l2 Hc Hs; [constructor|].
  cbn [app] in *. constructor.
  - pose proof (contiguous_above _ _ _ _ Hc Hs) as Hab.
    rewrite Forall_forall in Hab.
    specialize (Hab (b, s, f)). cbn [fst snd] in *. apply Hab.
    apply elem_of_app. right. apply list_elem_of_here.
  - apply (IH b s f l2); [eapply contiguous_tail, Hc|].
    inversion Hs; assumption.
Qed.

Lemma contiguous_ordered l :
  contiguous l = true -> Forall (fun x => 0 <= x.1.2) l ->
  address_ordered l = true.
Proof.
  induction l as [|[[a s] f] l IH]; intros Hc Hs; [reflexivity|].
  destruct l as [|[[a2 s2] f2] l]; [reflexivity|].
  rewrite contiguous_cons2 in Hc. apply andb_prop in Hc as [Ha Hc].
  apply Z.eqb_eq in Ha. inversion Hs as [|? ? Hs0 Hs']; subst. cbn [fst snd] in *.
  rewrite address_ordered_cons2. apply andb_true_intro. split.
  - apply Z.ltb_lt. unfold BLOCK_SIZE. lia.
  - apply IH; assumption.
Qed.

Lemma contiguous_NoDup l :
  contiguous l = true -> Forall (fun x => 0 <= x.1.2) l ->
  NoDup (map (fun x => x.1.1) l).
Proof.
  induction l as [|[[a s] f] l IH]; intros Hc Hs; [constructor|].
  cbn [map fst]. constructor.
  - intros Hin. apply list_elem_of_fmap in Hin as (y & Hy & Hin).
    pose proof (contiguous_above _ _ _ _ Hc Hs) as Hab.
    rewrite Forall_forall in Hab. apply Hab in Hin.
    inversion Hs; subst. cbn [fst snd] in *. unfold BLOCK_SIZE in *. lia.
  - apply IH; [eapply contiguous_tail, Hc | inversion Hs; assumption].
Qed.

(** Splitting a block of a contiguous list leaves the list contiguous. *)
Lemma contiguous_split l1 : forall b s0 f l2 size,
  contiguous (l1 ++ (b, s0, f) :: l2) = true ->
  contiguous (l1 ++ (b, size, f)
                 :: (b + BLOCK_SIZE + size, s0 - size - BLOCK_SIZE, 1) :: l2) = true.
Proof.
  induction l1 as [|[[a sa] fa] l1 IH]; intros b s0 f l2 size Hc.
  - cbn [app] in *. rewrite contiguous_cons2, Z.eqb_refl. cbn [andb].
    destruct l2 as [|[[y sy] fy] l2]; [reflexivity|].
    rewrite contiguous_cons2 in *. apply andb_prop in Hc as [Ha Hc].
    apply Z.eqb_eq in Ha. rewrite Hc, andb_true_r. apply Z.eqb_eq. lia.
  - cbn [app] in *. specialize (IH b s0 f l2 size (contiguous_tail _ _ Hc)).
    destruct l1 as [|[[a2 s2] f2] l1]; cbn [app] in *;
      rewrite contiguous_cons2 in *; apply andb_prop in Hc as [Ha _];
      rewrite Ha; exact IH.
Qed.

(** ** Fuel: a list of distinct mapped addresses is shorter than the fuel *)

Lemma length_bind_const {A B} (f : A -> list B) (l : list A) n :
  (forall x, length (f x) = n) -> length (l ≫= f) = (length l * n)%nat.
Proof.
  intros Hf. induction l as [|x l IH]; [reflexivity|].
  cbn. rewrite length_app, Hf. cbn in IH. rewrite IH. lia.
Qed.

Lemma mapped_addresses_bound st (xs : list Z) :
  NoDup xs -> (forall x, x ∈ xs -> mapped st x = true) ->
  (length xs <= size (pages st) * Z.to_nat PAGE_SIZE)%nat.
Proof.
  intros Hnd Hm.
  set (M := elements (pages st) ≫= (fun p => seqZ (p * PAGE_SIZE) PAGE_SIZE)).
  assert (HM : length M = (size (pages st) * Z.to_nat PAGE_SIZE)%nat).
  { unfold M. apply length_bind_const. intros p. apply length_seqZ. }
  rewrite <- HM. apply submseteq_length, NoDup_submseteq; [exact Hnd|].
  intros x Hx. specialize (Hm x Hx). unfold mapped in Hm.
  rewrite !andb_true_iff, bool_decide_eq_true in Hm. destruct Hm as [_ Hin].
  unfold M. apply list_elem_of_bind. exists (x / PAGE_SIZE). split.
  - apply elem_of_seqZ. unfold PAGE_SIZE. dlia.
  - apply elem_of_elements, Hin.
Qed.

End Lists.

Section SplitList.

Implicit Types (st : state) (bs : gmap Z Z) (l : list (Z * Z * Z)).

Lemma lseg_cons' bs a e s f n l :
  a <> NULL ->
  word_at 8 (a + off_size) bs = s -> word_at 4 (a + off_free) bs = f ->
  word_at 8 (a + off_next) bs = n ->
  lseg bs n e l -> lseg bs a e ((a, s, f) :: l).
Proof. intros Ha <- <- <- H. constructor; assumption. Qed.

Lemma contiguous_app_r l1 l2 : contiguous (l1 ++ l2) = true -> contiguous l2 = true.
Proof.
  induction l1 as [|x l1 IH]; intros H; [exact H|].
  apply IH. eapply contiguous_tail, H.
Qed.

(** The header words of the two blocks after the split. *)
Lemma split_store_words block size s0 bn bs :
  0 <= size ->
  let nb := block + BLOCK_SIZE + size in
  let bs' := split_store block size s0 bn bs in
  wrap bn = NULL \/ nb + BLOCK_SIZE <= wrap bn + off_prev ->
  word_at 8 (block + off_size) bs' = wrap size
  /\ word_at 4 (block + off_free) bs' = word_at 4 (block + off_free) bs
  /\ word_at 8 (block + off_next) bs' = wrap nb
  /\ word_at 8 (nb + off_size) bs' = wrap (s0 - size - BLOCK_SIZE)
  /\ word_at 4 (nb + off_free) bs' = 1
  /\ word_at 8 (nb + off_next) bs' = wrap bn.
Proof.
  intros Hsize nb bs' Hbn. unfold bs', split_store. fold nb.
  assert (Hnb : block + 32 <= nb) by (unfold nb, BLOCK_SIZE; lia).
  destruct (wrap bn =? NULL) eqn:Hz.
  - repeat split; mem_simpl; try reflexivity; try apply wrap_pow256_8;
      rewrite wrap_pow256_8; apply wrap_wrap.
  - apply Z.eqb_neq in Hz. destruct Hbn as [Hbn|Hbn]; [congruence|].
    repeat split; mem_simpl; try reflexivity; try apply wrap_pow256_8;
      rewrite wrap_pow256_8; apply wrap_wrap.
Qed.

(** Words away from the two headers and from the successor's [prev] link
    are not written. *)
Lemma split_store_frame block size s0 bn bs k a :
  let nb := block + BLOCK_SIZE + size in
  a + Z.of_nat k <= block \/ nb + BLOCK_SIZE <= a ->
  wrap bn = NULL \/ a + Z.of_nat k <= wrap bn + off_prev
  \/ wrap bn + BLOCK_SIZE <= a ->
  0 <= size ->
  word_at k a (split_store block size s0 bn bs) = word_at k a bs.
Proof.
  intros nb Ha Hbn Hsize. unfold split_store. fold nb.
  assert (Hnb : block + 32 <= nb) by (unfold nb, BLOCK_SIZE; lia).
  destruct (wrap bn =? NULL) eqn:Hz.
  - mem_simpl. reflexivity.
  - apply Z.eqb_neq in Hz. destruct Hbn as [Hbn|Hbn]; [congruence|].
    mem_simpl. reflexivity.
Qed.

End SplitList.

Lemma header_mapped_addr st x :
  header_mapped st x -> mapped st x.1.1 = true.
Proof.
  intros (H & _ & _). specialize (H 0 ltac:(lia)).
  unfold off_size in H. rewrite !Z.add_0_r in H. exact H.
Qed.

Lemma block_list_elim st l :
  block_list st = Some l ->
  lseg (bytes st) (free_list st) NULL l /\ Forall (header_mapped st) l.
Proof.
  unfold block_list, peek, result. intros H.
  destruct (walk_loop (heap_fuel st) (free_list st) st) as [[l0 st1]|] eqn:Hwalk;
    [|discriminate].
  cbn in H. apply (inj Some) in H. subst l0.
  apply walk_loop_lseg in Hwalk as (_ & Hseg & Hmapped). split; assumption.
Qed.

(** The walk has fuel for every contiguous list of accessible headers. *)
Lemma block_list_intro st l :
  lseg (bytes st) (free_list st) NULL l -> Forall (header_mapped st) l ->
  contiguous l = true -> Forall (fun x => 0 <= x.1.2) l ->
  block_list st = Some l.
Proof.
  intros Hseg Hmapped Hcont Hsizes.
  assert (Hfuel : (length l <= heap_fuel st)%nat).
  { unfold heap_fuel. rewrite <- (length_map (fun x => x.1.1) l).
    pose proof (mapped_addresses_bound st (map (fun x => x.1.1) l)
                  (contiguous_NoDup _ Hcont Hsizes)) as Hbound.
    etransitivity; [apply Hbound|lia].
    intros a Ha. apply list_elem_of_fmap in Ha as (x & -> & Hx).
    rewrite Forall_forall in Hmapped. apply header_mapped_addr, Hmapped, Hx. }
  unfold block_list, peek, result.
  rewrite (lseg_walk_loop l _ _ st Hseg Hmapped Hfuel). reflexivity.
Qed.

(** [split_block] on a block of a contiguous list: the list afterwards is
    the old one with the block cut down to [size] and the remainder, free,
    inserted directly behind it; it is contiguous and address ordered. *)
Lemma split_block_keeps_address_order st st' l1 b s0 f l2 size :
  block_list st = Some (l1 ++ (b, s0, f) :: l2) ->
  contiguous (l1 ++ (b, s0, f) :: l2) = true ->
  Forall (fun x => 0 <= x.1.2) (l1 ++ (b, s0, f) :: l2) ->
  0 <= size -> size + BLOCK_SIZE <= s0 -> s0 < 2 ^ 64 ->
  split_block b size st = Some (tt, st') ->
  let l' := l1 ++ (b, size, f)
               :: (b + BLOCK_SIZE + size, s0 - size - BLOCK_SIZE, 1) :: l2 in
  block_list st' = Some l'
  /\ contiguous l' = true
  /\ address_ordered l' = true.
Proof.
  intros Hlist Hcont Hsizes Hsize Hfits Hs0 Hsplit l'.
  set (nb := b + BLOCK_SIZE + size) in *.
  (* the list before, as links in memory *)
  apply block_list_elim in Hlist as [Hseg Hmapped].
  apply lseg_split in Hseg as (b' & Hseg1 & Hseg2).
  apply lseg_cons_inv in Hseg2 as (Hbnz & Htriple & Hseg2').
  assert (Hb' : b' = b) by congruence. subst b'.
  assert (Hs0eq : word_at 8 (b + off_size) (bytes st) = s0) by congruence.
  assert (Hfeq : word_at 4 (b + off_free) (bytes st) = f) by congruence.
  clear Htriple.
  set (bn := word_at 8 (b + off_next) (bytes st)) in *.
  (* the state after *)
  destruct (split_block_inv st b size st' Hsize Hsplit)
    as (Hst' & Hb0 & Hb16 & Hn0 & Hn8 & Hn16 & Hn24 & Hnn).
  fold nb bn in Hst', Hn0, Hn8, Hn16, Hn24, Hnn. rewrite Hs0eq in Hst'.
  (* sizes and positions *)
  assert (Hsizes' : Forall (fun x => 0 <= x.1.2) l').
  { unfold l'. apply Forall_app in Hsizes as [Hs1 Hs2].
    apply Forall_app. split; [exact Hs1|].
    inversion Hs2; subst.
    constructor; [cbn [fst snd]; lia|]. constructor; [cbn [fst snd]; lia|].
    assumption. }
  assert (Hcont' : contiguous l' = true) by (apply contiguous_split, Hcont).
  pose proof (contiguous_below _ _ _ _ _ Hcont Hsizes) as Hbelow.
  pose proof (contiguous_above _ _ _ _ (contiguous_app_r _ _ Hcont)
                (proj2 (proj1 (Forall_app _ _ _) Hsizes))) as Habove.
  pose proof (range_mapped_range _ _ _ 0 Hb0 ltac:(lia)) as Hbr.
  pose proof (range_mapped_range _ _ _ 7 Hn24 ltac:(lia)) as Hnbr.
  (* the successor of [b] *)
  assert (Hbn : (l2 = [] /\ bn = NULL)
                \/ (bn = b + BLOCK_SIZE + s0 /\ wrap bn = bn /\ bn <> NULL
                    /\ forall y, y ∈ l2 -> y.1.1 = bn \/ bn + BLOCK_SIZE <= y.1.1)).
  { destruct l2 as [|[[y sy] fy] l2].
    - left. split; [reflexivity|]. apply lseg_nil_inv in Hseg2'. exact Hseg2'.
    - right. apply lseg_cons_inv in Hseg2' as (Hy & Htriple & _).
      assert (Hbn0 : y = bn) by congruence. clear Htriple.
      apply contiguous_app_r in Hcont as Hc2. rewrite contiguous_cons2 in Hc2.
      apply andb_prop in Hc2 as [Hy2 Hc3]. apply Z.eqb_eq in Hy2.
      assert (Hym : header_mapped st (y, sy, fy)).
      { rewrite Forall_forall in Hmapped. apply Hmapped.
        apply elem_of_app. right. apply list_elem_of_further, list_elem_of_here. }
      apply header_mapped_addr, mapped_range in Hym. cbn [fst] in Hym.
      split; [rewrite <- Hbn0; exact Hy2|].
      split; [apply wrap_small; unfold PAGE_SIZE in *; lia|].
      split; [exact Hy|]. rewrite <- Hbn0.
      intros z Hz. apply elem_of_cons in Hz as [->|Hz]; [left; reflexivity|].
      right. apply Forall_app in Hsizes as [_ Hs2]. inversion Hs2 as [|? ? _ Hs3]; subst.
      pose proof (contiguous_above _ _ _ _ Hc3 Hs3) as Hab.
      rewrite Forall_forall in Hab. specialize (Hab z Hz).
      inversion Hs3; subst. cbn [fst snd] in *. unfold BLOCK_SIZE in *. lia. }
  assert (Hbnpos : wrap bn = NULL \/ nb + BLOCK_SIZE <= wrap bn + off_prev).
  { destruct Hbn as [[_ ->]|(Hbn1 & -> & _)]; [left; reflexivity|].
    right. unfold nb, off_prev, BLOCK_SIZE in *. lia. }
  destruct (split_store_words b size s0 bn (bytes st) Hsize Hbnpos)
    as (Hw1 & Hw2 & Hw3 & Hw4 & Hw5 & Hw6).
  fold nb in Hw3, Hw4, Hw5, Hw6.
  assert (Hnbrange : 0 <= nb < 2 ^ 64) by (unfold PAGE_SIZE, off_prev in *; lia).
  rewrite wrap_small in Hw1 by (unfold BLOCK_SIZE in *; lia).
  rewrite wrap_small in Hw3 by exact Hnbrange.
  rewrite wrap_small in Hw4 by (unfold BLOCK_SIZE in *; lia).
  assert (Hwbn : wrap bn = bn).
  { destruct Hbn as [[_ ->]|(_ & Hw & _)]; [reflexivity | exact Hw]. }
  rewrite Hwbn in Hw6.
  (* blocks before and after keep their header words *)
  assert (Hframe1 : lseg (bytes st') (free_list st) b l1).
  { apply (lseg_frame (bytes st)); [exact Hseg1|].
    intros x Hx. rewrite Forall_forall in Hbelow, Hsizes.
    specialize (Hbelow x Hx).
    specialize (Hsizes x ltac:(apply elem_of_app; left; exact Hx)).
    rewrite Hst'. cbn [bytes set_bytes].
    repeat split; apply split_store_frame; try exact Hsize;
      try (left; offsets; fold nb; lia);
      (destruct Hbn as [[_ Hz]|(Hz & _)];
       [left; rewrite Hz; reflexivity
       |right; left; rewrite Hwbn, Hz; offsets; lia]). }
  assert (Hframe2 : lseg (bytes st') bn NULL l2).
  { apply (lseg_frame (bytes st)); [exact Hseg2'|].
    intros y Hy. rewrite Forall_forall in Habove.
    specialize (Habove y Hy).
    rewrite Hst'. cbn [bytes set_bytes].
    destruct Hbn as [[-> _]|(Hz & _ & _ & Hpos)];
      [apply elem_of_nil in Hy; contradiction|].
    specialize (Hpos y Hy).
    repeat split; apply split_store_frame; try exact Hsize;
      try (right; fold nb; unfold nb; offsets; lia);
      (right; rewrite Hwbn; offsets; lia). }
  assert (Hseg' : lseg (bytes st') (free_list st') NULL l').
  { rewrite Hst' at 2. change (free_list (set_bytes _ st)) with (free_list st).
    unfold l'. apply (lseg_app _ _ b); [exact Hframe1|].
    rewrite Hst' in Hframe2 |- *. cbn [bytes set_bytes] in *.
    apply (lseg_cons' _ _ _ _ _ nb); [exact Hbnz | exact Hw1 | | exact Hw3 |].
    { rewrite Hw2. exact Hfeq. }
    apply (lseg_cons' _ _ _ _ _ bn); [|exact Hw4 | exact Hw5 | exact Hw6 | exact Hframe2].
    unfold NULL, PAGE_SIZE, off_prev in *. lia. }
  (* every header of the new list is accessible *)
  assert (Hpages : pages st' = pages st) by (rewrite Hst'; reflexivity).
  assert (Hmapped' : Forall (header_mapped st') l').
  { assert (Hkeep : forall x, header_mapped st x -> header_mapped st' x).
    { intros x (H1 & H2 & H3).
      repeat split; apply (range_mapped_pages st); auto. }
    unfold l'. apply Forall_app in Hmapped as [Hm1 Hm2].
    inversion Hm2 as [|? ? (Hmb1 & Hmb2 & Hmb3) Hm3]; subst.
    apply Forall_app. split; [eapply Forall_impl; [exact Hm1 | exact Hkeep]|].
    constructor; [apply Hkeep; repeat split; assumption|].
    constructor; [|eapply Forall_impl; [exact Hm3 | exact Hkeep]].
    apply Hkeep. repeat split; cbn [fst]; assumption. }
  split; [|split; [exact Hcont' | apply contiguous_ordered; assumption]].
  apply block_list_intro; assumption.
Qed.

Section PublicOperations.

Implicit Types (st : state) (bs : gmap Z Z) (l : list (Z * Z * Z)).

(** A block returned by the search is a block of the list, free and large
    enough. *)
Lemma find_block_loop_lseg fuel : forall size a st r st' l,
  find_block_loop fuel size a st = Some (r, st') ->
  lseg (bytes st) a NULL l -> r <> NULL ->
  exists l1 s f l2, l = l1 ++ (r, s, f) :: l2 /\ f <> 0 /\ size <= s.
Proof.
  induction fuel as [|fuel IH]; intros size a st r st' l H Hseg Hr.
  - cbn in H. destruct (a =? NULL); [|discriminate].
    apply ret_inv in H as [-> _]. congruence.
  - cbn [find_block_loop] in H. destruct (a =? NULL) eqn:Ha.
    { apply ret_inv in H as [-> _]. congruence. }
    apply Z.eqb_neq in Ha.
    destruct l as [|x l]; [apply lseg_nil_inv in Hseg; congruence|].
    apply lseg_cons_inv in Hseg as (_ & -> & Hseg).
    unfold get_free, get_size, get_next in H.
    inv_bind H f t1 H1. apply load_le_inv in H1 as (-> & -> & _).
    destruct (word_at 4 (a + off_free) (bytes st) =? 0) eqn:Hf.
    + rewrite bind_ret in H.
      inv_bind H n t2 H2. apply load_le_inv in H2 as (-> & -> & _).
      destruct (IH _ _ _ _ _ _ H Hseg Hr) as (l1 & s & f & l2 & -> & Hfree & Hfit).
      eexists (_ :: l1), s, f, l2. repeat split; assumption.
    + apply Z.eqb_neq in Hf.
      inv_bind H hit t2 H2. inv_bind H2 s t3 H3.
      apply load_le_inv in H3 as (-> & -> & _). apply ret_inv in H2 as [-> ->].
      destruct (size <=? word_at 8 (a + off_size) (bytes st)) eqn:Hfit.
      * apply ret_inv in H as [-> _]. apply Z.leb_le in Hfit.
        eexists [], _, _, l. repeat split; [exact Hf | exact Hfit].
      * inv_bind H n t4 H4. apply load_le_inv in H4 as (-> & -> & _).
        destruct (IH _ _ _ _ _ _ H Hseg Hr) as (l1 & s & f & l2 & -> & Hfree & Hfit').
        eexists (_ :: l1), s, f, l2. repeat split; assumption.
Qed.

Lemma contiguous_set_flag l1 : forall b s f f' l2,
  contiguous (l1 ++ (b, s, f) :: l2) = contiguous (l1 ++ (b, s, f') :: l2).
Proof.
  induction l1 as [|[[a sa] fa] l1 IH]; intros b s f f' l2.
  - cbn [app]. destruct l2 as [|[[y sy] fy] l2]; reflexivity.
  - cbn [app]. specialize (IH b s f f' l2).
    destruct l1 as [|[[a2 s2] f2] l1]; cbn [app] in *;
      rewrite !contiguous_cons2, IH; reflexivity.
Qed.

(** Marking a block of a contiguous list as in use changes its flag and
    nothing else in the list. *)
Lemma put_free_block_list st l1 b s f l2 v st' :
  block_list st = Some (l1 ++ (b, s, f) :: l2) ->
  contiguous (l1 ++ (b, s, f) :: l2) = true ->
  Forall (fun x => 0 <= x.1.2) (l1 ++ (b, s, f) :: l2) ->
  0 <= v < 2 ^ 32 ->
  put_free b v st = Some (tt, st') ->
  block_list st' = Some (l1 ++ (b, s, v) :: l2).
Proof.
  intros Hlist Hcont Hsizes Hv Hput.
  apply block_list_elim in Hlist as [Hseg Hmapped].
  apply store_le_inv in Hput as [-> _].
  apply lseg_split in Hseg as (b' & Hseg1 & Hseg2).
  apply lseg_cons_inv in Hseg2 as (Hbnz & Htriple & Hseg2).
  assert (b' = b) by congruence. subst b'.
  assert (Hs : word_at 8 (b + off_size) (bytes st) = s) by congruence.
  clear Htriple.
  pose proof (contiguous_below _ _ _ _ _ Hcont Hsizes) as Hbelow.
  pose proof (contiguous_above _ _ _ _ (contiguous_app_r _ _ Hcont)
                (proj2 (proj1 (Forall_app _ _ _) Hsizes))) as Habove.
  assert (Hsb : 0 <= s).
  { apply Forall_app in Hsizes as [_ Hs2]. inversion Hs2; subst. assumption. }
  apply block_list_intro.
  - change (free_list (set_bytes _ st)) with (free_list st). cbn [bytes set_bytes].
    apply (lseg_app _ _ b).
    + apply (lseg_frame (bytes st)); [exact Hseg1|].
      intros x Hx. rewrite Forall_forall in Hbelow, Hsizes.
      specialize (Hbelow x Hx).
      specialize (Hsizes x ltac:(apply elem_of_app; left; exact Hx)).
      repeat split; apply word_at_write_le_disj; offsets; lia.
    + apply (lseg_cons' _ _ _ _ _ (word_at 8 (b + off_next) (bytes st))).
      * exact Hbnz.
      * rewrite word_at_write_le_disj by (offsets; lia). exact Hs.
      * rewrite word_at_write_le_same. rewrite pow256_4. apply Z.mod_small. lia.
      * apply word_at_write_le_disj. offsets. lia.
      * apply (lseg_frame (bytes st)); [exact Hseg2|].
        intros y Hy. rewrite Forall_forall in Habove. specialize (Habove y Hy).
        repeat split; apply word_at_write_le_disj; offsets; lia.
  - apply Forall_app in Hmapped as [Hm1 Hm2]. inversion Hm2; subst.
    apply Forall_app. split; [exact Hm1|]. constructor; assumption.
  - rewrite (contiguous_set_flag l1 b s v f l2). exact Hcont.
  - apply Forall_app in Hsizes as [Hs1 Hs2]. inversion Hs2; subst.
    apply Forall_app. split; [exact Hs1|]. constructor; assumption.
Qed.

Lemma sizes_nonneg l :
  Forall (fun x => 0 <= x.1.2 < 2 ^ 64) l -> Forall (fun x => 0 <= x.1.2) l.
Proof.
  intros H. eapply Forall_impl; [exact H|]. intros x Hx. cbn beta in Hx. lia.
Qed.

(** Splitting a block of an ordered heap leaves an ordered heap. *)
Lemma split_block_ordered st st' l1 b s0 f l2 size :
  block_list st = Some (l1 ++ (b, s0, f) :: l2) ->
  contiguous (l1 ++ (b, s0, f) :: l2) = true ->
  Forall (fun x => 0 <= x.1.2 < 2 ^ 64) (l1 ++ (b, s0, f) :: l2) ->
  0 <= size -> size + BLOCK_SIZE <= s0 ->
  split_block b size st = Some (tt, st') ->
  ordered_heap st'.
Proof.
  intros Hlist Hcont Hsizes Hsize Hfits Hsplit.
  assert (Hs0 : 0 <= s0 < 2 ^ 64).
  { apply Forall_app in Hsizes as [_ Hs2]. inversion Hs2; subst. assumption. }
  destruct (split_block_keeps_address_order st st' l1 b s0 f l2 size Hlist Hcont
              (sizes_nonneg _ Hsizes) Hsize Hfits ltac:(lia) Hsplit)
    as (Hlist' & Hcont' & Hord').
  eexists. split; [exact Hlist'|]. split; [exact Hcont'|]. split; [exact Hord'|].
  apply Forall_app in Hsizes as [Hs1 Hs2]. inversion Hs2; subst.
  apply Forall_app. split; [exact Hs1|].
  constructor; [cbn [fst snd]; unfold BLOCK_SIZE in *; lia|].
  constructor; [cbn [fst snd]; unfold BLOCK_SIZE in *; lia|]. assumption.
Qed.

Lemma align_size_small m :
  0 < m <= 2 ^ 64 - 64 ->
  0 < align_size m /\ align_size m + BLOCK_SIZE + ALIGNMENT < 2 ^ 64.
Proof.
  intros Hm. pose proof (align_size_bounds m ltac:(lia)) as [H _].
  unfold BLOCK_SIZE, ALIGNMENT. lia.
Qed.

End PublicOperations.

(** * Allocation on a heap that lies in mapped memory *)

Section Totality.

Implicit Types (st : state) (bs : gmap Z Z) (l : list (Z * Z * Z)).

(** The search ends whenever the walk over the list does. *)
Lemma find_block_loop_total fuel : forall size a st l,
  walk_loop fuel a st = Some (l, st) ->
  exists r, find_block_loop fuel size a st = Some (r, st).
Proof.
  induction fuel as [|fuel IH]; intros size a st l H.
  - cbn in *. destruct (a =? NULL); [eexists; reflexivity | discriminate].
  - cbn [walk_loop find_block_loop] in *.
    destruct (a =? NULL); [eexists; reflexivity|].
    unfold get_size, get_free, get_next in *.
    inv_bind H s t1 H1. apply load_le_inv in H1 as (-> & -> & Hm1).
    inv_bind H f t2 H2. apply load_le_inv in H2 as (-> & -> & Hm2).
    inv_bind H n t3 H3. apply load_le_inv in H3 as (-> & -> & Hm3).
    inv_bind H r t4 H4. pose proof H4 as H4'.
    apply walk_loop_lseg in H4' as (-> & _ & _).
    destruct (IH size _ _ _ H4) as (r' & Hr').
    rewrite (bind_eq _ _ _ _ _ (load_le_eq 4 st _ Hm2)).
    destruct (word_at 4 (a + off_free) (bytes st) =? 0).
    + exists r'. cbv beta iota. rewrite (bind_ret false). cbv beta iota.
      rewrite (bind_eq _ _ _ _ _ (load_le_eq 8 st _ Hm3)). exact Hr'.
    + destruct (size <=? word_at 8 (a + off_size) (bytes st)) eqn:Hfit.
      * exists a. cbv beta iota.
        rewrite (bind_eq _ _ _ _ _
                   (bind_eq _ _ _ _ _ (load_le_eq 8 st (a + off_size) Hm1))).
        cbv beta. rewrite Hfit. reflexivity.
      * exists r'. cbv beta iota.
        rewrite (bind_eq _ _ _ _ _
                   (bind_eq _ _ _ _ _ (load_le_eq 8 st (a + off_size) Hm1))).
        cbv beta. rewrite Hfit.
        rewrite (bind_eq _ _ _ _ _ (load_le_eq 8 st _ Hm3)). exact Hr'.
Qed.

Lemma find_block_total st l size :
  block_list st = Some l ->
  exists r, find_block size st = Some (r, st).
Proof.
  unfold block_list, peek, result. intros H.
  destruct (walk_loop (heap_fuel st) (free_list st) st) as [[l0 st1]|] eqn:Hwalk;
    [|discriminate].
  pose proof Hwalk as Hw. apply walk_loop_lseg in Hw as (-> & _ & _).
  destruct (find_block_loop_total _ size _ _ _ Hwalk) as (r & Hr).
  exists r. unfold find_block, bind, get_free_list. exact Hr.
Qed.

(** On a heap whose blocks lie in mapped memory [allocator_malloc] returns,
    and a block it returns has room for the aligned request. *)
Lemma malloc_total st size :
  mapped_heap st -> 0 < size <= 2 ^ 64 - 2 * PAGE_SIZE ->
  exists p st',
    allocator_malloc size st = Some (p, st')
    /\ (p <> NULL -> range_mapped st' p (align_size size)).
Proof.
  intros (l & Hlist & Hext) Hsize.
  pose proof (align_size_bounds size ltac:(unfold PAGE_SIZE in *; lia)) as [Ham _].
  set (am := align_size size) in *.
  pose proof (block_list_elim _ _ Hlist) as [Hseg Hmapped].
  destruct (find_block_total st l am Hlist) as (r & Hfind).
  unfold allocator_malloc. fold am.
  replace (size =? 0) with false by (symmetry; apply Z.eqb_neq; lia).
  rewrite (bind_eq _ _ _ _ _ Hfind).
  destruct (r =? NULL) eqn:Hr.
  - (* a miss: the heap is extended behind the list head *)
    unfold get_free_list at 1. unfold bind at 1.
    assert (Hlast : free_list st = NULL
                    \/ range_mapped st (free_list st + off_next) 8).
    { destruct l as [|[[a s] f] l]; [left; eapply lseg_nil_inv, Hseg|].
      right. apply lseg_cons_inv in Hseg as (_ & Htriple & _).
      assert (a = free_list st) by congruence. subst a.
      inversion Hext as [|? ? (Hs & Hrange) _]; subst. cbn [fst snd] in *.
      eapply range_mapped_sub; [exact Hrange | offsets; lia | offsets; lia]. }
    destruct (mmap_total (mapping_length am) st) as (b2 & stm & Hmm).
    pose proof Hmm as Hmm'.
    apply mmap_inv in Hmm' as [(-> & _)|(pg2 & rest2 & Hos & Hp & -> & ->)].
    + exists NULL, stm. split; [|congruence].
      unfold extend_heap. fold (mapping_length am).
      rewrite (bind_eq _ _ _ _ _ (bind_eq _ _ _ _ _ Hmm)).
      rewrite Z.eqb_refl. reflexivity.
    + pose proof (extend_heap_success st _ am pg2 rest2 Hos Hp Hlast) as Hext2.
      cbv zeta in Hext2. rewrite (bind_eq _ _ _ _ _ Hext2).
      pose proof (placeable_inv _ _ _ Hp) as (_ & Hpg & Htop & _).
      pose proof (mapping_length_bounds am ltac:(lia)
                    ltac:(unfold BLOCK_SIZE, PAGE_SIZE in *; lia)) as [HL HLmod].
      pose proof (page_count_exact (mapping_length am)
                    ltac:(unfold BLOCK_SIZE in *; lia) HLmod) as Hexact.
      replace (pg2 * PAGE_SIZE =? NULL) with false
        by (symmetry; apply Z.eqb_neq; unfold NULL, PAGE_SIZE; lia).
      eexists _, _. split; [reflexivity|]. intros _.
      eapply (range_mapped_pages
                (State (pages st ∪ list_to_set (page_span pg2 (mapping_length am)))
                       (bytes st) (free_list st) rest2));
        [destruct (free_list st =? NULL); reflexivity|].
      apply range_mapped_new; [exact Hp | unfold BLOCK_SIZE; lia|].
      rewrite Z.mul_add_distr_r, Hexact. lia.
  - (* a hit *)
    apply Z.eqb_neq in Hr. pose proof Hfind as Hfind'.
    unfold find_block, bind, get_free_list in Hfind'.
    destruct (find_block_loop_lseg _ _ _ _ _ _ _ Hfind' Hseg Hr)
      as (l1 & s & f & l2 & -> & Hf & Hfit).
    apply Forall_app in Hext as [_ Hext2].
    inversion Hext2 as [|? ? (Hs & Hrange) Hext3]; subst. cbn [fst snd] in *.
    apply lseg_split in Hseg as (b' & _ & Hseg2).
    apply lseg_cons_inv in Hseg2 as (_ & Htriple & Hseg3).
    assert (Hb' : b' = r) by congruence. subst b'.
    assert (Hsz : word_at 8 (r + off_size) (bytes st) = s) by congruence.
    clear Htriple.
    assert (Hsub : forall bs o k, 0 <= o -> o + k <= BLOCK_SIZE + s ->
                     range_mapped (set_bytes bs st) (r + o) k).
    { intros bs o k Ho Hk. apply range_mapped_set_bytes.
      eapply range_mapped_sub; [exact Hrange | lia | lia]. }
    unfold put_free.
    rewrite (bind_eq _ _ _ _ _
               (store_le_eq 4 st (r + off_free) 0
                  (Hsub (bytes st) off_free 4 ltac:(offsets; lia) ltac:(offsets; lia)))).
    set (bs1 := write_le 4 (r + off_free) 0 (bytes st)).
    unfold get_size.
    rewrite (bind_eq _ _ _ _ _
               (load_le_eq 8 (set_bytes bs1 st) (r + off_size)
                  (Hsub bs1 off_size 8 ltac:(offsets; lia) ltac:(offsets; lia)))).
    cbn [bytes set_bytes]. unfold bs1 at 1.
    rewrite word_at_write_le_disj by (offsets; lia). rewrite Hsz.
    rewrite (wrap_small (am + BLOCK_SIZE + ALIGNMENT))
      by (unfold BLOCK_SIZE, ALIGNMENT, PAGE_SIZE in *; lia).
    destruct (am + BLOCK_SIZE + ALIGNMENT <? s) eqn:Hcut.
    + apply Z.ltb_lt in Hcut.
      assert (Hnext : word_at 8 (r + off_next) bs1
                      = word_at 8 (r + off_next) (bytes st)).
      { unfold bs1. apply word_at_write_le_disj. offsets. lia. }
      assert (Hnn : wrap (word_at 8 (r + off_next) (bytes (set_bytes bs1 st))) <> NULL ->
                    range_mapped (set_bytes bs1 st)
                      (wrap (word_at 8 (r + off_next) (bytes (set_bytes bs1 st)))
                       + off_prev) 8).
      { cbn [bytes set_bytes]. rewrite Hnext.
        destruct l2 as [|[[y sy] fy] l2].
        - apply lseg_nil_inv in Hseg3. rewrite Hseg3. intros Hc. exfalso.
          apply Hc. reflexivity.
        - apply lseg_cons_inv in Hseg3 as (_ & Htriple & _).
          assert (Hy : y = word_at 8 (r + off_next) (bytes st)) by congruence.
          rewrite <- Hy. clear Htriple.
          inversion Hext3 as [|? ? (Hsy & Hyrange) _]; subst. cbn [fst snd] in *.
          pose proof (range_mapped_range _ _ _ 0 Hyrange
                        ltac:(unfold BLOCK_SIZE; lia)) as Hyr.
          rewrite wrap_small by (unfold PAGE_SIZE in *; lia).
          intros _. apply range_mapped_set_bytes.
          eapply range_mapped_sub; [exact Hyrange | offsets; lia | offsets; lia]. }
      rewrite (bind_eq _ _ _ _ _
                 (split_block_eq (set_bytes bs1 st) r am ltac:(lia)
                    (Hsub bs1 off_size 8 ltac:(offsets; lia) ltac:(offsets; lia))
                    (Hsub bs1 off_next 8 ltac:(offsets; lia) ltac:(offsets; lia))
                    ltac:(replace (r + BLOCK_SIZE + am + off_size)
                            with (r + (BLOCK_SIZE + am + off_size)) by lia;
                          apply Hsub; offsets; unfold ALIGNMENT in *; lia)
                    ltac:(replace (r + BLOCK_SIZE + am + off_free)
                            with (r + (BLOCK_SIZE + am + off_free)) by lia;
                          apply Hsub; offsets; unfold ALIGNMENT in *; lia)
                    ltac:(replace (r + BLOCK_SIZE + am + off_next)
                            with (r + (BLOCK_SIZE + am + off_next)) by lia;
                          apply Hsub; offsets; unfold ALIGNMENT in *; lia)
                    ltac:(replace (r + BLOCK_SIZE + am + off_prev)
                            with (r + (BLOCK_SIZE + am + off_prev)) by lia;
                          apply Hsub; offsets; unfold ALIGNMENT in *; lia)
                    Hnn)).
      eexists _, _. split; [reflexivity|]. intros _.
      apply range_mapped_set_bytes. apply (Hsub (bytes st)); unfold BLOCK_SIZE; lia.
    + rewrite (bind_ret tt). eexists _, _. split; [reflexivity|]. intros _.
      apply (Hsub bs1); unfold BLOCK_SIZE; lia.
Qed.

(** Hence [allocator_calloc] returns as well, with the block zeroed. *)
Lemma calloc_total st c s :
  mapped_heap st -> 0 < wrap (c * s) <= 2 ^ 64 - 2 * PAGE_SIZE ->
  exists p st2,
    allocator_calloc c s st = Some (p, st2)
    /\ (p <> NULL ->
        forall i, 0 <= i < wrap (c * s) -> peek (load_byte (p + i)) st2 = Some 0).
Proof.
  intros Hheap Hn.
  destruct (malloc_total st (wrap (c * s)) Hheap Hn) as (p & st1 & Hmalloc & Hroom).
  destruct (Z.eq_dec p NULL) as [->|Hp].
  - exists NULL, st1. split; [|congruence].
    unfold allocator_calloc. rewrite (bind_eq _ _ _ _ _ Hmalloc). reflexivity.
  - pose proof (align_size_bounds (wrap (c * s))
                  ltac:(unfold PAGE_SIZE in *; lia)) as [Ham _].
    assert (Hmap : range_mapped st1 p (wrap (c * s)))
      by (eapply range_mapped_sub; [apply Hroom, Hp | lia | lia]).
    destruct (calloc_after_malloc st c s p st1 Hmalloc Hp Hmap)
      as (st2 & Hc & Hz & _).
    exists p, st2. split; [exact Hc|]. intros _. exact Hz.
Qed.

(** The empty list is such a heap. *)
Lemma mapped_heap_fresh answers : mapped_heap (fresh answers).
Proof. exists []. split; [reflexivity | constructor]. Qed.

End Totality.

(** * The search is a first fit *)

Section FirstFit.

Implicit Types (st : state) (l : list (Z * Z * Z)).

Lemma find_block_loop_first_fit fuel : forall size a st l,
  walk_loop fuel a st = Some (l, st) ->
  find_block_loop fuel size a st = Some (first_fit size l, st).
Proof.
  induction fuel as [|fuel IH]; intros size a st l H.
  - cbn in H |- *. destruct (a =? NULL); [|discriminate].
    apply ret_inv in H as [-> _]. reflexivity.
  - cbn [walk_loop find_block_loop] in H |- *.
    destruct (a =? NULL).
    { apply ret_inv in H as [-> _]. reflexivity. }
    unfold get_size, get_free, get_next in *.
    inv_bind H s t1 H1. apply load_le_inv in H1 as (-> & -> & Hm1).
    inv_bind H f t2 H2. apply load_le_inv in H2 as (-> & -> & Hm2).
    inv_bind H n t3 H3. apply load_le_inv in H3 as (-> & -> & Hm3).
    inv_bind H r t4 H4. pose proof H4 as H4'.
    apply walk_loop_lseg in H4' as (-> & _ & _).
    apply ret_inv in H as [-> _].
    specialize (IH size _ _ _ H4).
    rewrite (bind_eq _ _ _ _ _ (load_le_eq 4 st _ Hm2)).
    cbn [first_fit]. unfold fits. cbn [fst snd].
    destruct (word_at 4 (a + off_free) (bytes st) =? 0).
    + cbv beta iota. rewrite (bind_ret false). cbv beta iota.
      rewrite (bind_eq _ _ _ _ _ (load_le_eq 8 st _ Hm3)). exact IH.
    + cbn [negb andb].
      rewrite (bind_eq _ _ _ _ _
                 (bind_eq _ _ _ _ _ (load_le_eq 8 st (a + off_size) Hm1))).
      cbv beta.
      destruct (size <=? word_at 8 (a + off_size) (bytes st)); [reflexivity|].
      rewrite (bind_eq _ _ _ _ _ (load_le_eq 8 st _ Hm3)). exact IH.
Qed.

Lemma find_block_eq st l size :
  block_list st = Some l -> find_block size st = Some (first_fit size l, st).
Proof.
  unfold block_list, peek, result. intros H.
  destruct (walk_loop (heap_fuel st) (free_list st) st) as [[l0 st1]|] eqn:Hwalk;
    [|discriminate].
  cbn in H. apply (inj Some) in H. subst l0.
  pose proof Hwalk as Hw. apply walk_loop_lseg in Hw as (-> & _ & _).
  unfold find_block, bind, get_free_list.
  apply find_block_loop_first_fit. exact Hwalk.
Qed.

(** What [first_fit] picks. *)
Lemma first_fit_spec bs size l : forall a,
  lseg bs a NULL l ->
  (first_fit size l = NULL /\ Forall (fun x => fits size x = false) l)
  \/ (exists l1 x l2,
        l = l1 ++ x :: l2 /\ x.1.1 = first_fit size l /\ x.1.1 <> NULL
        /\ fits size x = true /\ Forall (fun y => fits size y = false) l1).
Proof.
  induction l as [|x l IH]; intros a Hseg.
  - left. split; [reflexivity | constructor].
  - apply lseg_cons_inv in Hseg as (Ha & Hx & Hseg).
    cbn [first_fit]. destruct (fits size x) eqn:Hfit.
    + right. exists [], x, l.
      split; [reflexivity|]. split; [reflexivity|].
      split; [rewrite Hx; exact Ha|]. split; [exact Hfit | constructor].
    + destruct (IH _ Hseg) as [[H0 Hall]|(l1 & y & l2 & -> & Hy & Hnz & Hyfit & Hall)].
      * left. split; [exact H0 | constructor; assumption].
      * right. exists (x :: l1), y, l2. repeat split; try assumption.
        constructor; assumption.
Qed.

End FirstFit.

(** * Allocation on a search miss *)

Section Miss.

Implicit Types (st : state) (l : list (Z * Z * Z)).

Lemma block_list_short st l :
  lseg (bytes st) (free_list st) NULL l -> Forall (header_mapped st) l ->
  (length l <= heap_fuel st)%nat ->
  block_list st = Some l.
Proof.
  intros Hseg Hmapped Hfuel. unfold block_list, peek, result.
  rewrite (lseg_walk_loop l _ _ st Hseg Hmapped Hfuel). reflexivity.
Qed.

Lemma heap_fuel_mapped st a : mapped st a = true -> (2 <= heap_fuel st)%nat.
Proof.
  unfold mapped. rewrite !andb_true_iff, bool_decide_eq_true. intros [_ Hin].
  unfold heap_fuel.
  assert (size (pages st) <> 0%nat).
  { intros Hz. apply size_empty_iff in Hz. set_solver. }
  unfold PAGE_SIZE. lia.
Qed.

(** The state a successful extension leaves (see [extend_heap_success]). *)
Lemma malloc_miss_eq st size pg rest :
  size <> 0 ->
  find_block (align_size size) st = Some (NULL, st) ->
  os_answers st = Some pg :: rest ->
  placeable st pg (mapping_length (align_size size)) = true ->
  free_list st = NULL \/ range_mapped st (free_list st + off_next) 8 ->
  let last := free_list st in
  let len := mapping_length (align_size size) in
  let b := pg * PAGE_SIZE in
  let st0 := State (pages st ∪ list_to_set (page_span pg len))
                   (bytes st) (free_list st) rest in
  let bs := fresh_header b len last (bytes st) in
  allocator_malloc size st
  = Some (b + BLOCK_SIZE,
          if last =? NULL then set_free_list b (set_bytes bs st0)
          else set_bytes (write_le 8 (last + off_next) b bs) st0).
Proof.
  intros Hsize Hfind Hos Hp Hlast last len b st0 bs.
  unfold allocator_malloc.
  replace (size =? 0) with false by (symmetry; apply Z.eqb_neq; exact Hsize).
  rewrite (bind_eq _ _ _ _ _ Hfind). rewrite Z.eqb_refl.
  unfold get_free_list at 1. unfold bind at 1.
  pose proof (extend_heap_success st _ (align_size size) pg rest Hos Hp Hlast) as He.
  cbv zeta in He. rewrite (bind_eq _ _ _ _ _ He).
  pose proof (placeable_inv _ _ _ Hp) as (_ & Hpg & _).
  replace (pg * PAGE_SIZE =? NULL) with false
    by (symmetry; apply Z.eqb_neq; unfold NULL, PAGE_SIZE; lia).
  reflexivity.
Qed.

End Miss.

Section MissList.

Implicit Types (st : state) (l : list (Z * Z * Z)).

Lemma fresh_header_words b len last bs :
  let bs' := fresh_header b len last bs in
  word_at 8 (b + off_size) bs' = wrap (len - BLOCK_SIZE)
  /\ word_at 4 (b + off_free) bs' = 0
  /\ word_at 8 (b + off_next) bs' = NULL
  /\ word_at 8 (b + off_prev) bs' = wrap last.
Proof.
  unfold fresh_header. split; [|split; [|split]]; mem_simpl.
  - rewrite wrap_pow256_8. apply wrap_wrap.
  - reflexivity.
  - reflexivity.
  - apply wrap_pow256_8.
Qed.

Lemma fresh_header_frame b len last bs k a :
  a + Z.of_nat k <= b \/ b + BLOCK_SIZE <= a ->
  word_at k a (fresh_header b len last bs) = word_at k a bs.
Proof. intros H. unfold fresh_header. mem_simpl. reflexivity. Qed.

(** The list after a miss: the head, if there is one, and the new block. *)
Lemma malloc_miss_list st l n pg rest :
  n <> 0 ->
  let len := mapping_length (align_size n) in
  BLOCK_SIZE <= len < 2 ^ 64 -> len mod PAGE_SIZE = 0 ->
  block_list st = Some l ->
  find_block (align_size n) st = Some (NULL, st) ->
  os_answers st = Some pg :: rest ->
  placeable st pg len = true ->
  exists st',
    allocator_malloc n st = Some (pg * PAGE_SIZE + BLOCK_SIZE, st')
    /\ block_list st' = Some (take 1 l ++ [(pg * PAGE_SIZE, len - BLOCK_SIZE, 0)])
    /\ os_answers st' = rest
    /\ range_mapped st' (pg * PAGE_SIZE) len
    /\ word_at 8 (pg * PAGE_SIZE + off_prev) (bytes st') = wrap (free_list st)
    /\ pages st' = pages st ∪ list_to_set (page_span pg len).
Proof.
  intros Hn len HL HLmod Hlist Hfind Hos Hp.
  set (am := align_size n) in *.
  set (b := pg * PAGE_SIZE).
  pose proof (block_list_elim _ _ Hlist) as [Hseg Hmapped].
  pose proof (placeable_inv _ _ _ Hp) as (Hlen & Hpg & Htop & _).
  pose proof (page_count_exact len ltac:(unfold BLOCK_SIZE in *; lia) HLmod) as Hexact.
  assert (Hlast : free_list st = NULL \/ range_mapped st (free_list st + off_next) 8).
  { destruct l as [|[[a s] f] l]; [left; eapply lseg_nil_inv, Hseg|].
    right. apply lseg_cons_inv in Hseg as (_ & Htriple & _).
    assert (a = free_list st) by congruence. subst a.
    inversion Hmapped as [|? ? (_ & _ & H3) _]; subst. exact H3. }
  pose proof (malloc_miss_eq st n pg rest Hn Hfind Hos Hp Hlast) as Hrun.
  cbv zeta in Hrun. fold am len b in Hrun. rewrite Hrun. clear Hrun.
  set (st0 := State (pages st ∪ list_to_set (page_span pg len))
                    (bytes st) (free_list st) rest).
  destruct (fresh_header_words b len (free_list st) (bytes st))
    as (Hw1 & Hw2 & Hw3 & Hw4).
  rewrite wrap_small in Hw1 by (unfold BLOCK_SIZE, PAGE_SIZE in *; lia).
  assert (Hnew : forall st2 o k, pages st2 = pages st0 -> 0 <= o -> o + k <= len ->
                   range_mapped st2 (b + o) k).
  { intros st2 o k Hpages Ho Hk. apply (range_mapped_pages st0); [congruence|].
    apply range_mapped_new; [exact Hp | lia |].
    rewrite Z.mul_add_distr_r, Hexact. fold b. lia. }
  assert (Hbnz : b <> NULL) by (unfold b, NULL, PAGE_SIZE; lia).
  assert (Hfuel : forall st2, pages st2 = pages st0 -> (2 <= heap_fuel st2)%nat).
  { intros st2 Hpages. apply (heap_fuel_mapped _ b).
    specialize (Hnew st2 0 1 Hpages ltac:(lia) ltac:(unfold BLOCK_SIZE in *; lia) 0 ltac:(lia)).
    rewrite !Z.add_0_r in Hnew. exact Hnew. }
  destruct l as [|[[h s] f] l].
  - (* the list was empty *)
    apply lseg_nil_inv in Hseg. rewrite Hseg. change (NULL =? NULL) with true.
    cbv iota. eexists. split; [reflexivity|]. split; [|split; [reflexivity|split; [|split; [|reflexivity]]]].
    2:{ eapply range_mapped_sub;
          [apply (Hnew _ 0 len); [reflexivity|lia|lia] | fold b; lia | fold b; lia]. }
    2:{ cbn [bytes set_bytes set_free_list]. fold b. rewrite Hseg in Hw4. exact Hw4. }
    cbn [take app]. apply block_list_short.
    + cbn [bytes set_bytes set_free_list free_list].
      rewrite Hseg in Hw1, Hw2, Hw3.
      apply (lseg_cons' _ _ _ _ _ NULL); try assumption. constructor.
    + constructor; [|constructor]. unfold header_mapped. cbn [fst].
      repeat split; apply Hnew; try reflexivity; offsets; lia.
    + etransitivity; [|apply Hfuel; reflexivity]. cbn [length]. lia.
  - (* the new block goes behind the head, whatever followed it *)
    apply lseg_cons_inv in Hseg as (Hh & Htriple & _).
    assert (Hhd : h = free_list st) by congruence.
    assert (Hs : word_at 8 (h + off_size) (bytes st) = s) by congruence.
    assert (Hf : word_at 4 (h + off_free) (bytes st) = f) by congruence.
    clear Htriple.
    inversion Hmapped as [|? ? (Hm1 & Hm2 & Hm3) _]; subst. cbn [fst] in *.
    set (h := free_list st) in *.
    replace (h =? NULL) with false by (symmetry; apply Z.eqb_neq; exact Hh).
    eexists. split; [reflexivity|]. split; [|split; [reflexivity|split; [|split; [|reflexivity]]]].
    2:{ eapply range_mapped_sub;
          [apply (Hnew _ 0 len); [reflexivity|lia|lia] | fold b; lia | fold b; lia]. }
    2:{ cbn [bytes set_bytes]. fold b.
        pose proof (range_not_new st pg len _ 8 Hp ltac:(lia) Hm3) as Hd3'.
        rewrite Z.mul_add_distr_r, Hexact in Hd3'. fold b in Hd3'.
        rewrite word_at_write_le_disj by (offsets; lia). exact Hw4. }
    cbn [take app].
    pose proof (range_not_new st pg len _ 8 Hp ltac:(lia) Hm1) as Hd1.
    pose proof (range_not_new st pg len _ 4 Hp ltac:(lia) Hm2) as Hd2.
    pose proof (range_not_new st pg len _ 8 Hp ltac:(lia) Hm3) as Hd3.
    rewrite Z.mul_add_distr_r, Hexact in Hd1, Hd2, Hd3. fold b in Hd1, Hd2, Hd3.
    pose proof (range_mapped_range _ _ _ 0 Hm1 ltac:(lia)) as Hr.
    assert (Hb0 : 0 <= b < 2 ^ 64) by (unfold b, PAGE_SIZE in *; lia).
    apply block_list_short.
    + cbn [bytes set_bytes free_list]. change (free_list st0) with h.
      apply (lseg_cons' _ _ _ _ _ b); [exact Hh | | | |].
      * rewrite word_at_write_le_disj by (offsets; lia).
        rewrite fresh_header_frame by (offsets; lia). reflexivity.
      * rewrite word_at_write_le_disj by (offsets; lia).
        rewrite fresh_header_frame by (offsets; lia). reflexivity.
      * rewrite word_at_write_le_same, wrap_pow256_8. apply wrap_small. exact Hb0.
      * apply (lseg_cons' _ _ _ _ _ NULL); [exact Hbnz | | | | constructor].
        -- rewrite word_at_write_le_disj by (offsets; lia). exact Hw1.
        -- rewrite word_at_write_le_disj by (offsets; lia). exact Hw2.
        -- rewrite word_at_write_le_disj by (offsets; lia). exact Hw3.
    + constructor; [|constructor; [|constructor]].
      * unfold header_mapped. cbn [fst].
        repeat split; apply range_mapped_set_bytes, range_mapped_old; assumption.
      * unfold header_mapped. cbn [fst].
        repeat split; apply Hnew; try reflexivity; offsets; lia.
    + etransitivity; [|apply Hfuel; reflexivity]. simpl. lia.
Qed.

End MissList.

(** * A heap that is one run of blocks *)

Section Region.

Implicit Types (st : state) (bs : gmap Z Z) (l : list (Z * Z * Z)).

Lemma merge_blocks_halves block st :
  merge_blocks block st = (merge_with_next block ;; merge_with_prev block) st.
Proof.
  unfold merge_blocks, merge_with_next, merge_with_prev, bind.
  destruct (get_next block st) as [[n st1]|]; [|reflexivity].
  destruct ((if n =? NULL then ret 0 else get_free n) st1) as [[nf st2]|];
    reflexivity.
Qed.

Lemma prev_linked_frame bs bs' l : forall p,
  (forall x, x ∈ l ->
     word_at 8 (x.1.1 + off_prev) bs' = word_at 8 (x.1.1 + off_prev) bs) ->
  prev_linked bs' p l = prev_linked bs p l.
Proof.
  induction l as [|x l IH]; intros p H; [reflexivity|].
  cbn [prev_linked]. rewrite (H x) by apply list_elem_of_here.
  rewrite IH; [reflexivity|]. intros y Hy. apply H, list_elem_of_further, Hy.
Qed.

Lemma last_addr_snoc p l x : last_addr p (l ++ [x]) = x.1.1.
Proof. unfold last_addr. rewrite last_snoc. reflexivity. Qed.

Lemma last_addr_cons p x l : last_addr p (x :: l) = last_addr x.1.1 l.
Proof.
  unfold last_addr. destruct l as [|y l]; [reflexivity|].
  rewrite last_cons_cons. destruct (last (y :: l)) eqn:E; [reflexivity|].
  apply last_None in E. discriminate.
Qed.

Lemma prev_linked_app bs l1 : forall p l2,
  prev_linked bs p (l1 ++ l2)
  = prev_linked bs p l1 && prev_linked bs (last_addr p l1) l2.
Proof.
  induction l1 as [|x l1 IH]; intros p l2; [reflexivity|].
  cbn [app prev_linked]. rewrite IH, last_addr_cons, andb_assoc. reflexivity.
Qed.

Lemma lseg_head bs a l : lseg bs a NULL l -> a = head_addr l.
Proof.
  destruct l as [|x l]; intros H.
  - apply lseg_nil_inv in H. exact H.
  - apply lseg_cons_inv in H as (_ & -> & _). reflexivity.
Qed.

Lemma extent_header st x : extent_mapped st x -> header_mapped st x.
Proof.
  intros [Hs Hr]. unfold header_mapped.
  repeat split; (eapply range_mapped_sub; [exact Hr | offsets; lia | offsets; lia]).
Qed.

Lemma extent_sizes st l :
  Forall (extent_mapped st) l -> Forall (fun x => 0 <= x.1.2) l.
Proof. intros H. eapply Forall_impl; [exact H|]. intros x [Hx _]. exact Hx. Qed.

Lemma extent_pages st st' l :
  pages st' = pages st -> Forall (extent_mapped st) l -> Forall (extent_mapped st') l.
Proof.
  intros Hp H. eapply Forall_impl; [exact H|]. intros x [Hx Hr].
  split; [exact Hx|]. eapply range_mapped_pages; [symmetry; exact Hp | exact Hr].
Qed.

Lemma region_intro st l :
  lseg (bytes st) (free_list st) NULL l -> contiguous l = true ->
  Forall (extent_mapped st) l -> prev_linked (bytes st) NULL l = true ->
  region_heap st l.
Proof.
  intros Hseg Hcont Hext Hprev. split; [|repeat split; assumption].
  apply block_list_intro; [exact Hseg | | exact Hcont | eapply extent_sizes, Hext].
  eapply Forall_impl; [exact Hext | apply extent_header].
Qed.

(** What a region heap says about one of its blocks. *)
Lemma region_split st l1 b s f l2 :
  region_heap st (l1 ++ (b, s, f) :: l2) ->
  lseg (bytes st) (free_list st) b l1
  /\ b <> NULL
  /\ word_at 8 (b + off_size) (bytes st) = s
  /\ word_at 4 (b + off_free) (bytes st) = f
  /\ word_at 8 (b + off_next) (bytes st) = head_addr l2
  /\ word_at 8 (b + off_prev) (bytes st) = last_addr NULL l1
  /\ lseg (bytes st) (head_addr l2) NULL l2
  /\ prev_linked (bytes st) NULL l1 = true
  /\ prev_linked (bytes st) b l2 = true
  /\ Forall (fun x => x.1.1 + BLOCK_SIZE + x.1.2 <= b) l1
  /\ Forall (fun y => b + BLOCK_SIZE + s <= y.1.1) l2
  /\ (0 <= s /\ range_mapped st b (BLOCK_SIZE + s))
  /\ Forall (extent_mapped st) l1 /\ Forall (extent_mapped st) l2.
Proof.
  intros (Hlist & Hcont & Hext & Hprev).
  apply block_list_elim in Hlist as [Hseg _].
  apply lseg_split in Hseg as (b' & Hseg1 & Hseg2).
  apply lseg_cons_inv in Hseg2 as (Hbnz & Htriple & Hseg2).
  assert (b' = b) by congruence. subst b'.
  assert (Hs : word_at 8 (b + off_size) (bytes st) = s) by congruence.
  assert (Hf : word_at 4 (b + off_free) (bytes st) = f) by congruence.
  clear Htriple.
  pose proof (lseg_head _ _ _ Hseg2) as Hn.
  rewrite prev_linked_app in Hprev. apply andb_prop in Hprev as [Hp1 Hp2].
  cbn [prev_linked fst] in Hp2. apply andb_prop in Hp2 as [Hp2 Hp3].
  apply Z.eqb_eq in Hp2.
  pose proof (extent_sizes _ _ Hext) as Hsizes.
  pose proof (contiguous_below _ _ _ _ _ Hcont Hsizes) as Hbelow.
  pose proof (contiguous_above _ _ _ _ (contiguous_app_r _ _ Hcont)
                (proj2 (proj1 (Forall_app _ _ _) Hsizes))) as Habove.
  apply Forall_app in Hext as [He1 He2].
  inversion He2 as [|? ? Heb He3]; subst.
  rewrite Hn in Hseg2.
  repeat split; try assumption; apply Heb.
Qed.

End Region.

Section RegionOps.

Implicit Types (st : state) (bs : gmap Z Z) (l : list (Z * Z * Z)).

Lemma in_headers_false l a :
  in_headers l a = false <->
  forall w, w ∈ l -> a < w.1.1 \/ w.1.1 + BLOCK_SIZE <= a.
Proof.
  unfold in_headers. induction l as [|x l IH]; cbn [existsb].
  - split; [intros _ w Hw; apply elem_of_nil in Hw; contradiction | reflexivity].
  - rewrite orb_false_iff, IH. split.
    + intros [Hx Hl] w Hw. apply elem_of_cons in Hw as [->|Hw]; [|apply Hl, Hw].
      apply andb_false_iff in Hx as [Hx|Hx]; [left|right]; lia.
    + intros H. split.
      * specialize (H x (list_elem_of_here _ _)).
        apply andb_false_iff. destruct H; [left|right]; lia.
      * intros w Hw. apply H, list_elem_of_further, Hw.
Qed.

Lemma in_headers_app l1 l2 a :
  in_headers (l1 ++ l2) a = in_headers l1 a || in_headers l2 a.
Proof. unfold in_headers. apply existsb_app. Qed.

Lemma range_mapped_app st a n m :
  0 <= n -> range_mapped st a n -> range_mapped st (a + n) m ->
  range_mapped st a (n + m).
Proof.
  intros Hn H1 H2 i Hi. destruct (Z_lt_dec i n) as [Hlt|Hge].
  - apply H1. lia.
  - replace (a + i) with (a + n + (i - n)) by lia. apply H2. lia.
Qed.

(** Setting the flag of a block. *)
Lemma put_free_region st l1 b s f l2 v :
  region_heap st (l1 ++ (b, s, f) :: l2) -> 0 <= v < 2 ^ 32 ->
  let st' := set_bytes (write_le 4 (b + off_free) v (bytes st)) st in
  put_free b v st = Some (tt, st')
  /\ region_heap st' (l1 ++ (b, s, v) :: l2).
Proof.
  intros Hreg Hv st'.
  pose proof (region_split _ _ _ _ _ _ Hreg)
    as (Hseg1 & Hbnz & Hws & Hwf & Hwn & Hwp & Hseg2 & Hp1 & Hp2 & Hbelow & Habove
        & (Hs & Hrange) & He1 & He2).
  destruct Hreg as (Hlist & Hcont & Hext & Hprev).
  assert (Hput : put_free b v st = Some (tt, st')).
  { unfold put_free. apply store_le_eq.
    eapply range_mapped_sub; [exact Hrange | offsets; lia | offsets; lia]. }
  split; [exact Hput|].
  split; [|split; [|split]].
  - eapply put_free_block_list; [exact Hlist | exact Hcont | | exact Hv | exact Hput].
    eapply extent_sizes, Hext.
  - rewrite (contiguous_set_flag l1 b s v f l2). exact Hcont.
  - apply Forall_app. split; [apply (extent_pages st); [reflexivity | exact He1]|].
    constructor; [split; assumption|].
    apply (extent_pages st); [reflexivity | exact He2].
  - unfold st'. cbn [bytes set_bytes].
    rewrite <- Hprev. rewrite !prev_linked_app. cbn [prev_linked fst].
    rewrite word_at_write_le_disj by (offsets; lia).
    f_equal; [|f_equal].
    + apply prev_linked_frame. intros x Hx.
      rewrite Forall_forall in Hbelow, He1.
      specialize (Hbelow x Hx). destruct (He1 x Hx) as [Hxs _].
      apply word_at_write_le_disj. offsets. lia.
    + apply prev_linked_frame. intros y Hy.
      rewrite Forall_forall in Habove. specialize (Habove y Hy).
      apply word_at_write_le_disj. offsets. lia.
Qed.

Lemma contiguous_absorb l1 : forall x sx fx y sy fy l3,
  contiguous (l1 ++ (x, sx, fx) :: (y, sy, fy) :: l3) = true ->
  contiguous (l1 ++ (x, sx + BLOCK_SIZE + sy, fx) :: l3) = true.
Proof.
  induction l1 as [|[[a sa] fa] l1 IH]; intros x sx fx y sy fy l3 H.
  - cbn [app] in *. rewrite contiguous_cons2 in H.
    apply andb_prop in H as [Hy H]. apply Z.eqb_eq in Hy.
    destruct l3 as [|[[z sz] fz] l3]; [reflexivity|].
    rewrite contiguous_cons2 in H |- *. apply andb_prop in H as [Hz H].
    apply Z.eqb_eq in Hz. rewrite H, andb_true_r. apply Z.eqb_eq. lia.
  - cbn [app] in *. specialize (IH x sx fx y sy fy l3).
    destruct l1 as [|[[a2 s2] f2] l1]; cbn [app] in *;
      rewrite contiguous_cons2 in H |- *; apply andb_prop in H as [H1 H2];
      rewrite H1, (IH H2); reflexivity.
Qed.

End RegionOps.

(** * Coalescing *)

Section Absorb.

Implicit Types (st : state) (bs : gmap Z Z) (l : list (Z * Z * Z)).

Lemma word_at_1 a bs : word_at 1 a bs = byte_at bs a.
Proof. cbn [word_at]. lia. Qed.

(** Words away from the two fields of [x] and the one field of the block
    behind [y] that [absorb_store] writes. *)
Lemma absorb_store_frame x y bs k a :
  let nn := word_at 8 (y + off_next) bs in
  a + Z.of_nat k <= x \/ (x + 8 <= a /\ a + Z.of_nat k <= x + 16) \/ x + 24 <= a ->
  wrap nn = NULL \/ a + Z.of_nat k <= wrap nn + off_prev
  \/ wrap nn + BLOCK_SIZE <= a ->
  word_at k a (absorb_store x y bs) = word_at k a bs.
Proof.
  intros nn H1 H2. unfold absorb_store. fold nn.
  destruct (wrap nn =? NULL) eqn:Hz.
  - mem_simpl. reflexivity.
  - apply Z.eqb_neq in Hz. destruct H2 as [H2|H2]; [contradiction|].
    mem_simpl. reflexivity.
Qed.

Lemma absorb_store_words x y bs :
  let sx := word_at 8 (x + off_size) bs in
  let sy := word_at 8 (y + off_size) bs in
  let nn := word_at 8 (y + off_next) bs in
  let bs' := absorb_store x y bs in
  wrap nn = NULL \/ x + BLOCK_SIZE <= wrap nn + off_prev ->
  word_at 8 (x + off_size) bs' = wrap (sx + wrap (BLOCK_SIZE + sy))
  /\ word_at 8 (x + off_next) bs' = wrap nn
  /\ (wrap nn <> NULL -> word_at 8 (wrap nn + off_prev) bs' = wrap x).
Proof.
  intros sx sy nn bs' Hpos. unfold bs', absorb_store. fold sx sy nn.
  destruct (wrap nn =? NULL) eqn:Hz.
  - apply Z.eqb_eq in Hz. split; [|split].
    + mem_simpl. rewrite wrap_pow256_8. apply wrap_wrap.
    + mem_simpl. apply wrap_pow256_8.
    + intros Hc. contradiction.
  - apply Z.eqb_neq in Hz. destruct Hpos as [Hpos|Hpos]; [contradiction|].
    split; [|split].
    + mem_simpl. rewrite wrap_pow256_8. apply wrap_wrap.
    + mem_simpl. apply wrap_pow256_8.
    + intros _. mem_simpl. apply wrap_pow256_8.
Qed.

(** The successor of a block of a region heap: none, or the block that
    starts where this one ends. *)
Lemma region_next st l1 b s f l2 :
  region_heap st (l1 ++ (b, s, f) :: l2) ->
  (l2 = [] /\ head_addr l2 = NULL)
  \/ (exists sn fn l3,
        l2 = (b + BLOCK_SIZE + s, sn, fn) :: l3
        /\ head_addr l2 = b + BLOCK_SIZE + s
        /\ PAGE_SIZE <= b + BLOCK_SIZE + s < 2 ^ 64).
Proof.
  intros Hreg. destruct l2 as [|[[n sn] fn] l3]; [left; split; reflexivity|].
  right. destruct Hreg as (_ & Hcont & Hext & _).
  apply contiguous_app_r in Hcont. rewrite contiguous_cons2 in Hcont.
  apply andb_prop in Hcont as [Hn _]. apply Z.eqb_eq in Hn. subst n.
  exists sn, fn, l3. split; [reflexivity|]. split; [reflexivity|].
  apply Forall_app in Hext as [_ Hext]. inversion Hext as [|? ? _ Hext']; subst.
  inversion Hext' as [|? ? [Hsn Hr] _]; subst. cbn [fst snd] in Hr, Hsn.
  pose proof (range_mapped_range _ _ _ 0 Hr ltac:(unfold BLOCK_SIZE; lia)). lia.
Qed.

Lemma region_block_range st l1 b s f l2 :
  region_heap st (l1 ++ (b, s, f) :: l2) ->
  0 <= s /\ PAGE_SIZE <= b /\ b + BLOCK_SIZE + s <= 2 ^ 64.
Proof.
  intros Hreg.
  pose proof (region_split _ _ _ _ _ _ Hreg)
    as (_ & _ & _ & _ & _ & _ & _ & _ & _ & _ & _ & (Hs & Hrange) & _).
  pose proof (range_mapped_range _ _ _ 0 Hrange ltac:(unfold BLOCK_SIZE; lia)).
  pose proof (range_mapped_range _ _ _ (BLOCK_SIZE + s - 1) Hrange
                ltac:(unfold BLOCK_SIZE; lia)).
  lia.
Qed.

(** A block of a region heap takes in its successor. *)
Lemma absorb_region st l1 x sx fx y sy fy l3 :
  region_heap st (l1 ++ (x, sx, fx) :: (y, sy, fy) :: l3) ->
  let bs' := absorb_store x y (bytes st) in
  region_heap (set_bytes bs' st) (l1 ++ (x, sx + BLOCK_SIZE + sy, fx) :: l3)
  /\ (forall a, in_headers (l1 ++ (x, sx, fx) :: (y, sy, fy) :: l3) a = false ->
                byte_at bs' a = byte_at (bytes st) a)
  /\ word_at 4 (y + off_free) bs' = fy.
Proof.
  intros Hreg bs'.
  pose proof (region_split _ _ _ _ _ _ Hreg)
    as (Hseg1 & Hxnz & Hxs & Hxf & Hxn & Hxp & _ & Hp1 & _ & Hbelow & _
        & (Hsx & Hxrange) & He1 & _).
  cbn [head_addr fst] in Hxn.
  assert (Hreg' : region_heap st ((l1 ++ [(x, sx, fx)]) ++ (y, sy, fy) :: l3))
    by (rewrite <- app_assoc; exact Hreg).
  pose proof (region_split _ _ _ _ _ _ Hreg')
    as (_ & Hynz & Hys & Hyf & Hyn & _ & Hseg3 & _ & Hp3 & _ & Habove3
        & (Hsy & Hyrange) & _ & He3).
  pose proof (region_next _ _ _ _ _ _ Hreg) as [[Hc _]|(sn' & fn' & l3'' & Hl2 & _ & _)];
    [discriminate|].
  assert (Hy : y = x + BLOCK_SIZE + sx) by congruence. clear Hl2 sn' fn' l3''.
  pose proof (region_block_range _ _ _ _ _ _ Hreg) as (_ & Hxlo & _).
  pose proof (region_block_range _ _ _ _ _ _ Hreg') as (_ & _ & Hyhi).
  remember (head_addr l3) as nn eqn:Hnndef.
  (* the block behind [y] *)
  assert (Hnn : (l3 = [] /\ nn = NULL)
                \/ (exists sn fn l4, l3 = (nn, sn, fn) :: l4
                    /\ nn = y + BLOCK_SIZE + sy /\ PAGE_SIZE <= nn < 2 ^ 64
                    /\ 0 <= sn
                    /\ Forall (fun z => nn + BLOCK_SIZE + sn <= z.1.1) l4
                    /\ prev_linked (bytes st) nn l4 = true)).
  { pose proof (region_next _ _ _ _ _ _ Hreg')
      as [[Hl3 Hz]|(sn & fn & l4 & Hl3 & Hh & Hr)];
      [left; split; [exact Hl3 | congruence]|].
    right. exists sn, fn, l4. rewrite <- Hnndef in Hh. rewrite Hh.
    split; [exact Hl3|]. split; [reflexivity|]. split; [exact Hr|].
    subst l3.
    assert (Hreg'' : region_heap st ((l1 ++ [(x, sx, fx); (y, sy, fy)])
                                      ++ (y + BLOCK_SIZE + sy, sn, fn) :: l4))
      by (rewrite <- app_assoc; exact Hreg).
    pose proof (region_split _ _ _ _ _ _ Hreg'')
      as (_ & _ & _ & _ & _ & _ & _ & _ & Hp4 & _ & Habove4 & (Hsn & _) & _).
    repeat split; assumption. }
  assert (Hwnn : wrap nn = nn).
  { destruct Hnn as [[_ Hz]|(_ & _ & _ & _ & _ & Hr & _)]; [rewrite Hz; reflexivity|].
    apply wrap_small. unfold PAGE_SIZE in *. lia. }
  assert (Hpos : wrap nn = NULL \/ x + BLOCK_SIZE <= wrap nn + off_prev).
  { rewrite Hwnn. destruct Hnn as [[_ Hz]|(_ & _ & _ & _ & Hn & _)]; [left; exact Hz|].
    right. offsets. lia. }
  destruct (absorb_store_words x y (bytes st) ltac:(rewrite Hyn; exact Hpos))
    as (Hw1 & Hw2 & Hw3).
  fold bs' in Hw1, Hw2, Hw3. rewrite Hxs, Hys in Hw1. rewrite Hyn, Hwnn in Hw2, Hw3.
  rewrite (wrap_small (BLOCK_SIZE + sy)) in Hw1 by (unfold BLOCK_SIZE, PAGE_SIZE in *; lia).
  rewrite wrap_small in Hw1 by (unfold BLOCK_SIZE, PAGE_SIZE in *; lia).
  rewrite (wrap_small x) in Hw3 by (unfold BLOCK_SIZE, PAGE_SIZE in *; lia).
  assert (Hframe : forall k a,
            a + Z.of_nat k <= x \/ (x + 8 <= a /\ a + Z.of_nat k <= x + 16)
            \/ x + 24 <= a ->
            nn = NULL \/ a + Z.of_nat k <= nn + off_prev \/ nn + BLOCK_SIZE <= a ->
            word_at k a bs' = word_at k a (bytes st)).
  { intros k a H1 H2. apply absorb_store_frame; [exact H1|].
    rewrite Hyn, Hwnn. exact H2. }
  (* where the blocks behind [y] lie *)
  assert (Hl3pos : forall z, z ∈ l3 ->
            nn <> NULL /\ (z.1.1 = nn \/ nn + BLOCK_SIZE <= z.1.1)).
  { intros z Hz. destruct Hnn as [[-> _]|(sn & fn & l4 & -> & _ & Hr & Hsn & Hab & _)];
      [apply elem_of_nil in Hz; contradiction|].
    split; [unfold NULL, PAGE_SIZE in *; lia|].
    apply elem_of_cons in Hz as [->|Hz]; [left; reflexivity|].
    right. rewrite Forall_forall in Hab. specialize (Hab z Hz).
    unfold BLOCK_SIZE in *. lia. }
  assert (Hnnlo : nn = NULL \/ y + BLOCK_SIZE + sy <= nn).
  { destruct Hnn as [[_ Hz]|(_ & _ & _ & _ & Hn & _)]; [left; exact Hz | right; lia]. }
  split; [|split].
  - apply region_intro.
    + change (free_list (set_bytes bs' st)) with (free_list st).
      cbn [bytes set_bytes]. apply (lseg_app _ _ x).
      * apply (lseg_frame (bytes st)); [exact Hseg1|].
        intros z Hz. rewrite Forall_forall in Hbelow, He1.
        specialize (Hbelow z Hz). destruct (He1 z Hz) as [Hzs _].
        repeat split; apply Hframe; offsets; lia.
      * apply (lseg_cons' _ _ _ _ _ nn); [exact Hxnz | rewrite Hw1; lia | | exact Hw2 |].
        { rewrite Hframe by (offsets; lia). exact Hxf. }
        apply (lseg_frame (bytes st)); [exact Hseg3|].
        intros z Hz. destruct (Hl3pos z Hz) as [Hnz [Hzn|Hzn]];
          repeat split; apply Hframe; offsets; lia.
    + eapply contiguous_absorb. destruct Hreg as (_ & Hcont & _). exact Hcont.
    + apply Forall_app. split; [apply (extent_pages st); [reflexivity | exact He1]|].
      constructor; [|apply (extent_pages st); [reflexivity | exact He3]].
      split; [cbn [fst snd]; unfold BLOCK_SIZE; lia|]. cbn [fst snd].
      apply (range_mapped_pages st); [reflexivity|].
      replace (BLOCK_SIZE + (sx + BLOCK_SIZE + sy))
        with ((BLOCK_SIZE + sx) + (BLOCK_SIZE + sy)) by lia.
      apply range_mapped_app; [unfold BLOCK_SIZE; lia | exact Hxrange|].
      replace (x + (BLOCK_SIZE + sx)) with y by lia. exact Hyrange.
    + cbn [bytes set_bytes]. rewrite prev_linked_app. cbn [prev_linked fst].
      apply andb_true_intro. split; [|apply andb_true_intro; split].
      * rewrite <- Hp1. apply prev_linked_frame. intros z Hz.
        rewrite Forall_forall in Hbelow, He1.
        specialize (Hbelow z Hz). destruct (He1 z Hz) as [Hzs _].
        apply Hframe; offsets; lia.
      * apply Z.eqb_eq. rewrite Hframe by (offsets; lia). exact Hxp.
      * destruct Hnn as [[-> _]|(sn & fn & l4 & -> & Hn & Hr & Hsn & Hab & Hp4)];
          [reflexivity|].
        cbn [prev_linked fst]. apply andb_true_intro. split.
        -- apply Z.eqb_eq. apply Hw3. unfold NULL, PAGE_SIZE in *. lia.
        -- rewrite <- Hp4. apply prev_linked_frame. intros z Hz.
           rewrite Forall_forall in Hab. specialize (Hab z Hz).
           apply Hframe; offsets; lia.
  - intros a Ha. rewrite in_headers_false in Ha.
    rewrite <- !word_at_1. apply Hframe.
    + specialize (Ha (x, sx, fx)
                     ltac:(apply elem_of_app; right; apply list_elem_of_here)).
      cbn [fst] in Ha. unfold BLOCK_SIZE in *. lia.
    + destruct Hnn as [[_ Hz]|(sn & fn & l4 & -> & _)]; [left; exact Hz|].
      right.
      specialize (Ha (nn, sn, fn)
                     ltac:(apply elem_of_app; right; do 2 apply list_elem_of_further;
                           apply list_elem_of_here)).
      cbn [fst] in Ha. offsets. lia.
  - rewrite Hframe; [exact Hyf | offsets; lia | offsets; lia].
Qed.

End Absorb.

Section MergeRuns.

Implicit Types (st : state) (bs : gmap Z Z) (l : list (Z * Z * Z)).

Ltac run_load H :=
  erewrite bind_eq by (apply load_le_eq, range_mapped_set_bytes; apply H; offsets; lia);
  cbn [bytes set_bytes].
Ltac run_store H :=
  erewrite bind_eq by (apply store_le_eq, range_mapped_set_bytes; apply H; offsets; lia);
  cbn [bytes set_bytes].

(** [merge_with_next] when the successor [y] is free. *)
Lemma merge_with_next_eq st b y :
  word_at 8 (b + off_next) (bytes st) = y -> y <> NULL ->
  word_at 4 (y + off_free) (bytes st) <> 0 ->
  b + BLOCK_SIZE <= y ->
  range_mapped st b BLOCK_SIZE -> range_mapped st y BLOCK_SIZE ->
  let nn := word_at 8 (y + off_next) (bytes st) in
  (wrap nn <> NULL -> range_mapped st (wrap nn + off_prev) 8) ->
  merge_with_next b st = Some (tt, set_bytes (absorb_store b y (bytes st)) st).
Proof.
  intros Hn Hy Hfree Hpos Hb Hym nn Hnn.
  assert (Hbm : forall o k, 0 <= o -> o + k <= 32 -> range_mapped st (b + o) k).
  { intros o k Ho Hk. eapply range_mapped_sub; [exact Hb | lia | unfold BLOCK_SIZE; lia]. }
  assert (Hymm : forall o k, 0 <= o -> o + k <= 32 -> range_mapped st (y + o) k).
  { intros o k Ho Hk. eapply range_mapped_sub; [exact Hym | lia | unfold BLOCK_SIZE; lia]. }
  assert (Hst : st = set_bytes (bytes st) st) by (destruct st; reflexivity).
  unfold merge_with_next, get_next, get_free, get_size, put_size, put_next, put_prev.
  rewrite Hst at 1.
  run_load Hbm. rewrite Hn.
  replace (y =? NULL) with false by (symmetry; apply Z.eqb_neq; exact Hy).
  run_load Hymm.
  replace (word_at 4 (y + off_free) (bytes st) =? 0) with false
    by (symmetry; apply Z.eqb_neq; exact Hfree).
  run_load Hbm. rewrite Hn.
  run_load Hymm. run_load Hbm. run_store Hbm.
  run_load Hbm. rewrite word_at_write_le_disj by (offsets; lia). rewrite Hn.
  run_load Hymm. rewrite word_at_write_le_disj by (offsets; lia). fold nn.
  run_store Hbm.
  run_load Hbm. rewrite word_at_write_le_same, wrap_pow256_8.
  unfold absorb_store. fold nn.
  destruct (wrap nn =? NULL) eqn:Hz; [reflexivity|].
  apply Z.eqb_neq in Hz.
  rewrite store_le_eq by (apply range_mapped_set_bytes, Hnn, Hz).
  reflexivity.
Qed.

(** [merge_with_prev] when the predecessor [p] is free. *)
Lemma merge_with_prev_eq st b p :
  word_at 8 (b + off_prev) (bytes st) = p -> p <> NULL ->
  word_at 4 (p + off_free) (bytes st) <> 0 ->
  p + BLOCK_SIZE <= b ->
  range_mapped st b BLOCK_SIZE -> range_mapped st p BLOCK_SIZE ->
  let nn := word_at 8 (b + off_next) (bytes st) in
  wrap nn = nn ->
  (nn <> NULL -> range_mapped st (nn + off_prev) 8) ->
  merge_with_prev b st = Some (tt, set_bytes (absorb_store p b (bytes st)) st).
Proof.
  intros Hp Hpnz Hfree Hpos Hb Hpm nn Hwnn Hnn.
  assert (Hbm : forall o k, 0 <= o -> o + k <= 32 -> range_mapped st (b + o) k).
  { intros o k Ho Hk. eapply range_mapped_sub; [exact Hb | lia | unfold BLOCK_SIZE; lia]. }
  assert (Hpmm : forall o k, 0 <= o -> o + k <= 32 -> range_mapped st (p + o) k).
  { intros o k Ho Hk. eapply range_mapped_sub; [exact Hpm | lia | unfold BLOCK_SIZE; lia]. }
  assert (Hst : st = set_bytes (bytes st) st) by (destruct st; reflexivity).
  unfold merge_with_prev, get_next, get_prev, get_free, get_size,
    put_size, put_next, put_prev.
  rewrite Hst at 1.
  run_load Hbm. rewrite Hp.
  replace (p =? NULL) with false by (symmetry; apply Z.eqb_neq; exact Hpnz).
  run_load Hpmm.
  replace (word_at 4 (p + off_free) (bytes st) =? 0) with false
    by (symmetry; apply Z.eqb_neq; exact Hfree).
  run_load Hbm. rewrite Hp.
  run_load Hbm. run_load Hpmm. run_store Hpmm.
  run_load Hbm. rewrite word_at_write_le_disj by (offsets; lia). rewrite Hp.
  run_load Hbm. rewrite word_at_write_le_disj by (offsets; lia). fold nn.
  run_store Hpmm.
  run_load Hbm. rewrite !word_at_write_le_disj by (offsets; lia). fold nn.
  unfold absorb_store. fold nn. rewrite Hwnn.
  destruct (nn =? NULL) eqn:Hz; [reflexivity|].
  apply Z.eqb_neq in Hz.
  run_load Hbm. rewrite !word_at_write_le_disj by (offsets; lia). fold nn.
  run_load Hbm. rewrite !word_at_write_le_disj by (offsets; lia). rewrite Hp.
  rewrite store_le_eq by (apply range_mapped_set_bytes, Hnn, Hz).
  reflexivity.
Qed.

End MergeRuns.

Section MergeRegion.

Implicit Types (st : state) (bs : gmap Z Z) (l : list (Z * Z * Z)).

Lemma in_headers_sub l l' a :
  (forall w, w ∈ l' -> exists w', w' ∈ l /\ w'.1.1 = w.1.1) ->
  in_headers l a = false -> in_headers l' a = false.
Proof.
  intros Hsub H. rewrite in_headers_false in H |- *.
  intros w Hw. destruct (Hsub w Hw) as (w' & Hw' & Heq).
  rewrite <- Heq. apply H, Hw'.
Qed.

Lemma absorb_next_shape b s f l2 :
  exists s' rest,
    absorb_next (b, s, f) l2 = (b, s', f) :: rest
    /\ (forall w, w ∈ rest -> w ∈ l2).
Proof.
  destruct l2 as [|[[y sy] fy] l3]; cbn [absorb_next fst snd].
  - exists s, []. split; [reflexivity|]. intros w Hw. exact Hw.
  - destruct (fy =? 0).
    + eexists _, _. split; [reflexivity|]. intros w Hw. exact Hw.
    + eexists _, _. split; [reflexivity|]. intros w Hw.
      apply list_elem_of_further, Hw.
Qed.

Lemma absorb_prev_snoc l1 : forall p x,
  absorb_prev (l1 ++ [p]) x
  = l1 ++ (if p.2 =? 0 then [p; x]
           else [(p.1.1, p.1.2 + BLOCK_SIZE + x.1.2, p.2)]).
Proof.
  induction l1 as [|q l1 IH]; intros p x; [reflexivity|].
  cbn [app]. specialize (IH p x).
  destruct l1 as [|q' l1].
  - cbn [app] in *. change (absorb_prev [q; p] x) with (q :: absorb_prev [p] x).
    rewrite IH. reflexivity.
  - cbn [app] in *. change (absorb_prev (q :: q' :: l1 ++ [p]) x)
      with (q :: absorb_prev (q' :: l1 ++ [p]) x).
    rewrite IH. reflexivity.
Qed.

(** The first half of [merge_blocks] on a region heap. *)
Lemma merge_with_next_region st l1 b s f l2 :
  region_heap st (l1 ++ (b, s, f) :: l2) ->
  exists st',
    merge_with_next b st = Some (tt, st')
    /\ region_heap st' (l1 ++ absorb_next (b, s, f) l2)
    /\ pages st' = pages st /\ free_list st' = free_list st
    /\ os_answers st' = os_answers st
    /\ (forall a, in_headers (l1 ++ (b, s, f) :: l2) a = false ->
                  byte_at (bytes st') a = byte_at (bytes st) a).
Proof.
  intros Hreg.
  pose proof (region_split _ _ _ _ _ _ Hreg)
    as (_ & Hbnz & Hbs & Hbf & Hbn & _ & _ & _ & _ & _ & _ & (Hs & Hbrange) & _ & He2).
  assert (Hbm : forall o k, 0 <= o -> o + k <= 32 -> range_mapped st (b + o) k).
  { intros o k Ho Hk.
    eapply range_mapped_sub; [exact Hbrange | lia | unfold BLOCK_SIZE; lia]. }
  destruct l2 as [|[[y sy] fy] l3].
  - (* no successor *)
    exists st. split.
    { unfold merge_with_next, get_next.
      rewrite (bind_eq _ _ _ _ _ (load_le_eq 8 st _
                 (Hbm off_next 8 ltac:(offsets; lia) ltac:(offsets; lia)))).
      rewrite Hbn. reflexivity. }
    split; [exact Hreg|]. repeat split; reflexivity.
  - cbn [head_addr fst] in Hbn.
    assert (Hreg' : region_heap st ((l1 ++ [(b, s, f)]) ++ (y, sy, fy) :: l3))
      by (rewrite <- app_assoc; exact Hreg).
    pose proof (region_split _ _ _ _ _ _ Hreg')
      as (_ & Hynz & Hys & Hyf & Hyn & _ & _ & _ & _ & _ & _ & (Hsy & Hyrange) & _ & He3).
    assert (Hym : forall o k, 0 <= o -> o + k <= 32 -> range_mapped st (y + o) k).
    { intros o k Ho Hk.
      eapply range_mapped_sub; [exact Hyrange | lia | unfold BLOCK_SIZE; lia]. }
    cbn [absorb_next fst snd].
    destruct (fy =? 0) eqn:Hfy.
    + (* the successor is in use *)
      apply Z.eqb_eq in Hfy. exists st. split.
      { unfold merge_with_next, get_next, get_free.
        rewrite (bind_eq _ _ _ _ _ (load_le_eq 8 st _
                   (Hbm off_next 8 ltac:(offsets; lia) ltac:(offsets; lia)))).
        rewrite Hbn.
        replace (y =? NULL) with false by (symmetry; apply Z.eqb_neq; exact Hynz).
        rewrite (bind_eq _ _ _ _ _ (load_le_eq 4 st _
                   (Hym off_free 4 ltac:(offsets; lia) ltac:(offsets; lia)))).
        rewrite Hyf, Hfy. reflexivity. }
      split; [exact Hreg|]. repeat split; reflexivity.
    + (* the successor is free: the block takes it in *)
      apply Z.eqb_neq in Hfy.
      pose proof (region_next _ _ _ _ _ _ Hreg)
        as [[Hc _]|(sn' & fn' & l3'' & Hl2 & _ & _)]; [discriminate|].
      assert (Hy : y = b + BLOCK_SIZE + s) by congruence. clear Hl2 sn' fn' l3''.
      exists (set_bytes (absorb_store b y (bytes st)) st). split.
      { apply merge_with_next_eq; try assumption.
        - rewrite Hyf. exact Hfy.
        - lia.
        - eapply range_mapped_sub; [exact Hbrange | lia | lia].
        - eapply range_mapped_sub; [exact Hyrange | lia | lia].
        - rewrite Hyn.
          pose proof (region_next _ _ _ _ _ _ Hreg')
            as [[-> _]|(sn & fn & l4 & -> & _ & Hr)].
          + intros Hc. exfalso. apply Hc. reflexivity.
          + cbn [head_addr fst]. rewrite wrap_small by (unfold PAGE_SIZE in *; lia).
            intros _. destruct (Forall_inv He3) as [Hsn Hnr]. cbn [fst snd] in *.
            eapply range_mapped_sub; [exact Hnr | offsets; lia | offsets; lia]. }
      destruct (absorb_region _ _ _ _ _ _ _ _ _ Hreg) as (Hreg2 & Hfr & _).
      split; [exact Hreg2|]. repeat split; solve [reflexivity | exact Hfr].
Qed.

(** The second half. *)
Lemma merge_with_prev_region st l1 b s f l2 :
  region_heap st (l1 ++ (b, s, f) :: l2) ->
  exists st',
    merge_with_prev b st = Some (tt, st')
    /\ region_heap st' (absorb_prev l1 (b, s, f) ++ l2)
    /\ pages st' = pages st /\ free_list st' = free_list st
    /\ os_answers st' = os_answers st
    /\ (forall a, in_headers (l1 ++ (b, s, f) :: l2) a = false ->
                  byte_at (bytes st') a = byte_at (bytes st) a)
    /\ word_at 4 (b + off_free) (bytes st') = f.
Proof.
  intros Hreg.
  pose proof (region_split _ _ _ _ _ _ Hreg)
    as (_ & Hbnz & Hbs & Hbf & Hbn & Hbp & _ & _ & _ & Hbelow & _
        & (Hs & Hbrange) & He1 & He2).
  assert (Hbm : forall o k, 0 <= o -> o + k <= 32 -> range_mapped st (b + o) k).
  { intros o k Ho Hk.
    eapply range_mapped_sub; [exact Hbrange | lia | unfold BLOCK_SIZE; lia]. }
  destruct l1 as [|p0 l0 _] using rev_ind.
  - (* no predecessor *)
    exists st. split.
    { unfold merge_with_prev, get_prev.
      rewrite (bind_eq _ _ _ _ _ (load_le_eq 8 st _
                 (Hbm off_prev 8 ltac:(offsets; lia) ltac:(offsets; lia)))).
      rewrite Hbp. reflexivity. }
    split; [exact Hreg|]. repeat split; solve [reflexivity | assumption].
  - destruct p0 as [[p sp] fp].
    rewrite last_addr_snoc in Hbp. cbn [fst] in Hbp.
    rewrite absorb_prev_snoc. cbn [fst snd].
    assert (Hreg' : region_heap st (l0 ++ (p, sp, fp) :: (b, s, f) :: l2))
      by (rewrite <- app_assoc in Hreg; exact Hreg).
    pose proof (region_split _ _ _ _ _ _ Hreg')
      as (_ & Hpnz & Hps & Hpf & _ & _ & _ & _ & _ & _ & Habove
          & (Hsp & Hprange) & _ & _).
    assert (Hpm : forall o k, 0 <= o -> o + k <= 32 -> range_mapped st (p + o) k).
    { intros o k Ho Hk.
      eapply range_mapped_sub; [exact Hprange | lia | unfold BLOCK_SIZE; lia]. }
    destruct (fp =? 0) eqn:Hfp.
    + (* the predecessor is in use *)
      apply Z.eqb_eq in Hfp. exists st. split.
      { unfold merge_with_prev, get_prev, get_free.
        rewrite (bind_eq _ _ _ _ _ (load_le_eq 8 st _
                   (Hbm off_prev 8 ltac:(offsets; lia) ltac:(offsets; lia)))).
        rewrite Hbp.
        replace (p =? NULL) with false by (symmetry; apply Z.eqb_neq; exact Hpnz).
        rewrite (bind_eq _ _ _ _ _ (load_le_eq 4 st _
                   (Hpm off_free 4 ltac:(offsets; lia) ltac:(offsets; lia)))).
        rewrite Hpf, Hfp. reflexivity. }
      rewrite <- app_assoc. cbn [app].
      split; [exact Hreg'|]. repeat split; solve [reflexivity | assumption].
    + (* the predecessor is free: it takes the block in *)
      apply Z.eqb_neq in Hfp.
      pose proof (Forall_inv Habove) as Hpb. cbn [fst] in Hpb.
      exists (set_bytes (absorb_store p b (bytes st)) st). split.
      { apply merge_with_prev_eq; try assumption.
        - rewrite Hpf. exact Hfp.
        - lia.
        - eapply range_mapped_sub; [exact Hbrange | lia | lia].
        - eapply range_mapped_sub; [exact Hprange | lia | lia].
        - rewrite Hbn.
          pose proof (region_next _ _ _ _ _ _ Hreg)
            as [[-> _]|(sn & fn & l4 & -> & _ & Hr)]; [reflexivity|].
          cbn [head_addr fst]. apply wrap_small. unfold PAGE_SIZE in *. lia.
        - rewrite Hbn.
          pose proof (region_next _ _ _ _ _ _ Hreg)
            as [[-> _]|(sn & fn & l4 & -> & _ & Hr)].
          + intros Hc. exfalso. apply Hc. reflexivity.
          + cbn [head_addr fst].
            intros _. destruct (Forall_inv He2) as [Hsn Hnr]. cbn [fst snd] in *.
            eapply range_mapped_sub; [exact Hnr | offsets; lia | offsets; lia]. }
      destruct (absorb_region _ _ _ _ _ _ _ _ _ Hreg') as (Hreg2 & Hfr & Hflag).
      rewrite <- !app_assoc. cbn [app].
      split; [exact Hreg2|]. split; [reflexivity|]. split; [reflexivity|].
      split; [reflexivity|]. split; [|exact Hflag].
      exact Hfr.
Qed.

End MergeRegion.

Section FreeRegion.

Implicit Types (st : state) (bs : gmap Z Z) (l : list (Z * Z * Z)).

(** No payload byte of a block lies in the header of a block. *)
Lemma payload_not_header l z i :
  contiguous l = true -> Forall (fun x => 0 <= x.1.2) l ->
  z ∈ l -> 0 <= i < z.1.2 ->
  in_headers l (z.1.1 + BLOCK_SIZE + i) = false.
Proof.
  intros Hcont Hsizes Hz Hi. apply in_headers_false. intros w Hw.
  apply list_elem_of_split in Hw as (l1 & l2 & ->).
  destruct w as [[w sw] fw]. cbn [fst].
  pose proof (contiguous_below _ _ _ _ _ Hcont Hsizes) as Hbelow.
  pose proof (contiguous_above _ _ _ _ (contiguous_app_r _ _ Hcont)
                (proj2 (proj1 (Forall_app _ _ _) Hsizes))) as Habove.
  rewrite Forall_forall in Hbelow, Habove.
  apply elem_of_app in Hz as [Hz|Hz].
  - specialize (Hbelow z Hz). left. lia.
  - apply elem_of_cons in Hz as [->|Hz].
    + right. cbn [fst]. lia.
    + specialize (Habove z Hz). right.
      apply Forall_app in Hsizes as [_ Hs2]. apply Forall_inv in Hs2.
      cbn [fst snd] in Hs2. unfold BLOCK_SIZE in *. lia.
Qed.

Lemma in_headers_flag l1 b s f f' l2 a :
  in_headers (l1 ++ (b, s, f) :: l2) a = in_headers (l1 ++ (b, s, f') :: l2) a.
Proof. rewrite !in_headers_app. reflexivity. Qed.

(** [allocator_free] on a block in use of a region heap. *)
Lemma free_region st l1 b s l2 :
  region_heap st (l1 ++ (b, s, 0) :: l2) ->
  exists st',
    allocator_free (b + BLOCK_SIZE) st = Some (tt, st')
    /\ region_heap st' (coalesce l1 (b, s, 1) l2)
    /\ pages st' = pages st /\ free_list st' = free_list st
    /\ os_answers st' = os_answers st
    /\ (forall a, in_headers (l1 ++ (b, s, 0) :: l2) a = false ->
                  byte_at (bytes st') a = byte_at (bytes st) a)
    /\ word_at 4 (b + off_free) (bytes st') = 1.
Proof.
  intros Hreg.
  pose proof (region_split _ _ _ _ _ _ Hreg)
    as (_ & Hbnz & _ & Hbf & _ & _ & _ & _ & _ & _ & _ & (Hs & Hbrange) & _).
  pose proof (region_block_range _ _ _ _ _ _ Hreg) as (_ & Hblo & _).
  destruct (put_free_region st l1 b s 0 l2 1 Hreg ltac:(lia)) as [Hput Hreg1].
  cbv zeta in Hput, Hreg1.
  set (st1 := set_bytes (write_le 4 (b + off_free) 1 (bytes st)) st) in *.
  destruct (merge_with_next_region _ _ _ _ _ _ Hreg1)
    as (st2 & Hnext & Hreg2 & Hpg2 & Hfl2 & Hos2 & Hfr2).
  destruct (absorb_next_shape b s 1 l2) as (s' & rest & Hshape & Hrest).
  rewrite Hshape in Hreg2.
  destruct (merge_with_prev_region _ _ _ _ _ _ Hreg2)
    as (st3 & Hprev & Hreg3 & Hpg3 & Hfl3 & Hos3 & Hfr3 & Hflag).
  exists st3. split.
  { unfold allocator_free.
    replace (b + BLOCK_SIZE =? NULL) with false
      by (symmetry; apply Z.eqb_neq; unfold NULL, BLOCK_SIZE, PAGE_SIZE in *; lia).
    replace (get_block (b + BLOCK_SIZE)) with b by (unfold get_block; lia).
    rewrite (bind_eq _ _ _ _ _ (valid_block_in_use st b
               ltac:(eapply range_mapped_sub; [exact Hbrange | offsets; lia | offsets; lia])
               Hbf)).
    rewrite (bind_eq _ _ _ _ _ Hput).
    rewrite merge_blocks_halves. rewrite (bind_eq _ _ _ _ _ Hnext). exact Hprev. }
  split; [unfold coalesce; rewrite Hshape; exact Hreg3|].
  split; [rewrite Hpg3, Hpg2; reflexivity|].
  split; [rewrite Hfl3, Hfl2; reflexivity|].
  split; [rewrite Hos3, Hos2; reflexivity|].
  split; [|exact Hflag].
  intros a Ha. rewrite Hfr3, Hfr2.
  - unfold st1. cbn [bytes set_bytes]. rewrite <- !word_at_1.
    apply word_at_write_le_disj. rewrite in_headers_false in Ha.
    specialize (Ha (b, s, 0) ltac:(apply elem_of_app; right; apply list_elem_of_here)).
    cbn [fst] in Ha. offsets. lia.
  - rewrite (in_headers_flag l1 b s 1 0 l2). exact Ha.
  - eapply in_headers_sub; [|exact Ha]. intros w Hw.
    apply elem_of_app in Hw as [Hw|Hw].
    + exists w. split; [apply elem_of_app; left; exact Hw | reflexivity].
    + apply elem_of_cons in Hw as [->|Hw].
      * exists (b, s, 0). split; [|reflexivity].
        apply elem_of_app. right. apply list_elem_of_here.
      * exists w. split; [|reflexivity].
        apply elem_of_app. right. apply list_elem_of_further, Hrest, Hw.
Qed.

End FreeRegion.

(** * Splitting and allocation on a run of blocks *)

Section SplitRegion.

Implicit Types (st : state) (bs : gmap Z Z) (l : list (Z * Z * Z)).

(** Bytes that [split_block] does not write: all but the size and [next]
    fields of the block, the header of the remainder and the [prev] field
    of the successor. *)
Lemma split_store_byte block size s0 bn bs a :
  let nb := block + BLOCK_SIZE + size in
  a < block \/ (block + 8 <= a < block + 16) \/ block + 24 <= a ->
  a < nb \/ nb + BLOCK_SIZE <= a ->
  wrap bn = NULL \/ a < wrap bn + off_prev \/ wrap bn + BLOCK_SIZE <= a ->
  byte_at (split_store block size s0 bn bs) a = byte_at bs a.
Proof.
  intros nb H1 H2 H3. unfold split_store. fold nb.
  destruct (wrap bn =? NULL) eqn:Hz.
  - rewrite !byte_at_write_le_out by (offsets; lia). reflexivity.
  - apply Z.eqb_neq in Hz. destruct H3 as [H3|H3]; [contradiction|].
    rewrite !byte_at_write_le_out by (offsets; lia). reflexivity.
Qed.

Lemma split_store_word block size s0 bn bs k a :
  let nb := block + BLOCK_SIZE + size in
  a + Z.of_nat k <= block \/ (block + 8 <= a /\ a + Z.of_nat k <= block + 16)
  \/ block + 24 <= a ->
  a + Z.of_nat k <= nb \/ nb + BLOCK_SIZE <= a ->
  wrap bn = NULL \/ a + Z.of_nat k <= wrap bn + off_prev
  \/ wrap bn + BLOCK_SIZE <= a ->
  word_at k a (split_store block size s0 bn bs) = word_at k a bs.
Proof.
  intros nb H1 H2 H3. apply word_at_ext. intros i Hi.
  apply split_store_byte; fold nb; lia.
Qed.

(** The [prev] links [split_block] sets. *)
Lemma split_store_prevs block size s0 bn bs :
  0 <= size ->
  let nb := block + BLOCK_SIZE + size in
  let bs' := split_store block size s0 bn bs in
  wrap bn = NULL \/ nb + BLOCK_SIZE <= wrap bn + off_prev ->
  word_at 8 (nb + off_prev) bs' = wrap block
  /\ (wrap bn <> NULL -> word_at 8 (wrap bn + off_prev) bs' = wrap nb).
Proof.
  intros Hsize nb bs' Hpos. unfold bs', split_store. fold nb.
  destruct (wrap bn =? NULL) eqn:Hz.
  - apply Z.eqb_eq in Hz. split; [|intros Hc; contradiction].
    mem_simpl. apply wrap_pow256_8.
  - apply Z.eqb_neq in Hz. destruct Hpos as [Hpos|Hpos]; [contradiction|].
    split; [|intros _]; mem_simpl; apply wrap_pow256_8.
Qed.

(** [split_block] on a block of a region heap. *)
Lemma split_region st l1 b s0 f l2 size :
  region_heap st (l1 ++ (b, s0, f) :: l2) ->
  0 <= size -> size + BLOCK_SIZE <= s0 ->
  let nb := b + BLOCK_SIZE + size in
  let st' := set_bytes (split_store b size s0 (head_addr l2) (bytes st)) st in
  split_block b size st = Some (tt, st')
  /\ region_heap st' (l1 ++ (b, size, f) :: (nb, s0 - size - BLOCK_SIZE, 1) :: l2)
  /\ (forall a, in_headers (l1 ++ (b, s0, f) :: l2) a = false ->
                a < nb \/ nb + BLOCK_SIZE <= a ->
                byte_at (bytes st') a = byte_at (bytes st) a).
Proof.
  intros Hreg Hsize Hfits nb st'.
  pose proof (region_split _ _ _ _ _ _ Hreg)
    as (_ & Hbnz & Hbs & Hbf & Hbn & Hbp & _ & Hp1 & Hp2 & Hbelow & Habove
        & (Hs & Hbrange) & He1 & He2).
  pose proof (region_block_range _ _ _ _ _ _ Hreg) as (_ & Hblo & Hbhi).
  remember (head_addr l2) as bn eqn:Hbndef.
  assert (Hnext : (l2 = [] /\ bn = NULL)
                  \/ (exists sn fn l4, l2 = (bn, sn, fn) :: l4
                      /\ bn = b + BLOCK_SIZE + s0 /\ PAGE_SIZE <= bn < 2 ^ 64
                      /\ range_mapped st bn (BLOCK_SIZE + sn) /\ 0 <= sn
                      /\ Forall (fun z => bn + BLOCK_SIZE + sn <= z.1.1) l4
                      /\ prev_linked (bytes st) bn l4 = true)).
  { pose proof (region_next _ _ _ _ _ _ Hreg)
      as [[Hl2 Hz]|(sn & fn & l4 & Hl2 & Hh & Hr)];
      [left; split; [exact Hl2 | congruence]|].
    right. exists sn, fn, l4. rewrite <- Hbndef in Hh. rewrite Hh.
    split; [exact Hl2|]. split; [reflexivity|]. split; [exact Hr|].
    subst l2.
    assert (Hreg'' : region_heap st ((l1 ++ [(b, s0, f)])
                                      ++ (b + BLOCK_SIZE + s0, sn, fn) :: l4))
      by (rewrite <- app_assoc; exact Hreg).
    pose proof (region_split _ _ _ _ _ _ Hreg'')
      as (_ & _ & _ & _ & _ & _ & _ & _ & Hp4 & _ & Habove4 & (Hsn & Hnr) & _).
    repeat split; assumption. }
  assert (Hwbn : wrap bn = bn).
  { destruct Hnext as [[_ Hz]|(_ & _ & _ & _ & _ & Hr & _)]; [rewrite Hz; reflexivity|].
    apply wrap_small. unfold PAGE_SIZE in *. lia. }
  assert (Hbnlo : bn = NULL \/ b + BLOCK_SIZE + s0 <= bn).
  { destruct Hnext as [[_ Hz]|(_ & _ & _ & _ & Hn & _)]; [left; exact Hz | right; lia]. }
  assert (Hsub : forall o k, 0 <= o -> o + k <= BLOCK_SIZE + s0 ->
                             range_mapped st (b + o) k).
  { intros o k Ho Hk. eapply range_mapped_sub; [exact Hbrange | lia | lia]. }
  assert (Hrun : split_block b size st = Some (tt, st')).
  { unfold st'. rewrite <- Hbs, <- Hbn.
    apply split_block_eq; [exact Hsize | | | | | | |].
    - apply Hsub; offsets; lia.
    - apply Hsub; offsets; lia.
    - replace (b + BLOCK_SIZE + size + off_size)
        with (b + (BLOCK_SIZE + size + off_size)) by lia. apply Hsub; offsets; lia.
    - replace (b + BLOCK_SIZE + size + off_free)
        with (b + (BLOCK_SIZE + size + off_free)) by lia. apply Hsub; offsets; lia.
    - replace (b + BLOCK_SIZE + size + off_next)
        with (b + (BLOCK_SIZE + size + off_next)) by lia. apply Hsub; offsets; lia.
    - replace (b + BLOCK_SIZE + size + off_prev)
        with (b + (BLOCK_SIZE + size + off_prev)) by lia. apply Hsub; offsets; lia.
    - rewrite Hbn, Hwbn.
      destruct Hnext as [[_ Hz]|(sn & fn & l4 & _ & _ & _ & Hnr & Hsn & _)];
        [intros Hc; contradiction|].
      intros _. eapply range_mapped_sub; [exact Hnr | offsets; lia | offsets; lia]. }
  split; [exact Hrun|].
  destruct Hreg as (Hlist & Hcont & Hext & Hprev).
  destruct (split_block_keeps_address_order st st' l1 b s0 f l2 size Hlist Hcont
              (extent_sizes _ _ Hext) Hsize Hfits ltac:(unfold BLOCK_SIZE, PAGE_SIZE in *; lia)
              Hrun) as (Hlist' & Hcont' & _).
  assert (Hpos : wrap bn = NULL \/ nb + BLOCK_SIZE <= wrap bn + off_prev).
  { rewrite Hwbn. destruct Hbnlo as [Hz|Hz]; [left; exact Hz|].
    right. unfold nb. offsets. lia. }
  destruct (split_store_prevs b size s0 bn (bytes st) Hsize Hpos) as [Hpv1 Hpv2].
  rewrite (wrap_small b) in Hpv1 by (unfold PAGE_SIZE, BLOCK_SIZE in *; lia).
  rewrite Hwbn in Hpv2.
  rewrite (wrap_small (b + BLOCK_SIZE + size)) in Hpv2
    by (unfold PAGE_SIZE, BLOCK_SIZE in *; lia).
  split; [split; [exact Hlist'|]; split; [exact Hcont'|]; split|].
  - (* every block lies in mapped memory *)
    apply Forall_app. split; [apply (extent_pages st); [reflexivity | exact He1]|].
    constructor; [|constructor; [|apply (extent_pages st); [reflexivity | exact He2]]].
    + split; [exact Hsize|]. cbn [fst snd].
      apply (range_mapped_pages st); [reflexivity|].
      eapply range_mapped_sub; [exact Hbrange | lia | unfold BLOCK_SIZE in *; lia].
    + split; [cbn [fst snd]; lia|]. cbn [fst snd].
      apply (range_mapped_pages st); [reflexivity|].
      eapply range_mapped_sub; [exact Hbrange | unfold nb; unfold BLOCK_SIZE; lia
                               | unfold nb; lia].
  - (* the [prev] links *)
    unfold st'. cbn [bytes set_bytes]. rewrite prev_linked_app.
    cbn [prev_linked fst]. fold nb.
    apply andb_true_intro. split; [|apply andb_true_intro; split;
                                     [|apply andb_true_intro; split]].
    + rewrite <- Hp1. apply prev_linked_frame. intros z Hz.
      rewrite Forall_forall in Hbelow, He1.
      specialize (Hbelow z Hz). destruct (He1 z Hz) as [Hzs _].
      apply split_store_word; fold nb; rewrite ?Hwbn; offsets; unfold nb; lia.
    + apply Z.eqb_eq. rewrite split_store_word; [exact Hbp | | |];
        fold nb; rewrite ?Hwbn; offsets; unfold nb; lia.
    + apply Z.eqb_eq. exact Hpv1.
    + destruct Hnext as [[-> _]|(sn & fn & l4 & -> & Hn & Hr & Hnr & Hsn & Hab & Hp4)];
        [reflexivity|].
      cbn [prev_linked fst]. apply andb_true_intro. split.
      * apply Z.eqb_eq. apply Hpv2. unfold NULL, PAGE_SIZE in *. lia.
      * rewrite <- Hp4. apply prev_linked_frame. intros z Hz.
        rewrite Forall_forall in Hab. specialize (Hab z Hz).
        apply split_store_word; fold nb; rewrite ?Hwbn; offsets; unfold nb; lia.
  - intros a Ha Hnb. unfold st'. cbn [bytes set_bytes].
    rewrite in_headers_false in Ha.
    apply split_store_byte; fold nb.
    + specialize (Ha (b, s0, f) ltac:(apply elem_of_app; right; apply list_elem_of_here)).
      cbn [fst] in Ha. unfold BLOCK_SIZE in *. lia.
    + exact Hnb.
    + rewrite Hwbn.
      destruct Hnext as [[_ Hz]|(sn & fn & l4 & -> & _)]; [left; exact Hz|].
      right.
      specialize (Ha (bn, sn, fn)
                     ltac:(apply elem_of_app; right; apply list_elem_of_further,
                             list_elem_of_here)).
      cbn [fst] in Ha. offsets. lia.
Qed.

End SplitRegion.

Section MallocRegion.

Implicit Types (st : state) (bs : gmap Z Z) (l : list (Z * Z * Z)).

Lemma first_fit_app size l1 x l2 :
  Forall (fun y => fits size y = false) l1 -> fits size x = true ->
  first_fit size (l1 ++ x :: l2) = x.1.1.
Proof.
  intros H Hx. induction H as [|y l1 Hy _ IH]; cbn [app first_fit].
  - rewrite Hx. reflexivity.
  - rewrite Hy. exact IH.
Qed.

(** The blocks [allocator_malloc] and [allocator_realloc] leave in place of
    a block of size [s] cut down to [am]. *)
Lemma cut_region st l1 b s l2 am :
  region_heap st (l1 ++ (b, s, 0) :: l2) ->
  0 <= am <= s -> am + BLOCK_SIZE + ALIGNMENT < 2 ^ 64 ->
  let l' := l1 ++ (if am + BLOCK_SIZE + ALIGNMENT <? s
                   then [(b, am, 0); (b + BLOCK_SIZE + am, s - am - BLOCK_SIZE, 1)]
                   else [(b, s, 0)]) ++ l2 in
  exists st',
    (let* bs := get_size b in
     if wrap (am + BLOCK_SIZE + ALIGNMENT) <? bs then split_block b am else ret tt) st
    = Some (tt, st')
    /\ region_heap st' l'
    /\ pages st' = pages st /\ free_list st' = free_list st
    /\ os_answers st' = os_answers st
    /\ (forall a, in_headers (l1 ++ (b, s, 0) :: l2) a = false ->
                  a < b + BLOCK_SIZE + am \/ b + BLOCK_SIZE + s <= a ->
                  byte_at (bytes st') a = byte_at (bytes st) a).
Proof.
  intros Hreg Ham Hnowrap l'.
  pose proof (region_split _ _ _ _ _ _ Hreg)
    as (_ & _ & Hbs & _ & _ & _ & _ & _ & _ & _ & _ & (Hs & Hbrange) & _).
  unfold get_size.
  rewrite (bind_eq _ _ _ _ _ (load_le_eq 8 st (b + off_size)
             ltac:(eapply range_mapped_sub; [exact Hbrange | offsets; lia | offsets; lia]))).
  rewrite Hbs. rewrite (wrap_small (am + BLOCK_SIZE + ALIGNMENT))
    by (unfold BLOCK_SIZE, ALIGNMENT in *; lia).
  unfold l'. destruct (am + BLOCK_SIZE + ALIGNMENT <? s) eqn:Hcut.
  - apply Z.ltb_lt in Hcut.
    destruct (split_region st l1 b s 0 l2 am Hreg ltac:(lia)
                ltac:(unfold ALIGNMENT in *; lia)) as (Hrun & Hreg' & Hfr).
    eexists. split; [exact Hrun|]. split; [exact Hreg'|].
    repeat split; try reflexivity.
    intros a Ha Hpos. apply Hfr; [exact Ha|].
    destruct Hpos as [Hpos|Hpos]; [left; exact Hpos|].
    right. unfold BLOCK_SIZE, ALIGNMENT in *. lia.
  - exists st. split; [reflexivity|]. split; [exact Hreg|]. repeat split; reflexivity.
Qed.

(** [allocator_malloc] served by the first free block that fits. *)
Lemma malloc_hit_region_any st l1 b s f l2 n :
  region_heap st (l1 ++ (b, s, f) :: l2) ->
  n <> 0 -> 0 <= align_size n ->
  Forall (fun x => fits (align_size n) x = false) l1 ->
  f <> 0 -> align_size n <= s ->
  let am := align_size n in
  let l' := l1 ++ (if am + BLOCK_SIZE + ALIGNMENT <? s
                   then [(b, am, 0); (b + BLOCK_SIZE + am, s - am - BLOCK_SIZE, 1)]
                   else [(b, s, 0)]) ++ l2 in
  exists st',
    allocator_malloc n st = Some (b + BLOCK_SIZE, st')
    /\ region_heap st' l'
    /\ pages st' = pages st /\ free_list st' = free_list st
    /\ os_answers st' = os_answers st
    /\ (forall a, in_headers (l1 ++ (b, s, f) :: l2) a = false ->
                  a < b \/ b + BLOCK_SIZE + s <= a ->
                  byte_at (bytes st') a = byte_at (bytes st) a).
Proof.
  intros Hreg Hn Hampos Hmiss Hf Hfit am l'. fold am in Hampos, Hfit.
  pose proof (region_split _ _ _ _ _ _ Hreg)
    as (_ & Hbnz & _ & _ & _ & _ & _ & _ & _ & _ & _ & (Hs & Hbrange) & _).
  pose proof (region_block_range _ _ _ _ _ _ Hreg) as (_ & Hblo & Hbhi).
  assert (Hnowrap : am + BLOCK_SIZE + ALIGNMENT < 2 ^ 64)
    by (unfold BLOCK_SIZE, ALIGNMENT, PAGE_SIZE in *; lia).
  assert (Hfind : find_block am st = Some (b, st)).
  { destruct Hreg as (Hlist & _). rewrite (find_block_eq _ _ _ Hlist).
    rewrite (first_fit_app am l1 (b, s, f) l2 Hmiss); [reflexivity|].
    unfold fits. cbn [fst snd]. apply andb_true_intro. split.
    - apply negb_true_iff, Z.eqb_neq. exact Hf.
    - apply Z.leb_le. exact Hfit. }
  destruct (put_free_region st l1 b s f l2 0 Hreg ltac:(lia)) as [Hput Hreg1].
  cbv zeta in Hput, Hreg1.
  set (st1 := set_bytes (write_le 4 (b + off_free) 0 (bytes st)) st) in *.
  destruct (cut_region st1 l1 b s l2 am Hreg1 ltac:(lia) Hnowrap)
    as (st2 & Hcut & Hreg2 & Hpg & Hfl & Hos & Hfr).
  exists st2. split.
  { unfold allocator_malloc. fold am.
    replace (n =? 0) with false by (symmetry; apply Z.eqb_neq; exact Hn).
    rewrite (bind_eq _ _ _ _ _ Hfind).
    replace (b =? NULL) with false by (symmetry; apply Z.eqb_neq; exact Hbnz).
    rewrite (bind_eq _ _ _ _ _ Hput).
    unfold bind in Hcut |- *.
    destruct (get_size b st1) as [[bs0 st1']|]; [|discriminate].
    rewrite Hcut. reflexivity. }
  split; [exact Hreg2|].
  split; [rewrite Hpg; reflexivity|]. split; [rewrite Hfl; reflexivity|].
  split; [rewrite Hos; reflexivity|].
  intros a Ha Hpos. rewrite Hfr.
  - unfold st1. cbn [bytes set_bytes]. rewrite <- !word_at_1.
    apply word_at_write_le_disj. offsets. lia.
  - rewrite (in_headers_flag l1 b s 0 f l2). exact Ha.
  - destruct Hpos as [Hpos|Hpos]; [left; unfold BLOCK_SIZE; lia | right; exact Hpos].
Qed.

Lemma malloc_hit_region st l1 b s f l2 n :
  region_heap st (l1 ++ (b, s, f) :: l2) ->
  0 < n <= 2 ^ 64 - 64 ->
  Forall (fun x => fits (align_size n) x = false) l1 ->
  f <> 0 -> align_size n <= s ->
  let am := align_size n in
  let l' := l1 ++ (if am + BLOCK_SIZE + ALIGNMENT <? s
                   then [(b, am, 0); (b + BLOCK_SIZE + am, s - am - BLOCK_SIZE, 1)]
                   else [(b, s, 0)]) ++ l2 in
  exists st',
    allocator_malloc n st = Some (b + BLOCK_SIZE, st')
    /\ region_heap st' l'
    /\ pages st' = pages st /\ free_list st' = free_list st
    /\ os_answers st' = os_answers st
    /\ (forall a, in_headers (l1 ++ (b, s, f) :: l2) a = false ->
                  a < b \/ b + BLOCK_SIZE + s <= a ->
                  byte_at (bytes st') a = byte_at (bytes st) a).
Proof.
  intros Hreg Hn. destruct (align_size_small n Hn) as [Hampos _].
  apply malloc_hit_region_any; [exact Hreg | lia | lia].
Qed.

End MallocRegion.

(** * Example heaps *)

Section ExampleHeaps.

Implicit Types (st : state) (bs : gmap Z Z) (l : list (Z * Z * Z)).

Lemma extent_in_page st pg x :
  pg ∈ pages st -> 1 <= pg -> (pg + 1) * PAGE_SIZE <= 2 ^ 64 ->
  pg * PAGE_SIZE <= x.1.1 -> 0 <= x.1.2 ->
  x.1.1 + BLOCK_SIZE + x.1.2 <= (pg + 1) * PAGE_SIZE ->
  extent_mapped st x.
Proof.
  intros Hin Hpg Htop Hlo Hs Hhi. split; [exact Hs|].
  apply (range_mapped_in_page _ pg); try assumption. lia.
Qed.

(** A heap whose blocks all lie in page 16. *)
Lemma region_in_page_16 st l :
  block_list st = Some l -> contiguous l = true ->
  prev_linked (bytes st) NULL l = true ->
  bool_decide (16 ∈ pages st) = true ->
  forallb (fun x => (65536 <=? x.1.1) && (0 <=? x.1.2)
                    && (x.1.1 + BLOCK_SIZE + x.1.2 <=? 69632)) l = true ->
  region_heap st l.
Proof.
  intros Hlist Hcont Hprev Hpage Hall.
  apply bool_decide_eq_true in Hpage.
  split; [exact Hlist|]. split; [exact Hcont|]. split; [|exact Hprev].
  apply Forall_forall. intros x Hx.
  rewrite forallb_forall in Hall. specialize (Hall x ltac:(apply list_elem_of_In; exact Hx)).
  apply andb_prop in Hall as [Hall H3]. apply andb_prop in Hall as [H1 H2].
  apply (extent_in_page _ 16); unfold PAGE_SIZE; try lia. exact Hpage.
Qed.

Lemma three_block_region :
  region_heap three_block_state
    ([(65536, 16, 0)] ++ (65584, 2000, 0) :: [(67616, 1984, 1)]).
Proof. apply region_in_page_16; vm_compute; reflexivity. Qed.

End ExampleHeaps.

Section ResizeRegion.

Implicit Types (st : state) (bs : gmap Z Z) (l : list (Z * Z * Z)).

Lemma released_region :
  region_heap released_state ([] ++ (65536, 4064, 1) :: []).
Proof. apply region_in_page_16; vm_compute; reflexivity. Qed.

Lemma other_payload_kept st l1 b s f l2 (bs' : gmap Z Z) lo hi :
  region_heap st (l1 ++ (b, s, f) :: l2) ->
  b <= lo -> hi <= b + BLOCK_SIZE + s ->
  (forall a, in_headers (l1 ++ (b, s, f) :: l2) a = false ->
             a < lo \/ hi <= a -> byte_at bs' a = byte_at (bytes st) a) ->
  forall z i, z ∈ l1 ++ l2 -> 0 <= i < z.1.2 ->
    byte_at bs' (z.1.1 + BLOCK_SIZE + i) = byte_at (bytes st) (z.1.1 + BLOCK_SIZE + i).
Proof.
  intros Hreg Hlo Hhi Hfr z i Hz Hi.
  pose proof (region_split _ _ _ _ _ _ Hreg)
    as (_ & _ & _ & _ & _ & _ & _ & _ & _ & Hbelow & Habove & _).
  destruct Hreg as (_ & Hcont & Hext & _).
  rewrite Forall_forall in Hbelow, Habove.
  apply Hfr.
  - apply payload_not_header; [exact Hcont | eapply extent_sizes, Hext | | exact Hi].
    apply elem_of_app in Hz as [Hz|Hz]; apply elem_of_app;
      [left; exact Hz | right; apply list_elem_of_further, Hz].
  - apply elem_of_app in Hz as [Hz|Hz].
    + specialize (Hbelow z Hz). left. lia.
    + specialize (Habove z Hz). right. unfold BLOCK_SIZE in *. lia.
Qed.

(** [allocator_realloc] to a size the block already holds. *)
Lemma realloc_in_place_region_any st l1 b s l2 m :
  region_heap st (l1 ++ (b, s, 0) :: l2) ->
  m <> 0 -> 0 <= align_size m -> align_size m <= s ->
  let am := align_size m in
  let l' := l1 ++ (if am + BLOCK_SIZE + ALIGNMENT <? s
                   then [(b, am, 0); (b + BLOCK_SIZE + am, s - am - BLOCK_SIZE, 1)]
                   else [(b, s, 0)]) ++ l2 in
  exists st',
    allocator_realloc (b + BLOCK_SIZE) m st = Some (b + BLOCK_SIZE, st')
    /\ region_heap st' l'
    /\ pages st' = pages st /\ os_answers st' = os_answers st
    /\ (forall i, 0 <= i < am ->
          byte_at (bytes st') (b + BLOCK_SIZE + i)
          = byte_at (bytes st) (b + BLOCK_SIZE + i))
    /\ (forall z i, z ∈ l1 ++ l2 -> 0 <= i < z.1.2 ->
          byte_at (bytes st') (z.1.1 + BLOCK_SIZE + i)
          = byte_at (bytes st) (z.1.1 + BLOCK_SIZE + i)).
Proof.
  intros Hreg Hm Hampos Hfit am l'. fold am in Hampos, Hfit.
  pose proof (region_split _ _ _ _ _ _ Hreg)
    as (_ & _ & Hbs & Hbf & _ & _ & _ & _ & _ & _ & _ & (Hs & Hbrange) & _).
  pose proof (region_block_range _ _ _ _ _ _ Hreg) as (_ & Hblo & Hbhi).
  assert (Hnowrap : am + BLOCK_SIZE + ALIGNMENT < 2 ^ 64)
    by (unfold BLOCK_SIZE, ALIGNMENT, PAGE_SIZE in *; lia).
  destruct (cut_region st l1 b s l2 am Hreg ltac:(lia) Hnowrap)
    as (st' & Hcut & Hreg' & Hpg & _ & Hos & Hfr).
  exists st'. split.
  { unfold allocator_realloc. fold am.
    replace (b + BLOCK_SIZE =? NULL) with false
      by (symmetry; apply Z.eqb_neq; unfold NULL, BLOCK_SIZE, PAGE_SIZE in *; lia).
    replace (m =? 0) with false by (symmetry; apply Z.eqb_neq; exact Hm).
    replace (get_block (b + BLOCK_SIZE)) with b by (unfold get_block; lia).
    rewrite (bind_eq _ _ _ _ _ (valid_block_in_use st b
               ltac:(eapply range_mapped_sub; [exact Hbrange | offsets; lia | offsets; lia])
               Hbf)).
    unfold bind in Hcut |- *.
    destruct (get_size b st) as [[bs0 st0]|] eqn:Hsz; [|discriminate].
    apply load_le_inv in Hsz as (-> & -> & _). rewrite Hbs in *.
    replace (am <=? s) with true by (symmetry; apply Z.leb_le; exact Hfit).
    rewrite Hcut. reflexivity. }
  split; [exact Hreg'|]. split; [exact Hpg|]. split; [exact Hos|]. split.
  - intros i Hi. apply Hfr; [|left; lia].
    destruct Hreg as (_ & Hcont & Hext & _).
    apply (payload_not_header _ (b, s, 0)); cbn [fst snd];
      [exact Hcont | eapply extent_sizes, Hext
      | apply elem_of_app; right; apply list_elem_of_here | lia].
  - apply (other_payload_kept st l1 b s 0 l2 _ (b + BLOCK_SIZE + am)
             (b + BLOCK_SIZE + s) Hreg);
      [unfold BLOCK_SIZE; lia | lia | exact Hfr].
Qed.

Lemma realloc_in_place_region st l1 b s l2 m :
  region_heap st (l1 ++ (b, s, 0) :: l2) ->
  0 < m <= 2 ^ 64 - 64 -> align_size m <= s ->
  let am := align_size m in
  let l' := l1 ++ (if am + BLOCK_SIZE + ALIGNMENT <? s
                   then [(b, am, 0); (b + BLOCK_SIZE + am, s - am - BLOCK_SIZE, 1)]
                   else [(b, s, 0)]) ++ l2 in
  exists st',
    allocator_realloc (b + BLOCK_SIZE) m st = Some (b + BLOCK_SIZE, st')
    /\ region_heap st' l'
    /\ pages st' = pages st /\ os_answers st' = os_answers st
    /\ (forall i, 0 <= i < am ->
          byte_at (bytes st') (b + BLOCK_SIZE + i)
          = byte_at (bytes st) (b + BLOCK_SIZE + i))
    /\ (forall z i, z ∈ l1 ++ l2 -> 0 <= i < z.1.2 ->
          byte_at (bytes st') (z.1.1 + BLOCK_SIZE + i)
          = byte_at (bytes st) (z.1.1 + BLOCK_SIZE + i)).
Proof.
  intros Hreg Hm. destruct (align_size_small m Hm) as [Hampos _].
  apply realloc_in_place_region_any; [exact Hreg | lia | lia].
Qed.

End ResizeRegion.

(** * Heaps of blocks that do not overlap *)

Section Steps.

Lemma steps_ret {A} (x : A) st Q : Q x st -> steps (ret x) st Q.
Proof. intros H. exists x, st. split; [reflexivity | exact H]. Qed.

Lemma steps_bind {A B} (c : M A) (k : A -> M B) st Q :
  steps c st (fun x st' => steps (k x) st' Q) -> steps (bind c k) st Q.
Proof.
  intros (x & st' & Hc & y & st'' & Hk & HQ).
  exists y, st''. split; [|exact HQ]. rewrite (bind_eq _ _ _ _ _ Hc). exact Hk.
Qed.

End Steps.

Section Sameness.

Lemma same_refl hs st : same_but_headers hs st st.
Proof. repeat split. Qed.

Lemma same_trans hs st1 st2 st3 :
  same_but_headers hs st1 st2 -> same_but_headers hs st2 st3 ->
  same_but_headers hs st1 st3.
Proof.
  intros (Hp & Hf & Ho & Hb) (Hp' & Hf' & Ho' & Hb').
  repeat split; try congruence.
  intros x Hx. rewrite Hb', Hb by exact Hx. reflexivity.
Qed.

End Sameness.

Section LinkedHeaders.

Implicit Types (st : state) (hs : list Z).

Lemma linked_range st hs a :
  linked st hs -> a ∈ hs -> PAGE_SIZE <= a /\ a + BLOCK_SIZE <= 2 ^ 64.
Proof.
  intros (Hm & _) Ha. specialize (Hm a Ha).
  pose proof (range_mapped_range st a BLOCK_SIZE 0 Hm ltac:(unfold BLOCK_SIZE; lia)).
  pose proof (range_mapped_range st a BLOCK_SIZE 31 Hm ltac:(unfold BLOCK_SIZE; lia)).
  unfold BLOCK_SIZE in *. lia.
Qed.

Lemma linked_load st hs a o k :
  linked st hs -> a ∈ hs -> 0 <= o -> o + Z.of_nat k <= BLOCK_SIZE ->
  load_le k (a + o) st = Some (word_at k (a + o) (bytes st), st).
Proof.
  intros (Hm & _) Ha Ho Hk. apply load_le_eq.
  apply (range_mapped_sub st a BLOCK_SIZE); [apply Hm, Ha | lia | lia].
Qed.

(** A store into a header of [hs] that keeps the links in [hs]. *)
Lemma linked_store st hs a o k v :
  linked st hs -> a ∈ hs -> 0 <= o -> o + Z.of_nat k <= BLOCK_SIZE ->
  let st' := set_bytes (write_le k (a + o) v (bytes st)) st in
  (forall c, c ∈ hs ->
     (word_at 8 (c + off_next) (bytes st') = NULL
      \/ word_at 8 (c + off_next) (bytes st') ∈ hs)
     /\ (word_at 8 (c + off_prev) (bytes st') = NULL
         \/ word_at 8 (c + off_prev) (bytes st') ∈ hs)) ->
  store_le k (a + o) v st = Some (tt, st')
  /\ linked st' hs /\ same_but_headers hs st st'.
Proof.
  intros Hl Ha Ho Hk st' Hlinks. pose proof Hl as (Hm & Hap & Hn & Hp).
  split; [|split].
  - apply store_le_eq.
    apply (range_mapped_sub st a BLOCK_SIZE); [apply Hm, Ha | lia | lia].
  - split; [|split; [exact Hap|split]].
    + intros c Hc. apply range_mapped_set_bytes, Hm, Hc.
    + intros c Hc. apply (Hlinks c Hc).
    + intros c Hc. apply (Hlinks c Hc).
  - repeat split. intros x Hx. subst st'. cbn [bytes set_bytes].
    apply byte_at_write_le_out. specialize (Hx a Ha). lia.
Qed.

(** The word at offset [o'] of a header of [hs] after a store into another
    field, of the same header or of another one. *)
Lemma linked_other_field st hs a o k v c o' k' :
  linked st hs -> a ∈ hs -> c ∈ hs ->
  0 <= o -> o + Z.of_nat k <= BLOCK_SIZE ->
  0 <= o' -> o' + Z.of_nat k' <= BLOCK_SIZE ->
  o' + Z.of_nat k' <= o \/ o + Z.of_nat k <= o' ->
  word_at k' (c + o') (write_le k (a + o) v (bytes st)) = word_at k' (c + o') (bytes st).
Proof.
  intros (_ & Hap & _) Ha Hc Ho Hk Ho' Hk' Hf.
  apply word_at_write_le_disj.
  destruct (decide (c = a)) as [->|Hne]; [lia|].
  destruct (Hap c a Hc Ha Hne); lia.
Qed.

Lemma linked_put_size st hs a v :
  linked st hs -> a ∈ hs ->
  exists st',
    put_size a v st = Some (tt, st')
    /\ linked st' hs /\ same_but_headers hs st st'
    /\ (forall c, c ∈ hs ->
          word_at 8 (c + off_next) (bytes st') = word_at 8 (c + off_next) (bytes st)
          /\ word_at 8 (c + off_prev) (bytes st') = word_at 8 (c + off_prev) (bytes st)
          /\ word_at 4 (c + off_free) (bytes st') = word_at 4 (c + off_free) (bytes st)).
Proof.
  intros Hl Ha. pose proof Hl as (Hm & Hap & Hn & Hp).
  assert (Hw : forall c, c ∈ hs ->
            word_at 8 (c + off_next) (write_le 8 (a + off_size) v (bytes st))
            = word_at 8 (c + off_next) (bytes st)
            /\ word_at 8 (c + off_prev) (write_le 8 (a + off_size) v (bytes st))
               = word_at 8 (c + off_prev) (bytes st)
            /\ word_at 4 (c + off_free) (write_le 8 (a + off_size) v (bytes st))
               = word_at 4 (c + off_free) (bytes st)).
  { intros c Hc. repeat split;
      apply (linked_other_field st hs); auto; offsets; lia. }
  eexists. unfold put_size.
  destruct (linked_store st hs a off_size 8 v Hl Ha ltac:(offsets; lia)
              ltac:(offsets; lia)) as (He & Hl' & Hs).
  { intros c Hc. cbn [bytes set_bytes].
    destruct (Hw c Hc) as (-> & -> & _). split; [apply Hn, Hc | apply Hp, Hc]. }
  split; [exact He|]. split; [exact Hl'|]. split; [exact Hs|]. exact Hw.
Qed.

Lemma linked_put_free st hs a v :
  linked st hs -> a ∈ hs ->
  exists st',
    put_free a v st = Some (tt, st')
    /\ linked st' hs /\ same_but_headers hs st st'
    /\ (forall c, c ∈ hs ->
          word_at 8 (c + off_next) (bytes st') = word_at 8 (c + off_next) (bytes st)
          /\ word_at 8 (c + off_prev) (bytes st') = word_at 8 (c + off_prev) (bytes st)).
Proof.
  intros Hl Ha. pose proof Hl as (Hm & Hap & Hn & Hp).
  assert (Hw : forall c, c ∈ hs ->
            word_at 8 (c + off_next) (write_le 4 (a + off_free) v (bytes st))
            = word_at 8 (c + off_next) (bytes st)
            /\ word_at 8 (c + off_prev) (write_le 4 (a + off_free) v (bytes st))
               = word_at 8 (c + off_prev) (bytes st)).
  { intros c Hc. repeat split;
      apply (linked_other_field st hs); auto; offsets; lia. }
  eexists. unfold put_free.
  destruct (linked_store st hs a off_free 4 v Hl Ha ltac:(offsets; lia)
              ltac:(offsets; lia)) as (He & Hl' & Hs).
  { intros c Hc. cbn [bytes set_bytes].
    destruct (Hw c Hc) as (-> & ->). split; [apply Hn, Hc | apply Hp, Hc]. }
  split; [exact He|]. split; [exact Hl'|]. split; [exact Hs|]. exact Hw.
Qed.

Lemma linked_put_next st hs a v :
  linked st hs -> a ∈ hs -> v = NULL \/ v ∈ hs ->
  exists st',
    put_next a v st = Some (tt, st')
    /\ linked st' hs /\ same_but_headers hs st st'
    /\ word_at 8 (a + off_next) (bytes st') = v
    /\ (forall c, c ∈ hs ->
          word_at 8 (c + off_prev) (bytes st') = word_at 8 (c + off_prev) (bytes st)).
Proof.
  intros Hl Ha Hv. pose proof Hl as (Hm & Hap & Hn & Hp).
  assert (Hvr : wrap v = v).
  { apply wrap_small. destruct Hv as [->|Hv]; [unfold NULL; lia|].
    pose proof (linked_range st hs v Hl Hv). unfold PAGE_SIZE, BLOCK_SIZE in *. lia. }
  assert (Hsame : word_at 8 (a + off_next) (write_le 8 (a + off_next) v (bytes st)) = v).
  { rewrite word_at_write_le_same, wrap_pow256_8. exact Hvr. }
  assert (Hw : forall c, c ∈ hs ->
            word_at 8 (c + off_prev) (write_le 8 (a + off_next) v (bytes st))
            = word_at 8 (c + off_prev) (bytes st)).
  { intros c Hc. apply (linked_other_field st hs); auto; offsets; lia. }
  eexists. unfold put_next.
  destruct (linked_store st hs a off_next 8 v Hl Ha ltac:(offsets; lia)
              ltac:(offsets; lia)) as (He & Hl' & Hs).
  { intros c Hc. cbn [bytes set_bytes]. rewrite (Hw c Hc).
    split; [|apply Hp, Hc].
    destruct (decide (c = a)) as [->|Hne]; [rewrite Hsame; exact Hv|].
    rewrite word_at_write_le_disj; [apply Hn, Hc|].
    destruct (Hap c a Hc Ha Hne); offsets; lia. }
  split; [exact He|]. split; [exact Hl'|]. split; [exact Hs|].
  split; [exact Hsame | exact Hw].
Qed.

Lemma linked_put_prev st hs a v :
  linked st hs -> a ∈ hs -> v = NULL \/ v ∈ hs ->
  exists st',
    put_prev a v st = Some (tt, st')
    /\ linked st' hs /\ same_but_headers hs st st'
    /\ (forall c, c ∈ hs ->
          word_at 8 (c + off_next) (bytes st') = word_at 8 (c + off_next) (bytes st)).
Proof.
  intros Hl Ha Hv. pose proof Hl as (Hm & Hap & Hn & Hp).
  assert (Hvr : wrap v = v).
  { apply wrap_small. destruct Hv as [->|Hv]; [unfold NULL; lia|].
    pose proof (linked_range st hs v Hl Hv). unfold PAGE_SIZE, BLOCK_SIZE in *. lia. }
  assert (Hsame : word_at 8 (a + off_prev) (write_le 8 (a + off_prev) v (bytes st)) = v).
  { rewrite word_at_write_le_same, wrap_pow256_8. exact Hvr. }
  assert (Hw : forall c, c ∈ hs ->
            word_at 8 (c + off_next) (write_le 8 (a + off_prev) v (bytes st))
            = word_at 8 (c + off_next) (bytes st)).
  { intros c Hc. apply (linked_other_field st hs); auto; offsets; lia. }
  eexists. unfold put_prev.
  destruct (linked_store st hs a off_prev 8 v Hl Ha ltac:(offsets; lia)
              ltac:(offsets; lia)) as (He & Hl' & Hs).
  { intros c Hc. cbn [bytes set_bytes]. rewrite (Hw c Hc).
    split; [apply Hn, Hc|].
    destruct (decide (c = a)) as [->|Hne]; [rewrite Hsame; exact Hv|].
    rewrite word_at_write_le_disj; [apply Hp, Hc|].
    destruct (Hap c a Hc Ha Hne); offsets; lia. }
  split; [exact He|]. split; [exact Hl'|]. split; [exact Hs|]. exact Hw.
Qed.

End LinkedHeaders.

Section LinkedSteps.

Implicit Types (st : state) (hs : list Z).

Lemma steps_get_next st hs a (Q : Z -> state -> Prop) :
  linked st hs -> a ∈ hs ->
  Q (word_at 8 (a + off_next) (bytes st)) st -> steps (get_next a) st Q.
Proof.
  intros Hl Ha HQ. eexists _, st. split; [|exact HQ].
  apply (linked_load st hs); auto; offsets; lia.
Qed.

Lemma steps_get_prev st hs a (Q : Z -> state -> Prop) :
  linked st hs -> a ∈ hs ->
  Q (word_at 8 (a + off_prev) (bytes st)) st -> steps (get_prev a) st Q.
Proof.
  intros Hl Ha HQ. eexists _, st. split; [|exact HQ].
  apply (linked_load st hs); auto; offsets; lia.
Qed.

Lemma steps_get_size st hs a (Q : Z -> state -> Prop) :
  linked st hs -> a ∈ hs ->
  Q (word_at 8 (a + off_size) (bytes st)) st -> steps (get_size a) st Q.
Proof.
  intros Hl Ha HQ. eexists _, st. split; [|exact HQ].
  apply (linked_load st hs); auto; offsets; lia.
Qed.

Lemma steps_get_free st hs a (Q : Z -> state -> Prop) :
  linked st hs -> a ∈ hs ->
  Q (word_at 4 (a + off_free) (bytes st)) st -> steps (get_free a) st Q.
Proof.
  intros Hl Ha HQ. eexists _, st. split; [|exact HQ].
  apply (linked_load st hs); auto; offsets; lia.
Qed.

Lemma linked_not_null st hs a : linked st hs -> a ∈ hs -> (a =? NULL) = false.
Proof.
  intros Hl Ha. pose proof (linked_range st hs a Hl Ha).
  apply Z.eqb_neq. unfold NULL, PAGE_SIZE in *. lia.
Qed.

(** The first half of [merge_blocks] reads and writes headers of [hs] only. *)
Lemma merge_with_next_linked st hs b :
  linked st hs -> b ∈ hs ->
  steps (merge_with_next b) st
        (fun _ st' => linked st' hs /\ same_but_headers hs st st').
Proof.
  intros Hl Hb. pose proof Hl as (_ & _ & Hn & _).
  unfold merge_with_next.
  apply steps_bind, (steps_get_next st hs); [exact Hl | exact Hb|].
  set (n := word_at 8 (b + off_next) (bytes st)).
  destruct (Hn b Hb) as [Hz|Hin]; fold n in Hz || fold n in Hin.
  { rewrite Hz. change (NULL =? NULL) with true. cbn iota.
    apply steps_bind, steps_ret. change (0 =? 0) with true. cbn iota.
    apply steps_ret. split; [exact Hl | apply same_refl]. }
  rewrite (linked_not_null st hs n Hl Hin).
  apply steps_bind, (steps_get_free st hs); [exact Hl | exact Hin|].
  destruct (word_at 4 (n + off_free) (bytes st) =? 0).
  { apply steps_ret. split; [exact Hl | apply same_refl]. }
  apply steps_bind, (steps_get_next st hs); [exact Hl | exact Hb|]. fold n.
  apply steps_bind, (steps_get_size st hs); [exact Hl | exact Hin|].
  apply steps_bind, (steps_get_size st hs); [exact Hl | exact Hb|].
  apply steps_bind.
  destruct (linked_put_size st hs b
              (wrap (word_at 8 (b + off_size) (bytes st)
                     + wrap (BLOCK_SIZE + word_at 8 (n + off_size) (bytes st))))
              Hl Hb) as (st1 & He1 & Hl1 & Hs1 & Hw1).
  exists tt, st1. split; [exact He1|].
  apply steps_bind, (steps_get_next st1 hs); [exact Hl1 | exact Hb|].
  destruct (Hw1 b Hb) as (Hnb & _). rewrite Hnb. fold n.
  apply steps_bind, (steps_get_next st1 hs); [exact Hl1 | exact Hin|].
  set (nn := word_at 8 (n + off_next) (bytes st1)).
  assert (Hnn : nn = NULL \/ nn ∈ hs) by (destruct Hl1 as (_ & _ & H & _); apply H, Hin).
  apply steps_bind.
  destruct (linked_put_next st1 hs b nn Hl1 Hb Hnn) as (st2 & He2 & Hl2 & Hs2 & Hv2 & _).
  exists tt, st2. split; [exact He2|].
  apply steps_bind, (steps_get_next st2 hs); [exact Hl2 | exact Hb|]. rewrite Hv2.
  destruct Hnn as [Hz|Hnn].
  { rewrite Hz. change (NULL =? NULL) with true. cbn iota.
    apply steps_ret. split; [exact Hl2|]. eapply same_trans; eassumption. }
  rewrite (linked_not_null st2 hs nn Hl2 Hnn).
  destruct (linked_put_prev st2 hs nn b Hl2 Hnn (or_intror Hb))
    as (st3 & He3 & Hl3 & Hs3 & _).
  exists tt, st3. split; [exact He3|]. split; [exact Hl3|].
  eapply same_trans; [|exact Hs3]. eapply same_trans; eassumption.
Qed.

(** So does the second half. *)
Lemma merge_with_prev_linked st hs b :
  linked st hs -> b ∈ hs ->
  steps (merge_with_prev b) st
        (fun _ st' => linked st' hs /\ same_but_headers hs st st').
Proof.
  intros Hl Hb. pose proof Hl as (_ & _ & _ & Hp).
  unfold merge_with_prev.
  apply steps_bind, (steps_get_prev st hs); [exact Hl | exact Hb|].
  set (p := word_at 8 (b + off_prev) (bytes st)).
  destruct (Hp b Hb) as [Hz|Hin]; fold p in Hz || fold p in Hin.
  { rewrite Hz. change (NULL =? NULL) with true. cbn iota.
    apply steps_bind, steps_ret. change (0 =? 0) with true. cbn iota.
    apply steps_ret. split; [exact Hl | apply same_refl]. }
  rewrite (linked_not_null st hs p Hl Hin).
  apply steps_bind, (steps_get_free st hs); [exact Hl | exact Hin|].
  destruct (word_at 4 (p + off_free) (bytes st) =? 0).
  { apply steps_ret. split; [exact Hl | apply same_refl]. }
  apply steps_bind, (steps_get_prev st hs); [exact Hl | exact Hb|]. fold p.
  apply steps_bind, (steps_get_size st hs); [exact Hl | exact Hb|].
  apply steps_bind, (steps_get_size st hs); [exact Hl | exact Hin|].
  apply steps_bind.
  destruct (linked_put_size st hs p
              (wrap (word_at 8 (p + off_size) (bytes st)
                     + wrap (BLOCK_SIZE + word_at 8 (b + off_size) (bytes st))))
              Hl Hin) as (st1 & He1 & Hl1 & Hs1 & Hw1).
  exists tt, st1. split; [exact He1|].
  apply steps_bind, (steps_get_prev st1 hs); [exact Hl1 | exact Hb|].
  destruct (Hw1 b Hb) as (_ & Hpb & _). rewrite Hpb. fold p.
  apply steps_bind, (steps_get_next st1 hs); [exact Hl1 | exact Hb|].
  set (bn := word_at 8 (b + off_next) (bytes st1)).
  assert (Hbn : bn = NULL \/ bn ∈ hs) by (destruct Hl1 as (_ & _ & H & _); apply H, Hb).
  apply steps_bind.
  destruct (linked_put_next st1 hs p bn Hl1 Hin Hbn) as (st2 & He2 & Hl2 & Hs2 & _ & _).
  exists tt, st2. split; [exact He2|].
  apply steps_bind, (steps_get_next st2 hs); [exact Hl2 | exact Hb|].
  set (bn' := word_at 8 (b + off_next) (bytes st2)).
  assert (Hbn' : bn' = NULL \/ bn' ∈ hs) by (destruct Hl2 as (_ & _ & H & _); apply H, Hb).
  destruct Hbn' as [Hz|Hbn'].
  { rewrite Hz. change (NULL =? NULL) with true. cbn iota.
    apply steps_ret. split; [exact Hl2|]. eapply same_trans; eassumption. }
  rewrite (linked_not_null st2 hs bn' Hl2 Hbn').
  apply steps_bind, (steps_get_next st2 hs); [exact Hl2 | exact Hb|]. fold bn'.
  apply steps_bind, (steps_get_prev st2 hs); [exact Hl2 | exact Hb|].
  assert (Hp3 : word_at 8 (b + off_prev) (bytes st2) = NULL
                \/ word_at 8 (b + off_prev) (bytes st2) ∈ hs)
    by (destruct Hl2 as (_ & _ & _ & H); apply H, Hb).
  destruct (linked_put_prev st2 hs bn' _ Hl2 Hbn' Hp3) as (st3 & He3 & Hl3 & Hs3 & _).
  exists tt, st3. split; [exact He3|]. split; [exact Hl3|].
  eapply same_trans; [|exact Hs3]. eapply same_trans; eassumption.
Qed.

(** Releasing a block of [hs] that is in use returns, and changes headers of
    [hs] only. *)
Lemma free_linked st hs b :
  linked st hs -> b ∈ hs -> word_at 4 (b + off_free) (bytes st) = 0 ->
  exists st',
    allocator_free (b + BLOCK_SIZE) st = Some (tt, st')
    /\ linked st' hs /\ same_but_headers hs st st'.
Proof.
  intros Hl Hb Hf.
  assert (Hptr : (b + BLOCK_SIZE =? NULL) = false).
  { pose proof (linked_range st hs b Hl Hb). apply Z.eqb_neq.
    unfold NULL, PAGE_SIZE, BLOCK_SIZE in *. lia. }
  assert (Hvalid : valid_block b st = Some (true, st)).
  { unfold valid_block. rewrite (linked_not_null st hs b Hl Hb).
    unfold get_free. erewrite bind_eq
      by (apply (linked_load st hs); auto; offsets; lia).
    rewrite Hf. reflexivity. }
  destruct (linked_put_free st hs b 1 Hl Hb) as (st1 & He1 & Hl1 & Hs1 & _).
  destruct (merge_with_next_linked st1 hs b Hl1 Hb) as ([] & st2 & He2 & Hl2 & Hs2).
  destruct (merge_with_prev_linked st2 hs b Hl2 Hb) as ([] & st3 & He3 & Hl3 & Hs3).
  exists st3. split.
  - unfold allocator_free. rewrite Hptr.
    replace (get_block (b + BLOCK_SIZE)) with b by (unfold get_block; lia).
    rewrite (bind_eq _ _ _ _ _ Hvalid). rewrite (bind_eq _ _ _ _ _ He1).
    rewrite merge_blocks_halves. rewrite (bind_eq _ _ _ _ _ He2). exact He3.
  - split; [exact Hl3|].
    eapply same_trans; [|exact Hs3]. eapply same_trans; eassumption.
Qed.

End LinkedSteps.

Section Walks.

Implicit Types (st : state) (l : list (Z * Z * Z)).

(** The [next] links spell out one list only. *)
Lemma lseg_functional bs l1 : forall a l2,
  lseg bs a NULL l1 -> lseg bs a NULL l2 -> l1 = l2.
Proof.
  induction l1 as [|x l1 IH]; intros a l2 H1 H2.
  - apply lseg_nil_inv in H1. subst a.
    destruct l2 as [|y l2]; [reflexivity|].
    apply lseg_cons_inv in H2 as (Hnz & _). congruence.
  - apply lseg_cons_inv in H1 as (Hnz & -> & H1).
    destruct l2 as [|y l2].
    + apply lseg_nil_inv in H2. congruence.
    + apply lseg_cons_inv in H2 as (_ & -> & H2). f_equal. eapply IH; eassumption.
Qed.

(** A walk that ends visits no block twice. *)
Lemma lseg_NoDup bs l : forall a,
  lseg bs a NULL l -> NoDup (map (fun x => x.1.1) l).
Proof.
  induction l as [|x l IH]; intros a H; [constructor|].
  pose proof H as Hall.
  apply lseg_cons_inv in H as (Hnz & Hx & H).
  cbn [map]. constructor; [|eapply IH; exact H].
  intros Hin. apply list_elem_of_fmap in Hin as (y & Hy & Hyin).
  apply list_elem_of_split in Hyin as (l1 & l2 & ->).
  apply lseg_split in H as (b & _ & H2).
  pose proof H2 as H2'. apply lseg_cons_inv in H2' as (_ & Hy' & _).
  assert (b = a) by (subst x y; cbn in Hy; congruence). subst b.
  pose proof (lseg_functional _ _ _ _ H2 Hall) as Heq.
  apply (f_equal length) in Heq. cbn in Heq. rewrite length_app in Heq.
  cbn in Heq. lia.
Qed.

(** The walk has fuel for every list of accessible headers that ends. *)
Lemma block_list_lseg st l :
  lseg (bytes st) (free_list st) NULL l -> Forall (header_mapped st) l ->
  block_list st = Some l.
Proof.
  intros Hseg Hmapped. apply block_list_short; [assumption..|].
  unfold heap_fuel. rewrite <- (length_map (fun x => x.1.1) l).
  pose proof (mapped_addresses_bound st (map (fun x => x.1.1) l)
                (lseg_NoDup _ _ _ Hseg)) as Hbound.
  etransitivity; [apply Hbound|lia].
  intros a Ha. apply list_elem_of_fmap in Ha as (x & -> & Hx).
  rewrite Forall_forall in Hmapped. apply header_mapped_addr, Hmapped, Hx.
Qed.

Lemma lseg_not_before bs a l1 r s f l2 x :
  lseg bs a NULL (l1 ++ (r, s, f) :: l2) -> x ∈ l1 ++ l2 -> x.1.1 <> r.
Proof.
  intros H Hx Heq. apply lseg_NoDup in H.
  rewrite map_app in H. cbn [map] in H.
  apply NoDup_app in H as (_ & H1 & H2). apply NoDup_cons in H2 as (H2 & _).
  cbn in H1, H2.
  apply elem_of_app in Hx as [Hx|Hx].
  - apply (H1 r); [|left].
    subst r. apply list_elem_of_fmap. exists x. split; [reflexivity | exact Hx].
  - apply H2. subst r. apply list_elem_of_fmap. exists x.
    split; [reflexivity | exact Hx].
Qed.

End Walks.

Section Sound.

Implicit Types (st : state) (hs : list Z) (l : list (Z * Z * Z)).

Lemma sound_linked st hs : sound_blocks st hs -> linked st hs.
Proof.
  intros (_ & Hm & Hap & Hn & Hp). split; [|split; [|split]].
  - intros a Ha. destruct (Hm a Ha) as [Hs Hr].
    apply (range_mapped_sub st a _ a BLOCK_SIZE Hr); lia.
  - intros a1 a2 H1 H2 Hne. destruct (Hm a1 H1) as [Hs1 _].
    destruct (Hm a2 H2) as [Hs2 _]. destruct (Hap a1 a2 H1 H2 Hne); lia.
  - exact Hn.
  - exact Hp.
Qed.

Lemma sound_range st hs a :
  sound_blocks st hs -> a ∈ hs ->
  PAGE_SIZE <= a
  /\ 0 <= word_at 8 (a + off_size) (bytes st)
  /\ a + BLOCK_SIZE + word_at 8 (a + off_size) (bytes st) <= 2 ^ 64.
Proof.
  intros (_ & Hm & _) Ha. destruct (Hm a Ha) as [Hs Hr].
  pose proof (range_mapped_range st a _ 0 Hr ltac:(unfold BLOCK_SIZE; lia)).
  pose proof (range_mapped_range st a _
                (BLOCK_SIZE + word_at 8 (a + off_size) (bytes st) - 1) Hr
                ltac:(unfold BLOCK_SIZE; lia)).
  unfold BLOCK_SIZE in *. lia.
Qed.

Lemma sound_mapped_heap st hs : sound_blocks st hs -> mapped_heap st.
Proof.
  intros ((l & Hlist & Hin) & Hm & _). exists l. split; [exact Hlist|].
  apply Forall_forall. intros x Hx.
  pose proof (block_list_elim _ _ Hlist) as [Hseg _].
  apply list_elem_of_split in Hx as (l1 & l2 & ->).
  apply lseg_split in Hseg as (b & _ & Hseg).
  apply lseg_cons_inv in Hseg as (_ & -> & _).
  unfold extent_mapped. cbn [fst snd]. apply (Hm b).
  apply (Hin (b, word_at 8 (b + off_size) (bytes st),
              word_at 4 (b + off_free) (bytes st))).
  apply elem_of_app. right. apply list_elem_of_here.
Qed.

(** A payload byte of a block of [hs] lies in no header of [hs]. *)
Lemma sound_payload_apart st hs b i a :
  sound_blocks st hs -> b ∈ hs -> a ∈ hs ->
  0 <= i < word_at 8 (b + off_size) (bytes st) ->
  b + BLOCK_SIZE + i < a \/ a + BLOCK_SIZE <= b + BLOCK_SIZE + i.
Proof.
  intros Hs Hb Ha Hi. destruct (decide (a = b)) as [->|Hne]; [lia|].
  pose proof (sound_range st hs a Hs Ha) as (_ & Hsa & _).
  destruct Hs as (_ & _ & Hap & _).
  destruct (Hap a b Ha Hb Hne); lia.
Qed.

(** A store that leaves the headers of [hs] alone leaves the heap as it is. *)
Lemma block_list_frame st st' l :
  block_list st = Some l ->
  pages st' = pages st -> free_list st' = free_list st ->
  (forall x, x ∈ l ->
     word_at 8 (x.1.1 + off_size) (bytes st') = word_at 8 (x.1.1 + off_size) (bytes st)
     /\ word_at 4 (x.1.1 + off_free) (bytes st') = word_at 4 (x.1.1 + off_free) (bytes st)
     /\ word_at 8 (x.1.1 + off_next) (bytes st') = word_at 8 (x.1.1 + off_next) (bytes st)) ->
  block_list st' = Some l.
Proof.
  intros Hlist Hp Hf Hw. pose proof (block_list_elim _ _ Hlist) as [Hseg Hmapped].
  apply block_list_lseg.
  - rewrite Hf. apply (lseg_frame (bytes st)); assumption.
  - eapply Forall_impl; [exact Hmapped|].
    intros x (H1 & H2 & H3).
    repeat split; apply (range_mapped_pages st); auto.
Qed.

Lemma sound_frame st st' hs :
  sound_blocks st hs ->
  pages st' = pages st -> free_list st' = free_list st ->
  (forall a i, a ∈ hs -> 0 <= i < BLOCK_SIZE ->
     byte_at (bytes st') (a + i) = byte_at (bytes st) (a + i)) ->
  sound_blocks st' hs
  /\ (forall a o k, a ∈ hs -> 0 <= o -> o + Z.of_nat k <= BLOCK_SIZE ->
        word_at k (a + o) (bytes st') = word_at k (a + o) (bytes st))
  /\ (forall l, block_list st = Some l -> block_list st' = Some l).
Proof.
  intros Hs Hp Hf Hb.
  assert (Hw : forall a o k, a ∈ hs -> 0 <= o -> o + Z.of_nat k <= BLOCK_SIZE ->
                 word_at k (a + o) (bytes st') = word_at k (a + o) (bytes st)).
  { intros a o k Ha Ho Hk. apply word_at_ext. intros i Hi.
    rewrite <- !Z.add_assoc. apply Hb; [exact Ha|lia]. }
  destruct Hs as ((l & Hlist & Hin) & Hm & Hap & Hn & Hpv).
  assert (Hl' : forall l0, block_list st = Some l0 -> block_list st' = Some l0).
  { intros l0 Hl0. assert (l0 = l) by congruence. subst l0.
    apply (block_list_frame st); auto.
    intros x Hx. specialize (Hin x Hx).
    repeat split; apply Hw; auto; offsets; lia. }
  split; [|split; [exact Hw | exact Hl']].
  split; [exists l; split; [apply Hl', Hlist | exact Hin]|].
  split; [|split; [|split]].
  - intros a Ha. rewrite Hw by (auto; offsets; lia).
    destruct (Hm a Ha) as [H1 H2]. split; [exact H1|].
    apply (range_mapped_pages st); auto.
  - intros a1 a2 H1 H2 Hne. rewrite !Hw by (auto; offsets; lia). auto.
  - intros a Ha. rewrite Hw by (auto; offsets; lia). auto.
  - intros a Ha. rewrite Hw by (auto; offsets; lia). auto.
Qed.

End Sound.

(** * The public operations on a run of blocks *)

Section KeepsPages.

Lemma keeps_ret {A} (x : A) : keeps_pages (ret x).
Proof. intros st y st' H. apply ret_inv in H as [_ ->]. reflexivity. Qed.

Lemma keeps_bind {A B} (c : M A) (k : A -> M B) :
  keeps_pages c -> (forall x, keeps_pages (k x)) -> keeps_pages (bind c k).
Proof.
  intros Hc Hk st y st' H. apply bind_inv in H as (x & st1 & H1 & H2).
  rewrite (Hk x _ _ _ H2). apply (Hc _ _ _ H1).
Qed.

Lemma keeps_load_le k a : keeps_pages (load_le k a).
Proof. intros st y st' H. apply load_le_inv in H as (-> & _). reflexivity. Qed.

Lemma keeps_store_le k a v : keeps_pages (store_le k a v).
Proof.
  intros st [] st' H. apply store_le_inv in H as (-> & _). reflexivity.
Qed.

Lemma keeps_load_byte a : keeps_pages (load_byte a).
Proof.
  intros st y st' H. unfold load_byte in H.
  destruct (mapped st a); [|discriminate].
  apply some_pair_inv in H as [_ <-]. reflexivity.
Qed.

Lemma keeps_store_byte a v : keeps_pages (store_byte a v).
Proof.
  intros st y st' H. unfold store_byte in H.
  destruct (mapped st a); [|discriminate].
  apply some_pair_inv in H as [_ <-]. reflexivity.
Qed.

Lemma keeps_memcpy_loop k : forall d s, keeps_pages (memcpy_loop k d s).
Proof.
  induction k as [|k IH]; intros d s; cbn [memcpy_loop]; [apply keeps_ret|].
  apply keeps_bind; [apply keeps_load_byte|]. intros x.
  apply keeps_bind; [apply keeps_store_byte|]. intros _. apply IH.
Qed.

Lemma keeps_memset_loop k : forall a v, keeps_pages (memset_loop k a v).
Proof.
  induction k as [|k IH]; intros a v; cbn [memset_loop]; [apply keeps_ret|].
  apply keeps_bind; [apply keeps_store_byte|]. intros _. apply IH.
Qed.

Ltac keeps_step :=
  first
    [ apply keeps_ret
    | apply keeps_load_le
    | apply keeps_store_le
    | apply keeps_bind; [|intros ?]
    | match goal with
      | |- keeps_pages (if ?c then _ else _) => destruct c
      end ].

Lemma keeps_merge_blocks b : keeps_pages (merge_blocks b).
Proof.
  unfold merge_blocks, get_next, get_prev, get_free, get_size,
    put_size, put_next, put_prev.
  repeat keeps_step.
Qed.

Lemma keeps_free ptr : keeps_pages (allocator_free ptr).
Proof.
  unfold allocator_free, valid_block, get_free, put_free.
  repeat first [apply keeps_merge_blocks | keeps_step].
Qed.

End KeepsPages.

Section RegionOperations.

Implicit Types (st : state) (l : list (Z * Z * Z)) (bs : gmap Z Z).

Lemma align_size_multiple n : 0 <= n < 2 ^ 64 -> align_size n mod 16 = 0.
Proof. intros Hn. rewrite align_size_eq by lia. dlia. Qed.

(** Whatever the request, the length asked of [mmap] is a [size_t] value
    and a whole number of pages. *)
Lemma mapping_length_pages size :
  0 <= mapping_length size < 2 ^ 64 /\ mapping_length size mod PAGE_SIZE = 0.
Proof.
  unfold mapping_length, PAGE_SIZE. change (4096 - 1) with (Z.ones 12).
  pose proof (wrap_range (wrap (size + BLOCK_SIZE) + 4096 - 1)) as Hr.
  rewrite mask_down by (auto; lia). dlia.
Qed.

Lemma in_headers_true l x j :
  x ∈ l -> 0 <= j < BLOCK_SIZE -> in_headers l (x.1.1 + j) = true.
Proof.
  intros Hx Hj. destruct (in_headers l (x.1.1 + j)) eqn:E; [reflexivity|].
  rewrite in_headers_false in E. specialize (E x Hx). lia.
Qed.

(** A region heap depends on the pages, the list head and the bytes of the
    headers only. *)
Lemma region_same st st' l :
  region_heap st l ->
  pages st' = pages st -> free_list st' = free_list st ->
  (forall a, in_headers l a = true -> byte_at (bytes st') a = byte_at (bytes st) a) ->
  region_heap st' l.
Proof.
  intros (Hlist & Hcont & Hext & Hprev) Hp Hf Hb.
  assert (Hw : forall x o k, x ∈ l -> 0 <= o -> o + Z.of_nat k <= BLOCK_SIZE ->
                 word_at k (x.1.1 + o) (bytes st') = word_at k (x.1.1 + o) (bytes st)).
  { intros x o k Hx Ho Hk. apply word_at_ext. intros i Hi.
    rewrite <- !Z.add_assoc. apply Hb, in_headers_true; [exact Hx|lia]. }
  split; [|split; [exact Hcont|split]].
  - apply (block_list_frame st); auto.
    intros x Hx. repeat split; apply Hw; auto; offsets; lia.
  - apply (extent_pages st); assumption.
  - rewrite (prev_linked_frame (bytes st)); [exact Hprev|].
    intros x Hx. apply Hw; auto; offsets; lia.
Qed.

Lemma region_in_order st l : region_heap st l -> heap_in_order st.
Proof.
  intros Hreg. exists l. split; [exact Hreg|].
  destruct Hreg as (_ & Hcont & Hext & _). split; [exact Hcont|].
  apply contiguous_ordered; [exact Hcont | eapply extent_sizes, Hext].
Qed.

Lemma region_empty st : free_list st = NULL -> region_heap st [].
Proof.
  intros Hf. split; [|split; [reflexivity|split; [constructor|reflexivity]]].
  apply block_list_lseg; [|constructor]. rewrite Hf. constructor.
Qed.

(** A successful extension maps pages that were not mapped. *)
Lemma new_pages_differ st pg len :
  placeable st pg len = true ->
  pages st ∪ list_to_set (page_span pg len) <> pages st.
Proof.
  intros Hpl Heq. pose proof (placeable_inv _ _ _ Hpl) as (Hlen & Hpg & _ & Hnot).
  assert (Hcount : 1 <= page_count len) by (unfold page_count, PAGE_SIZE; dlia).
  apply (Hnot pg ltac:(lia)). rewrite <- Heq.
  apply elem_of_union. right. apply elem_of_list_to_set.
  unfold page_span. apply elem_of_seqZ. lia.
Qed.

(** [allocator_malloc] on a region heap, when it does not extend a list that
    has blocks: the heap stays a region heap; the block handed out is a block
    of the list, in use and large enough, and the blocks that were in use
    are still in the list. *)
Lemma malloc_region st l n p st' :
  region_heap st l -> 0 <= n < 2 ^ 64 ->
  allocator_malloc n st = Some (p, st') ->
  l = [] \/ pages st' = pages st ->
  (p = NULL /\ region_heap st' l)
  \/ (p <> NULL /\ exists l1 s l2,
        region_heap st' (l1 ++ (p - BLOCK_SIZE, s, 0) :: l2)
        /\ (l <> [] \/ align_size n + BLOCK_SIZE + PAGE_SIZE - 1 < 2 ^ 64 ->
            align_size n <= s)
        /\ forall x, x ∈ l -> x.2 = 0 -> x ∈ l1 ++ l2).
Proof.
  intros Hreg Hn Hrun Hquiet.
  destruct (Z.eq_dec n 0) as [->|Hn0].
  { unfold allocator_malloc in Hrun. change (0 =? 0) with true in Hrun.
    apply ret_inv in Hrun as [-> ->]. left. split; [reflexivity | exact Hreg]. }
  pose proof Hreg as (Hlist & Hcont & Hext & Hprev).
  pose proof (block_list_elim _ _ Hlist) as [Hseg _].
  pose proof (find_block_eq st l (align_size n) Hlist) as Hfind.
  pose proof (align_size_range n Hn) as Hamr.
  destruct (first_fit_spec _ (align_size n) l _ Hseg)
    as [[Hz _]|(l1 & [[r s] f] & l2 & -> & Hr & Hrnz & Hfits & Hbefore)].
  - (* a miss *)
    rewrite Hz in Hfind. pose proof Hrun as Hrun'.
    unfold allocator_malloc in Hrun'.
    replace (n =? 0) with false in Hrun' by (symmetry; apply Z.eqb_neq; lia).
    rewrite (bind_eq _ _ _ _ _ Hfind) in Hrun'.
    change (NULL =? NULL) with true in Hrun'. cbv iota in Hrun'.
    unfold get_free_list at 1 in Hrun'. unfold bind at 1 in Hrun'.
    inv_bind Hrun' blk st1 He.
    destruct (blk =? NULL) eqn:Hblk.
    { apply ret_inv in Hrun' as [-> _]. left. split; [reflexivity|].
      pose proof (malloc_null_frame _ _ _ Hrun) as (Hp & Hb & Hf).
      apply (region_same st); auto. intros a _. rewrite Hb. reflexivity. }
    apply Z.eqb_neq in Hblk.
    destruct (extend_heap_nonnull_inv _ _ _ _ _ He Hblk) as (pg & rest & Hos & Hpl & _).
    pose proof (mapping_length_pages (align_size n)) as [HLrange HLmod].
    pose proof (placeable_inv _ _ _ Hpl) as (HLpos & _).
    assert (Hbounds : align_size n + BLOCK_SIZE + PAGE_SIZE - 1 < 2 ^ 64 ->
                      align_size n <= mapping_length (align_size n) - BLOCK_SIZE).
    { intros Hnowrap.
      pose proof (mapping_length_bounds (align_size n) ltac:(lia) Hnowrap) as [HL _]. lia. }
    set (len := mapping_length (align_size n)) in *.
    assert (HLr : BLOCK_SIZE <= len < 2 ^ 64)
      by (unfold BLOCK_SIZE, PAGE_SIZE in *; dlia).
    destruct (malloc_miss_list st l n pg rest Hn0 HLr HLmod Hlist Hfind Hos Hpl)
      as (st2 & Hrun2 & Hlist2 & _ & Hbmap & Hprev2 & Hpages).
    fold len in Hrun2, Hlist2, Hbmap, Hpages.
    rewrite Hrun in Hrun2. apply some_pair_inv in Hrun2 as [-> <-].
    destruct Hquiet as [->|Hsame].
    2: { exfalso. rewrite Hpages in Hsame. exact (new_pages_differ _ _ _ Hpl Hsame). }
    right. pose proof (placeable_inv _ _ _ Hpl) as (_ & Hpg & _).
    split; [unfold NULL, PAGE_SIZE, BLOCK_SIZE; lia|].
    exists [], (len - BLOCK_SIZE), [].
    replace (pg * PAGE_SIZE + BLOCK_SIZE - BLOCK_SIZE) with (pg * PAGE_SIZE) by lia.
    split; [|split; [|intros x Hx; inversion Hx]].
    2: { intros [Hc|Hnowrap]; [congruence | exact (Hbounds Hnowrap)]. }
    apply lseg_nil_inv in Hseg.
    split; [exact Hlist2|]. split; [reflexivity|]. split.
    + constructor; [|constructor]. split; cbn [fst snd]; [unfold BLOCK_SIZE in *; lia|].
      replace (BLOCK_SIZE + (len - BLOCK_SIZE)) with len by lia. exact Hbmap.
    + cbn [app prev_linked fst]. rewrite Hprev2, Hseg. reflexivity.
  - (* a hit *)
    cbn [fst] in Hr, Hrnz.
    unfold fits in Hfits. cbn [fst snd] in Hfits.
    apply andb_true_iff in Hfits as [Hf Hfit].
    apply negb_true_iff, Z.eqb_neq in Hf. apply Z.leb_le in Hfit.
    destruct (malloc_hit_region_any st l1 r s f l2 n Hreg Hn0
                ltac:(lia) Hbefore Hf Hfit)
      as (st2 & Hrun2 & Hreg2 & _).
    rewrite Hrun in Hrun2. apply some_pair_inv in Hrun2 as [-> <-].
    pose proof (region_block_range _ _ _ _ _ _ Hreg) as (_ & Hrlo & _).
    right. split; [unfold NULL, PAGE_SIZE, BLOCK_SIZE in *; lia|].
    replace (r + BLOCK_SIZE - BLOCK_SIZE) with r by lia.
    assert (Hused : forall x, x ∈ l1 ++ (r, s, f) :: l2 -> x.2 = 0 -> x ∈ l1 ++ l2).
    { intros x Hx Hx0. apply elem_of_app in Hx as [Hx|Hx];
        [apply elem_of_app; left; exact Hx|].
      apply elem_of_cons in Hx as [->|Hx]; [cbn in Hx0; contradiction|].
      apply elem_of_app. right. exact Hx. }
    destruct (align_size n + BLOCK_SIZE + ALIGNMENT <? s).
    + exists l1, (align_size n),
        ((r + BLOCK_SIZE + align_size n, s - align_size n - BLOCK_SIZE, 1) :: l2).
      split; [exact Hreg2|]. split; [intros _; lia|].
      intros x Hx Hx0. specialize (Hused x Hx Hx0).
      apply elem_of_app in Hused as [H|H]; apply elem_of_app;
        [left; exact H | right; apply list_elem_of_further, H].
    + exists l1, s, l2. split; [exact Hreg2|].
      split; [intros _; exact Hfit | exact Hused].
Qed.

End RegionOperations.

Section RegionPublic.

Implicit Types (st : state) (l : list (Z * Z * Z)) (bs : gmap Z Z).

Lemma byte_at_copy_out k : forall d s bs x,
  x < d \/ d + Z.of_nat k <= x ->
  byte_at (copy k d s bs) x = byte_at bs x.
Proof.
  induction k as [|k IH]; intros d s bs x Hx; [reflexivity|].
  cbn [copy]. rewrite IH by lia. rewrite byte_at_insert.
  destruct (decide (d = x)); [lia | reflexivity].
Qed.

(** What a region heap says about a block of its list. *)
Lemma region_block st l b s f :
  region_heap st l -> (b, s, f) ∈ l ->
  PAGE_SIZE <= b /\ 0 <= s
  /\ range_mapped st b (BLOCK_SIZE + s)
  /\ word_at 8 (b + off_size) (bytes st) = s
  /\ word_at 4 (b + off_free) (bytes st) = f.
Proof.
  intros Hreg Hin. apply list_elem_of_split in Hin as (l1 & l2 & ->).
  pose proof (region_split _ _ _ _ _ _ Hreg)
    as (_ & _ & Hbs & Hbf & _ & _ & _ & _ & _ & _ & _ & (Hs & Hbrange) & _).
  pose proof (region_block_range _ _ _ _ _ _ Hreg) as (_ & Hblo & _).
  repeat split; assumption.
Qed.

(** [allocator_free] of [NULL] or of a block of the list. *)
Lemma free_listed_region st l ptr st' :
  region_heap st l -> listed l ptr ->
  allocator_free ptr st = Some (tt, st') ->
  exists l', region_heap st' l'.
Proof.
  intros Hreg Hptr Hrun. unfold allocator_free in Hrun.
  destruct (ptr =? NULL) eqn:Hnull.
  { apply ret_inv in Hrun as [_ ->]. exists l. exact Hreg. }
  apply Z.eqb_neq in Hnull. destruct Hptr as [Hz|(s & f & Hin)]; [contradiction|].
  pose proof (region_block _ _ _ _ _ Hreg Hin) as (Hlo & Hs & Hmap & Hsz & Hfl).
  destruct (Z.eq_dec f 0) as [->|Hf].
  - apply list_elem_of_split in Hin as (l1 & l2 & ->).
    destruct (free_region st l1 (get_block ptr) s l2 Hreg)
      as (st2 & Hrun2 & Hreg2 & _).
    replace (get_block ptr + BLOCK_SIZE) with ptr in Hrun2 by (unfold get_block; lia).
    unfold allocator_free in Hrun2.
    replace (ptr =? NULL) with false in Hrun2 by (symmetry; apply Z.eqb_neq; exact Hnull).
    rewrite Hrun in Hrun2. apply some_pair_inv in Hrun2 as [_ <-].
    eexists. exact Hreg2.
  - inv_bind Hrun ok st1 Hvalid.
    apply valid_block_inv in Hvalid as (-> & Htrue & _).
    destruct ok.
    + destruct (Htrue eq_refl) as (_ & Hget). unfold get_free in Hget.
      apply load_le_inv in Hget as (_ & Hv & _). congruence.
    + apply ret_inv in Hrun as [_ ->]. exists l. exact Hreg.
Qed.

(** [allocator_realloc] of [NULL] or of a block of the list, when it does
    not extend a list that has blocks. *)
Lemma realloc_listed_region st l ptr m q st' :
  region_heap st l -> listed l ptr -> 0 <= m < 2 ^ 64 ->
  allocator_realloc ptr m st = Some (q, st') ->
  l = [] \/ pages st' = pages st ->
  exists l', region_heap st' l'.
Proof.
  intros Hreg Hptr Hm Hrun Hquiet. pose proof Hrun as Hrun0.
  unfold allocator_realloc in Hrun.
  destruct (ptr =? NULL) eqn:Hnull.
  { destruct (malloc_region st l m q st' Hreg Hm Hrun Hquiet)
      as [[_ H]|(_ & l1 & s & l2 & H & _)]; eexists; exact H. }
  destruct (m =? 0) eqn:Hm0.
  { inv_bind Hrun u st1 Hfree. destruct u. apply ret_inv in Hrun as [_ ->].
    exact (free_listed_region st l ptr st1 Hreg Hptr Hfree). }
  apply Z.eqb_neq in Hnull, Hm0.
  destruct Hptr as [Hz|(s & f & Hin)]; [contradiction|].
  set (b := get_block ptr) in *.
  assert (Hpb : ptr = b + BLOCK_SIZE) by (unfold b, get_block; lia).
  pose proof (region_block _ _ _ _ _ Hreg Hin) as (Hlo & Hs & Hmap & Hsz & Hfl).
  inv_bind Hrun ok st1 Hvalid.
  apply valid_block_inv in Hvalid as (-> & Htrue & _).
  destruct ok; [|apply ret_inv in Hrun as [_ ->]; exists l; exact Hreg].
  destruct (Htrue eq_refl) as (_ & Hget). unfold get_free in Hget.
  apply load_le_inv in Hget as (_ & Hv & _).
  assert (Hf0 : f = 0) by congruence. clear Hv Htrue Hfl. subst f.
  unfold get_size at 1 in Hrun. inv_bind Hrun bs0 st1 Hget.
  apply load_le_inv in Hget as (-> & -> & _). rewrite Hsz in Hrun.
  pose proof (align_size_range m Hm) as Hamr.
  pose proof (align_size_multiple m Hm) as Ham16.
  set (am := align_size m) in *.
  destruct (am <=? s) eqn:Hfit.
  - (* in place *)
    apply Z.leb_le in Hfit.
    pose proof Hin as Hin'. apply list_elem_of_split in Hin' as (l1 & l2 & ->).
    destruct (realloc_in_place_region_any st l1 b s l2 m Hreg Hm0
                ltac:(lia) Hfit)
      as (st2 & Hrun2 & Hreg2 & _).
    rewrite <- Hpb, Hrun0 in Hrun2. apply some_pair_inv in Hrun2 as [_ <-].
    eexists. exact Hreg2.
  - (* allocate, copy, release *)
    apply Z.leb_gt in Hfit.
    inv_bind Hrun q1 st1 Hmalloc.
    destruct (q1 =? NULL) eqn:Hq1.
    { apply ret_inv in Hrun as [_ ->].
      destruct (malloc_region st l am q1 st1 Hreg Hamr Hmalloc Hquiet)
        as [[_ H]|(_ & l1 & s1 & l2 & H & _)]; eexists; exact H. }
    apply Z.eqb_neq in Hq1.
    inv_bind Hrun bs1 st2 Hget. unfold get_size in Hget.
    apply load_le_inv in Hget as (-> & -> & _).
    inv_bind Hrun u st2 Hcopy. destruct u.
    inv_bind Hrun u st3 Hfree. destruct u.
    apply ret_inv in Hrun as [_ ->].
    assert (Hpg3 : pages st3 = pages st2) by apply (keeps_free _ _ _ _ Hfree).
    assert (Hpg2 : pages st2 = pages st1) by apply (keeps_memcpy_loop _ _ _ _ _ _ Hcopy).
    assert (Hquiet1 : l = [] \/ pages st1 = pages st).
    { destruct Hquiet as [H|H]; [left; exact H | right; congruence]. }
    destruct (malloc_region st l am q1 st1 Hreg Hamr Hmalloc Hquiet1)
      as [[Hc _]|(_ & l1 & s1 & l2 & Hreg1 & Hs1 & Hused)]; [contradiction|].
    assert (Hnonempty : l <> []) by (intros ->; inversion Hin).
    specialize (Hs1 (or_introl Hnonempty)).
    rewrite (align_size_idem am) in Hs1 by dlia.
    set (qb := q1 - BLOCK_SIZE) in *.
    assert (Hbin1 : (b, s, 0) ∈ l1 ++ (qb, s1, 0) :: l2).
    { specialize (Hused (b, s, 0) Hin eq_refl).
      apply elem_of_app in Hused as [H|H]; apply elem_of_app;
        [left; exact H | right; apply list_elem_of_further, H]. }
    assert (Hqin1 : (qb, s1, 0) ∈ l1 ++ (qb, s1, 0) :: l2)
      by (apply elem_of_app; right; apply list_elem_of_here).
    pose proof (region_block _ _ _ _ _ Hreg1 Hbin1) as (_ & _ & Hbmap1 & Hbsz1 & _).
    pose proof (region_block _ _ _ _ _ Hreg1 Hqin1) as (_ & _ & Hqmap1 & _ & _).
    rewrite Hbsz1 in Hcopy.
    set (k := Z.to_nat s) in *.
    assert (Hcopy' : memcpy q1 ptr s st1
              = Some (tt, set_bytes (copy k q1 ptr (bytes st1)) st1)).
    { unfold memcpy. fold k. apply memcpy_loop_eq; unfold k; rewrite Z2Nat.id by lia.
      - rewrite Hpb. apply (range_mapped_sub st1 b _ _ _ Hbmap1); unfold BLOCK_SIZE; lia.
      - apply (range_mapped_sub st1 qb _ _ _ Hqmap1); unfold qb, BLOCK_SIZE; lia. }
    rewrite Hcopy in Hcopy'. apply some_pair_inv in Hcopy' as [_ ->].
    assert (Hreg2 : region_heap (set_bytes (copy k q1 ptr (bytes st1)) st1)
                      (l1 ++ (qb, s1, 0) :: l2)).
    { apply (region_same st1); try reflexivity; [exact Hreg1|].
      intros a Ha. cbn [bytes set_bytes]. apply byte_at_copy_out.
      destruct (Z_lt_dec a q1) as [Hlt|Hge]; [left; exact Hlt|]. right.
      destruct (Z_le_dec (q1 + Z.of_nat k) a) as [Hle|Hgt]; [exact Hle|].
      exfalso. unfold k in Hgt. rewrite Z2Nat.id in Hgt by lia.
      destruct Hreg1 as (_ & Hcont1 & Hext1 & _).
      pose proof (payload_not_header _ (qb, s1, 0) (a - q1) Hcont1
                    (extent_sizes _ _ Hext1) Hqin1 ltac:(cbn [fst snd]; lia)) as Hno.
      cbn [fst] in Hno.
      replace (qb + BLOCK_SIZE + (a - q1)) with a in Hno by (unfold qb; lia).
      congruence. }
    apply (free_listed_region _ _ ptr st3 Hreg2); [|exact Hfree].
    right. exists s, 0. exact Hbin1.
Qed.

(** A [memset] that returns has written mapped bytes only. *)
Lemma memset_loop_inv k : forall st a v st',
  memset_loop k a v st = Some (tt, st') ->
  range_mapped st a (Z.of_nat k) /\ st' = set_bytes (fill k a v (bytes st)) st.
Proof.
  induction k as [|k IH]; intros st a v st' H.
  - apply ret_inv in H as [_ ->]. split; [intros i Hi; lia|].
    destruct st; reflexivity.
  - cbn [memset_loop] in H. inv_bind H u st1 Hstore. destruct u.
    unfold store_byte in Hstore. destruct (mapped st a) eqn:Hm; [|discriminate].
    apply some_pair_inv in Hstore as [_ <-].
    apply IH in H as [Hr ->]. split.
    + intros i Hi. destruct (Z.eq_dec i 0) as [->|Hi0]; [rewrite Z.add_0_r; exact Hm|].
      apply range_mapped_set_bytes in Hr. specialize (Hr (i - 1) ltac:(lia)).
      replace (a + 1 + (i - 1)) with (a + i) in Hr by lia. exact Hr.
    + reflexivity.
Qed.

(** [allocator_calloc], when it does not extend a list that has blocks. *)
Lemma calloc_region st l c s p st' :
  region_heap st l ->
  allocator_calloc c s st = Some (p, st') ->
  l = [] \/ pages st' = pages st ->
  exists l', region_heap st' l'.
Proof.
  intros Hreg Hrun Hquiet. unfold allocator_calloc in Hrun.
  pose proof (wrap_range (c * s)) as Ht.
  set (total := wrap (c * s)) in *.
  inv_bind Hrun p1 st1 Hmalloc.
  destruct (p1 =? NULL) eqn:Hp1.
  { apply ret_inv in Hrun as [_ ->].
    destruct (malloc_region st l total p1 st1 Hreg Ht Hmalloc Hquiet)
      as [[_ H]|(_ & l1 & s1 & l2 & H & _)]; eexists; exact H. }
  apply Z.eqb_neq in Hp1.
  inv_bind Hrun u st2 Hset. destruct u. apply ret_inv in Hrun as [_ ->].
  assert (Hpg2 : pages st2 = pages st1) by apply (keeps_memset_loop _ _ _ _ _ _ Hset).
  assert (Hquiet1 : l = [] \/ pages st1 = pages st).
  { destruct Hquiet as [H|H]; [left; exact H | right; congruence]. }
  destruct (malloc_region st l total p1 st1 Hreg Ht Hmalloc Hquiet1)
    as [[Hc _]|(_ & l1 & s1 & l2 & Hreg1 & Hs1 & _)]; [contradiction|].
  set (pb := p1 - BLOCK_SIZE) in *.
  assert (Hpin1 : (pb, s1, 0) ∈ l1 ++ (pb, s1, 0) :: l2)
    by (apply elem_of_app; right; apply list_elem_of_here).
  pose proof (region_block _ _ _ _ _ Hreg1 Hpin1) as (Hpblo & Hs1pos & _).
  set (k := Z.to_nat total) in *.
  unfold memset in Hset. fold k in Hset.
  apply memset_loop_inv in Hset as [Hrange ->].
  unfold k in Hrange. rewrite Z2Nat.id in Hrange by lia.
  (* the bytes cleared lie in the payload *)
  assert (Hfits : total <= s1).
  { destruct (Z.eq_dec total 0) as [Hz|Hnz]; [lia|].
    pose proof (range_mapped_range _ _ _ (total - 1) Hrange ltac:(lia)) as Hlast.
    assert (Hsmall : total <= 2 ^ 64 - 16)
      by (unfold pb, PAGE_SIZE, BLOCK_SIZE in *; lia).
    pose proof (align_size_bounds total ltac:(lia)) as [Ham Ham16].
    destruct (Z_lt_dec (align_size total + BLOCK_SIZE + PAGE_SIZE - 1) (2 ^ 64))
      as [Hnowrap|Hwrap].
    - specialize (Hs1 (or_intror Hnowrap)). lia.
    - exfalso. unfold pb, PAGE_SIZE, BLOCK_SIZE in *. dlia. }
  eexists. apply (region_same st1); try reflexivity; [exact Hreg1|].
  intros a Ha. cbn [bytes set_bytes]. rewrite byte_at_fill.
  destruct (decide (p1 <= a < p1 + Z.of_nat k)) as [Hin|_]; [|reflexivity].
  exfalso. unfold k in Hin. rewrite Z2Nat.id in Hin by lia.
  destruct Hreg1 as (_ & Hcont1 & Hext1 & _).
  pose proof (payload_not_header _ (pb, s1, 0) (a - p1) Hcont1
                (extent_sizes _ _ Hext1) Hpin1 ltac:(cbn [fst snd]; lia)) as Hno.
  cbn [fst] in Hno.
  replace (pb + BLOCK_SIZE + (a - p1)) with a in Hno by (unfold pb; lia).
  congruence.
Qed.

Lemma destroy_region st st' :
  allocator_destroy st = Some (tt, st') -> region_heap st' [].
Proof.
  intros H. apply region_empty. unfold allocator_destroy in H.
  inv_bind H fuel t0 H0. inv_bind H head t1 H1. inv_bind H u t2 H2.
  apply some_pair_inv in H as [_ <-]. reflexivity.
Qed.

End RegionPublic.

(** * Allocation and resizing on blocks that do not overlap *)

Section SplitStore.

Implicit Types (st : state) (hs : list Z) (l : list (Z * Z * Z)) (bs : gmap Z Z).

(** The words of the two headers after [split_block], when the header of the
    successor lies apart from both. *)
Lemma split_store_apart block size s0 bn bs :
  0 <= size ->
  let nb := block + BLOCK_SIZE + size in
  let bs' := split_store block size s0 bn bs in
  wrap bn = NULL \/ nb + BLOCK_SIZE <= wrap bn \/ wrap bn + BLOCK_SIZE <= block ->
  word_at 8 (block + off_size) bs' = wrap size
  /\ word_at 4 (block + off_free) bs' = word_at 4 (block + off_free) bs
  /\ word_at 8 (block + off_next) bs' = wrap nb
  /\ word_at 8 (block + off_prev) bs' = word_at 8 (block + off_prev) bs
  /\ word_at 8 (nb + off_size) bs' = wrap (s0 - size - BLOCK_SIZE)
  /\ word_at 4 (nb + off_free) bs' = 1
  /\ word_at 8 (nb + off_next) bs' = wrap bn
  /\ word_at 8 (nb + off_prev) bs' = wrap block
  /\ (wrap bn <> NULL -> word_at 8 (wrap bn + off_prev) bs' = wrap nb).
Proof.
  intros Hsize nb bs' Hbn. unfold bs', split_store. fold nb.
  assert (Hnb : block + 32 <= nb) by (unfold nb, BLOCK_SIZE; lia).
  destruct (wrap bn =? NULL) eqn:Hz.
  - apply Z.eqb_eq in Hz.
    repeat split; try (intros Hc; contradiction);
      mem_simpl; try reflexivity; try apply wrap_pow256_8;
      rewrite wrap_pow256_8; apply wrap_wrap.
  - apply Z.eqb_neq in Hz. destruct Hbn as [Hbn|[Hbn|Hbn]]; [congruence| |];
      (repeat split; try intros _;
       mem_simpl; try reflexivity; try apply wrap_pow256_8;
       rewrite wrap_pow256_8; apply wrap_wrap).
Qed.

End SplitStore.

Section SplitSound.

Implicit Types (st : state) (hs : list Z) (l : list (Z * Z * Z)) (bs : gmap Z Z).

(** What the list says about one of its blocks. *)
Lemma listed_block st l1 r s f l2 :
  block_list st = Some (l1 ++ (r, s, f) :: l2) ->
  r <> NULL
  /\ word_at 8 (r + off_size) (bytes st) = s
  /\ word_at 4 (r + off_free) (bytes st) = f
  /\ lseg (bytes st) (free_list st) r l1
  /\ lseg (bytes st) (word_at 8 (r + off_next) (bytes st)) NULL l2
  /\ (forall x, x ∈ l1 ++ l2 -> x.1.1 <> r)
  /\ Forall (header_mapped st) (l1 ++ (r, s, f) :: l2).
Proof.
  intros Hlist. pose proof (block_list_elim _ _ Hlist) as [Hseg Hmapped].
  pose proof (fun x => lseg_not_before _ _ _ _ _ _ _ x Hseg) as Hnb.
  apply lseg_split in Hseg as (b' & Hseg1 & Hseg2).
  pose proof Hseg2 as Hseg2'.
  apply lseg_cons_inv in Hseg2' as (Hnz & Htriple & Hseg3).
  assert (b' = r) by congruence. subst b'.
  repeat split; try assumption; congruence.
Qed.

(** [split_block] on a listed block of a sound heap. *)
Lemma split_sound st hs l1 r s f l2 am :
  sound_blocks st hs ->
  block_list st = Some (l1 ++ (r, s, f) :: l2) ->
  0 <= am -> am + BLOCK_SIZE <= s ->
  let nb := r + BLOCK_SIZE + am in
  exists st',
    split_block r am st = Some (tt, st')
    /\ sound_blocks st' (nb :: hs)
    /\ block_list st'
       = Some (l1 ++ (r, am, f) :: (nb, s - am - BLOCK_SIZE, 1) :: l2)
    /\ pages st' = pages st /\ os_answers st' = os_answers st
    /\ word_at 8 (r + off_size) (bytes st') = am
    /\ word_at 4 (r + off_free) (bytes st') = f
    /\ (forall a, a ∈ hs -> a <> r ->
          word_at 8 (a + off_size) (bytes st') = word_at 8 (a + off_size) (bytes st)
          /\ word_at 4 (a + off_free) (bytes st') = word_at 4 (a + off_free) (bytes st)
          /\ forall i, 0 <= i < word_at 8 (a + off_size) (bytes st) ->
               byte_at (bytes st') (a + BLOCK_SIZE + i)
               = byte_at (bytes st) (a + BLOCK_SIZE + i)).
Proof.
  intros Hs Hlist Ham Hfit nb.
  pose proof (listed_block _ _ _ _ _ _ Hlist)
    as (Hrnz & Hrs & Hrf & Hseg1 & Hseg2 & Hnodup & Hmapped).
  pose proof Hs as ((l0 & Hlist0 & Hin) & Hm & Hap & Hn & Hp).
  assert (l0 = l1 ++ (r, s, f) :: l2) by congruence. subst l0.
  assert (Hr : r ∈ hs).
  { apply (Hin (r, s, f)). apply elem_of_app. right. apply list_elem_of_here. }
  pose proof (sound_range st hs r Hs Hr) as (Hrlo & _ & Hrhi). rewrite Hrs in Hrhi.
  destruct (Hm r Hr) as [_ Hrmap]. rewrite Hrs in Hrmap.
  remember (word_at 8 (r + off_next) (bytes st)) as bn eqn:Hbndef.
  (* the successor *)
  assert (Hbn : bn = NULL
                \/ (bn ∈ hs /\ bn <> r /\ wrap bn = bn /\ bn <> NULL
                    /\ (r + BLOCK_SIZE + s <= bn
                        \/ bn + BLOCK_SIZE + word_at 8 (bn + off_size) (bytes st) <= r)
                    /\ 0 <= word_at 8 (bn + off_size) (bytes st))).
  { destruct (Hn r Hr) as [Hz|Hb]; rewrite <- Hbndef in *; [left; exact Hz|].
    right. pose proof (sound_range st hs bn Hs Hb) as (Hlo & Hsz & Hhi).
    assert (Hne : bn <> r).
    { destruct l2 as [|y l2]; [apply lseg_nil_inv in Hseg2; congruence|].
      pose proof Hseg2 as Hy. apply lseg_cons_inv in Hy as (_ & -> & _).
      apply (Hnodup (bn, word_at 8 (bn + off_size) (bytes st),
                     word_at 4 (bn + off_free) (bytes st))).
      apply elem_of_app. right. apply list_elem_of_here. }
    split; [exact Hb|]. split; [exact Hne|].
    split; [apply wrap_small; unfold PAGE_SIZE, BLOCK_SIZE in *; lia|].
    split; [unfold NULL, PAGE_SIZE in *; lia|].
    split; [|exact Hsz].
    specialize (Hap r bn Hr Hb ltac:(congruence)). rewrite Hrs in Hap. exact Hap. }
  assert (Hwbn : wrap bn = bn).
  { destruct Hbn as [->|(_ & _ & H & _)]; [reflexivity | exact H]. }
  (* the other blocks *)
  assert (Hother : forall a, a ∈ hs -> a <> r ->
            0 <= word_at 8 (a + off_size) (bytes st)
            /\ (a + BLOCK_SIZE + word_at 8 (a + off_size) (bytes st) <= r
                \/ r + BLOCK_SIZE + s <= a)
            /\ (bn = NULL \/ a = bn
                \/ a + BLOCK_SIZE + word_at 8 (a + off_size) (bytes st) <= bn
                \/ bn + BLOCK_SIZE <= a)).
  { intros a Ha Hne. destruct (Hm a Ha) as [Hsz _]. split; [exact Hsz|]. split.
    - specialize (Hap a r Ha Hr Hne). rewrite Hrs in Hap. exact Hap.
    - destruct Hbn as [Hz|(Hb & _ & _ & _ & _ & Hbsz)]; [left; exact Hz|].
      destruct (decide (a = bn)) as [->|Hne2]; [right; left; reflexivity|].
      right. right. specialize (Hap a bn Ha Hb Hne2). lia. }
  assert (Hnbnew : nb ∉ hs).
  { intros Hc. destruct (Hother nb Hc ltac:(unfold nb, BLOCK_SIZE; lia))
      as (Hsz & Hpos & _). unfold nb, BLOCK_SIZE in *. lia. }
  (* the run *)
  set (st' := set_bytes (split_store r am s bn (bytes st)) st).
  assert (Hrun : split_block r am st = Some (tt, st')).
  { pose proof (split_block_eq st r am Ham) as He. cbv zeta in He.
    rewrite Hrs, <- Hbndef in He. apply He.
    - apply (range_mapped_sub st r _ _ _ Hrmap); offsets; lia.
    - apply (range_mapped_sub st r _ _ _ Hrmap); offsets; lia.
    - apply (range_mapped_sub st r _ _ _ Hrmap); offsets; lia.
    - apply (range_mapped_sub st r _ _ _ Hrmap); offsets; lia.
    - apply (range_mapped_sub st r _ _ _ Hrmap); offsets; lia.
    - apply (range_mapped_sub st r _ _ _ Hrmap); offsets; lia.
    - intros Hnz. rewrite Hwbn in *.
      destruct Hbn as [Hz|(Hb & _)]; [contradiction|].
      destruct (Hm bn Hb) as [Hsz Hbm].
      apply (range_mapped_sub st bn _ _ _ Hbm); offsets; lia. }
  (* the words of the two headers *)
  destruct (split_store_apart r am s bn (bytes st) Ham)
    as (W1 & W2 & W3 & W4 & W5 & W6 & W7 & W8 & W9).
  { rewrite Hwbn. destruct Hbn as [Hz|(_ & _ & _ & _ & Hpos & Hsz)]; [left; exact Hz|].
    right. unfold BLOCK_SIZE in *. lia. }
  rewrite Hwbn in W7, W9.
  rewrite (wrap_small am) in W1 by (unfold PAGE_SIZE, BLOCK_SIZE in *; lia).
  rewrite (wrap_small (r + BLOCK_SIZE + am)) in W3, W9
    by (unfold PAGE_SIZE, BLOCK_SIZE in *; lia).
  rewrite (wrap_small (s - am - BLOCK_SIZE)) in W5
    by (unfold PAGE_SIZE, BLOCK_SIZE in *; lia).
  rewrite (wrap_small r) in W8 by (unfold PAGE_SIZE, BLOCK_SIZE in *; lia).
  rewrite Hrf in W2. fold nb in W3, W5, W6, W7, W8, W9.
  change (split_store r am s bn (bytes st)) with (bytes st')
    in W1, W2, W3, W4, W5, W6, W7, W8, W9.
  (* the words of the other headers *)
  assert (Hkeep : forall a o k, a ∈ hs -> a <> r ->
            0 <= o -> o + Z.of_nat k <= BLOCK_SIZE ->
            a <> bn \/ o + Z.of_nat k <= off_prev ->
            word_at k (a + o) (bytes st') = word_at k (a + o) (bytes st)).
  { intros a o k Ha Hne Ho Hk Hfield.
    destruct (Hother a Ha Hne) as (Hsz & Hpos & Hposn).
    unfold st'. cbn [bytes set_bytes]. apply split_store_word.
    - unfold BLOCK_SIZE in *. lia.
    - unfold BLOCK_SIZE in *. lia.
    - rewrite Hwbn. destruct Hposn as [Hz|[He|Hd]]; [left; exact Hz| |].
      + right. left. destruct Hfield as [Hc|Hf]; [congruence|]. subst a. offsets. lia.
      + right. offsets. lia. }
  assert (Hbytes : forall a i, a ∈ hs -> a <> r ->
            0 <= i < word_at 8 (a + off_size) (bytes st) ->
            byte_at (bytes st') (a + BLOCK_SIZE + i)
            = byte_at (bytes st) (a + BLOCK_SIZE + i)).
  { intros a i Ha Hne Hi. destruct (Hother a Ha Hne) as (Hsz & Hpos & Hposn).
    unfold st'. cbn [bytes set_bytes]. apply split_store_byte.
    - unfold BLOCK_SIZE in *. lia.
    - unfold BLOCK_SIZE in *. lia.
    - rewrite Hwbn. destruct Hposn as [Hz|[He|Hd]]; [left; exact Hz| |].
      + right. right. subst a. lia.
      + right. offsets. lia. }
  (* the list *)
  assert (Hframe : forall x, x ∈ l1 ++ l2 ->
            word_at 8 (x.1.1 + off_size) (bytes st')
            = word_at 8 (x.1.1 + off_size) (bytes st)
            /\ word_at 4 (x.1.1 + off_free) (bytes st')
               = word_at 4 (x.1.1 + off_free) (bytes st)
            /\ word_at 8 (x.1.1 + off_next) (bytes st')
               = word_at 8 (x.1.1 + off_next) (bytes st)).
  { intros x Hx. pose proof (Hnodup x Hx) as Hne.
    assert (Hxin : x.1.1 ∈ hs).
    { apply Hin. apply elem_of_app in Hx as [Hx|Hx]; apply elem_of_app;
        [left; exact Hx | right; apply list_elem_of_further, Hx]. }
    repeat split; apply Hkeep; auto; offsets; lia. }
  assert (Hlist' : block_list st'
            = Some (l1 ++ (r, am, f) :: (nb, s - am - BLOCK_SIZE, 1) :: l2)).
  { apply block_list_lseg.
    - apply (lseg_app _ _ r).
      + apply (lseg_frame (bytes st)); [exact Hseg1|].
        intros x Hx. apply Hframe, elem_of_app. left. exact Hx.
      + apply (lseg_cons' _ _ _ _ _ nb); auto.
        apply (lseg_cons' _ _ _ _ _ bn); auto.
        * unfold nb, NULL, PAGE_SIZE, BLOCK_SIZE in *. lia.
        * apply (lseg_frame (bytes st)); [exact Hseg2|].
          intros x Hx. apply Hframe, elem_of_app. right. exact Hx.
    - assert (Hhdr : forall a, r <= a -> a + BLOCK_SIZE <= r + BLOCK_SIZE + s ->
                header_mapped st' (a, 0, 0)).
      { intros a H1 H2. unfold header_mapped. cbn [fst].
        repeat split; apply range_mapped_set_bytes;
          apply (range_mapped_sub st r _ _ _ Hrmap); offsets; lia. }
      apply Forall_app in Hmapped as [Hm1 Hm2].
      apply Forall_cons in Hm2 as [_ Hm2].
      apply Forall_app. split; [|constructor; [|constructor]].
      + eapply Forall_impl; [exact Hm1|]. intros x (H1 & H2 & H3).
        repeat split; apply range_mapped_set_bytes; assumption.
      + apply (Hhdr r); unfold BLOCK_SIZE in *; lia.
      + apply (Hhdr nb); unfold nb, BLOCK_SIZE in *; lia.
      + eapply Forall_impl; [exact Hm2|]. intros x (H1 & H2 & H3).
        repeat split; apply range_mapped_set_bytes; assumption. }
  exists st'. split; [exact Hrun|]. split; [|split; [exact Hlist'|]].
  2: { split; [reflexivity|]. split; [reflexivity|]. split; [exact W1|].
       split; [exact W2|]. intros a Ha Hne. split; [|split].
       - apply (Hkeep a off_size 8%nat); auto; offsets; lia.
       - apply (Hkeep a off_free 4%nat); auto; offsets; lia.
       - intros i Hi. apply Hbytes; auto. }
  (* the heap afterwards *)
  assert (Hsize' : forall a, a ∈ nb :: hs ->
            (a = nb /\ word_at 8 (a + off_size) (bytes st') = s - am - BLOCK_SIZE)
            \/ (a = r /\ word_at 8 (a + off_size) (bytes st') = am)
            \/ (a ∈ hs /\ a <> r /\ a <> nb
                /\ word_at 8 (a + off_size) (bytes st')
                   = word_at 8 (a + off_size) (bytes st))).
  { intros a Ha. apply elem_of_cons in Ha as [->|Ha]; [left; auto|].
    destruct (decide (a = r)) as [->|Hne]; [right; left; auto|].
    right. right. split; [exact Ha|]. split; [exact Hne|].
    split; [congruence|]. apply (Hkeep a off_size 8%nat); auto; offsets; lia. }
  split; [|split; [|split; [|split]]].
  - eexists. split; [exact Hlist'|]. intros x Hx.
    apply elem_of_app in Hx as [Hx|Hx].
    { apply list_elem_of_further, Hin, elem_of_app. left. exact Hx. }
    apply elem_of_cons in Hx as [->|Hx]; [apply list_elem_of_further, Hr|].
    apply elem_of_cons in Hx as [->|Hx]; [apply list_elem_of_here|].
    apply list_elem_of_further, Hin, elem_of_app. right.
    apply list_elem_of_further, Hx.
  - intros a Ha. destruct (Hsize' a Ha) as [(-> & ->)|[(-> & ->)|(Hin' & Hne & _ & ->)]].
    + split; [unfold BLOCK_SIZE in *; lia|]. apply range_mapped_set_bytes.
      apply (range_mapped_sub st r _ _ _ Hrmap); unfold nb, BLOCK_SIZE in *; lia.
    + split; [lia|]. apply range_mapped_set_bytes.
      apply (range_mapped_sub st r _ _ _ Hrmap); unfold BLOCK_SIZE in *; lia.
    + destruct (Hm a Hin') as [H1 H2]. split; [exact H1|].
      apply range_mapped_set_bytes. exact H2.
  - intros a1 a2 H1 H2 Hne.
    destruct (Hsize' a1 H1) as [(-> & ->)|[(-> & ->)|(Hin1 & Hne1 & Hnb1 & ->)]];
      destruct (Hsize' a2 H2) as [(-> & ->)|[(-> & ->)|(Hin2 & Hne2 & Hnb2 & ->)]];
      try congruence;
      try (destruct (Hother a1 Hin1 Hne1) as (? & ? & _));
      try (destruct (Hother a2 Hin2 Hne2) as (? & ? & _));
      try (unfold nb, BLOCK_SIZE in *; lia).
    apply Hap; assumption.
  - intros a Ha. apply elem_of_cons in Ha as [->|Ha].
    { rewrite W7. destruct Hbn as [Hz|(Hb & _)]; [left; exact Hz|].
      right. apply list_elem_of_further, Hb. }
    destruct (decide (a = r)) as [->|Hne].
    { rewrite W3. right. apply list_elem_of_here. }
    rewrite (Hkeep a off_next 8%nat) by (auto; offsets; lia).
    destruct (Hn a Ha) as [Hz|Hb]; [left; exact Hz|].
    right. apply list_elem_of_further, Hb.
  - intros a Ha. apply elem_of_cons in Ha as [->|Ha].
    { rewrite W8. right. apply list_elem_of_further, Hr. }
    destruct (decide (a = r)) as [->|Hne].
    { rewrite W4. destruct (Hp r Hr) as [Hz|Hb]; [left; exact Hz|].
      right. apply list_elem_of_further, Hb. }
    destruct (decide (a = bn)) as [->|Hnebn].
    { rewrite W9; [right; apply list_elem_of_here|].
      destruct Hbn as [Hz|(_ & _ & _ & Hnz & _)]; [|exact Hnz].
      pose proof (sound_range st hs bn Hs Ha). unfold NULL, PAGE_SIZE in *. lia. }
    rewrite (Hkeep a off_prev 8%nat) by (auto; offsets; lia).
    destruct (Hp a Ha) as [Hz|Hb]; [left; exact Hz|].
    right. apply list_elem_of_further, Hb.
Qed.

End SplitSound.

Section HitSound.

Implicit Types (st : state) (hs : list Z) (l : list (Z * Z * Z)) (bs : gmap Z Z).

(** Marking a listed block of a sound heap. *)
Lemma put_free_sound st hs l1 r s f l2 v :
  sound_blocks st hs ->
  block_list st = Some (l1 ++ (r, s, f) :: l2) -> 0 <= v < 2 ^ 32 ->
  let st' := set_bytes (write_le 4 (r + off_free) v (bytes st)) st in
  put_free r v st = Some (tt, st')
  /\ sound_blocks st' hs
  /\ block_list st' = Some (l1 ++ (r, s, v) :: l2)
  /\ (forall a o k, a ∈ hs -> 0 <= o -> o + Z.of_nat k <= BLOCK_SIZE ->
        a <> r \/ o + Z.of_nat k <= off_free \/ off_next <= o ->
        word_at k (a + o) (bytes st') = word_at k (a + o) (bytes st)).
Proof.
  intros Hs Hlist Hv st'.
  pose proof (listed_block _ _ _ _ _ _ Hlist)
    as (Hrnz & Hrs & Hrf & Hseg1 & Hseg2 & Hnodup & Hmapped).
  pose proof (sound_linked _ _ Hs) as Hl.
  pose proof Hs as ((l0 & Hlist0 & Hin) & Hm & Hap & Hn & Hp).
  assert (l0 = l1 ++ (r, s, f) :: l2) by congruence. subst l0.
  assert (Hr : r ∈ hs).
  { apply (Hin (r, s, f)). apply elem_of_app. right. apply list_elem_of_here. }
  assert (Hkeep : forall a o k, a ∈ hs -> 0 <= o -> o + Z.of_nat k <= BLOCK_SIZE ->
            a <> r \/ o + Z.of_nat k <= off_free \/ off_next <= o ->
            word_at k (a + o) (bytes st') = word_at k (a + o) (bytes st)).
  { intros a o k Ha Ho Hk Hd. unfold st'. cbn [bytes set_bytes].
    apply word_at_write_le_disj.
    destruct (decide (a = r)) as [->|Hne].
    - destruct Hd as [Hd|Hd]; [congruence|]. offsets. lia.
    - destruct Hl as (_ & Hap' & _). destruct (Hap' a r Ha Hr Hne); offsets; lia. }
  assert (Hframe : forall x, x ∈ l1 ++ l2 ->
            word_at 8 (x.1.1 + off_size) (bytes st')
            = word_at 8 (x.1.1 + off_size) (bytes st)
            /\ word_at 4 (x.1.1 + off_free) (bytes st')
               = word_at 4 (x.1.1 + off_free) (bytes st)
            /\ word_at 8 (x.1.1 + off_next) (bytes st')
               = word_at 8 (x.1.1 + off_next) (bytes st)).
  { intros x Hx. pose proof (Hnodup x Hx) as Hne.
    assert (Hxin : x.1.1 ∈ hs).
    { apply Hin. apply elem_of_app in Hx as [Hx|Hx]; apply elem_of_app;
        [left; exact Hx | right; apply list_elem_of_further, Hx]. }
    repeat split; apply Hkeep; auto; offsets; lia. }
  assert (Hrun : put_free r v st = Some (tt, st')).
  { unfold put_free. apply store_le_eq.
    destruct Hl as (Hlm & _).
    apply (range_mapped_sub st r BLOCK_SIZE); [apply Hlm, Hr | offsets; lia..]. }
  assert (Hlist' : block_list st' = Some (l1 ++ (r, s, v) :: l2)).
  { apply block_list_lseg.
    - apply (lseg_app _ _ r).
      + apply (lseg_frame (bytes st)); [exact Hseg1|].
        intros x Hx. apply Hframe, elem_of_app. left. exact Hx.
      + apply (lseg_cons' _ _ _ _ _ (word_at 8 (r + off_next) (bytes st))); auto.
        * rewrite <- Hrs. apply (Hkeep r off_size 8%nat); auto; offsets; lia.
        * unfold st'. cbn [bytes set_bytes].
          rewrite word_at_write_le_same, pow256_4. apply Z.mod_small. exact Hv.
        * apply (Hkeep r off_next 8%nat); auto; offsets; lia.
        * apply (lseg_frame (bytes st)); [exact Hseg2|].
          intros x Hx. apply Hframe, elem_of_app. right. exact Hx.
    - apply Forall_app in Hmapped as [Hm1 Hm2].
      apply Forall_cons in Hm2 as [Hm0 Hm2].
      apply Forall_app. split; [|constructor].
      + eapply Forall_impl; [exact Hm1|]. intros x (H1 & H2 & H3).
        repeat split; apply range_mapped_set_bytes; assumption.
      + destruct Hm0 as (H1 & H2 & H3).
        repeat split; apply range_mapped_set_bytes; assumption.
      + eapply Forall_impl; [exact Hm2|]. intros x (H1 & H2 & H3).
        repeat split; apply range_mapped_set_bytes; assumption. }
  split; [exact Hrun|]. split; [|split; [exact Hlist' | exact Hkeep]].
  split; [|split; [|split; [|split]]].
  - eexists. split; [exact Hlist'|]. intros x Hx. apply elem_of_app in Hx as [Hx|Hx].
    { apply Hin, elem_of_app. left. exact Hx. }
    apply elem_of_cons in Hx as [->|Hx]; [exact Hr|].
    apply Hin, elem_of_app. right. apply list_elem_of_further, Hx.
  - intros a Ha. rewrite (Hkeep a off_size 8%nat) by (auto; offsets; lia).
    destruct (Hm a Ha) as [H1 H2]. split; [exact H1|].
    apply range_mapped_set_bytes. exact H2.
  - intros a1 a2 H1 H2 Hne.
    rewrite (Hkeep a1 off_size 8%nat), (Hkeep a2 off_size 8%nat)
      by (auto; offsets; lia). auto.
  - intros a Ha. rewrite (Hkeep a off_next 8%nat) by (auto; offsets; lia). auto.
  - intros a Ha. rewrite (Hkeep a off_prev 8%nat) by (auto; offsets; lia). auto.
Qed.

(** [allocator_malloc] served by a block of the list, on a sound heap: the
    heap stays sound, and the blocks in use are left alone. *)
Lemma malloc_hit_sound st hs l1 r s f l2 n :
  sound_blocks st hs ->
  block_list st = Some (l1 ++ (r, s, f) :: l2) ->
  0 < n <= 2 ^ 64 - 64 ->
  Forall (fun x => fits (align_size n) x = false) l1 ->
  f <> 0 -> align_size n <= s ->
  exists st' hs',
    allocator_malloc n st = Some (r + BLOCK_SIZE, st')
    /\ sound_blocks st' hs' /\ (forall a, a ∈ hs -> a ∈ hs') /\ r ∈ hs'
    /\ pages st' = pages st
    /\ word_at 4 (r + off_free) (bytes st') = 0
    /\ align_size n <= word_at 8 (r + off_size) (bytes st')
    /\ (forall a, a ∈ hs -> a <> r ->
          word_at 8 (a + off_size) (bytes st') = word_at 8 (a + off_size) (bytes st)
          /\ word_at 4 (a + off_free) (bytes st') = word_at 4 (a + off_free) (bytes st)
          /\ forall i, 0 <= i < word_at 8 (a + off_size) (bytes st) ->
               byte_at (bytes st') (a + BLOCK_SIZE + i)
               = byte_at (bytes st) (a + BLOCK_SIZE + i)).
Proof.
  intros Hs Hlist Hn Hbefore Hf Hfit.
  destruct (align_size_small n Hn) as [Ham Hnowrap].
  set (am := align_size n) in *.
  pose proof (listed_block _ _ _ _ _ _ Hlist) as (Hrnz & Hrs & Hrf & _).
  assert (Hr : r ∈ hs).
  { destruct Hs as ((l0 & Hlist0 & Hin) & _).
    assert (l0 = l1 ++ (r, s, f) :: l2) by congruence. subst l0.
    apply (Hin (r, s, f)). apply elem_of_app. right. apply list_elem_of_here. }
  destruct (put_free_sound st hs l1 r s f l2 0 Hs Hlist ltac:(lia))
    as (Hput & Hs1 & Hlist1 & Hkeep1).
  set (st1 := set_bytes (write_le 4 (r + off_free) 0 (bytes st)) st) in *.
  assert (Hfind : find_block am st = Some (r, st)).
  { rewrite (find_block_eq st _ am Hlist).
    rewrite (first_fit_app am l1 (r, s, f) l2 Hbefore); [reflexivity|].
    unfold fits. cbn [fst snd].
    replace (f =? 0) with false by (symmetry; apply Z.eqb_neq; exact Hf).
    apply Z.leb_le. exact Hfit. }
  pose proof (sound_range st hs r Hs Hr) as (Hrlo & _ & Hrhi). rewrite Hrs in Hrhi.
  assert (Hsize1 : word_at 8 (r + off_size) (bytes st1) = s).
  { rewrite <- Hrs. apply (Hkeep1 r off_size 8%nat); auto; offsets; lia. }
  assert (Hflag1 : word_at 4 (r + off_free) (bytes st1) = 0).
  { unfold st1. cbn [bytes set_bytes]. rewrite word_at_write_le_same. reflexivity. }
  assert (Hget : get_size r st1 = Some (s, st1)).
  { unfold get_size. rewrite <- Hsize1. apply (linked_load st1 hs);
      [apply sound_linked, Hs1 | exact Hr | offsets; lia..]. }
  assert (Hbytes1 : forall a i, a ∈ hs -> a <> r ->
            0 <= i < word_at 8 (a + off_size) (bytes st) ->
            byte_at (bytes st1) (a + BLOCK_SIZE + i)
            = byte_at (bytes st) (a + BLOCK_SIZE + i)).
  { intros a i Ha Hne Hi. unfold st1. cbn [bytes set_bytes].
    apply byte_at_write_le_out.
    pose proof (sound_payload_apart st hs a i r Hs Ha Hr Hi). offsets. lia. }
  assert (Hstart : allocator_malloc n st
            = (let* u := (if am + BLOCK_SIZE + ALIGNMENT <? s
                          then split_block r am else ret tt) in
               ret (r + BLOCK_SIZE)) st1).
  { unfold allocator_malloc.
    replace (n =? 0) with false by (symmetry; apply Z.eqb_neq; lia).
    fold am. rewrite (bind_eq _ _ _ _ _ Hfind).
    replace (r =? NULL) with false by (symmetry; apply Z.eqb_neq; exact Hrnz).
    rewrite (bind_eq _ _ _ _ _ Hput). rewrite (bind_eq _ _ _ _ _ Hget).
    rewrite (wrap_small (am + BLOCK_SIZE + ALIGNMENT))
      by (unfold BLOCK_SIZE, ALIGNMENT in *; lia).
    reflexivity. }
  rewrite Hstart. clear Hstart.
  destruct (am + BLOCK_SIZE + ALIGNMENT <? s) eqn:Hcut.
  - apply Z.ltb_lt in Hcut.
    destruct (split_sound st1 hs l1 r s 0 l2 am Hs1 Hlist1 ltac:(lia)
                ltac:(unfold ALIGNMENT in *; lia))
      as (st2 & Hrun & Hs2 & Hlist2 & Hpg & _ & Hsz2 & Hfl2 & Hkeep2).
    exists st2, (r + BLOCK_SIZE + am :: hs).
    split; [rewrite (bind_eq _ _ _ _ _ Hrun); reflexivity|].
    split; [exact Hs2|]. split; [intros a Ha; apply list_elem_of_further, Ha|].
    split; [apply list_elem_of_further, Hr|]. split; [exact Hpg|].
    split; [exact Hfl2|]. split; [rewrite Hsz2; lia|].
    intros a Ha Hne. destruct (Hkeep2 a Ha Hne) as (K1 & K2 & K3).
    rewrite (Hkeep1 a off_size 8%nat) in K1, K3 by (auto; offsets; lia).
    rewrite (Hkeep1 a off_free 4%nat) in K2 by (auto; offsets; lia).
    split; [exact K1|]. split; [exact K2|].
    intros i Hi. rewrite K3 by exact Hi. apply Hbytes1; auto.
  - exists st1, hs. split; [reflexivity|]. split; [exact Hs1|].
    split; [auto|]. split; [exact Hr|]. split; [reflexivity|].
    split; [exact Hflag1|]. split; [rewrite Hsize1; exact Hfit|].
    intros a Ha Hne.
    split; [apply (Hkeep1 a off_size 8%nat); auto; offsets; lia|].
    split; [apply (Hkeep1 a off_free 4%nat); auto; offsets; lia|].
    intros i Hi. apply Hbytes1; auto.
Qed.

End HitSound.

Section MissSound.

Implicit Types (st : state) (hs : list Z) (l : list (Z * Z * Z)) (bs : gmap Z Z).

Lemma range_mapped_mono st st' a n :
  pages st ⊆ pages st' -> range_mapped st a n -> range_mapped st' a n.
Proof.
  intros Hsub H i Hi. specialize (H i Hi). unfold mapped in *.
  rewrite !andb_true_iff, bool_decide_eq_true in *.
  destruct H as [H1 H2]. split; [exact H1|]. apply Hsub, H2.
Qed.

(** The head of the list is a block of the heap. *)
Lemma sound_head st hs :
  sound_blocks st hs -> free_list st = NULL \/ free_list st ∈ hs.
Proof.
  intros ((l & Hlist & Hin) & _).
  pose proof (block_list_elim _ _ Hlist) as [Hseg _].
  destruct l as [|x l]; [left; eapply lseg_nil_inv, Hseg|].
  right. pose proof Hseg as Hx. apply lseg_cons_inv in Hx as (_ & Hx & _).
  replace (free_list st) with x.1.1 by (rewrite Hx; reflexivity).
  apply Hin, list_elem_of_here.
Qed.

(** [allocator_malloc] on a miss, on a sound heap: the new block joins the
    heap, and the blocks that were there are left alone. *)
Lemma malloc_miss_sound st hs n pg rest :
  sound_blocks st hs ->
  0 < n <= 2 ^ 64 - 2 * PAGE_SIZE ->
  find_block (align_size n) st = Some (NULL, st) ->
  os_answers st = Some pg :: rest ->
  placeable st pg (mapping_length (align_size n)) = true ->
  let b := pg * PAGE_SIZE in
  exists st',
    allocator_malloc n st = Some (b + BLOCK_SIZE, st')
    /\ sound_blocks st' (b :: hs)
    /\ word_at 4 (b + off_free) (bytes st') = 0
    /\ align_size n <= word_at 8 (b + off_size) (bytes st')
    /\ (forall a, a ∈ hs ->
          a <> b
          /\ word_at 8 (a + off_size) (bytes st') = word_at 8 (a + off_size) (bytes st)
          /\ word_at 4 (a + off_free) (bytes st') = word_at 4 (a + off_free) (bytes st)
          /\ forall i, 0 <= i < word_at 8 (a + off_size) (bytes st) ->
               byte_at (bytes st') (a + BLOCK_SIZE + i)
               = byte_at (bytes st) (a + BLOCK_SIZE + i)).
Proof.
  intros Hs Hn Hfind Hos Hpl b.
  pose proof Hs as ((l & Hlist & Hin) & Hm & Hap & Hnx & Hpv).
  pose proof (align_size_bounds n ltac:(unfold PAGE_SIZE in *; lia)) as [Ham _].
  pose proof (mapping_length_bounds (align_size n) ltac:(lia)
                ltac:(unfold BLOCK_SIZE, PAGE_SIZE in *; lia)) as [HL HLmod].
  set (am := align_size n) in *. set (len := mapping_length am) in *.
  pose proof (placeable_inv _ _ _ Hpl) as (Hlen & Hpg & Htop & _).
  pose proof (page_count_exact len ltac:(unfold BLOCK_SIZE in *; lia) HLmod) as Hexact.
  rewrite Z.mul_add_distr_r, Hexact in Htop. fold b in Htop.
  assert (HLr : BLOCK_SIZE <= len < 2 ^ 64)
    by (unfold BLOCK_SIZE, PAGE_SIZE in *; lia).
  destruct (malloc_miss_list st l n pg rest ltac:(lia) HLr HLmod Hlist Hfind Hos Hpl)
    as (st' & Hrun & Hlist' & _ & Hbmap & _ & Hpages).
  fold am len b in Hrun, Hlist', Hbmap, Hpages.
  pose proof (sound_head st hs Hs) as Hhead.
  assert (Hlast : free_list st = NULL \/ range_mapped st (free_list st + off_next) 8).
  { destruct Hhead as [Hz|Hh]; [left; exact Hz|]. right.
    destruct (Hm _ Hh) as [Hsz Hr].
    apply (range_mapped_sub st _ _ _ _ Hr); offsets; lia. }
  pose proof (malloc_miss_eq st n pg rest ltac:(lia) Hfind Hos Hpl Hlast) as Hrun2.
  cbv zeta in Hrun2. fold am len b in Hrun2. rewrite Hrun in Hrun2.
  apply some_pair_inv in Hrun2 as [_ Hst'].
  set (h := free_list st) in *.
  set (bs0 := fresh_header b len h (bytes st)) in *.
  assert (Hbytes' : bytes st'
            = if h =? NULL then bs0 else write_le 8 (h + off_next) b bs0).
  { rewrite Hst'. destruct (h =? NULL); reflexivity. }
  clear Hst'.
  (* the old blocks lie apart from the new mapping *)
  assert (Hold : forall a, a ∈ hs ->
            0 <= word_at 8 (a + off_size) (bytes st)
            /\ PAGE_SIZE <= a
            /\ (a + BLOCK_SIZE + word_at 8 (a + off_size) (bytes st) <= b
                \/ b + len <= a)).
  { intros a Ha. destruct (Hm a Ha) as [Hsz Hr].
    pose proof (sound_range st hs a Hs Ha) as (Hlo & _).
    split; [exact Hsz|]. split; [exact Hlo|].
    assert (Hpos : 0 < BLOCK_SIZE + word_at 8 (a + off_size) (bytes st))
      by (unfold BLOCK_SIZE; lia).
    pose proof (range_not_new st pg len a _ Hpl Hpos Hr) as Hd.
    rewrite Z.mul_add_distr_r, Hexact in Hd. fold b in Hd. lia. }
  assert (Hbrange : PAGE_SIZE <= b /\ b + len <= 2 ^ 64)
    by (unfold b, PAGE_SIZE in *; lia).
  assert (Hhs : (h =? NULL) = false -> h ∈ hs).
  { intros Hz. apply Z.eqb_neq in Hz. destruct Hhead; [contradiction | assumption]. }
  assert (Hkeep : forall a o k, a ∈ hs -> 0 <= o -> o + Z.of_nat k <= BLOCK_SIZE ->
            a <> h \/ o + Z.of_nat k <= off_next \/ off_prev <= o ->
            word_at k (a + o) (bytes st') = word_at k (a + o) (bytes st)).
  { intros a o k Ha Ho Hk Hfield. destruct (Hold a Ha) as (Hsz & Hlo & Hpos).
    rewrite Hbytes'. destruct (h =? NULL) eqn:Hz.
    - unfold bs0. apply fresh_header_frame. unfold BLOCK_SIZE in *. lia.
    - rewrite word_at_write_le_disj.
      + unfold bs0. apply fresh_header_frame. unfold BLOCK_SIZE in *. lia.
      + destruct (decide (a = h)) as [->|Hne].
        * destruct Hfield as [Hc|Hf]; [congruence|]. offsets. lia.
        * specialize (Hap a h Ha (Hhs eq_refl) Hne).
          destruct (Hold h (Hhs eq_refl)) as (Hsh & _). offsets. lia. }
  assert (Hnew : word_at 8 (b + off_size) (bytes st') = len - BLOCK_SIZE
                 /\ word_at 4 (b + off_free) (bytes st') = 0
                 /\ word_at 8 (b + off_next) (bytes st') = NULL
                 /\ word_at 8 (b + off_prev) (bytes st') = h).
  { destruct (fresh_header_words b len h (bytes st)) as (W1 & W2 & W3 & W4).
    fold bs0 in W1, W2, W3, W4.
    rewrite wrap_small in W1 by (unfold BLOCK_SIZE, PAGE_SIZE in *; lia).
    assert (Hwh : wrap h = h).
    { apply wrap_small. destruct Hhead as [Hz|Hh]; [rewrite Hz; unfold NULL; lia|].
      pose proof (sound_range st hs h Hs Hh). unfold PAGE_SIZE, BLOCK_SIZE in *. lia. }
    rewrite Hwh in W4.
    rewrite Hbytes'. destruct (h =? NULL) eqn:Hz; [auto|].
    destruct (Hold h (Hhs eq_refl)) as (Hsh & _ & Hpos).
    repeat split; (rewrite word_at_write_le_disj; [assumption | offsets; lia]). }
  destruct Hnew as (N1 & N2 & N3 & N4).
  assert (Hheadnext : (h =? NULL) = false ->
                     word_at 8 (h + off_next) (bytes st') = b).
  { intros Hz. rewrite Hbytes', Hz. rewrite word_at_write_le_same, wrap_pow256_8.
    apply wrap_small. unfold PAGE_SIZE in *. lia. }
  assert (Hpayload : forall a i, a ∈ hs ->
            0 <= i < word_at 8 (a + off_size) (bytes st) ->
            byte_at (bytes st') (a + BLOCK_SIZE + i)
            = byte_at (bytes st) (a + BLOCK_SIZE + i)).
  { intros a i Ha Hi. destruct (Hold a Ha) as (Hsz & Hlo & Hpos).
    assert (Hfh : byte_at bs0 (a + BLOCK_SIZE + i) = byte_at (bytes st) (a + BLOCK_SIZE + i)).
    { unfold bs0, fresh_header.
      rewrite !byte_at_write_le_out by (offsets; lia). reflexivity. }
    rewrite Hbytes'. destruct (h =? NULL) eqn:Hz; [exact Hfh|].
    rewrite byte_at_write_le_out; [exact Hfh|].
    pose proof (sound_payload_apart st hs a i h Hs Ha (Hhs eq_refl) Hi).
    offsets. lia. }
  assert (Hbnew : b ∉ hs).
  { intros Hc. destruct (Hold b Hc) as (Hsz & _ & Hpos).
    unfold BLOCK_SIZE in *. lia. }
  assert (Hsub : pages st ⊆ pages st') by (rewrite Hpages; apply union_subseteq_l).
  exists st'. split; [exact Hrun|]. split; [|split; [exact N2|split]].
  2: { rewrite N1. unfold BLOCK_SIZE in *. lia. }
  2: { intros a Ha. split; [intros ->; contradiction|].
       split; [apply (Hkeep a off_size 8%nat); auto; offsets; lia|].
       split; [apply (Hkeep a off_free 4%nat); auto; offsets; lia|].
       intros i Hi. apply Hpayload; auto. }
  assert (Hsize' : forall a, a ∈ b :: hs ->
            (a = b /\ word_at 8 (a + off_size) (bytes st') = len - BLOCK_SIZE)
            \/ (a ∈ hs /\ a <> b
                /\ word_at 8 (a + off_size) (bytes st')
                   = word_at 8 (a + off_size) (bytes st))).
  { intros a Ha. apply elem_of_cons in Ha as [->|Ha]; [left; auto|].
    right. split; [exact Ha|]. split; [congruence|].
    apply (Hkeep a off_size 8%nat); auto; offsets; lia. }
  split; [|split; [|split; [|split]]].
  - eexists. split; [exact Hlist'|]. intros x Hx.
    apply elem_of_app in Hx as [Hx|Hx].
    + apply list_elem_of_further, Hin.
      destruct l as [|y l]; cbn [take] in Hx; [inversion Hx|].
      apply elem_of_cons in Hx as [->|Hx]; [apply list_elem_of_here | inversion Hx].
    + apply elem_of_cons in Hx as [->|Hx]; [apply list_elem_of_here | inversion Hx].
  - intros a Ha. destruct (Hsize' a Ha) as [(-> & ->)|(Hin' & Hne & ->)].
    + split; [unfold BLOCK_SIZE in *; lia|].
      replace (BLOCK_SIZE + (len - BLOCK_SIZE)) with len by lia. exact Hbmap.
    + destruct (Hm a Hin') as [H1 H2]. split; [exact H1|].
      apply (range_mapped_mono st); assumption.
  - intros a1 a2 H1 H2 Hne.
    destruct (Hsize' a1 H1) as [(-> & ->)|(Hin1 & Hne1 & ->)];
      destruct (Hsize' a2 H2) as [(-> & ->)|(Hin2 & Hne2 & ->)];
      try congruence;
      try (destruct (Hold a1 Hin1) as (? & ? & ?));
      try (destruct (Hold a2 Hin2) as (? & ? & ?));
      try (unfold BLOCK_SIZE in *; lia).
    apply Hap; assumption.
  - intros a Ha. apply elem_of_cons in Ha as [->|Ha]; [left; exact N3|].
    destruct (decide (a = h)) as [->|Hne].
    { right. rewrite Hheadnext; [apply list_elem_of_here|].
      apply Z.eqb_neq. pose proof (sound_range st hs h Hs Ha).
      unfold NULL, PAGE_SIZE in *. lia. }
    rewrite (Hkeep a off_next 8%nat) by (auto; offsets; lia).
    destruct (Hnx a Ha) as [Hz|Hb]; [left; exact Hz|].
    right. apply list_elem_of_further, Hb.
  - intros a Ha. apply elem_of_cons in Ha as [->|Ha].
    { rewrite N4. destruct Hhead as [Hz|Hh]; [left; exact Hz|].
      right. apply list_elem_of_further, Hh. }
    rewrite (Hkeep a off_prev 8%nat) by (auto; offsets; lia).
    destruct (Hpv a Ha) as [Hz|Hb]; [left; exact Hz|].
    right. apply list_elem_of_further, Hb.
Qed.

End MissSound.

Section MallocSound.

Implicit Types (st : state) (hs : list Z) (l : list (Z * Z * Z)) (bs : gmap Z Z).

(** The header of a block of [hs] lies apart from the payload of another. *)
Lemma sound_header_apart st hs a b :
  sound_blocks st hs -> a ∈ hs -> b ∈ hs ->
  a + BLOCK_SIZE <= b + BLOCK_SIZE
  \/ b + BLOCK_SIZE + word_at 8 (b + off_size) (bytes st) <= a.
Proof.
  intros Hs Ha Hb. destruct (decide (a = b)) as [->|Hne]; [left; lia|].
  pose proof (sound_range st hs a Hs Ha) as (_ & Hsa & _).
  destruct Hs as (_ & _ & Hap & _).
  destruct (Hap a b Ha Hb Hne); unfold BLOCK_SIZE in *; lia.
Qed.

(** [allocator_malloc] on a sound heap: the heap stays sound, the block
    handed out is one of its blocks, in use and large enough, and the blocks
    that were in use keep their size and their contents. *)
Lemma malloc_sound st hs n p st' :
  sound_blocks st hs -> 0 < n <= 2 ^ 64 - 2 * PAGE_SIZE ->
  allocator_malloc n st = Some (p, st') -> p <> NULL ->
  exists hs',
    sound_blocks st' hs' /\ (forall a, a ∈ hs -> a ∈ hs')
    /\ p - BLOCK_SIZE ∈ hs'
    /\ word_at 4 (p - BLOCK_SIZE + off_free) (bytes st') = 0
    /\ align_size n <= word_at 8 (p - BLOCK_SIZE + off_size) (bytes st')
    /\ (forall a, a ∈ hs -> word_at 4 (a + off_free) (bytes st) = 0 ->
          a <> p - BLOCK_SIZE
          /\ word_at 8 (a + off_size) (bytes st') = word_at 8 (a + off_size) (bytes st)
          /\ word_at 4 (a + off_free) (bytes st') = 0
          /\ forall i, 0 <= i < word_at 8 (a + off_size) (bytes st) ->
               byte_at (bytes st') (a + BLOCK_SIZE + i)
               = byte_at (bytes st) (a + BLOCK_SIZE + i)).
Proof.
  intros Hs Hn Hrun Hp.
  pose proof Hs as ((l & Hlist & Hin) & _).
  pose proof (block_list_elim _ _ Hlist) as [Hseg _].
  pose proof (find_block_eq st l (align_size n) Hlist) as Hfind.
  destruct (first_fit_spec _ (align_size n) l _ Hseg)
    as [[Hz _]|(l1 & [[r s] f] & l2 & -> & Hr & Hrnz & Hfits & Hbefore)].
  - (* a miss *)
    rewrite Hz in Hfind. pose proof Hrun as Hrun'.
    unfold allocator_malloc in Hrun'.
    replace (n =? 0) with false in Hrun' by (symmetry; apply Z.eqb_neq; lia).
    rewrite (bind_eq _ _ _ _ _ Hfind) in Hrun'.
    change (NULL =? NULL) with true in Hrun'. cbv iota in Hrun'.
    unfold get_free_list at 1 in Hrun'. unfold bind at 1 in Hrun'.
    inv_bind Hrun' blk st1 He.
    destruct (blk =? NULL) eqn:Hblk.
    { apply ret_inv in Hrun' as [-> _]. contradiction. }
    apply Z.eqb_neq in Hblk.
    destruct (extend_heap_nonnull_inv _ _ _ _ _ He Hblk) as (pg & rest & Hos & Hpl & _).
    destruct (malloc_miss_sound st hs n pg rest Hs Hn Hfind Hos Hpl)
      as (st2 & Hrun2 & Hs2 & Hfl & Hsz & Hkeep).
    rewrite Hrun in Hrun2. apply some_pair_inv in Hrun2 as [-> <-].
    replace (pg * PAGE_SIZE + BLOCK_SIZE - BLOCK_SIZE) with (pg * PAGE_SIZE) by lia.
    exists (pg * PAGE_SIZE :: hs). split; [exact Hs2|].
    split; [intros a Ha; apply list_elem_of_further, Ha|].
    split; [apply list_elem_of_here|]. split; [exact Hfl|]. split; [exact Hsz|].
    intros a Ha Hfa. destruct (Hkeep a Ha) as (K0 & K1 & K2 & K3).
    split; [exact K0|]. split; [exact K1|]. split; [congruence | exact K3].
  - (* a hit *)
    cbn [fst] in Hr, Hrnz. rewrite <- Hr in Hfind.
    unfold fits in Hfits. cbn [fst snd] in Hfits.
    apply andb_true_iff in Hfits as [Hf Hfit].
    apply negb_true_iff, Z.eqb_neq in Hf. apply Z.leb_le in Hfit.
    destruct (malloc_hit_sound st hs l1 r s f l2 n Hs Hlist
                ltac:(unfold PAGE_SIZE in *; lia) Hbefore Hf Hfit)
      as (st2 & hs2 & Hrun2 & Hs2 & Hsub & Hrin & _ & Hfl & Hsz & Hkeep).
    rewrite Hrun in Hrun2. apply some_pair_inv in Hrun2 as [-> <-].
    replace (r + BLOCK_SIZE - BLOCK_SIZE) with r by lia.
    exists hs2. split; [exact Hs2|]. split; [exact Hsub|]. split; [exact Hrin|].
    split; [exact Hfl|]. split; [exact Hsz|].
    intros a Ha Hfa.
    pose proof (listed_block _ _ _ _ _ _ Hlist) as (_ & _ & Hrf & _).
    assert (Hne : a <> r) by (intros ->; congruence).
    destruct (Hkeep a Ha Hne) as (K1 & K2 & K3).
    split; [exact Hne|]. split; [exact K1|]. split; [congruence | exact K3].
Qed.

End MallocSound.

Section ReallocSound.

Implicit Types (st : state) (hs : list Z) (l : list (Z * Z * Z)) (bs : gmap Z Z).

(** Writing into the payload of a block of a sound heap. *)
Lemma payload_store_sound st hs b (bs' : gmap Z Z) :
  sound_blocks st hs -> b ∈ hs ->
  (forall x, x < b + BLOCK_SIZE
             \/ b + BLOCK_SIZE + word_at 8 (b + off_size) (bytes st) <= x ->
             byte_at bs' x = byte_at (bytes st) x) ->
  sound_blocks (set_bytes bs' st) hs
  /\ (forall a o k, a ∈ hs -> 0 <= o -> o + Z.of_nat k <= BLOCK_SIZE ->
        word_at k (a + o) bs' = word_at k (a + o) (bytes st)).
Proof.
  intros Hs Hb Hout.
  destruct (sound_frame st (set_bytes bs' st) hs Hs eq_refl eq_refl) as (H1 & H2 & _).
  - intros a i Ha Hi. cbn [bytes set_bytes]. apply Hout.
    pose proof (sound_header_apart st hs a b Hs Ha Hb). lia.
  - split; [exact H1 | exact H2].
Qed.

(** Resizing within the block, on a sound heap: the result is the same
    pointer, and the payload up to the new size is not written. *)
Lemma realloc_in_place_sound st hs b m :
  sound_blocks st hs -> b ∈ hs ->
  word_at 4 (b + off_free) (bytes st) = 0 ->
  0 < m <= 2 ^ 64 - 64 ->
  align_size m <= word_at 8 (b + off_size) (bytes st) ->
  exists st',
    allocator_realloc (b + BLOCK_SIZE) m st = Some (b + BLOCK_SIZE, st')
    /\ pages st' = pages st
    /\ forall i, 0 <= i < align_size m ->
         byte_at (bytes st') (b + BLOCK_SIZE + i) = byte_at (bytes st) (b + BLOCK_SIZE + i).
Proof.
  intros Hs Hb Hfree Hm Hfit.
  destruct (align_size_small m Hm) as [Ham Hnowrap].
  set (am := align_size m) in *.
  set (s0 := word_at 8 (b + off_size) (bytes st)) in *.
  pose proof (sound_linked _ _ Hs) as Hl.
  pose proof (sound_range st hs b Hs Hb) as (Hlo & Hs0 & Hhi). fold s0 in Hs0, Hhi.
  pose proof Hs as (_ & Hmp & _ & Hn & _).
  destruct (Hmp b Hb) as [_ Hmap]. fold s0 in Hmap.
  assert (Hsub : forall o k, 0 <= o -> o + k <= BLOCK_SIZE + s0 ->
                             range_mapped st (b + o) k).
  { intros o k Ho Hk. eapply range_mapped_sub; [exact Hmap | lia | lia]. }
  unfold allocator_realloc.
  replace (get_block (b + BLOCK_SIZE)) with b by (unfold get_block; lia).
  replace (b + BLOCK_SIZE =? NULL) with false
    by (symmetry; apply Z.eqb_neq; unfold PAGE_SIZE, BLOCK_SIZE, NULL in *; lia).
  replace (m =? 0) with false by (symmetry; apply Z.eqb_neq; lia).
  rewrite (bind_eq _ _ _ _ _ (valid_block_in_use st b
             ltac:(apply Hsub; offsets; lia) Hfree)).
  unfold get_size.
  rewrite (bind_eq _ _ _ _ _
             (load_le_eq 8 st (b + off_size) ltac:(apply Hsub; offsets; lia))).
  fold am s0.
  replace (am <=? s0) with true by (symmetry; apply Z.leb_le; exact Hfit).
  rewrite (wrap_small (am + BLOCK_SIZE + ALIGNMENT))
    by (unfold BLOCK_SIZE, ALIGNMENT in *; lia).
  destruct (am + BLOCK_SIZE + ALIGNMENT <? s0) eqn:Hsplit.
  - apply Z.ltb_lt in Hsplit.
    set (bn := word_at 8 (b + off_next) (bytes st)).
    assert (Hbn : bn = NULL \/ bn ∈ hs) by apply (Hn b Hb).
    assert (Hwbn : wrap bn = bn).
    { apply wrap_small. destruct Hbn as [->|Hbn]; [unfold NULL; lia|].
      pose proof (sound_range st hs bn Hs Hbn). unfold PAGE_SIZE, BLOCK_SIZE in *. lia. }
    assert (Hnew : forall o k, 0 <= o -> o + k <= BLOCK_SIZE ->
                     range_mapped st (b + BLOCK_SIZE + am + o) k).
    { intros o k Ho Hk.
      replace (b + BLOCK_SIZE + am + o) with (b + (BLOCK_SIZE + am + o)) by lia.
      apply Hsub; unfold BLOCK_SIZE, ALIGNMENT in *; lia. }
    pose proof (split_block_eq st b am ltac:(lia)) as He. cbv zeta in He.
    fold s0 bn in He. rewrite Hwbn in He.
    rewrite (bind_eq _ _ _ _ _
               (He ltac:(apply Hsub; offsets; lia) ltac:(apply Hsub; offsets; lia)
                   ltac:(apply Hnew; offsets; lia) ltac:(apply Hnew; offsets; lia)
                   ltac:(apply Hnew; offsets; lia) ltac:(apply Hnew; offsets; lia)
                   ltac:(intros Hnz; destruct Hbn as [Hz|Hbn]; [contradiction|];
                         destruct Hl as (Hlm & _);
                         apply (range_mapped_sub st bn BLOCK_SIZE);
                         [apply Hlm, Hbn | offsets; lia..]))).
    eexists. split; [reflexivity|]. split; [reflexivity|].
    intros i Hi. cbn [bytes set_bytes]. apply split_store_byte.
    + unfold BLOCK_SIZE. lia.
    + lia.
    + rewrite Hwbn. destruct Hbn as [Hz|Hbn]; [left; exact Hz|]. right.
      pose proof (sound_header_apart st hs bn b Hs Hbn Hb) as Hd. fold s0 in Hd.
      offsets. lia.
  - exists st. split; [reflexivity|]. split; reflexivity.
Qed.

(** Resizing beyond the block, on a sound heap: the call returns; it
    returns [NULL] only when the allocation inside it failed, and the new
    block holds the old payload. *)
Lemma realloc_moves_sound st hs b m :
  sound_blocks st hs -> b ∈ hs ->
  word_at 4 (b + off_free) (bytes st) = 0 ->
  0 < m <= 2 ^ 64 - 2 * PAGE_SIZE ->
  word_at 8 (b + off_size) (bytes st) < align_size m ->
  exists q st',
    allocator_realloc (b + BLOCK_SIZE) m st = Some (q, st')
    /\ (q = NULL -> exists st'', allocator_malloc (align_size m) st = Some (NULL, st''))
    /\ (q <> NULL ->
        forall i, 0 <= i < word_at 8 (b + off_size) (bytes st) ->
          mapped st' (q + i) = true
          /\ byte_at (bytes st') (q + i)
             = byte_at (bytes st) (b + BLOCK_SIZE + i) mod 256).
Proof.
  intros Hs Hb Hfree Hm Hgrow.
  pose proof (align_size_bounds m ltac:(unfold PAGE_SIZE in *; lia)) as [Ham Ham16].
  set (am := align_size m) in *.
  set (s0 := word_at 8 (b + off_size) (bytes st)) in *.
  assert (Hamr : 0 < am <= 2 ^ 64 - 2 * PAGE_SIZE) by (unfold PAGE_SIZE in *; dlia).
  pose proof (sound_range st hs b Hs Hb) as (Hlo & Hs0 & Hhi). fold s0 in Hs0, Hhi.
  pose proof Hs as (_ & Hmp & _).
  destruct (Hmp b Hb) as [_ Hmap]. fold s0 in Hmap.
  assert (Hsub : forall o k, 0 <= o -> o + k <= BLOCK_SIZE + s0 ->
                             range_mapped st (b + o) k).
  { intros o k Ho Hk. eapply range_mapped_sub; [exact Hmap | lia | lia]. }
  destruct (malloc_total st am (sound_mapped_heap _ _ Hs) Hamr)
    as (q & st1 & Hmalloc & _).
  assert (Hstart : allocator_realloc (b + BLOCK_SIZE) m st
            = (if q =? NULL then ret NULL
               else let* bs' := get_size b in
                    memcpy q (b + BLOCK_SIZE) bs' ;;
                    allocator_free (b + BLOCK_SIZE) ;; ret q) st1).
  { unfold allocator_realloc.
    replace (get_block (b + BLOCK_SIZE)) with b by (unfold get_block; lia).
    replace (b + BLOCK_SIZE =? NULL) with false
      by (symmetry; apply Z.eqb_neq; unfold PAGE_SIZE, BLOCK_SIZE, NULL in *; lia).
    replace (m =? 0) with false by (symmetry; apply Z.eqb_neq; lia).
    rewrite (bind_eq _ _ _ _ _ (valid_block_in_use st b
               ltac:(apply Hsub; offsets; lia) Hfree)).
    unfold get_size at 1.
    rewrite (bind_eq _ _ _ _ _
               (load_le_eq 8 st (b + off_size) ltac:(apply Hsub; offsets; lia))).
    fold am s0.
    replace (am <=? s0) with false by (symmetry; apply Z.leb_gt; exact Hgrow).
    rewrite (bind_eq _ _ _ _ _ Hmalloc). reflexivity. }
  rewrite Hstart. clear Hstart.
  destruct (q =? NULL) eqn:Hq.
  { apply Z.eqb_eq in Hq. subst q. exists NULL, st1.
    split; [reflexivity|]. split; [intros _; exists st1; exact Hmalloc|].
    intros Hc. exfalso. apply Hc. reflexivity. }
  apply Z.eqb_neq in Hq.
  destruct (malloc_sound st hs am q st1 Hs Hamr Hmalloc Hq)
    as (hs1 & Hs1 & Hsub1 & Hqin & Hqf & Hqs & Hkeep).
  rewrite (align_size_idem am) in Hqs by (unfold PAGE_SIZE in *; lia).
  destruct (Hkeep b Hb Hfree) as (Hne & Hbs1 & Hbf1 & Hbytes1). fold s0 in Hbs1, Hbytes1.
  set (qb := q - BLOCK_SIZE) in *.
  set (sq := word_at 8 (qb + off_size) (bytes st1)) in *.
  assert (Hb1 : b ∈ hs1) by (apply Hsub1, Hb).
  pose proof (sound_linked _ _ Hs1) as Hl1.
  pose proof Hs1 as (_ & Hmp1 & Hap1 & _).
  destruct (Hmp1 b Hb1) as [_ Hbmap1]. rewrite Hbs1 in Hbmap1.
  destruct (Hmp1 qb Hqin) as [_ Hqmap1]. fold sq in Hqmap1.
  assert (Hapart : b + BLOCK_SIZE + s0 <= qb \/ qb + BLOCK_SIZE + sq <= b).
  { specialize (Hap1 b qb Hb1 Hqin Hne). rewrite Hbs1 in Hap1. exact Hap1. }
  (* the copy *)
  assert (Hget : get_size b st1 = Some (s0, st1)).
  { unfold get_size. rewrite <- Hbs1.
    apply (linked_load st1 hs1); [exact Hl1 | exact Hb1 | offsets; lia..]. }
  set (k := Z.to_nat s0).
  set (st2 := set_bytes (copy k q (b + BLOCK_SIZE) (bytes st1)) st1).
  assert (Hcopy : memcpy q (b + BLOCK_SIZE) s0 st1 = Some (tt, st2)).
  { unfold memcpy. fold k. apply memcpy_loop_eq; unfold k; rewrite Z2Nat.id by lia.
    - apply (range_mapped_sub st1 b _ _ _ Hbmap1); unfold BLOCK_SIZE; lia.
    - apply (range_mapped_sub st1 qb _ _ _ Hqmap1); unfold qb, BLOCK_SIZE; lia. }
  assert (Hdisj : q + Z.of_nat k <= b + BLOCK_SIZE \/ b + BLOCK_SIZE + Z.of_nat k <= q).
  { unfold k. rewrite Z2Nat.id by lia. unfold qb in *. unfold BLOCK_SIZE in *. lia. }
  destruct (payload_store_sound st1 hs1 qb (copy k q (b + BLOCK_SIZE) (bytes st1))
              Hs1 Hqin) as (Hs2 & Hw2).
  { intros x Hx. rewrite (byte_at_copy _ _ _ _ _ Hdisj).
    destruct (decide (q <= x < q + Z.of_nat k)) as [Hin|_]; [|reflexivity].
    exfalso. unfold k in Hin. rewrite Z2Nat.id in Hin by lia.
    fold sq in Hx. unfold qb in *. lia. }
  fold st2 in Hs2.
  (* the release *)
  assert (Hbf2 : word_at 4 (b + off_free) (bytes st2) = 0).
  { unfold st2. cbn [bytes set_bytes].
    rewrite (Hw2 b off_free 4%nat) by (auto; offsets; lia). exact Hbf1. }
  destruct (free_linked st2 hs1 b (sound_linked _ _ Hs2) Hb1 Hbf2)
    as (st3 & Hfree3 & _ & Hpg3 & _ & _ & Hout3).
  exists q, st3. split.
  { replace (q =? NULL) with false by (symmetry; apply Z.eqb_neq; exact Hq).
    rewrite (bind_eq _ _ _ _ _ Hget). rewrite (bind_eq _ _ _ _ _ Hcopy).
    rewrite (bind_eq _ _ _ _ _ Hfree3). reflexivity. }
  split; [intros Hc; contradiction|].
  intros _ i Hi. split.
  - assert (Hm1 : mapped st1 (q + i) = true).
    { replace (q + i) with (qb + (BLOCK_SIZE + i)) by (unfold qb; lia).
      apply Hqmap1. unfold BLOCK_SIZE. lia. }
    unfold mapped in *. rewrite Hpg3. exact Hm1.
  - rewrite Hout3.
    + unfold st2. cbn [bytes set_bytes]. rewrite (byte_at_copy _ _ _ _ _ Hdisj).
      destruct (decide (q <= q + i < q + Z.of_nat k)) as [_|Hc].
      * replace (b + BLOCK_SIZE + (q + i - q)) with (b + BLOCK_SIZE + i) by lia.
        rewrite Hbytes1 by exact Hi. reflexivity.
      * exfalso. apply Hc. unfold k. rewrite Z2Nat.id by lia. lia.
    + intros a Ha.
      pose proof (sound_header_apart st1 hs1 a qb Hs1 Ha Hqin) as Hd.
      fold sq in Hd. unfold qb in *. lia.
Qed.

End ReallocSound.

Lemma sound_heap_fresh answers : sound_heap (fresh answers).
Proof.
  exists []. split; [|split; [|split; [|split]]].
  - exists []. split; [reflexivity|]. intros x Hx. inversion Hx.
  - intros a Ha. inversion Ha.
  - intros a1 a2 Ha. inversion Ha.
  - intros a Ha. inversion Ha.
  - intros a Ha. inversion Ha.
Qed.

(** [allocator_malloc] keeps a heap sound, whatever it returns. *)
Lemma malloc_keeps_heap_sound st n p st' :
  sound_heap st -> 0 < n <= 2 ^ 64 - 2 * PAGE_SIZE ->
  allocator_malloc n st = Some (p, st') -> sound_heap st'.
Proof.
  intros (hs & Hs) Hn Hrun. destruct (Z.eq_dec p NULL) as [->|Hp].
  - pose proof (malloc_null_frame _ _ _ Hrun) as (Hpg & Hb & Hf).
    exists hs. apply (sound_frame st st' hs Hs Hpg Hf).
    intros a i _ _. rewrite Hb. reflexivity.
  - destruct (malloc_sound st hs n p st' Hs Hn Hrun Hp) as (hs' & Hs' & _).
    exists hs'. exact Hs'.
Qed.

Example two_mappings_sound : sound_heap two_mappings_state.
Proof.
  assert (H1 : allocator_malloc 16 (fresh [Some 16; Some 32; Some 48])
               = Some (65568, State {[16]} (fresh_header 65536 4096 NULL ∅) 65536
                                    [Some 32; Some 48]))
    by (vm_compute; reflexivity).
  pose proof (malloc_keeps_heap_sound _ 16 _ _ (sound_heap_fresh _)
                ltac:(unfold PAGE_SIZE; lia) H1) as Hs1.
  assert (H2 : allocator_malloc 16 (State {[16]} (fresh_header 65536 4096 NULL ∅) 65536
                                          [Some 32; Some 48])
               = Some (131104, two_mappings_state))
    by (vm_compute; reflexivity).
  exact (malloc_keeps_heap_sound _ 16 _ _ Hs1 ltac:(unfold PAGE_SIZE; lia) H2).
Qed.

Section RegionSound.

Implicit Types (st : state) (l : list (Z * Z * Z)).

Lemma head_addr_listed l : head_addr l = NULL \/ head_addr l ∈ map (fun x => x.1.1) l.
Proof.
  destruct l as [|x l]; [left; reflexivity|]. right. cbn [head_addr map].
  apply list_elem_of_here.
Qed.

Lemma last_addr_listed l : last_addr NULL l = NULL \/ last_addr NULL l ∈ map (fun x => x.1.1) l.
Proof.
  induction l as [|x l IH] using rev_ind; [left; reflexivity|]. right.
  rewrite last_addr_snoc, map_app. apply elem_of_app. right. apply list_elem_of_here.
Qed.

(** A heap that is one run of blocks is a heap of blocks that do not
    overlap. *)
Lemma region_sound st l : region_heap st l -> sound_heap st.
Proof.
  intros Hreg. exists (map (fun x => x.1.1) l).
  assert (Hall : forall a, a ∈ map (fun x => x.1.1) l ->
            exists l1 s f l2, l = l1 ++ (a, s, f) :: l2).
  { intros a Ha. apply list_elem_of_fmap in Ha as ([[a' s] f] & -> & Hx).
    apply list_elem_of_split in Hx as (l1 & l2 & ->). exists l1, s, f, l2. reflexivity. }
  split; [|split; [|split; [|split]]].
  - exists l. split; [apply Hreg|]. intros x Hx.
    apply list_elem_of_fmap. exists x. split; [reflexivity | exact Hx].
  - intros a Ha. destruct (Hall a Ha) as (l1 & s & f & l2 & ->).
    pose proof (region_split _ _ _ _ _ _ Hreg)
      as (_ & _ & Hbs & _ & _ & _ & _ & _ & _ & _ & _ & (Hs & Hbrange) & _).
    rewrite Hbs. split; assumption.
  - intros a1 a2 H1 H2 Hne. destruct (Hall a1 H1) as (l1 & s1 & f1 & l2 & ->).
    pose proof (region_split _ _ _ _ _ _ Hreg)
      as (_ & _ & Hbs & _ & _ & _ & _ & _ & _ & Hbelow & Habove & _).
    rewrite Hbs. rewrite Forall_forall in Hbelow, Habove.
    apply list_elem_of_fmap in H2 as (y & -> & Hy).
    pose proof (region_block st _ y.1.1 y.1.2 y.2 Hreg) as Hyb.
    destruct y as [[a2 s2] f2]. cbn [fst snd] in *.
    destruct (Hyb Hy) as (_ & _ & _ & Hys & _). rewrite Hys.
    apply elem_of_app in Hy as [Hy|Hy].
    + right. exact (Hbelow _ Hy).
    + apply elem_of_cons in Hy as [Hy|Hy]; [congruence|].
      left. exact (Habove _ Hy).
  - intros a Ha. destruct (Hall a Ha) as (l1 & s & f & l2 & ->).
    pose proof (region_split _ _ _ _ _ _ Hreg)
      as (_ & _ & _ & _ & Hbn & _).
    rewrite Hbn. destruct (head_addr_listed l2) as [Hz|Hin]; [left; exact Hz|].
    right. rewrite map_app. apply elem_of_app. right.
    cbn [map]. apply list_elem_of_further, Hin.
  - intros a Ha. destruct (Hall a Ha) as (l1 & s & f & l2 & ->).
    pose proof (region_split _ _ _ _ _ _ Hreg)
      as (_ & _ & _ & _ & _ & Hbp & _).
    rewrite Hbp. destruct (last_addr_listed l1) as [Hz|Hin]; [left; exact Hz|].
    right. rewrite map_app. apply elem_of_app. left. exact Hin.
Qed.

End RegionSound.

(** * The claims *)

(** ** C1: what [extend_heap] writes and where it links *)

(** C1, as stated, fails twice.  The size recorded in the new header is the
    length of the mapping less the header, not the requested size:
    [extend_heap NULL 16] records 4064.  And [allocator_malloc] passes the
    list head, not the last block, as [last]: with blocks at 65536 and 131072
    in the list, a third miss links the new block (196608) behind the head
    65536 and drops 131072 from the list. *)
Lemma extend_heap_size_and_position_differ :
  (st ← after (extend_heap NULL 16 (fresh [Some 16]));
   Some (result (extend_heap NULL 16 (fresh [Some 16])), peek (get_size 65536) st))
  = Some (Some 65536, Some 4064)
  /\ (let answers := [Some 16; Some 32; Some 48] in
      st2 ← after ((allocator_malloc 16 ;; allocator_malloc 16) (fresh answers));
      st3 ← after (allocator_malloc 16 st2);
      Some (block_list st2, free_list st3, block_list st3,
            peek (get_prev 196608) st3, peek (get_next 131072) st3))
     = Some (Some [(65536, 4064, 0); (131072, 4064, 0)], 65536,
             Some [(65536, 4064, 0); (196608, 4064, 0)],
             Some 65536, Some NULL).
Proof. split; vm_compute; reflexivity. Qed.

(** C1 (amended).  For every call [extend_heap last size] that returns a block
    [b], where [last] is [NULL] or a header that was accessible before the
    call: the header at [b] records the block as in use ([free = 0]) with
    size [mapping_length size - BLOCK_SIZE], the page-rounded length of the
    mapping less the header, which is at least [size] when the rounding does
    not wrap; [b]'s [next] is [NULL] and its [prev] is [last]; [last]'s
    [next] is [b]; and when [last] is [NULL] the list head becomes [b]. *)
Theorem extend_heap_formats_and_links st last size b st' :
  0 <= last < 2 ^ 64 ->
  last = NULL \/ range_mapped st (last + off_next) 8 ->
  extend_heap last size st = Some (b, st') -> b <> NULL ->
  peek (get_size b) st' = Some (wrap (mapping_length size - BLOCK_SIZE))
  /\ peek (get_free b) st' = Some 0
  /\ peek (get_next b) st' = Some NULL
  /\ peek (get_prev b) st' = Some last
  /\ (last = NULL -> free_list st' = b)
  /\ (last <> NULL ->
      peek (get_next last) st' = Some b /\ free_list st' = free_list st)
  /\ (0 <= size -> size + BLOCK_SIZE + PAGE_SIZE - 1 < 2 ^ 64 ->
      size <= wrap (mapping_length size - BLOCK_SIZE)
      /\ wrap (mapping_length size - BLOCK_SIZE) + BLOCK_SIZE
         = (size + BLOCK_SIZE + PAGE_SIZE - 1) / PAGE_SIZE * PAGE_SIZE).
Proof.
  intros Hlast_range Hlast H Hb.
  destruct (extend_heap_nonnull_inv _ _ _ _ _ H Hb) as (pg & rest & Hos & Hp & ->).
  rewrite (extend_heap_success st last size pg rest Hos Hp Hlast) in H.
  apply some_pair_inv in H as [_ Hst']. symmetry in Hst'.
  pose proof (placeable_inv _ _ _ Hp) as (Hlen & Hpg & Htop & _).
  set (b := pg * PAGE_SIZE) in *.
  set (st0 := State _ _ _ rest) in *.
  assert (Hcount : 1 <= page_count (mapping_length size))
    by (unfold page_count, PAGE_SIZE; dlia).
  assert (Hpages : pages st' = pages st0)
    by (subst st'; destruct (last =? NULL); reflexivity).
  assert (Hhdr : forall o k, 0 <= o -> o + k <= 32 -> range_mapped st' (b + o) k).
  { intros o k Ho Hk. apply (range_mapped_pages st0); [symmetry; exact Hpages|].
    apply range_mapped_new; [exact Hp | lia |]. unfold b, PAGE_SIZE in *. lia. }
  assert (Hbrange : 0 <= b < 2 ^ 64) by (unfold b, PAGE_SIZE in *; lia).
  (* the store into [last] misses the new header *)
  assert (Hapart : (last =? NULL) = false ->
                   last + off_next + 8 <= b \/ b + 32 <= last + off_next).
  { intros Hl. destruct Hlast as [->|Hm]; [discriminate|].
    destruct (range_not_new st pg (mapping_length size) _ 8 Hp ltac:(lia) Hm) as [Hlo|Hhi].
    - left. exact Hlo.
    - right. unfold b, PAGE_SIZE in *. lia. }
  assert (Hbytes : forall k o,
            0 <= o -> o + Z.of_nat k <= 32 ->
            word_at k (b + o) (bytes st')
            = word_at k (b + o) (fresh_header b (mapping_length size) last (bytes st))).
  { intros k o Ho Hk. subst st'. destruct (last =? NULL) eqn:Hl; [reflexivity|].
    cbn [bytes set_bytes]. specialize (Hapart eq_refl).
    apply word_at_write_le_disj. lia. }
  repeat split.
  - unfold get_size. rewrite peek_load_le by (apply Hhdr; offsets; lia).
    rewrite Hbytes by (offsets; lia). unfold fresh_header. mem_simpl.
    rewrite pow256_8. f_equal. apply Z.mod_small, wrap_range.
  - unfold get_free. rewrite peek_load_le by (apply Hhdr; offsets; lia).
    rewrite Hbytes by (offsets; lia). unfold fresh_header. mem_simpl. reflexivity.
  - unfold get_next. rewrite peek_load_le by (apply Hhdr; offsets; lia).
    rewrite Hbytes by (offsets; lia). unfold fresh_header. mem_simpl. reflexivity.
  - unfold get_prev. rewrite peek_load_le by (apply Hhdr; offsets; lia).
    rewrite Hbytes by (offsets; lia). unfold fresh_header. mem_simpl.
    rewrite pow256_8. f_equal. apply Z.mod_small. lia.
  - intros ->. subst st'. reflexivity.
  - subst st'. replace (last =? NULL) with false by (symmetry; apply Z.eqb_neq; assumption).
    destruct Hlast as [->|Hm]; [congruence|].
    unfold get_next. rewrite peek_load_le
      by (apply range_mapped_set_bytes, range_mapped_old, Hm).
    cbn [bytes set_bytes]. mem_simpl. rewrite pow256_8. f_equal.
    apply Z.mod_small. exact Hbrange.
  - subst st'. replace (last =? NULL) with false by (symmetry; apply Z.eqb_neq; assumption).
    reflexivity.
  - pose proof (mapping_length_bounds size H H0) as [Hb1 Hb2].
    rewrite wrap_small; unfold BLOCK_SIZE, PAGE_SIZE in *; lia.
  - pose proof (mapping_length_bounds size H H0) as [Hb1 Hb2].
    rewrite wrap_small by (unfold BLOCK_SIZE, PAGE_SIZE in *; lia).
    rewrite mapping_length_eq by assumption. lia.
Qed.

Lemma extend_heap_formats_and_links_witness :
  (0 <= NULL < 2 ^ 64
   /\ (NULL = NULL \/ range_mapped (fresh [Some 16]) (NULL + off_next) 8)
   /\ extend_heap NULL 16 (fresh [Some 16])
      = Some (65536, set_free_list 65536
                       (set_bytes (fresh_header 65536 4096 NULL ∅)
                                  (State {[16]} ∅ NULL [])))
   /\ 65536 <> NULL)
  /\ peek (get_size 65536)
          (set_free_list 65536
             (set_bytes (fresh_header 65536 4096 NULL ∅) (State {[16]} ∅ NULL [])))
     = Some (wrap (mapping_length 16 - BLOCK_SIZE)).
Proof.
  assert (H1 : 0 <= NULL < 2 ^ 64) by (unfold NULL; lia).
  assert (H2 : NULL = NULL \/ range_mapped (fresh [Some 16]) (NULL + off_next) 8)
    by (left; reflexivity).
  assert (H3 : extend_heap NULL 16 (fresh [Some 16])
               = Some (65536, set_free_list 65536
                                (set_bytes (fresh_header 65536 4096 NULL ∅)
                                           (State {[16]} ∅ NULL []))))
    by (vm_compute; reflexivity).
  assert (H4 : 65536 <> NULL) by discriminate.
  split; [auto|].
  exact (proj1 (extend_heap_formats_and_links _ _ _ _ _ H1 H2 H3 H4)).
Defined.

(** The bound on [size] in the last part of the theorem is needed: a request
    of [2^64 - 16] bytes wraps to a mapping of one page, and the header then
    records 4064 bytes. *)
Example extend_heap_wrapped_request :
  (st ← after (extend_heap NULL (2 ^ 64 - 16) (fresh [Some 16]));
   Some (result (extend_heap NULL (2 ^ 64 - 16) (fresh [Some 16])),
         peek (get_size 65536) st))
  = Some (Some 65536, Some 4064).
Proof. vm_compute; reflexivity. Qed.

(** ** C2: address order *)

(** C2, as stated, fails as soon as the heap is extended twice: the second
    mapping lies wherever the kernel put it.  With the first mapping at page
    32 and the second at page 16, the list after two allocations runs from
    131072 down to 65536, and 65536 is not 131072 + 32 + 4064. *)
Lemma extended_heap_is_not_address_ordered :
  let l := after ((allocator_malloc 16 ;; allocator_malloc 16)
                    (fresh [Some 32; Some 16])) ≫= block_list in
  l = Some [(131072, 4064, 0); (65536, 4064, 0)]
  /\ address_ordered <$> l = Some false
  /\ contiguous <$> l = Some false.
Proof. repeat split; vm_compute; reflexivity. Qed.

(** The two operations that relink blocks inside the list keep it in order
    whatever else is in memory: if the blocks reachable from the list head
    are in ascending address order and each ends where its successor starts
    ([ordered_heap]), this still holds when [allocator_malloc] returns a
    block found by the search, and when [allocator_realloc] returns after
    resizing a block of the list within its current size. *)
Lemma relinking_keeps_address_order st :
  ordered_heap st ->
  (forall size b p st',
     0 < size <= 2 ^ 64 - 64 ->
     find_block (align_size size) st = Some (b, st) -> b <> NULL ->
     allocator_malloc size st = Some (p, st') ->
     p = b + BLOCK_SIZE /\ ordered_heap st')
  /\ (forall ptr m q st' l s0 f,
        0 < m <= 2 ^ 64 - 64 ->
        block_list st = Some l -> (get_block ptr, s0, f) ∈ l ->
        align_size m <= s0 ->
        allocator_realloc ptr m st = Some (q, st') ->
        ordered_heap st').
Proof.
  intros (l & Hlist & Hcont & Hord & Hsizes). split.
  - (* allocate, served by a free block *)
    intros size b p st' Hsize Hfind Hb H.
    destruct (align_size_small size Hsize) as [Ham Hnowrap].
    pose proof (block_list_elim _ _ Hlist) as [Hseg _].
    unfold find_block, bind, get_free_list in Hfind.
    destruct (find_block_loop_lseg _ _ _ _ _ _ _ Hfind Hseg Hb)
      as (l1 & s & f & l2 & -> & Hf & Hfit).
    assert (Hfind' : find_block (align_size size) st = Some (b, st)) by exact Hfind.
    unfold allocator_malloc in H.
    replace (size =? 0) with false in H by (symmetry; apply Z.eqb_neq; lia).
    rewrite (bind_eq _ _ _ _ _ Hfind') in H.
    replace (b =? NULL) with false in H by (symmetry; apply Z.eqb_neq; exact Hb).
    inv_bind H u1 st1 Hput. destruct u1.
    pose proof (put_free_block_list st l1 b s f l2 0 st1 Hlist Hcont
                  (sizes_nonneg _ Hsizes) ltac:(lia) Hput) as Hlist1.
    assert (Hcont1 : contiguous (l1 ++ (b, s, 0) :: l2) = true)
      by (rewrite (contiguous_set_flag l1 b s 0 f l2); exact Hcont).
    assert (Hsizes1 : Forall (fun x => 0 <= x.1.2 < 2 ^ 64) (l1 ++ (b, s, 0) :: l2)).
    { apply Forall_app in Hsizes as [Hs1 Hs2]. inversion Hs2; subst.
      apply Forall_app. split; [exact Hs1|]. constructor; assumption. }
    pose proof (block_list_elim _ _ Hlist1) as [Hseg1 _].
    apply lseg_split in Hseg1 as (b' & _ & Hseg1).
    apply lseg_cons_inv in Hseg1 as (_ & Htriple & _).
    assert (Hsz : word_at 8 (b + off_size) (bytes st1) = s) by congruence.
    clear Htriple.
    unfold get_size in H. inv_bind H bs t2 H2.
    apply load_le_inv in H2 as (-> & -> & _). rewrite Hsz in H.
    rewrite (wrap_small (align_size size + BLOCK_SIZE + ALIGNMENT)) in H
      by (unfold BLOCK_SIZE, ALIGNMENT in *; lia).
    inv_bind H u3 st3 Hsplit. destruct u3. apply ret_inv in H as [-> ->].
    split; [reflexivity|].
    destruct (align_size size + BLOCK_SIZE + ALIGNMENT <? s) eqn:Hcut.
    + apply Z.ltb_lt in Hcut.
      apply (split_block_ordered st1 st3 l1 b s 0 l2 (align_size size));
        [assumption.. | lia | unfold ALIGNMENT in *; lia | exact Hsplit].
    + apply ret_inv in Hsplit as [_ ->].
      eexists. split; [exact Hlist1|]. split; [exact Hcont1|].
      split; [apply contiguous_ordered; [exact Hcont1 | apply sizes_nonneg, Hsizes1]|].
      exact Hsizes1.
  - (* resize, kept in place *)
    intros ptr m q st' l0 s0 f Hm Hlist0 Hin Hfit H.
    assert (l0 = l) by congruence. subst l0.
    destruct (align_size_small m Hm) as [Ham Hnowrap].
    apply list_elem_of_split in Hin as (l1 & l2 & ->).
    pose proof (block_list_elim _ _ Hlist) as [Hseg Hmapped].
    apply lseg_split in Hseg as (b' & _ & Hseg).
    apply lseg_cons_inv in Hseg as (Hbnz & Htriple & _).
    assert (Hsz : word_at 8 (get_block ptr + off_size) (bytes st) = s0) by congruence.
    clear Htriple.
    assert (Hsame : ordered_heap st).
    { exists (l1 ++ (get_block ptr, s0, f) :: l2). repeat split; assumption. }
    unfold allocator_realloc in H.
    destruct (ptr =? NULL) eqn:Hptr.
    { (* [get_block NULL] is not an address of memory *)
      exfalso. apply Z.eqb_eq in Hptr. subst ptr.
      rewrite Forall_forall in Hmapped.
      pose proof (Hmapped _ ltac:(apply elem_of_app; right; apply list_elem_of_here))
        as Hm0.
      apply header_mapped_addr, mapped_range in Hm0. cbn [fst] in Hm0.
      unfold get_block, NULL, BLOCK_SIZE, PAGE_SIZE in Hm0. lia. }
    replace (m =? 0) with false in H by (symmetry; apply Z.eqb_neq; lia).
    inv_bind H ok t1 Hvalid. apply valid_block_inv in Hvalid as (-> & _ & _).
    destruct ok.
    + unfold get_size in H. inv_bind H bs t2 H2.
      apply load_le_inv in H2 as (-> & -> & _). rewrite Hsz in H.
      replace (align_size m <=? s0) with true in H
        by (symmetry; apply Z.leb_le; exact Hfit).
      rewrite (wrap_small (align_size m + BLOCK_SIZE + ALIGNMENT)) in H
        by (unfold BLOCK_SIZE, ALIGNMENT in *; lia).
      inv_bind H u3 st3 Hsplit. destruct u3. apply ret_inv in H as [_ ->].
      destruct (align_size m + BLOCK_SIZE + ALIGNMENT <? s0) eqn:Hcut.
      * apply Z.ltb_lt in Hcut.
        apply (split_block_ordered st st3 l1 (get_block ptr) s0 f l2 (align_size m));
          [assumption.. | lia | unfold ALIGNMENT in *; lia | exact Hsplit].
      * apply ret_inv in Hsplit as [_ ->]. exact Hsame.
    + apply ret_inv in H as [_ ->]. exact Hsame.
Qed.

(** C2 (amended).  Call the heap in order when the blocks of the list lie
    back to back in mapped memory, each [prev] link on the predecessor
    ([region_heap]); the list is then in ascending address order, and every
    block with a successor ends where the successor starts.  The empty heap
    is in order.  From a heap in order, the heap is in order again whenever
    a public operation returns, provided the call did not map new memory
    while the list had blocks: [allocator_malloc] (served by the list, refused
    by the kernel, or on the empty list), [allocator_free] and
    [allocator_realloc] of [NULL] or of a block of the list (resized in
    place, or moved to a block of the list and released),
    [allocator_calloc], [allocator_destroy] and [allocator_init], for every
    request that is a [size_t] value. *)
Theorem address_order_kept_without_extension st l :
  region_heap st l ->
  (forall n p st',
     0 <= n < 2 ^ 64 ->
     allocator_malloc n st = Some (p, st') ->
     l = [] \/ pages st' = pages st ->
     heap_in_order st')
  /\ (forall ptr st',
        listed l ptr ->
        allocator_free ptr st = Some (tt, st') ->
        heap_in_order st')
  /\ (forall ptr m q st',
        listed l ptr -> 0 <= m < 2 ^ 64 ->
        allocator_realloc ptr m st = Some (q, st') ->
        l = [] \/ pages st' = pages st ->
        heap_in_order st')
  /\ (forall c s p st',
        allocator_calloc c s st = Some (p, st') ->
        l = [] \/ pages st' = pages st ->
        heap_in_order st')
  /\ (forall st', allocator_destroy st = Some (tt, st') -> heap_in_order st')
  /\ (forall r st', allocator_init st = Some (r, st') -> heap_in_order st').
Proof.
  intros Hreg. split; [|split; [|split; [|split; [|split]]]].
  - intros n p st' Hn Hrun Hquiet.
    destruct (malloc_region st l n p st' Hreg Hn Hrun Hquiet)
      as [[_ H]|(_ & l1 & s & l2 & H & _)]; exact (region_in_order _ _ H).
  - intros ptr st' Hptr Hrun.
    destruct (free_listed_region st l ptr st' Hreg Hptr Hrun) as (l' & H).
    exact (region_in_order _ _ H).
  - intros ptr m q st' Hptr Hm Hrun Hquiet.
    destruct (realloc_listed_region st l ptr m q st' Hreg Hptr Hm Hrun Hquiet)
      as (l' & H).
    exact (region_in_order _ _ H).
  - intros c s p st' Hrun Hquiet.
    destruct (calloc_region st l c s p st' Hreg Hrun Hquiet) as (l' & H).
    exact (region_in_order _ _ H).
  - intros st' Hrun. exact (region_in_order _ _ (destroy_region _ _ Hrun)).
  - intros r st' Hrun. apply ret_inv in Hrun as [_ ->].
    exact (region_in_order _ _ Hreg).
Qed.

Lemma address_order_kept_without_extension_witness :
  (region_heap three_block_state [(65536, 16, 0); (65584, 2000, 0); (67616, 1984, 1)]
   /\ listed [(65536, 16, 0); (65584, 2000, 0); (67616, 1984, 1)] 65616
   /\ allocator_free 65616 three_block_state
      = Some (tt, freed_state))
  /\ heap_in_order (freed_state).
Proof.
  assert (H0 : region_heap three_block_state
                 [(65536, 16, 0); (65584, 2000, 0); (67616, 1984, 1)])
    by (apply region_in_page_16; vm_compute; reflexivity).
  assert (H1 : listed [(65536, 16, 0); (65584, 2000, 0); (67616, 1984, 1)] 65616).
  { right. exists 2000, 0. apply list_elem_of_further, list_elem_of_here. }
  assert (H2 : allocator_free 65616 three_block_state
               = Some (tt, freed_state)) by (vm_compute; reflexivity).
  split; [split; [exact H0 | split; [exact H1 | exact H2]]|].
  exact (proj1 (proj2 (address_order_kept_without_extension _ _ H0)) _ _ H1 H2).
Defined.

(** The allocator starts in order. *)
Lemma fresh_heap_in_order answers : heap_in_order (fresh answers).
Proof. apply (region_in_order _ []), region_empty. reflexivity. Qed.

(** ** C3: adjacent free blocks *)

(** C3 fails on the shrinking path of [allocator_realloc].  On a fresh
    allocator, [p = allocator_malloc 2000] takes a 4064-byte block;
    [allocator_realloc p 1000] splits off a free remainder of 3024 bytes;
    [allocator_realloc p 16] splits again and puts a free block of 960 bytes
    in front of that remainder.  [split_block] never coalesces, so the call
    returns with two neighbouring free blocks in the list. *)
Theorem shrinking_twice_leaves_adjacent_free_blocks :
  let calls :=
    let* p := allocator_malloc 2000 in
    allocator_realloc p 1000 ;; allocator_realloc p 16 in
  (after (calls (fresh [Some 16])) ≫= block_list)
  = Some [(65536, 16, 0); (65584, 960, 1); (66576, 3024, 1)]
  /\ no_adjacent_free <$> (after (calls (fresh [Some 16])) ≫= block_list)
     = Some false.
Proof. split; vm_compute; reflexivity. Qed.

(** The second half of C3 does hold where the list is intact: with the blocks
    65536 (16 bytes) and 65584 (2000 bytes) in use in front of a free
    remainder, releasing the two in either order leaves the single free block
    of 4064 bytes. *)
Example coalescing_in_either_order :
  let setup :=
    let* a := allocator_malloc 16 in
    allocator_free a ;;
    let* a := allocator_malloc 16 in
    let* r := allocator_malloc 2000 in ret (a, r) in
  (block_list <$> after (setup (fresh [Some 16])))
  = Some (Some [(65536, 16, 0); (65584, 2000, 0); (67616, 1984, 1)])
  /\ (after ((let* ar := setup in
               allocator_free ar.1 ;; allocator_free ar.2) (fresh [Some 16]))
         ≫= block_list) = Some [(65536, 4064, 1)]
  /\ (after ((let* ar := setup in
               allocator_free ar.2 ;; allocator_free ar.1) (fresh [Some 16]))
         ≫= block_list) = Some [(65536, 4064, 1)].
Proof. repeat split; vm_compute; reflexivity. Qed.

(** ** C4: resizing keeps the data *)

(** C4 (amended).  Take a heap whose blocks lie in mapped memory without
    overlapping and whose [next] and [prev] links lead to such blocks again
    ([sound_heap]: the fresh allocator, every heap that is one run of
    blocks, and every heap [allocator_malloc] makes of one).  For requests
    [n] and [m] between 1 and [2^64 - 2 * PAGE_SIZE]: after
    [p = allocator_malloc n] has returned a block and the caller has written
    the [n] bytes [B] to it, [allocator_realloc p m] returns; it returns
    [NULL] only when it needed a new block and the internal
    [allocator_malloc] failed; and when it returns a block [q], the first
    [min n m] bytes of [q] are the first [min n m] bytes of [B]. *)
Theorem realloc_preserves_prefix st0 n m B p st1 :
  sound_heap st0 ->
  0 < n <= 2 ^ 64 - 2 * PAGE_SIZE ->
  0 < m <= 2 ^ 64 - 2 * PAGE_SIZE ->
  Z.of_nat (length B) = n ->
  Forall (fun b => 0 <= b < 256) B ->
  allocator_malloc n st0 = Some (p, st1) -> p <> NULL ->
  exists st2 q st3,
    write_bytes p B st1 = Some (tt, st2)
    /\ allocator_realloc p m st2 = Some (q, st3)
    /\ (q = NULL ->
        exists st', allocator_malloc (align_size m) st2 = Some (NULL, st'))
    /\ (q <> NULL ->
        let k := Z.to_nat (Z.min n m) in
        peek (read_bytes k q) st3 = Some (take k B)).
Proof.
  intros (hs & Hs) Hn Hm Hlen Hbytes Hmalloc Hp.
  destruct (malloc_sound st0 hs n p st1 Hs Hn Hmalloc Hp)
    as (hs1 & Hs1 & _ & Hbin & Hbf & Hbs & _).
  pose proof (align_size_bounds n ltac:(unfold PAGE_SIZE in *; lia)) as [Han _].
  pose proof (align_size_bounds m ltac:(unfold PAGE_SIZE in *; lia)) as [Ham _].
  set (b := p - BLOCK_SIZE) in *.
  assert (Hpb : p = b + BLOCK_SIZE) by (unfold b; lia).
  set (s0 := word_at 8 (b + off_size) (bytes st1)) in *.
  pose proof Hs1 as (_ & Hmp1 & _).
  destruct (Hmp1 b Hbin) as [_ Hmap1]. fold s0 in Hmap1.
  (* the caller fills the block *)
  set (st2 := set_bytes (write_list p B (bytes st1)) st1).
  assert (Hwrite : write_bytes p B st1 = Some (tt, st2)).
  { apply write_bytes_eq. rewrite Hlen, Hpb.
    apply (range_mapped_sub st1 b _ _ _ Hmap1); unfold BLOCK_SIZE; lia. }
  destruct (payload_store_sound st1 hs1 b (write_list p B (bytes st1)) Hs1 Hbin)
    as (Hs2 & Hw2).
  { intros x Hx. apply byte_at_write_list_out. fold s0 in Hx. lia. }
  fold st2 in Hs2.
  assert (Hbf2 : word_at 4 (b + off_free) (bytes st2) = 0).
  { unfold st2. cbn [bytes set_bytes].
    rewrite (Hw2 b off_free 4%nat) by (auto; offsets; lia). exact Hbf. }
  assert (Hbs2 : word_at 8 (b + off_size) (bytes st2) = s0).
  { unfold st2. cbn [bytes set_bytes].
    apply (Hw2 b off_size 8%nat); auto; offsets; lia. }
  assert (Hpat : forall i v, B !! i = Some v ->
                   byte_at (bytes st2) (p + Z.of_nat i) = v).
  { intros i v Hi. unfold st2. cbn [bytes set_bytes].
    rewrite (byte_at_write_list_in _ _ _ _ _ Hi).
    apply Z.mod_small. rewrite Forall_lookup in Hbytes. exact (Hbytes i v Hi). }
  set (k := Z.to_nat (Z.min n m)).
  assert (Hk : (k <= length B)%nat) by lia.
  assert (Hread : forall q st3,
            (forall i, 0 <= i < Z.min n m ->
               mapped st3 (q + i) = true
               /\ byte_at (bytes st3) (q + i) = byte_at (bytes st2) (p + i)) ->
            peek (read_bytes k q) st3 = Some (take k B)).
  { intros q st3 Hq. unfold peek, result.
    replace k with (length (take k B)) at 1 by (rewrite length_take; lia).
    rewrite read_bytes_eq; [reflexivity|].
    intros i v Hi. apply lookup_take_Some in Hi as [Hi Hlt].
    destruct (Hq (Z.of_nat i) ltac:(lia)) as [Hmapped Hbyte].
    split; [exact Hmapped|]. rewrite Hbyte. apply Hpat, Hi. }
  exists st2.
  destruct (Z_le_dec (align_size m) s0) as [Hfit|Hgrow].
  - (* the block is large enough *)
    destruct (realloc_in_place_sound st2 hs1 b m Hs2 Hbin Hbf2
                ltac:(unfold PAGE_SIZE in *; lia) ltac:(rewrite Hbs2; exact Hfit))
      as (st3 & Hre & Hpages & Hkeep).
    rewrite <- Hpb in Hre, Hkeep.
    exists p, st3.
    split; [exact Hwrite|]. split; [exact Hre|]. split; [intros Hq; contradiction|].
    intros _. apply Hread. intros i Hi. split.
    + assert (Hm1 : mapped st1 (p + i) = true).
      { rewrite Hpb. replace (b + BLOCK_SIZE + i) with (b + (BLOCK_SIZE + i)) by lia.
        apply Hmap1. unfold BLOCK_SIZE. lia. }
      unfold mapped in *. rewrite Hpages. exact Hm1.
    + apply Hkeep. lia.
  - (* the block is too small: allocate, copy, release *)
    destruct (realloc_moves_sound st2 hs1 b m Hs2 Hbin Hbf2 Hm
                ltac:(rewrite Hbs2; lia))
      as (q & st3 & Hre & Hnull & Hmoved).
    rewrite <- Hpb in Hre. rewrite Hbs2 in Hmoved.
    exists q, st3.
    split; [exact Hwrite|]. split; [exact Hre|]. split; [exact Hnull|].
    intros Hq. apply Hread. intros i Hi.
    destruct (Hmoved Hq i ltac:(lia)) as [Hmapped Hbyte].
    split; [exact Hmapped|]. rewrite Hbyte, <- Hpb.
    apply Z.mod_small.
    destruct (B !! Z.to_nat i) as [v|] eqn:Hv.
    + pose proof (Hpat _ _ Hv) as Hval. rewrite Z2Nat.id in Hval by lia.
      rewrite Hval. rewrite Forall_lookup in Hbytes. exact (Hbytes _ _ Hv).
    + apply lookup_ge_None in Hv. lia.
Qed.

Lemma realloc_preserves_prefix_witness :
  (sound_heap (fresh [Some 16; Some 32])
   /\ 0 < 32 <= 2 ^ 64 - 2 * PAGE_SIZE
   /\ 0 < 128 <= 2 ^ 64 - 2 * PAGE_SIZE
   /\ Z.of_nat (length (replicate 32 171)) = 32
   /\ Forall (fun b => 0 <= b < 256) (replicate 32 171)
   /\ allocator_malloc 32 (fresh [Some 16; Some 32]) = Some (65568, thirty_two_state)
   /\ 65568 <> NULL)
  /\ exists st2 q st3,
       write_bytes 65568 (replicate 32 171) thirty_two_state = Some (tt, st2)
       /\ allocator_realloc 65568 128 st2 = Some (q, st3)
       /\ (q <> NULL ->
           peek (read_bytes 32 q) st3 = Some (replicate 32 171)).
Proof.
  assert (H0 : sound_heap (fresh [Some 16; Some 32])) by apply sound_heap_fresh.
  assert (H1 : 0 < 32 <= 2 ^ 64 - 2 * PAGE_SIZE) by (unfold PAGE_SIZE; lia).
  assert (H2 : 0 < 128 <= 2 ^ 64 - 2 * PAGE_SIZE) by (unfold PAGE_SIZE; lia).
  assert (H3 : Z.of_nat (length (replicate 32 171)) = 32) by reflexivity.
  assert (H4 : Forall (fun b => 0 <= b < 256) (replicate 32 171))
    by (apply Forall_replicate; lia).
  assert (H5 : allocator_malloc 32 (fresh [Some 16; Some 32])
               = Some (65568, thirty_two_state)) by (vm_compute; reflexivity).
  assert (H6 : 65568 <> NULL) by discriminate.
  split; [repeat (split; [assumption|]); assumption|].
  destruct (realloc_preserves_prefix _ _ 128 _ _ _ H0 H1 H2 H3 H4 H5 H6)
    as (st2 & q & st3 & Hw & Hr & _ & Hq).
  exists st2, q, st3. split; [exact Hw|]. split; [exact Hr|]. exact Hq.
Defined.

(** The two pairs of the unit tests, run: growing 32 to 128 and shrinking 128
    to 32 both return the same pointer and keep the first 32 bytes. *)
Example realloc_test_pairs :
  result ((let* p := allocator_malloc 32 in
           write_bytes p (replicate 32 171) ;;
           let* q := allocator_realloc p 128 in
           let* l := read_bytes 32 q in ret (q, l)) (fresh [Some 16]))
  = Some (65568, replicate 32 171)
  /\ result ((let* p := allocator_malloc 128 in
              write_bytes p (replicate 128 205) ;;
              let* q := allocator_realloc p 32 in
              let* l := read_bytes 32 q in ret (q, l)) (fresh [Some 16]))
     = Some (65568, replicate 32 205).
Proof. split; vm_compute; reflexivity. Qed.

(** The same on a heap of two mappings with a free block in the first: the
    block of 100 bytes is cut from the free block, and growing it to 4500
    bytes moves it to a third mapping; the pattern arrives there. *)
Example realloc_moves_across_mappings :
  result ((let* a := allocator_malloc 2000 in
           allocator_malloc 4064 ;;
           allocator_free a ;;
           let* p := allocator_malloc 100 in
           write_bytes p (replicate 100 205) ;;
           let* q := allocator_realloc p 4500 in
           let* l := read_bytes 100 q in
           ret (p, q, bool_decide (l = replicate 100 205)))
            (fresh [Some 16; Some 32; Some 48]))
  = Some (65568, 196640, true).
Proof. vm_compute; reflexivity. Qed.

(** C4, as stated, fails when the block shrinks, for [m = 0], and on a heap
    that [merge_blocks] has damaged.  With [n = 128] and [m = 32] the block is
    split 32 bytes into the payload and the header of the free remainder is
    written over bytes 32 to 63 of the pattern: byte 32 reads 160 (the low
    byte of the remainder's size 4000), not 205.  With [m = 0] the block is
    released and the result is [NULL].  And after two blocks of 4064 bytes
    from two mappings (pages 16 and 32) have been released, [merge_blocks]
    has joined them into one block of 8160 bytes that runs past the end of
    its mapping: [allocator_malloc 100] returns a block at its start, and
    [allocator_realloc] of that block to 4500 bytes splits the remainder at
    an address that is not mapped; the call does not return. *)
Lemma shrinking_realloc_overwrites_the_tail :
  result ((let* p := allocator_malloc 128 in
           write_bytes p (replicate 128 205) ;;
           let* q := allocator_realloc p 32 in
           let* l := read_bytes 128 q in
           ret (q, take 32 l, l !! 32%nat, bool_decide (l = replicate 128 205)))
            (fresh [Some 16]))
  = Some (65568, replicate 32 205, Some 160, false)
  /\ result ((let* p := allocator_malloc 128 in
              write_bytes p (replicate 128 205) ;;
              allocator_realloc p 0) (fresh [Some 16]))
     = Some NULL
  /\ block_list merged_mappings_state = Some [(65536, 8160, 1)]
  /\ result ((let* p := allocator_malloc 100 in
              write_bytes p (replicate 100 205) ;; ret p) merged_mappings_state)
     = Some 65568
  /\ (let* p := allocator_malloc 100 in
      write_bytes p (replicate 100 205) ;;
      allocator_realloc p 4500) merged_mappings_state
     = None.
Proof. repeat split; vm_compute; reflexivity. Qed.

(** ** C5: a resize that cannot get memory *)

(** A request larger than the block needs a new block, unless it lies in the
    last fifteen values of [size_t], where [align_size] wraps to 0. *)
Lemma larger_request_needs_growth sz m :
  sz < m -> 0 <= m <= 2 ^ 64 - 16 -> sz < align_size m.
Proof. intros Hlt Hm. pose proof (align_size_bounds m Hm). lia. Qed.

(** C5. Let [ptr] be an in-use block of size [sz] and let the request [m]
    need more than the block holds ([sz < align_size m], the test
    [allocator_realloc] makes).  If the internal [allocator_malloc] of the
    new block fails, returning [NULL] and leaving state [st'], then
    [allocator_realloc] returns [NULL] with that same state, in which the
    mapped pages, every byte of memory and the list head are the old ones; in
    particular the block is still in use, still of size [sz], and every byte
    reads as before. *)
Theorem realloc_failure_keeps_block st ptr m sz st' :
  0 < m ->
  peek (get_free (get_block ptr)) st = Some 0 ->
  peek (get_size (get_block ptr)) st = Some sz ->
  sz < align_size m ->
  allocator_malloc (align_size m) st = Some (NULL, st') ->
  allocator_realloc ptr m st = Some (NULL, st')
  /\ (pages st' = pages st /\ bytes st' = bytes st
      /\ free_list st' = free_list st)
  /\ peek (get_free (get_block ptr)) st' = Some 0
  /\ peek (get_size (get_block ptr)) st' = Some sz
  /\ forall a, peek (load_byte a) st' = peek (load_byte a) st.
Proof.
  intros Hm Hfree Hsize Hgrow Hmalloc.
  pose proof (malloc_null_frame _ _ _ Hmalloc) as (Hp & Hb & Hfl).
  assert (Hsame : forall A (c : M A),
            (forall s1 s2, pages s1 = pages s2 -> bytes s1 = bytes s2 ->
                           peek c s1 = peek c s2) ->
            peek c st' = peek c st) by (intros A c Hc; apply Hc; assumption).
  assert (Hbyte : forall a s1 s2, pages s1 = pages s2 -> bytes s1 = bytes s2 ->
                    peek (load_byte a) s1 = peek (load_byte a) s2).
  { intros a s1 s2 H1 H2. unfold peek, result, load_byte, mapped.
    rewrite H1, H2. destruct (_ && _); reflexivity. }
  assert (Hword : forall k a s1 s2, pages s1 = pages s2 -> bytes s1 = bytes s2 ->
                    peek (load_le k a) s1 = peek (load_le k a) s2).
  { intros k a s1 s2 H1 H2. unfold peek, result.
    destruct (load_le k a s1) as [[v t]|] eqn:E1.
    - apply load_le_inv in E1 as (-> & -> & Hmap).
      rewrite (load_le_eq k s2 a)
        by (eapply range_mapped_pages; [exact H1 | exact Hmap]).
      rewrite H2. reflexivity.
    - destruct (load_le k a s2) as [[v t]|] eqn:E2; [|reflexivity].
      apply load_le_inv in E2 as (-> & -> & Hmap).
      rewrite (load_le_eq k s1 a) in E1
        by (eapply range_mapped_pages; [symmetry; exact H1 | exact Hmap]).
      discriminate. }
  split; [|split; [auto|]].
  - apply peek_load_le_inv in Hfree as [Hfree Hmap].
    apply peek_load_le_inv in Hsize as [Hsize _].
    pose proof (range_mapped_range _ _ _ 0 Hmap ltac:(lia)) as Hrange.
    unfold allocator_realloc.
    replace (ptr =? NULL) with false
      by (symmetry; apply Z.eqb_neq;
          unfold get_block, PAGE_SIZE, BLOCK_SIZE, NULL, off_free in *; lia).
    replace (m =? 0) with false by (symmetry; apply Z.eqb_neq; lia).
    assert (Hvalid : valid_block (get_block ptr) st = Some (true, st)).
    { unfold valid_block.
      replace (get_block ptr =? NULL) with false
        by (symmetry; apply Z.eqb_neq; unfold PAGE_SIZE, NULL, off_free in *; lia).
      unfold get_free in *. rewrite (bind_eq _ _ _ _ _ Hfree). reflexivity. }
    rewrite (bind_eq _ _ _ _ _ Hvalid).
    unfold get_size in *. rewrite (bind_eq _ _ _ _ _ Hsize).
    replace (align_size m <=? sz) with false by (symmetry; apply Z.leb_gt; lia).
    rewrite (bind_eq _ _ _ _ _ Hmalloc). reflexivity.
  - split; [|split].
    + rewrite <- Hfree. apply Hsame. intros; apply Hword; assumption.
    + rewrite <- Hsize. apply Hsame. intros; apply Hword; assumption.
    + intros a. apply Hsame. intros; apply Hbyte; assumption.
Qed.

Lemma realloc_failure_keeps_block_witness :
  (0 < 5000
   /\ peek (get_free (get_block 65568)) exhausted_state = Some 0
   /\ peek (get_size (get_block 65568)) exhausted_state = Some 4064
   /\ 4064 < align_size 5000
   /\ allocator_malloc (align_size 5000) exhausted_state
      = Some (NULL, exhausted_state))
  /\ allocator_realloc 65568 5000 exhausted_state = Some (NULL, exhausted_state).
Proof.
  assert (H1 : 0 < 5000) by lia.
  assert (H2 : peek (get_free (get_block 65568)) exhausted_state = Some 0)
    by (vm_compute; reflexivity).
  assert (H3 : peek (get_size (get_block 65568)) exhausted_state = Some 4064)
    by (vm_compute; reflexivity).
  assert (H4 : 4064 < align_size 5000) by (vm_compute; reflexivity).
  assert (H5 : allocator_malloc (align_size 5000) exhausted_state
               = Some (NULL, exhausted_state)) by (vm_compute; reflexivity).
  split; [auto|].
  exact (proj1 (realloc_failure_keeps_block exhausted_state 65568 5000 4064
                  exhausted_state H1 H2 H3 H4 H5)).
Defined.

(** ** C6: calls the allocator refuses *)

(** C6 (amended). [allocator_malloc 0] and [allocator_free NULL] do nothing,
    and so do [allocator_free] and [allocator_realloc] on a pointer whose
    header fails the in-use check, that is, whose [free] word reads non-zero:
    each returns [NULL] (or nothing) and hands back the very state it was
    given, so every block's size, flag, links and payload are unchanged. *)
Theorem refused_calls_change_nothing st :
  allocator_malloc 0 st = Some (NULL, st)
  /\ allocator_free NULL st = Some (tt, st)
  /\ forall ptr f,
       ptr <> NULL ->
       peek (get_free (get_block ptr)) st = Some f -> f <> 0 ->
       allocator_free ptr st = Some (tt, st)
       /\ forall size, allocator_realloc ptr size st = Some (NULL, st).
Proof.
  split; [reflexivity|]. split; [reflexivity|].
  intros ptr f Hptr Hf Hne.
  apply peek_load_le_inv in Hf as [Hf Hmap].
  pose proof (range_mapped_range _ _ _ 0 Hmap ltac:(lia)) as Hrange.
  assert (Hvalid : valid_block (get_block ptr) st = Some (false, st)).
  { unfold valid_block.
    replace (get_block ptr =? NULL) with false
      by (symmetry; apply Z.eqb_neq; unfold PAGE_SIZE, NULL, off_free in *; lia).
    unfold get_free in *. rewrite (bind_eq _ _ _ _ _ Hf).
    replace (f =? 0) with false by (symmetry; apply Z.eqb_neq; exact Hne).
    reflexivity. }
  assert (Hfree : allocator_free ptr st = Some (tt, st)).
  { unfold allocator_free.
    replace (ptr =? NULL) with false by (symmetry; apply Z.eqb_neq; exact Hptr).
    rewrite (bind_eq _ _ _ _ _ Hvalid). reflexivity. }
  split; [exact Hfree|].
  intros size. unfold allocator_realloc.
  replace (ptr =? NULL) with false by (symmetry; apply Z.eqb_neq; exact Hptr).
  destruct (size =? 0).
  - rewrite (bind_eq _ _ _ _ _ Hfree). reflexivity.
  - rewrite (bind_eq _ _ _ _ _ Hvalid). reflexivity.
Qed.

(** Releasing or resizing the already released pointer again is refused. *)
Lemma refused_calls_change_nothing_witness :
  (65568 <> NULL
   /\ peek (get_free (get_block 65568)) released_state = Some 1
   /\ 1 <> 0)
  /\ allocator_free 65568 released_state = Some (tt, released_state)
  /\ allocator_realloc 65568 128 released_state = Some (NULL, released_state).
Proof.
  assert (H1 : 65568 <> NULL) by discriminate.
  assert (H2 : peek (get_free (get_block 65568)) released_state = Some 1)
    by (vm_compute; reflexivity).
  assert (H3 : 1 <> 0) by discriminate.
  split; [auto|].
  destruct (refused_calls_change_nothing released_state) as (_ & _ & H).
  destruct (H 65568 1 H1 H2 H3) as [Hfree Hre].
  split; [exact Hfree | exact (Hre 128)].
Defined.

(** C6, as stated, fails for a pointer that was never handed out.  After
    [p = allocator_malloc 64] the only block is the one at [p - 32]; the
    pointer [p + 32] lies inside its payload.  The payload is still zero, so
    the four bytes that [get_block (p + 32)] takes for a [free] flag read 0,
    the in-use check passes, and [allocator_free] stores 1 into the payload
    of the live block. *)
Lemma release_of_interior_pointer_writes_payload :
  (st1 ← after (allocator_malloc 64 (fresh [Some 16]));
   st2 ← after (allocator_free (65568 + 32) st1);
   Some (result (allocator_malloc 64 (fresh [Some 16])),
         block_list st1,
         peek (load_byte (65568 + 8)) st1,
         peek (load_byte (65568 + 8)) st2))
  = Some (Some 65568, Some [(65536, 4064, 0)], Some 0, Some 1).
Proof. vm_compute. reflexivity. Qed.

(** ** C7: teardown *)

(** C7 fails for free blocks.  [allocator_destroy] calls [munmap] only on
    blocks whose [free] flag is 0: after [p = allocator_malloc 64;
    allocator_destroy], page 16 is gone, but after [p = allocator_malloc 64;
    allocator_free p; allocator_destroy] page 16 is still mapped while the
    list head is [NULL], so the mapping can no longer be reached. *)
Theorem destroy_leaves_free_blocks_mapped :
  (st ← after ((allocator_malloc 64 ;; allocator_destroy) (fresh [Some 16]));
   Some (elements (pages st), free_list st))
  = Some ([], NULL)
  /\ (st ← after ((let* p := allocator_malloc 64 in
                   allocator_free p ;; allocator_destroy) (fresh [Some 16]));
      Some (elements (pages st), free_list st, mapped st 65536))
     = Some ([16], NULL, true).
Proof. split; vm_compute; reflexivity. Qed.

(** Teardown also goes wrong when a block in use is followed by a block of
    the same page: [munmap] on the 48 bytes of the first block takes the whole
    page away, and the walk faults on the header of the second. *)
Example destroy_after_split_faults :
  block_list split_state = Some [(65536, 16, 0); (65584, 4016, 1)]
  /\ allocator_destroy split_state = None.
Proof. split; vm_compute; reflexivity. Qed.

(** ** C8: zeroed allocation *)

(** C8 (amended).  [allocator_calloc c s] computes [n = c * s] (modulo 2^64,
    which is [c * s] itself when the product fits) and passes [n] to
    [allocator_malloc]: a [NULL] from it is returned as it is; and when it
    returns a block with [n] accessible payload bytes, [allocator_calloc]
    returns that block with each of the [n] bytes reading zero and every
    other byte, the mapped pages and the list head as [allocator_malloc]
    left them.  [allocator_malloc] returns such a block, or [NULL], on every
    heap whose listed blocks lie in mapped memory, for [n] from 1 to
    [2^64 - 2 * PAGE_SIZE]; there the call returns. *)
Theorem calloc_returns_zeroed_block st c s :
  (0 <= c * s < 2 ^ 64 -> wrap (c * s) = c * s)
  /\ (forall st1, allocator_malloc (wrap (c * s)) st = Some (NULL, st1) ->
                  allocator_calloc c s st = Some (NULL, st1))
  /\ (forall p st1,
        allocator_malloc (wrap (c * s)) st = Some (p, st1) -> p <> NULL ->
        range_mapped st1 p (wrap (c * s)) ->
        exists st2,
          allocator_calloc c s st = Some (p, st2)
          /\ (forall i, 0 <= i < wrap (c * s) ->
                        peek (load_byte (p + i)) st2 = Some 0)
          /\ (forall a, a < p \/ p + wrap (c * s) <= a ->
                        peek (load_byte a) st2 = peek (load_byte a) st1)
          /\ pages st2 = pages st1 /\ free_list st2 = free_list st1)
  /\ (mapped_heap st -> 0 < wrap (c * s) <= 2 ^ 64 - 2 * PAGE_SIZE ->
      exists p st2,
        allocator_calloc c s st = Some (p, st2)
        /\ (p <> NULL ->
            forall i, 0 <= i < wrap (c * s) ->
                      peek (load_byte (p + i)) st2 = Some 0)).
Proof.
  split; [apply wrap_small|]. split; [|split].
  - intros st1 H. unfold allocator_calloc. rewrite (bind_eq _ _ _ _ _ H). reflexivity.
  - apply calloc_after_malloc.
  - apply calloc_total.
Qed.

(** [allocator_calloc 10 4] on a fresh allocator. *)
Lemma calloc_returns_zeroed_block_witness :
  (allocator_malloc (wrap (10 * 4)) (fresh [Some 16]) = Some (65568, forty_state)
   /\ 65568 <> NULL
   /\ range_mapped forty_state 65568 (wrap (10 * 4)))
  /\ exists st2,
       allocator_calloc 10 4 (fresh [Some 16]) = Some (65568, st2)
       /\ forall i, 0 <= i < 40 -> peek (load_byte (65568 + i)) st2 = Some 0.
Proof.
  assert (H1 : allocator_malloc (wrap (10 * 4)) (fresh [Some 16])
               = Some (65568, forty_state)) by (vm_compute; reflexivity).
  assert (H2 : 65568 <> NULL) by discriminate.
  assert (H3 : range_mapped forty_state 65568 (wrap (10 * 4))).
  { apply (range_mapped_in_page _ 16);
      [ apply (bool_decide_unpack _); vm_compute; exact I
      | lia | unfold PAGE_SIZE; lia | unfold PAGE_SIZE; lia
      | change (wrap (10 * 4)) with 40; unfold PAGE_SIZE; lia ]. }
  split; [auto|].
  destruct (calloc_returns_zeroed_block (fresh [Some 16]) 10 4) as (_ & _ & H & _).
  destruct (H 65568 forty_state H1 H2 H3) as (st2 & Hc & Hz & _).
  exists st2. split; [exact Hc | exact Hz].
Defined.

(** C8, as stated, fails for [c = 1], [s = 2^64 - 1]: the product does not
    overflow, [allocator_malloc] returns the non-null pointer 65568 to a block
    of 4064 bytes (the request was rounded to 0), and the zero fill of
    [2^64 - 1] bytes leaves the mapping: the call does not return. *)
Lemma calloc_of_size_max_does_not_return :
  1 * (2 ^ 64 - 1) < 2 ^ 64
  /\ result (allocator_malloc (wrap (1 * (2 ^ 64 - 1))) (fresh [Some 16]))
     = Some 65568
  /\ (after (allocator_malloc (wrap (1 * (2 ^ 64 - 1))) (fresh [Some 16]))
        ≫= block_list) = Some [(65536, 4064, 0)]
  /\ allocator_calloc 1 (2 ^ 64 - 1) (fresh [Some 16]) = None.
Proof.
  split; [lia|]. split; [vm_compute; reflexivity|].
  split; [vm_compute; reflexivity|].
  apply calloc_size_max_faults. reflexivity.
Qed.

(** ** C9: initialisation does nothing *)

(** C9. [allocator_init] returns 0 and leaves the state as it found it; calling
    it again changes nothing, and any computation behaves the same whether or
    not it is preceded by [allocator_init]: before the first allocation the
    list is empty ([free_list = NULL]) with or without it. *)
Theorem allocator_init_is_noop :
  (forall st, allocator_init st = Some (0, st))
  /\ (forall st, (allocator_init ;; allocator_init) st = allocator_init st)
  /\ (forall A (op : M A) st, (allocator_init ;; op) st = op st)
  /\ (forall answers,
        after (allocator_init (fresh answers)) ≫= block_list = Some []).
Proof.
  split; [reflexivity|]. split; [reflexivity|]. split; reflexivity.
Qed.

(** ** C10: overflow of the product *)

(** C10 (amended).  When [c * s] exceeds the range of [size_t],
    [allocator_calloc c s] works with [n = c * s mod 2^64], which is smaller
    than the product, and behaves exactly as a request for [n] bytes would:
    the same result and the same state as [allocator_calloc 1 n].  It returns
    [NULL] without touching the state when [n = 0]; a [NULL] from
    [allocator_malloc] is returned as it is; and when [allocator_malloc]
    returns a block with [n] accessible payload bytes, exactly these [n]
    bytes are set to zero.  That is the case, and the call returns, on every
    heap whose listed blocks lie in mapped memory when [n] is at most
    [2^64 - 2 * PAGE_SIZE].  No outcome distinguishes the overflow. *)
Theorem calloc_overflow_wraps st c s :
  0 <= c < 2 ^ 64 -> 0 <= s < 2 ^ 64 -> 2 ^ 64 <= c * s ->
  wrap (c * s) = c * s mod 2 ^ 64
  /\ wrap (c * s) < c * s
  /\ allocator_calloc c s st = allocator_calloc 1 (wrap (c * s)) st
  /\ (wrap (c * s) = 0 -> allocator_calloc c s st = Some (NULL, st))
  /\ (forall st1, allocator_malloc (wrap (c * s)) st = Some (NULL, st1) ->
                  allocator_calloc c s st = Some (NULL, st1))
  /\ (forall p st1,
        allocator_malloc (wrap (c * s)) st = Some (p, st1) -> p <> NULL ->
        range_mapped st1 p (wrap (c * s)) ->
        exists st2,
          allocator_calloc c s st = Some (p, st2)
          /\ (forall i, 0 <= i < wrap (c * s) ->
                        peek (load_byte (p + i)) st2 = Some 0)
          /\ (forall a, a < p \/ p + wrap (c * s) <= a ->
                        peek (load_byte a) st2 = peek (load_byte a) st1))
  /\ (mapped_heap st -> 0 < wrap (c * s) <= 2 ^ 64 - 2 * PAGE_SIZE ->
      exists p st2,
        allocator_calloc c s st = Some (p, st2)
        /\ (p <> NULL ->
            forall i, 0 <= i < wrap (c * s) ->
                      peek (load_byte (p + i)) st2 = Some 0)).
Proof.
  intros Hc Hs Hover. pose proof (wrap_range (c * s)) as Hn.
  split; [reflexivity|]. split; [lia|]. split; [|split; [|split; [|split]]].
  - unfold allocator_calloc. rewrite Z.mul_1_l, wrap_wrap. reflexivity.
  - intros H0. unfold allocator_calloc. rewrite H0. reflexivity.
  - intros st1 H. unfold allocator_calloc. rewrite (bind_eq _ _ _ _ _ H). reflexivity.
  - intros p st1 Hm Hp Hmap.
    destruct (calloc_after_malloc st c s p st1 Hm Hp Hmap) as (st2 & H1 & H2 & H3 & _).
    exists st2. repeat split; assumption.
  - apply calloc_total.
Qed.

(** [c = 2^63 + 8], [s = 2]: the product is [2^64 + 16] and the call behaves
    as [allocator_calloc 1 16]. *)
Lemma calloc_overflow_wraps_witness :
  (0 <= 2 ^ 63 + 8 < 2 ^ 64 /\ 0 <= 2 < 2 ^ 64 /\ 2 ^ 64 <= (2 ^ 63 + 8) * 2)
  /\ wrap ((2 ^ 63 + 8) * 2) = 16
  /\ allocator_calloc (2 ^ 63 + 8) 2 (fresh [Some 16])
     = allocator_calloc 1 16 (fresh [Some 16]).
Proof.
  assert (H1 : 0 <= 2 ^ 63 + 8 < 2 ^ 64) by lia.
  assert (H2 : 0 <= 2 < 2 ^ 64) by lia.
  assert (H3 : 2 ^ 64 <= (2 ^ 63 + 8) * 2) by lia.
  split; [auto|]. split; [reflexivity|].
  exact (proj1 (proj2 (proj2 (calloc_overflow_wraps (fresh [Some 16]) _ _ H1 H2 H3)))).
Defined.

(** C10, as stated, fails when the wrapped product falls in the last fifteen
    values of [size_t].  [31 * 1190112520884487201 = 2^65 - 1] wraps to
    [2^64 - 1]; [allocator_malloc] rounds that to 0 and returns a block of
    4064 bytes, and the zero fill of [2^64 - 1] bytes leaves the mapping. *)
Lemma calloc_overflow_to_size_max_does_not_return :
  2 ^ 64 <= 31 * 1190112520884487201
  /\ wrap (31 * 1190112520884487201) = 2 ^ 64 - 1
  /\ result (allocator_malloc (wrap (31 * 1190112520884487201)) (fresh [Some 16]))
     = Some 65568
  /\ allocator_calloc 31 1190112520884487201 (fresh [Some 16]) = None.
Proof.
  split; [lia|]. split; [reflexivity|]. split; [vm_compute; reflexivity|].
  apply calloc_size_max_faults. reflexivity.
Qed.
